(** * zyos: physical memory map, paging, ACPI walker and IDT set-up

    A shallow embedding of the memory-management core of the kernel
    (pmap.c, kmem.c, paging.c, acpi.c, interrupt.asm) together with the
    properties stated about it.

    Conventions.  A [uint64_t] is a [Z] in [[0, 2^64)]; every C operation
    that can wrap is written with [wrap64].  An array walked by a moving
    pointer is a [cursor]: the records below the pointer and the records
    from the pointer to the end.  A [while] loop is [while_loop], which
    runs a one-iteration step function until it reports that the loop
    condition failed, under a bound on the number of iterations. *)

From Stdlib Require Import ZArith List Lia Bool Permutation Sorted.
Import ListNotations.
Open Scope Z_scope.

(** ** Machine integers *)

Definition wrap64 (x : Z) : Z := x mod 2 ^ 64.
Definition wrap32 (x : Z) : Z := x mod 2 ^ 32.

(** ** Loops *)

(** [while_loop fuel step s] iterates [step] from [s].  [step] returns
    [None] when the loop condition is false; the loop then ends in the
    state it has reached.  [None] as the result of the loop means that
    [fuel] iterations were not enough. *)
Fixpoint while_loop {St : Type} (fuel : nat) (step : St -> option St) (s : St)
  : option St :=
  match fuel with
  | O => None
  | S fuel' =>
      match step s with
      | None => Some s
      | Some s' => while_loop fuel' step s'
      end
  end.

Module Pmap.

(** *** pmap.h *)

Definition PMEMTYPE_USABLE   : Z := 1.
Definition PMEMTYPE_RESERVED : Z := 2.
Definition PMEMTYPE_ACPI     : Z := 3.
Definition PMEMTYPE_ACPI_NVS : Z := 4.
Definition PMEMTYPE_BAD      : Z := 5.
Definition PMEMTYPE_UNCACHED : Z := 6.
Definition PMEMTYPE_UNMAPPED : Z := 7.

(** [struct pmapregion]: [addr] and [size] are [uint64_t], [type] is an
    [int32_t] holding a [pmemtype], [flags] a [uint32_t]. *)
Record pmapregion : Type := mkRegion {
  addr  : Z;
  size  : Z;
  type  : Z;
  flags : Z
}.

(** [struct pmap]: [count] is the length of [region]. *)
Record pmap : Type := mkPmap {
  last_usable : Z;
  region      : list pmapregion
}.

Definition count (m : pmap) : Z := Z.of_nat (length (region m)).

(** The array [map->region[0 .. count)] split at a moving pointer. *)
Record cursor : Type := mkCursor {
  below : list pmapregion;   (* region[0 .. curr) *)
  from  : list pmapregion    (* region[curr .. term) *)
}.

Definition cursor_at_start (l : list pmapregion) : cursor := mkCursor [] l.
Definition cursor_all (c : cursor) : list pmapregion := below c ++ from c.

Definition set_size (r : pmapregion) (s : Z) : pmapregion :=
  mkRegion (addr r) s (type r) (flags r).
Definition set_addr (r : pmapregion) (a : Z) : pmapregion :=
  mkRegion a (size r) (type r) (flags r).

(** *** pmap.c *)

Definition cmp_region (r1 r2 : pmapregion) : Z :=
  if addr r1 >? addr r2 then 1
  else if addr r1 <? addr r2 then -1
  else if size r1 >? size r2 then 1
  else if size r1 <? size r2 then -1
  else 0.

(** [resort(r, term)] on the records [r0 :: tl] from [r] to [term]: the
    first record is swapped to the right while it does not compare below
    its right neighbour. *)
Fixpoint resort_from (r0 : pmapregion) (tl : list pmapregion)
  : list pmapregion :=
  match tl with
  | [] => [r0]
  | r1 :: tl' =>
      if cmp_region r0 r1 <? 0 then r0 :: tl
      else r1 :: resort_from r0 tl'
  end.

Definition resort (l : list pmapregion) : list pmapregion :=
  match l with
  | [] => []
  | r0 :: tl => resort_from r0 tl
  end.

(** One iteration of the loop of [collapse_overlaps].  [collapse(r, term--)]
    removes the record at [r]; [insertafter(r, term++)] makes room for a
    record after [r]. *)
Definition collapse_overlaps_step (c : cursor) : option cursor :=
  match from c with
  | curr :: next :: rest =>
      if size curr =? 0 then
        Some (mkCursor (below c) (next :: rest))
      else
        let cl := addr curr in
        let cr := wrap64 (addr curr + size curr) in
        let nl := addr next in
        let nr := wrap64 (addr next + size next) in
        if Z.min cr nr <=? Z.max cl nl then
          Some (mkCursor (below c ++ [curr]) (next :: rest))
        else if cl =? nl then
          if cr =? nr then
            if type next >? type curr then
              Some (mkCursor (below c) (next :: rest))
            else
              Some (mkCursor (below c) (curr :: rest))
          else
            if type next >? type curr then
              Some (mkCursor (below c) (next :: rest))
            else
              let next' := set_addr (set_size next (wrap64 (nr - cr))) cr in
              Some (mkCursor (below c) (curr :: resort (next' :: rest)))
        else
          if cr =? nr then
            if type next >? type curr then
              Some (mkCursor (below c)
                      (set_size curr (wrap64 (nl - cl)) :: next :: rest))
            else
              Some (mkCursor (below c) (curr :: rest))
          else if cr <? nr then
            if type next >? type curr then
              Some (mkCursor (below c)
                      (set_size curr (wrap64 (nl - cl)) :: next :: rest))
            else
              let next' := set_addr (set_size next (wrap64 (nr - cr))) cr in
              Some (mkCursor (below c) (curr :: resort (next' :: rest)))
          else
            if type next >? type curr then
              let piece :=
                mkRegion nr (wrap64 (cr - nr)) (type curr) (flags curr) in
              Some (mkCursor (below c)
                      (set_size curr (wrap64 (nl - cl))
                         :: next :: resort (piece :: rest)))
            else
              Some (mkCursor (below c) (curr :: rest))
  | _ => None
  end.

Definition collapse_overlaps (fuel : nat) (l : list pmapregion)
  : option (list pmapregion) :=
  option_map cursor_all
    (while_loop fuel collapse_overlaps_step (cursor_at_start l)).

(** One iteration of the loop of [fill_gaps(type)]. *)
Definition fill_gaps_step (ty : Z) (c : cursor) : option cursor :=
  match from c with
  | curr :: next :: rest =>
      let cr := wrap64 (addr curr + size curr) in
      let nl := addr next in
      if cr =? nl then
        Some (mkCursor (below c ++ [curr]) (next :: rest))
      else if type curr =? ty then
        Some (mkCursor (below c)
                (set_size curr (wrap64 (size curr + wrap64 (nl - cr)))
                   :: next :: rest))
      else if type next =? ty then
        let next' :=
          set_addr (set_size next (wrap64 (size next + wrap64 (nl - cr)))) cr in
        Some (mkCursor (below c) (curr :: next' :: rest))
      else
        Some (mkCursor (below c)
                (curr :: mkRegion cr (wrap64 (nl - cr)) ty 0 :: next :: rest))
  | _ => None
  end.

Definition fill_gaps (fuel : nat) (ty : Z) (l : list pmapregion)
  : option (list pmapregion) :=
  option_map cursor_all
    (while_loop fuel (fill_gaps_step ty) (cursor_at_start l)).

(** One iteration of the loop of [consolidate_neighbors]. *)
Definition consolidate_neighbors_step (c : cursor) : option cursor :=
  match from c with
  | curr :: next :: rest =>
      if type curr =? type next then
        Some (mkCursor (below c)
                (set_size curr (wrap64 (size curr + size next)) :: rest))
      else
        Some (mkCursor (below c ++ [curr]) (next :: rest))
  | _ => None
  end.

Definition consolidate_neighbors (fuel : nat) (l : list pmapregion)
  : option (list pmapregion) :=
  option_map cursor_all
    (while_loop fuel consolidate_neighbors_step (cursor_at_start l)).

(** [update_last_usable]: the end of the last Usable record, 0 if there
    is none. *)
Definition update_last_usable (l : list pmapregion) : Z :=
  match find (fun r => type r =? PMEMTYPE_USABLE) (rev l) with
  | Some r => wrap64 (addr r + size r)
  | None => 0
  end.

(** Modelled from the spec: [qsort] (libc/stdlib) is absent from the
    sources; [normalize] calls it with [cmp_region], "sort by (addr,
    size)".  It is taken here as an insertion sort; the results below use
    only that its output is a permutation of its input ordered by
    [cmp_region]. *)
Fixpoint qsort_insert (r : pmapregion) (l : list pmapregion)
  : list pmapregion :=
  match l with
  | [] => [r]
  | x :: tl => if cmp_region r x <=? 0 then r :: l else x :: qsort_insert r tl
  end.

Fixpoint qsort (l : list pmapregion) : list pmapregion :=
  match l with
  | [] => []
  | r :: tl => qsort_insert r (qsort tl)
  end.

(** [normalize] after the call to [qsort]. *)
Definition normalize_sorted (fuel : nat) (l : list pmapregion) : option pmap :=
  match collapse_overlaps fuel l with
  | None => None
  | Some l1 =>
      match fill_gaps fuel PMEMTYPE_RESERVED l1 with
      | None => None
      | Some l2 =>
          match consolidate_neighbors fuel l2 with
          | None => None
          | Some l3 => Some (mkPmap (update_last_usable l3) l3)
          end
      end
  end.

Definition normalize (fuel : nat) (l : list pmapregion) : option pmap :=
  normalize_sorted fuel (qsort l).

(** *** Specification vocabulary *)

(** The end of a record as a mathematical integer (no wrap-around). *)
Definition rend (r : pmapregion) : Z := addr r + size r.

(** A record that is not empty and does not wrap around 2^64. *)
Definition wf_region (r : pmapregion) : Prop :=
  0 <= addr r /\ 0 < size r /\ rend r < 2 ^ 64.

Definition wf_regionb (r : pmapregion) : bool :=
  (0 <=? addr r) && (0 <? size r) && (rend r <? 2 ^ 64).

(** [p] is a physical byte of [r]. *)
Definition covers (r : pmapregion) (p : Z) : bool :=
  (addr r <=? p) && (p <? rend r).

Definition omax (a b : option Z) : option Z :=
  match a, b with
  | Some x, Some y => Some (Z.max x y)
  | Some x, None => Some x
  | None, _ => b
  end.

(** The highest type number among the records of [l] that cover [p]. *)
Fixpoint top_type (l : list pmapregion) (p : Z) : option Z :=
  match l with
  | [] => None
  | r :: tl =>
      if covers r p then omax (Some (type r)) (top_type tl p)
      else top_type tl p
  end.

(** The type the map gives to byte [p]: that of the first record that
    covers it. *)
Definition type_at (l : list pmapregion) (p : Z) : option Z :=
  option_map type (find (fun r => covers r p) l).

(** Adjacent records of the array, pairwise. *)
Fixpoint adjacent (R : pmapregion -> pmapregion -> Prop)
  (l : list pmapregion) : Prop :=
  match l with
  | a :: ((b :: _) as tl) => R a b /\ adjacent R tl
  | _ => True
  end.

Fixpoint adjacentb (R : pmapregion -> pmapregion -> bool)
  (l : list pmapregion) : bool :=
  match l with
  | a :: ((b :: _) as tl) => R a b && adjacentb R tl
  | _ => true
  end.

(** The largest end of a Usable record, 0 if there is none. *)
Fixpoint max_usable_end (l : list pmapregion) : Z :=
  match l with
  | [] => 0
  | r :: tl =>
      if type r =? PMEMTYPE_USABLE then Z.max (rend r) (max_usable_end tl)
      else max_usable_end tl
  end.

(** The four properties of a normalized map. *)
Definition normalized (m : pmap) : Prop :=
  adjacent (fun a b => addr a < addr b) (region m) /\
  adjacent (fun a b => rend a <= addr b) (region m) /\
  adjacent (fun a b => type a <> type b) (region m) /\
  last_usable m = max_usable_end (region m).

Definition normalizedb (m : pmap) : bool :=
  adjacentb (fun a b => addr a <? addr b) (region m) &&
  adjacentb (fun a b => rend a <=? addr b) (region m) &&
  adjacentb (fun a b => negb (type a =? type b)) (region m) &&
  (last_usable m =? max_usable_end (region m)).

End Pmap.

(** ** Physical memory and outcomes *)

(** Physical memory as 64-bit words, keyed by the byte address of the
    word.  Page-table code only touches 8-byte aligned addresses. *)
Definition memory : Type := Z -> Z.

Definition load (m : memory) (a : Z) : Z := m a.

Definition store (m : memory) (a v : Z) : memory :=
  fun x => if x =? a then v else m x.

(** [memzero(a, n)] *)
Definition memzero (m : memory) (a n : Z) : memory :=
  fun x => if (a <=? x) && (x <? a + n) then 0 else m x.

(** What a call can end in: a result and a new state; a call of
    [fatal()], with the state in which it was made; an access outside
    an array of the model; or too little fuel for a loop.  [Fatal] ends
    the run at the first call of [fatal]: that is the whole run for the
    code that [kmain] calls before [interrupts_init], and the run up to
    that call for the code called after it, where [fatal] returns (see
    [PagingIrq]). *)
Inductive outcome (St A : Type) : Type :=
| Ok (a : A) (s : St)
| Fatal (s : St)
| Wild (s : St)
| OutOfFuel.
Arguments Ok {St A} a s.
Arguments Fatal {St A} s.
Arguments Wild {St A} s.
Arguments OutOfFuel {St A}.

Definition is_Ok {St A : Type} (o : outcome St A) : bool :=
  match o with Ok _ _ => true | _ => false end.

Definition M (St A : Type) : Type := St -> outcome St A.

Definition ret {St A : Type} (a : A) : M St A := fun s => Ok a s.

Definition bind {St A B : Type} (m : M St A) (f : A -> M St B) : M St B :=
  fun s =>
    match m s with
    | Ok a s' => f a s'
    | Fatal s' => Fatal s'
    | Wild s' => Wild s'
    | OutOfFuel => OutOfFuel
    end.

Definition fatal {St A : Type} : M St A := fun s => Fatal s.
Definition wild {St A : Type} : M St A := fun s => Wild s.
Definition out_of_fuel {St A : Type} : M St A := fun _ => OutOfFuel.
Definition get {St : Type} : M St St := fun s => Ok s s.
Definition put {St : Type} (s : St) : M St unit := fun _ => Ok tt s.

Declare Scope monad_scope.
Delimit Scope monad_scope with monad.
Notation "x <- m ;; k" := (bind m (fun x => k))
  (at level 61, m at next level, right associativity) : monad_scope.
Notation "m ;;; k" := (bind m (fun _ => k))
  (at level 61, right associativity) : monad_scope.
Open Scope monad_scope.

(** [for (x in l) body(x)] *)
Fixpoint for_each {St A : Type} (l : list A) (body : A -> M St unit)
  : M St unit :=
  match l with
  | [] => ret tt
  | x :: tl => body x ;;; for_each tl body
  end.

(** The indices [0 .. n). *)
Definition indices (n : nat) : list Z := map Z.of_nat (seq 0 n).

(** ** paging.h *)

Module Paging_h.

Definition PAGE_SIZE       : Z := 0x1000.
Definition PAGE_SIZE_LARGE : Z := 0x200000.
Definition PAGE_SIZE_HUGE  : Z := 0x40000000.

Definition PF_PRESENT : Z := 1.
Definition PF_RW      : Z := 2.
Definition PF_USER    : Z := 4.
Definition PF_PWT     : Z := 8.
Definition PF_PCD     : Z := 16.
Definition PF_ACCESS  : Z := 32.
Definition PF_DIRTY   : Z := 64.
Definition PF_PS      : Z := 128.
Definition PF_GLOBAL  : Z := 256.
Definition PF_SYSTEM  : Z := 512.

Definition PGSHIFT_PML4E : Z := 39.
Definition PGSHIFT_PDPTE : Z := 30.
Definition PGSHIFT_PDE   : Z := 21.
Definition PGSHIFT_PTE   : Z := 12.
Definition PGMASK_ENTRY  : Z := 0x1ff.
Definition PGMASK_OFFSET : Z := 0x3ff.

Definition PML4E (a : Z) : Z := Z.land (Z.shiftr a PGSHIFT_PML4E) PGMASK_ENTRY.
Definition PDPTE (a : Z) : Z := Z.land (Z.shiftr a PGSHIFT_PDPTE) PGMASK_ENTRY.
Definition PDE   (a : Z) : Z := Z.land (Z.shiftr a PGSHIFT_PDE) PGMASK_ENTRY.
Definition PTE   (a : Z) : Z := Z.land (Z.shiftr a PGSHIFT_PTE) PGMASK_ENTRY.

(** [PGPTR(pte)]: [~PGMASK_OFFSET] is the [int] -1024, sign-extended to
    64 bits by the [&]. *)
Definition PGPTR (pte : Z) : Z := Z.land pte (Z.lnot PGMASK_OFFSET).

(** [f1 | f2 | ...] *)
Definition flags_of (l : list Z) : Z := fold_right Z.lor 0 l.

(** [page->entry[e]] *)
Definition entry (page e : Z) : Z := page + 8 * e.

Record pagetable_t : Type := mkPagetable {
  proot : Z;
  vroot : Z;
  vnext : Z;
  vterm : Z
}.

End Paging_h.

(** Modelled from the spec: kmem.h is absent from the sources; the values
    are those of the fixed physical layout of the specification and of
    the comments in kmem.c, acpi.c and pmap.c. *)
Module Kmem_h.
Definition KMEM_EXTENDED_BIOS         : Z := 0x9f800.
Definition KMEM_EXTENDED_BIOS_SIZE    : Z := 0x800.
Definition KMEM_VIDEO                 : Z := 0xa0000.
Definition KMEM_VIDEO_SIZE            : Z := 0x20000.
Definition KMEM_SYSTEM_ROM            : Z := 0xc0000.
Definition KMEM_SYSTEM_ROM_SIZE       : Z := 0x40000.
Definition KMEM_BOOT_PAGETABLE        : Z := 0x10000.
Definition KMEM_BOOT_PAGETABLE_LOADED : Z := 0x14000.
Definition KMEM_BOOT_PAGETABLE_END    : Z := 0x20000.
Definition KMEM_KERNEL_PAGETABLE      : Z := 0x20000.
Definition KMEM_KERNEL_PAGETABLE_SIZE : Z := 0x50000.
Definition KMEM_KERNEL_PAGETABLE_END  : Z := 0x70000.
Definition KMEM_KERNEL_IMAGE_END      : Z := 0xa00000.
End Kmem_h.

(** ** kmem.c *)

Module Kmem.
Import Pmap Paging_h Kmem_h.

(** The memory and the [pagetable_t] that [kmem_init] is given. *)
Record kstate : Type := mkKstate {
  kmem : memory;
  kpt  : pagetable_t
}.

Definition rd (a : Z) : M kstate Z := fun s => Ok (load (kmem s) a) s.
Definition wr (a v : Z) : M kstate unit :=
  fun s => Ok tt (mkKstate (store (kmem s) a v) (kpt s)).

Definition get_pdflags (memtype : Z) : M kstate Z :=
  if (memtype =? PMEMTYPE_ACPI_NVS) || (memtype =? PMEMTYPE_UNCACHED) then
    ret (flags_of [PF_PRESENT; PF_GLOBAL; PF_SYSTEM; PF_RW; PF_PS; PF_PWT; PF_PCD])
  else if (memtype =? PMEMTYPE_BAD) || (memtype =? PMEMTYPE_UNMAPPED) then
    ret 0
  else if (memtype =? PMEMTYPE_USABLE) || (memtype =? PMEMTYPE_RESERVED)
          || (memtype =? PMEMTYPE_ACPI) then
    ret (flags_of [PF_PRESENT; PF_GLOBAL; PF_SYSTEM; PF_RW; PF_PS])
  else fatal.

Definition get_ptflags (memtype : Z) : M kstate Z :=
  if (memtype =? PMEMTYPE_ACPI_NVS) || (memtype =? PMEMTYPE_UNCACHED) then
    ret (flags_of [PF_PRESENT; PF_GLOBAL; PF_SYSTEM; PF_RW; PF_PWT; PF_PCD])
  else if (memtype =? PMEMTYPE_BAD) || (memtype =? PMEMTYPE_UNMAPPED) then
    ret 0
  else if (memtype =? PMEMTYPE_USABLE) || (memtype =? PMEMTYPE_RESERVED)
          || (memtype =? PMEMTYPE_ACPI) then
    ret (flags_of [PF_PRESENT; PF_GLOBAL; PF_SYSTEM; PF_RW])
  else fatal.

Definition alloc_page : M kstate Z :=
  fun s =>
    let pt := kpt s in
    if vnext pt >=? vterm pt then Fatal s
    else
      let vaddr := vnext pt in
      Ok (Z.lor vaddr (flags_of [PF_SYSTEM; PF_PRESENT; PF_RW]))
         (mkKstate (kmem s)
            (mkPagetable (proot pt) (vroot pt)
               (wrap64 (vnext pt + PAGE_SIZE)) (vterm pt))).

(** [if (table->entry[e] == 0) table->entry[e] = alloc_page(pt);] followed
    by [PGPTR(table->entry[e])]. *)
Definition ensure_table (table e : Z) : M kstate Z :=
  v <- rd (entry table e) ;;
  (if v =? 0 then
     p <- alloc_page ;; wr (entry table e) p
   else ret tt) ;;;
  v' <- rd (entry table e) ;;
  ret (PGPTR v').

Definition get_proot : M kstate Z := fun s => Ok (proot (kpt s)) s.

Definition create_huge_page (addr memtype : Z) : M kstate unit :=
  pml4t <- get_proot ;;
  pdpt <- ensure_table pml4t (PML4E addr) ;;
  fl <- get_pdflags memtype ;;
  wr (entry pdpt (PDPTE addr)) (Z.lor addr fl).

Definition create_large_page (addr memtype : Z) : M kstate unit :=
  pml4t <- get_proot ;;
  pdpt <- ensure_table pml4t (PML4E addr) ;;
  pdt <- ensure_table pdpt (PDPTE addr) ;;
  fl <- get_pdflags memtype ;;
  wr (entry pdt (PDE addr)) (Z.lor addr fl).

Definition create_small_page (addr memtype : Z) : M kstate unit :=
  pml4t <- get_proot ;;
  pdpt <- ensure_table pml4t (PML4E addr) ;;
  pdt <- ensure_table pdpt (PDPTE addr) ;;
  ptt <- ensure_table pdt (PDE addr) ;;
  fl <- get_ptflags memtype ;;
  wr (entry ptt (PTE addr)) (Z.lor addr fl).

(** The [while (addr < term)] loop of [map_region]. *)
Fixpoint map_region_loop (fuel : nat) (memtype addr term : Z)
  : M kstate unit :=
  match fuel with
  | O => out_of_fuel
  | S fuel' =>
      if addr <? term then
        let remain := wrap64 (term - addr) in
        if (Z.land addr (PAGE_SIZE_HUGE - 1) =? 0)
           && (remain >=? PAGE_SIZE_HUGE) then
          create_huge_page addr memtype ;;;
          map_region_loop fuel' memtype (wrap64 (addr + PAGE_SIZE_HUGE)) term
        else if (Z.land addr (PAGE_SIZE_LARGE - 1) =? 0)
                && (remain >=? PAGE_SIZE_LARGE) then
          create_large_page addr memtype ;;;
          map_region_loop fuel' memtype (wrap64 (addr + PAGE_SIZE_LARGE)) term
        else
          create_small_page addr memtype ;;;
          map_region_loop fuel' memtype (wrap64 (addr + PAGE_SIZE)) term
      else ret tt
  end.

Definition map_region (fuel : nat) (map : pmap) (r : pmapregion)
  : M kstate unit :=
  if (type r =? PMEMTYPE_UNMAPPED) || (type r =? PMEMTYPE_BAD) then ret tt
  else if (type r =? PMEMTYPE_RESERVED) && (addr r >=? last_usable map) then
    ret tt
  else
    map_region_loop fuel (type r) (addr r) (wrap64 (addr r + size r)).

Definition kmem_init (fuel : nat) (map : pmap) : M kstate unit :=
  fun s =>
    let m := memzero (kmem s) KMEM_KERNEL_PAGETABLE KMEM_KERNEL_PAGETABLE_SIZE in
    let pt := mkPagetable KMEM_KERNEL_PAGETABLE KMEM_KERNEL_PAGETABLE
                (KMEM_KERNEL_PAGETABLE + PAGE_SIZE) KMEM_KERNEL_PAGETABLE_END in
    for_each (region map) (map_region fuel map) (mkKstate m pt).

End Kmem.

(** ** paging.c *)

Module Paging.
Import Pmap Paging_h Kmem_h.

Definition PAGE_SHIFT       : Z := 12.
Definition PAGE_SHIFT_LARGE : Z := 21.
Definition PFN_INVALID      : Z := 2 ^ 32 - 1.
Definition CONTAINS_TABLE   : Z := 1.

Definition PFTYPE_RESERVED  : Z := 0.
Definition PFTYPE_AVAILABLE : Z := 1.
Definition PFTYPE_ALLOCATED : Z := 2.

Definition wrap16 (x : Z) : Z := x mod 2 ^ 16.

(** [struct pf], without its three reserved fields (they are only ever
    zeroed). *)
Record pf_t : Type := mkPf {
  prev       : Z;
  next       : Z;
  refcount   : Z;
  sharecount : Z;
  pflags     : Z;
  ptype      : Z
}.

Definition pf_zero : pf_t := mkPf 0 0 0 0 0 0.

(** [struct pfdb]; the array [pf] is kept apart from [memory]. *)
Record pfdb_t : Type := mkPfdb {
  pf    : list pf_t;
  count : Z;
  avail : Z;
  head  : Z;
  tail  : Z
}.

Record state : Type := mkState {
  mem  : memory;
  pfdb : pfdb_t;
  kpt  : pagetable_t;     (* the kernel page table *)
  physmap : pmap          (* the physical memory map, [pmap()] *)
}.

Definition set_mem (s : state) (m : memory) : state :=
  mkState m (pfdb s) (kpt s) (physmap s).
Definition set_pfdb (s : state) (d : pfdb_t) : state :=
  mkState (mem s) d (kpt s) (physmap s).

Definition rd (a : Z) : M state Z := fun s => Ok (load (mem s) a) s.
Definition wr (a v : Z) : M state unit :=
  fun s => Ok tt (set_mem s (store (mem s) a v)).

(** [pfdb.pf[n]], read and written; [None] outside the array. *)
Definition pf_get (d : pfdb_t) (n : Z) : option pf_t :=
  if n <? 0 then None else nth_error (pf d) (Z.to_nat n).

Fixpoint list_set {A : Type} (l : list A) (n : nat) (v : A) : list A :=
  match l, n with
  | [], _ => []
  | _ :: tl, O => v :: tl
  | x :: tl, S n' => x :: list_set tl n' v
  end.

Definition pf_set (d : pfdb_t) (n : Z) (r : pf_t) : pfdb_t :=
  mkPfdb (list_set (pf d) (Z.to_nat n) r) (count d) (avail d) (head d) (tail d).

Definition read_pf (n : Z) : M state pf_t :=
  fun s => match pf_get (pfdb s) n with
           | Some r => Ok r s
           | None => Wild s
           end.

Definition write_pf (n : Z) (r : pf_t) : M state unit :=
  fun s => match pf_get (pfdb s) n with
           | Some _ => Ok tt (set_pfdb s (pf_set (pfdb s) n r))
           | None => Wild s
           end.

Definition get_pfdb : M state pfdb_t := fun s => Ok (pfdb s) s.
Definition set_head (h : Z) : M state unit :=
  fun s => let d := pfdb s in
           Ok tt (set_pfdb s (mkPfdb (pf d) (count d) (avail d) h (tail d))).
Definition set_avail (a : Z) : M state unit :=
  fun s => let d := pfdb s in
           Ok tt (set_pfdb s (mkPfdb (pf d) (count d) a (head d) (tail d))).

Definition set_prev (r : pf_t) (v : Z) : pf_t :=
  mkPf v (next r) (refcount r) (sharecount r) (pflags r) (ptype r).
Definition set_next (r : pf_t) (v : Z) : pf_t :=
  mkPf (prev r) v (refcount r) (sharecount r) (pflags r) (ptype r).
Definition set_refcount (r : pf_t) (v : Z) : pf_t :=
  mkPf (prev r) (next r) v (sharecount r) (pflags r) (ptype r).
Definition set_ptype (r : pf_t) (v : Z) : pf_t :=
  mkPf (prev r) (next r) (refcount r) (sharecount r) (pflags r) v.

(** [pfalloc]; the result is the frame number of the returned [pf_t *]. *)
Definition pfalloc : M state Z :=
  d <- get_pfdb ;;
  if avail d =? 0 then fatal
  else
    let pfn := head d in
    r <- read_pf pfn ;;
    set_head (next r) ;;;
    (if negb (next r =? PFN_INVALID) then
       h <- read_pf (next r) ;; write_pf (next r) (set_prev h PFN_INVALID)
     else ret tt) ;;;
    write_pf pfn (mkPf 0 0 1 0 0 PFTYPE_ALLOCATED) ;;;
    ret pfn.

(** [pffree(pf)], with [pf] given by its frame number. *)
Definition pffree (pfn : Z) : M state unit :=
  r <- read_pf pfn ;;
  if negb (ptype r =? PFTYPE_ALLOCATED) then fatal
  else
    d <- get_pfdb ;;
    write_pf pfn (mkPf PFN_INVALID (head d) 0 0 0 PFTYPE_AVAILABLE) ;;;
    h <- read_pf (head d) ;;
    write_pf (head d) (set_prev h pfn) ;;;
    set_head pfn ;;;
    set_avail (wrap32 (avail d + 1)).

Definition pgalloc : M state Z :=
  pfn <- pfalloc ;;
  let paddr := wrap64 (Z.shiftl pfn PAGE_SHIFT) in
  (fun s => Ok tt (set_mem s (memzero (mem s) paddr PAGE_SIZE))) ;;;
  ret paddr.

Definition pgfree (paddr : Z) : M state unit :=
  let pfn := Z.shiftr paddr PAGE_SHIFT in
  r <- read_pf pfn ;;
  let rc := wrap16 (refcount r - 1) in
  write_pf pfn (set_refcount r rc) ;;;
  if rc =? 0 then pffree pfn else ret tt.



(** [if (table->entry[e] == 0) { pgaddr = pgalloc(); added[count++] =
    pgaddr; table->entry[e] = pgaddr | PF_PRESENT | PF_RW; }]; the result
    is the list of pages added so far. *)
Definition grow_table (table e : Z) (added : list Z) : M state (list Z) :=
  v <- rd (entry table e) ;;
  if v =? 0 then
    pgaddr <- pgalloc ;;
    wr (entry table e) (Z.lor pgaddr (flags_of [PF_PRESENT; PF_RW])) ;;;
    ret (added ++ [pgaddr])
  else ret added.

(** [add_pte]; [fuel] bounds the depth of the recursion, and the
    [pagetable_t] behind [pt] is passed in and returned. *)
Fixpoint add_pte (fuel : nat) (pt : pagetable_t)
  (vaddr paddr pflags addflags : Z) : M state pagetable_t :=
  match fuel with
  | O => out_of_fuel
  | S fuel' =>
      if negb (Z.land addflags CONTAINS_TABLE =? 0) && (vaddr >=? vterm pt)
      then fatal
      else
        let pml4t := proot pt in
        v <- rd (entry pml4t (PML4E vaddr)) ;;
        added1 <-
          (if v =? 0 then grow_table pml4t (PML4E vaddr) []
           else if negb (Z.land v PF_SYSTEM =? 0) then fatal
           else ret []) ;;
        v1 <- rd (entry pml4t (PML4E vaddr)) ;;
        let pdpt := PGPTR v1 in
        added2 <- grow_table pdpt (PDPTE vaddr) added1 ;;
        v2 <- rd (entry pdpt (PDPTE vaddr)) ;;
        let pdt := PGPTR v2 in
        added3 <- grow_table pdt (PDE vaddr) added2 ;;
        v3 <- rd (entry pdt (PDE vaddr)) ;;
        let ptt := PGPTR v3 in
        wr (entry ptt (PTE vaddr)) (Z.lor paddr pflags) ;;;
        (fix self_map (added : list Z) (pt : pagetable_t)
           : M state pagetable_t :=
           match added with
           | [] => ret pt
           | a :: rest =>
               pt' <- add_pte fuel' pt (vnext pt) a
                        (flags_of [PF_PRESENT; PF_RW]) CONTAINS_TABLE ;;
               self_map rest
                 (mkPagetable (proot pt') (vroot pt')
                    (wrap64 (vnext pt' + PAGE_SIZE)) (vterm pt'))
           end) added3 pt
  end.

(** [remove_pte]; the TLB is not part of the model. *)
Definition remove_pte (pt : pagetable_t) (vaddr : Z) : M state Z :=
  let pml4t := proot pt in
  v1 <- rd (entry pml4t (PML4E vaddr)) ;;
  let pdpt := PGPTR v1 in
  v2 <- rd (entry pdpt (PDPTE vaddr)) ;;
  let pdt := PGPTR v2 in
  v3 <- rd (entry pdt (PDE vaddr)) ;;
  let ptt := PGPTR v3 in
  v4 <- rd (entry ptt (PTE vaddr)) ;;
  let pg := PGPTR v4 in
  wr (entry ptt (PTE vaddr)) 0 ;;;
  ret pg.

Definition get_kpt : M state pagetable_t := fun s => Ok (kpt s) s.

Definition pagetable_create (vaddr size : Z) : M state pagetable_t :=
  if negb (size mod PAGE_SIZE =? 0) then fatal
  else
    root <- pgalloc ;;
    let pt := mkPagetable root vaddr (wrap64 (vaddr + PAGE_SIZE))
                (wrap64 (vaddr + size)) in
    k <- get_kpt ;;
    for_each (indices 512) (fun i =>
      v <- rd (entry (proot k) i) ;; wr (entry (proot pt) i) v) ;;;
    ret pt.


(** The loops of [page_alloc] and [page_free] run [count] times. *)
Fixpoint page_alloc_loop (fuel : nat) (n : nat) (pt : pagetable_t) (vaddr : Z)
  : M state pagetable_t :=
  match n with
  | O => ret pt
  | S n' =>
      paddr <- pgalloc ;;
      pt' <- add_pte fuel pt vaddr paddr (flags_of [PF_PRESENT; PF_RW]) 0 ;;
      page_alloc_loop fuel n' pt' (wrap64 (vaddr + PAGE_SIZE))
  end.

(** [page_alloc(pt, vaddr_in, count)]; a negative [count] makes the C loop
    count down through [INT_MIN] and is outside the model. *)
Definition page_alloc (fuel : nat) (pt : pagetable_t) (vaddr_in count : Z)
  : M state pagetable_t :=
  if count <? 0 then wild
  else page_alloc_loop fuel (Z.to_nat count) pt vaddr_in.

Fixpoint page_free_loop (n : nat) (pt : pagetable_t) (vaddr : Z)
  : M state unit :=
  match n with
  | O => ret tt
  | S n' =>
      paddr <- remove_pte pt vaddr ;;
      pgfree paddr ;;;
      page_free_loop n' pt (wrap64 (vaddr + PAGE_SIZE))
  end.

Definition page_free (pt : pagetable_t) (vaddr_in count : Z) : M state unit :=
  if count <? 0 then wild
  else page_free_loop (Z.to_nat count) pt vaddr_in.

(** [add_region] and [pmap_add] of pmap.c, on the map of the state;
    [page_init] runs after [pmap_init], so [initialized] is true. *)
Definition pmap_add (fuel : nat) (a sz ty : Z) : M state unit :=
  fun s =>
    match normalize fuel (region (physmap s) ++ [mkRegion a sz ty 0]) with
    | Some m' => Ok tt (mkState (mem s) (pfdb s) (kpt s) m')
    | None => OutOfFuel
    end.

(** [reserve_region(map, size, alignshift)]; [None] is [NULL]. *)
Fixpoint reserve_region_scan (fuel : nat) (rs : list pmapregion)
  (sz alignshift : Z) : M state (option Z) :=
  match rs with
  | [] => ret None
  | r :: tl =>
      if negb (type r =? PMEMTYPE_USABLE) then
        reserve_region_scan fuel tl sz alignshift
      else if size r <? sz then
        reserve_region_scan fuel tl sz alignshift
      else
        let paddr :=
          Z.shiftl
            (Z.shiftr (wrap64 (wrap64 (addr r + Z.shiftl 1 alignshift) - 1))
               alignshift)
            alignshift in
        if wrap64 (paddr + sz) >? wrap64 (addr r + size r) then
          reserve_region_scan fuel tl sz alignshift
        else
          pmap_add fuel paddr sz PMEMTYPE_RESERVED ;;;
          ret (Some paddr)
  end.

Definition reserve_region (fuel : nat) (sz alignshift : Z)
  : M state (option Z) :=
  fun s => reserve_region_scan fuel (region (physmap s)) sz alignshift s.

(** The body of the loop of [page_init] over the regions of the map. *)
Definition page_init_region (r : pmapregion) : M state unit :=
  if negb (type r =? PMEMTYPE_USABLE) then ret tt
  else
    let pfn0 := Z.shiftr (addr r) PAGE_SHIFT in
    let pfnN := Z.shiftr (wrap64 (addr r + size r)) PAGE_SHIFT in
    for_each (map (fun i => pfn0 + i) (indices (Z.to_nat (pfnN - pfn0))))
      (fun pfn =>
         p <- read_pf pfn ;;
         write_pf pfn
           (set_ptype (set_next (set_prev p (wrap32 (pfn - 1)))
                         (wrap32 (pfn + 1)))
              PFTYPE_AVAILABLE)) ;;;
    d <- get_pfdb ;;
    (if tail d =? PFN_INVALID then set_head (wrap32 pfn0)
     else
       t <- read_pf (tail d) ;;
       write_pf (tail d) (set_next t (wrap32 pfn0))) ;;;
    p0 <- read_pf pfn0 ;;
    write_pf pfn0 (set_prev p0 (tail d)) ;;;
    pN <- read_pf (pfnN - 1) ;;
    write_pf (pfnN - 1) (set_next pN PFN_INVALID) ;;;
    (fun s => let d := pfdb s in
              Ok tt (set_pfdb s (mkPfdb (pf d) (count d)
                                   (wrap32 (avail d + wrap32 (pfnN - pfn0)))
                                   (head d) (wrap32 (pfnN - 1))))).

(** [page_init]; the array of the database is the [pfdbsize] bytes that
    [reserve_region] found, as [pfdbsize / 32] zeroed records. *)
Definition page_init (fuel : nat) : M state unit :=
  fun s0 =>
    if last_usable (physmap s0) =? 0 then Fatal s0
    else
      let cnt := wrap32 (last_usable (physmap s0) / PAGE_SIZE) in
      let pfdbsize :=
        Z.shiftl
          (Z.shiftr (wrap64 (cnt * 32 + (PAGE_SIZE_LARGE - 1))) PAGE_SHIFT_LARGE)
          PAGE_SHIFT_LARGE in
      (where_ <- reserve_region fuel pfdbsize PAGE_SHIFT_LARGE ;;
       match where_ with
       | None => fatal
       | Some _ =>
           (fun s =>
              match Kmem.kmem_init fuel (physmap s)
                      (Kmem.mkKstate (mem s) (kpt s)) with
              | Ok _ k =>
                  Ok tt (mkState (Kmem.kmem k) (pfdb s) (Kmem.kpt k) (physmap s))
              | Fatal _ => Fatal s
              | Wild _ => Wild s
              | OutOfFuel => OutOfFuel
              end) ;;;
           (fun s =>
              Ok tt (set_pfdb s
                       (mkPfdb (repeat pf_zero (Z.to_nat (pfdbsize / 32)))
                          cnt 0 PFN_INVALID PFN_INVALID))) ;;;
           (fun s => for_each (region (physmap s)) page_init_region s)
       end) s0.

End Paging.

(** ** paging.c once [interrupts_init] has run *)

Module PagingIrq.
Import Pmap Paging_h Kmem_h Paging.

(** [fatal] (asm.asm) is [int 0xff; ret].  [kmain] calls [acpi_init],
    [pmap_init] and [page_init] before [interrupts_init]: there no
    interrupt can be delivered and the machine stops, which is the
    [fatal] of the modules above.  The functions of paging.c from
    [pfalloc] on are called after [interrupts_init].  Vector 0xff then
    enters thunk 255, whose [push] leaves -1 on the stack; the
    dispatcher loads the handler from [Mem.ISR.Table + 8 * -1], the
    quadword at 0x1ff8, and when that is 0 it restores the registers and
    returns with [iretq]: [fatal] returns to its caller.  A quadword
    that is not 0 is called as a handler; the model does not follow
    it. *)
Definition fatal_slot : Z := 0x1ff8.

Definition fatal : M state unit :=
  fun s => if load (mem s) fatal_slot =? 0 then Ok tt s else Wild s.

Definition pfalloc : M state Z :=
  d <- get_pfdb ;;
  (if avail d =? 0 then fatal else ret tt) ;;;
  let pfn := head d in
  r <- read_pf pfn ;;
  set_head (next r) ;;;
  (if negb (next r =? PFN_INVALID) then
     h <- read_pf (next r) ;; write_pf (next r) (set_prev h PFN_INVALID)
   else ret tt) ;;;
  write_pf pfn (mkPf 0 0 1 0 0 PFTYPE_ALLOCATED) ;;;
  ret pfn.

Definition pffree (pfn : Z) : M state unit :=
  r <- read_pf pfn ;;
  (if negb (ptype r =? PFTYPE_ALLOCATED) then fatal else ret tt) ;;;
  d <- get_pfdb ;;
  write_pf pfn (mkPf PFN_INVALID (head d) 0 0 0 PFTYPE_AVAILABLE) ;;;
  h <- read_pf (head d) ;;
  write_pf (head d) (set_prev h pfn) ;;;
  set_head pfn ;;;
  set_avail (wrap32 (avail d + 1)).

Definition pgalloc : M state Z :=
  pfn <- pfalloc ;;
  let paddr := wrap64 (Z.shiftl pfn PAGE_SHIFT) in
  (fun s => Ok tt (set_mem s (memzero (mem s) paddr PAGE_SIZE))) ;;;
  ret paddr.

Definition pgfree (paddr : Z) : M state unit :=
  let pfn := Z.shiftr paddr PAGE_SHIFT in
  r <- read_pf pfn ;;
  let rc := wrap16 (refcount r - 1) in
  write_pf pfn (set_refcount r rc) ;;;
  if rc =? 0 then pffree pfn else ret tt.

Definition grow_table (table e : Z) (added : list Z) : M state (list Z) :=
  v <- rd (entry table e) ;;
  if v =? 0 then
    pgaddr <- pgalloc ;;
    wr (entry table e) (Z.lor pgaddr (flags_of [PF_PRESENT; PF_RW])) ;;;
    ret (added ++ [pgaddr])
  else ret added.

(** [add_pte]: after either call of [fatal] the function goes on. *)
Fixpoint add_pte (fuel : nat) (pt : pagetable_t)
  (vaddr paddr pflags addflags : Z) : M state pagetable_t :=
  match fuel with
  | O => out_of_fuel
  | S fuel' =>
      (if negb (Z.land addflags CONTAINS_TABLE =? 0) && (vaddr >=? vterm pt)
       then fatal else ret tt) ;;;
      let pml4t := proot pt in
      v <- rd (entry pml4t (PML4E vaddr)) ;;
      added1 <-
        (if v =? 0 then grow_table pml4t (PML4E vaddr) []
         else if negb (Z.land v PF_SYSTEM =? 0) then fatal ;;; ret []
         else ret []) ;;
      v1 <- rd (entry pml4t (PML4E vaddr)) ;;
      let pdpt := PGPTR v1 in
      added2 <- grow_table pdpt (PDPTE vaddr) added1 ;;
      v2 <- rd (entry pdpt (PDPTE vaddr)) ;;
      let pdt := PGPTR v2 in
      added3 <- grow_table pdt (PDE vaddr) added2 ;;
      v3 <- rd (entry pdt (PDE vaddr)) ;;
      let ptt := PGPTR v3 in
      wr (entry ptt (PTE vaddr)) (Z.lor paddr pflags) ;;;
      (fix self_map (added : list Z) (pt : pagetable_t)
         : M state pagetable_t :=
         match added with
         | [] => ret pt
         | a :: rest =>
             pt' <- add_pte fuel' pt (vnext pt) a
                      (flags_of [PF_PRESENT; PF_RW]) CONTAINS_TABLE ;;
             self_map rest
               (mkPagetable (proot pt') (vroot pt')
                  (wrap64 (vnext pt' + PAGE_SIZE)) (vterm pt'))
         end) added3 pt
  end.

Fixpoint page_alloc_loop (fuel : nat) (n : nat) (pt : pagetable_t) (vaddr : Z)
  : M state pagetable_t :=
  match n with
  | O => ret pt
  | S n' =>
      paddr <- pgalloc ;;
      pt' <- add_pte fuel pt vaddr paddr (flags_of [PF_PRESENT; PF_RW]) 0 ;;
      page_alloc_loop fuel n' pt' (wrap64 (vaddr + PAGE_SIZE))
  end.

Definition page_alloc (fuel : nat) (pt : pagetable_t) (vaddr_in count : Z)
  : M state pagetable_t :=
  if count <? 0 then wild
  else page_alloc_loop fuel (Z.to_nat count) pt vaddr_in.

Fixpoint page_free_loop (n : nat) (pt : pagetable_t) (vaddr : Z)
  : M state unit :=
  match n with
  | O => ret tt
  | S n' =>
      paddr <- remove_pte pt vaddr ;;
      pgfree paddr ;;;
      page_free_loop n' pt (wrap64 (vaddr + PAGE_SIZE))
  end.

Definition page_free (pt : pagetable_t) (vaddr_in count : Z) : M state unit :=
  if count <? 0 then wild
  else page_free_loop (Z.to_nat count) pt vaddr_in.

End PagingIrq.

(** ** acpi.c *)

Module Acpi.
Import Pmap Paging_h Kmem_h.

Definition SIGNATURE_RSDP : Z := 0x2052545020445352.
Definition SIGNATURE_MADT : Z := 0x43495041.
Definition SIGNATURE_FADT : Z := 0x50434146.
Definition SIGNATURE_MCFG : Z := 0x4746434D.

Definition ACPI_MADT_LOCAL_APIC : Z := 0.
Definition ACPI_MADT_IO_APIC    : Z := 1.
Definition ACPI_MADT_ISO        : Z := 2.

(** [sizeof(struct acpi_hdr)] and [sizeof(struct acpi_madt)] (packed). *)
Definition SIZEOF_ACPI_HDR  : Z := 36.
Definition SIZEOF_ACPI_MADT : Z := 44.

Definition PAGE_ALIGN_DOWN (a : Z) : Z := Z.land a (Z.lnot (PAGE_SIZE - 1)).
Definition PAGE_ALIGN_UP (a : Z) : Z :=
  Z.land (wrap64 (a + PAGE_SIZE - 1)) (Z.lnot (PAGE_SIZE - 1)).

(** The firmware tables are packed structures at arbitrary addresses:
    byte [a] of memory, and the little-endian value of the [n] bytes
    from [a]. *)
Definition read8 (m : memory) (a : Z) : Z :=
  Z.land (Z.shiftr (load m (a - a mod 8)) (8 * (a mod 8))) 0xff.

Fixpoint read_le (m : memory) (a : Z) (n : nat) : Z :=
  match n with
  | O => 0
  | S n' => read8 m a + 256 * read_le m (a + 1) n'
  end.

Definition read32 (m : memory) (a : Z) : Z := read_le m a 4.
Definition read64 (m : memory) (a : Z) : Z := read_le m a 8.

(** A 32-bit value read as an [int]. *)
Definition sint32 (x : Z) : Z :=
  let y := x mod 2 ^ 32 in if y <? 2 ^ 31 then y else y - 2 ^ 32.

Record btable_t : Type := mkBtable {
  root      : Z;
  next_page : Z;
  term_page : Z
}.

(** [struct acpi]; pointers are addresses, [NULL] is 0. *)
Record acpi_t : Type := mkAcpi {
  version : Z;
  rsdp    : Z;
  rsdt    : Z;
  xsdt    : Z;
  fadt    : Z;
  madt    : Z;
  mcfg    : Z
}.

(** Memory, the boot page table bookkeeping, the [acpi] singleton and
    the regions handed to [pmap_add], in order. *)
Record state : Type := mkState {
  amem   : memory;
  btable : btable_t;
  acpi   : acpi_t;
  added  : list pmapregion
}.

Definition rd (a : Z) : M state Z := fun s => Ok (load (amem s) a) s.
Definition wr (a v : Z) : M state unit :=
  fun s => Ok tt (mkState (store (amem s) a v) (btable s) (acpi s) (added s)).
Definition rd8 (a : Z) : M state Z := fun s => Ok (read8 (amem s) a) s.
Definition rd32 (a : Z) : M state Z := fun s => Ok (read32 (amem s) a) s.
Definition rd64 (a : Z) : M state Z := fun s => Ok (read64 (amem s) a) s.
Definition get_acpi : M state acpi_t := fun s => Ok (acpi s) s.
Definition set_acpi (a : acpi_t) : M state unit :=
  fun s => Ok tt (mkState (amem s) (btable s) a (added s)).
Definition get_root : M state Z := fun s => Ok (root (btable s)) s.

(** [pmap_add] of pmap.c: the call is recorded. *)
Definition pmap_add (a sz ty : Z) : M state unit :=
  fun s => Ok tt (mkState (amem s) (btable s) (acpi s)
                    (added s ++ [mkRegion a sz ty 0])).

Definition read_table (hdr : Z) : M state unit :=
  sig <- rd32 hdr ;;
  a <- get_acpi ;;
  if sig =? SIGNATURE_FADT then
    set_acpi (mkAcpi (version a) (rsdp a) (rsdt a) (xsdt a) hdr (madt a) (mcfg a))
  else if sig =? SIGNATURE_MADT then
    set_acpi (mkAcpi (version a) (rsdp a) (rsdt a) (xsdt a) (fadt a) hdr (mcfg a))
  else if sig =? SIGNATURE_MCFG then
    set_acpi (mkAcpi (version a) (rsdp a) (rsdt a) (xsdt a) (fadt a) (madt a) hdr)
  else ret tt.

Definition is_mapped (addr : Z) : M state bool :=
  pml4t <- get_root ;;
  v1 <- rd (entry pml4t (PML4E addr)) ;;
  if v1 =? 0 then ret false
  else
    let pdpt := PGPTR v1 in
    v2 <- rd (entry pdpt (PDPTE addr)) ;;
    if v2 =? 0 then ret false
    else if negb (Z.land v2 PF_PS =? 0) then ret true
    else
      let pdt := PGPTR v2 in
      v3 <- rd (entry pdt (PDE addr)) ;;
      if v3 =? 0 then ret false
      else if negb (Z.land v3 PF_PS =? 0) then ret true
      else
        let pt := PGPTR v3 in
        v4 <- rd (entry pt (PTE addr)) ;;
        ret (negb (v4 =? 0)).

Definition alloc_page : M state Z :=
  fun s =>
    let b := btable s in
    if next_page b =? term_page b then Fatal s
    else
      let page := next_page b in
      Ok (Z.lor page (flags_of [PF_PRESENT; PF_RW]))
         (mkState (memzero (amem s) page PAGE_SIZE)
            (mkBtable (root b) (wrap64 (next_page b + PAGE_SIZE)) (term_page b))
            (acpi s) (added s)).

(** [if (table->entry[e] == 0) table->entry[e] = alloc_page(btable);]
    followed by [PGPTR(table->entry[e])]. *)
Definition ensure_table (table e : Z) : M state Z :=
  v <- rd (entry table e) ;;
  (if v =? 0 then
     p <- alloc_page ;; wr (entry table e) p
   else ret tt) ;;;
  v' <- rd (entry table e) ;;
  ret (PGPTR v').

Definition create_page (addr flags : Z) : M state unit :=
  pml4t <- get_root ;;
  pdpt <- ensure_table pml4t (PML4E addr) ;;
  pdt <- ensure_table pdpt (PDPTE addr) ;;
  pt <- ensure_table pdt (PDE addr) ;;
  wr (entry pt (PTE addr)) (Z.lor addr flags).

(** The pages [begin, begin + 4096, ...] below [term]. *)
Definition pages_between (begin term : Z) : list Z :=
  map (fun k => begin + PAGE_SIZE * k)
      (indices (Z.to_nat ((term - begin + PAGE_SIZE - 1) / PAGE_SIZE))).

Definition map_range (addr sz flags : Z) : M state unit :=
  let begin := PAGE_ALIGN_DOWN addr in
  let term := PAGE_ALIGN_UP (wrap64 (addr + sz)) in
  for_each (pages_between begin term) (fun a =>
    mapped <- is_mapped a ;;
    if negb mapped then create_page a flags else ret tt).

Definition map_table (hdr : Z) : M state unit :=
  let addr := hdr in
  let flags := flags_of [PF_PRESENT; PF_RW] in
  map_range addr SIZEOF_ACPI_HDR flags ;;;
  sz <- rd32 (hdr + 4) ;;
  map_range addr sz flags ;;;
  len <- rd32 (hdr + 4) ;;
  pmap_add (PAGE_ALIGN_DOWN addr)
    (wrap64 (PAGE_ALIGN_UP (wrap64 (addr + len)) - PAGE_ALIGN_DOWN addr))
    PMEMTYPE_ACPI.

(** [(int)(hdr->length - sizeof hdr) / sizeof entry], stored in an
    [int]: the cast binds before the division, which is unsigned. *)
Definition table_count (len entry_size : Z) : Z :=
  sint32 (wrap64 (sint32 (wrap64 (len - SIZEOF_ACPI_HDR))) / entry_size).

Definition read_xsdt : M state unit :=
  a <- get_acpi ;;
  len <- rd32 (xsdt a + 4) ;;
  for_each (indices (Z.to_nat (table_count len 8))) (fun i =>
    hdr <- rd64 (xsdt a + SIZEOF_ACPI_HDR + 8 * i) ;;
    map_table hdr ;;;
    read_table hdr).

Definition read_rsdt : M state unit :=
  a <- get_acpi ;;
  len <- rd32 (rsdt a + 4) ;;
  for_each (indices (Z.to_nat (table_count len 4))) (fun i =>
    hdr <- rd32 (rsdt a + SIZEOF_ACPI_HDR + 4 * i) ;;
    map_table hdr ;;;
    read_table hdr).

(** [find_rsdp(addr, size)]: the first 16-byte aligned quadword holding
    the signature, 0 if there is none. *)
Definition find_rsdp (m : memory) (addr sz : Z) : Z :=
  match find (fun p => read64 m p =? SIGNATURE_RSDP)
             (map (fun k => addr + 16 * k)
                  (indices (Z.to_nat ((sz + 15) / 16)))) with
  | Some p => p
  | None => 0
  end.

(** [madt_find(type, prev)]; the [while] loop under [fuel]. *)
Fixpoint madt_scan (fuel : nat) (ty ptr term : Z) : M state Z :=
  match fuel with
  | O => out_of_fuel
  | S fuel' =>
      if ptr <? term then
        t <- rd8 ptr ;;
        if t =? ty then ret ptr
        else
          len <- rd8 (ptr + 1) ;;
          madt_scan fuel' ty (wrap64 (ptr + len)) term
      else ret 0
  end.

Definition madt_find (fuel : nat) (ty prev : Z) : M state Z :=
  a <- get_acpi ;;
  if madt a =? 0 then ret 0
  else
    len <- rd32 (madt a + 4) ;;
    let term := wrap64 (madt a + len) in
    ptr <- (if prev =? 0 then ret (wrap64 (madt a + SIZEOF_ACPI_MADT))
            else plen <- rd8 (prev + 1) ;; ret (wrap64 (prev + plen))) ;;
    madt_scan fuel ty ptr term.

Definition acpi_next_local_apic (fuel : nat) (prev : Z) : M state Z :=
  madt_find fuel ACPI_MADT_LOCAL_APIC prev.
Definition acpi_next_io_apic (fuel : nat) (prev : Z) : M state Z :=
  madt_find fuel ACPI_MADT_IO_APIC prev.
Definition acpi_next_iso (fuel : nat) (prev : Z) : M state Z :=
  madt_find fuel ACPI_MADT_ISO prev.

(** The last loop of [acpi_init], over the I/O APIC entries. *)
Fixpoint io_apic_loop (fuel : nat) (io : Z) : M state unit :=
  match fuel with
  | O => out_of_fuel
  | S fuel' =>
      io' <- acpi_next_io_apic fuel io ;;
      if io' =? 0 then ret tt
      else
        p <- rd32 (io' + 4) ;;
        pmap_add (PAGE_ALIGN_DOWN p) PAGE_SIZE PMEMTYPE_UNCACHED ;;;
        io_apic_loop fuel' io'
  end.

Definition acpi_zero : acpi_t := mkAcpi 0 0 0 0 0 0 0.

(** [acpi_init], from the memory it finds; [acpi] is a zeroed static. *)
Definition acpi_init (fuel : nat) (m : memory) : outcome state unit :=
  (let r1 := find_rsdp m KMEM_EXTENDED_BIOS KMEM_EXTENDED_BIOS_SIZE in
   let r := if r1 =? 0 then find_rsdp m KMEM_SYSTEM_ROM KMEM_SYSTEM_ROM_SIZE
            else r1 in
   set_acpi (mkAcpi 0 r 0 0 0 0 0) ;;;
   if r =? 0 then fatal
   else
     rev <- rd8 (r + 15) ;;
     let ver := rev + 1 in
     set_acpi (mkAcpi ver r 0 0 0 0 0) ;;;
     (if ver >? 1 then
        x <- rd64 (r + 24) ;;
        set_acpi (mkAcpi ver r 0 x 0 0 0) ;;;
        if x =? 0 then ret tt
        else map_table x ;;; read_xsdt
      else ret tt) ;;;
     a <- get_acpi ;;
     (if xsdt a =? 0 then
        t <- rd32 (r + 16) ;;
        set_acpi (mkAcpi (version a) (rsdp a) t (xsdt a) (fadt a) (madt a) (mcfg a)) ;;;
        if t =? 0 then fatal
        else map_table t ;;; read_rsdt
      else ret tt) ;;;
     a' <- get_acpi ;;
     (if negb (madt a' =? 0) then
        p <- rd32 (madt a' + 36) ;;
        pmap_add (PAGE_ALIGN_DOWN p) PAGE_SIZE PMEMTYPE_UNCACHED
      else ret tt) ;;;
     io_apic_loop fuel 0)
  (mkState m
     (mkBtable KMEM_BOOT_PAGETABLE KMEM_BOOT_PAGETABLE_LOADED
        KMEM_BOOT_PAGETABLE_END)
     acpi_zero []).

End Acpi.

(** ** interrupt.asm *)

Module Interrupt.

(** Memory by bytes; words are little-endian. *)
Definition bytes : Type := Z -> Z.

Definition load8 (m : bytes) (a : Z) : Z := m a.

Definition store8 (m : bytes) (a b : Z) : bytes :=
  fun x => if x =? a then b mod 256 else m x.

Fixpoint load_le (m : bytes) (a : Z) (n : nat) : Z :=
  match n with
  | O => 0
  | S n' => load8 m a + 256 * load_le m (a + 1) n'
  end.

Fixpoint store_le (m : bytes) (a : Z) (n : nat) (v : Z) : bytes :=
  match n with
  | O => m
  | S n' => store_le (store8 m a v) (a + 1) n' (v / 256)
  end.

Definition load16 (m : bytes) (a : Z) : Z := load_le m a 2.
Definition load32 (m : bytes) (a : Z) : Z := load_le m a 4.
Definition store16 (m : bytes) (a v : Z) : bytes := store_le m a 2 v.
Definition store32 (m : bytes) (a v : Z) : bytes := store_le m a 4 v.
Definition store64 (m : bytes) (a v : Z) : bytes := store_le m a 8 v.

Fixpoint store_bytes (m : bytes) (a : Z) (l : list Z) : bytes :=
  match l with
  | [] => m
  | b :: tl => store_bytes (store8 m a b) (a + 1) tl
  end.

(** A 32-bit displacement, sign-extended. *)
Definition sext32 (x : Z) : Z := if x <? 2 ^ 31 then x else x - 2 ^ 32.

Definition Mem_IDT             : Z := 0x1000.
Definition IDT_Descriptor_size : Z := 16.
Definition Mem_IDT_Size        : Z := IDT_Descriptor_size * 256.
Definition Mem_ISR_Table       : Z := 0x2000.
Definition Mem_ISR_Thunks      : Z := 0x2800.

Definition Segment_Kernel_Code : Z := 0x10.

Definition Exception_NMI : Z := 0x02.
Definition Exception_DF  : Z := 0x08.
Definition Exception_TS  : Z := 0x0A.
Definition Exception_NP  : Z := 0x0B.
Definition Exception_SS  : Z := 0x0C.
Definition Exception_GP  : Z := 0x0D.
Definition Exception_PF  : Z := 0x0E.
Definition Exception_MC  : Z := 0x12.

(** [struc IDT.Descriptor]: the offsets of the fields. *)
Definition IDT_Descriptor_OffsetLo  : Z := 0.
Definition IDT_Descriptor_Segment   : Z := 2.
Definition IDT_Descriptor_Flags     : Z := 4.
Definition IDT_Descriptor_OffsetMid : Z := 6.
Definition IDT_Descriptor_OffsetHi  : Z := 8.
Definition IDT_Descriptor_Reserved  : Z := 12.

(** [nop; push 0; jmp 0] *)
Definition ISR_Thunk_Template : list Z := [0x90; 0x6A; 0; 0xE9; 0; 0; 0; 0].
Definition ISR_Thunk_Size : Z := 8.

Definition PushesError : Z :=
  fold_right Z.lor 0
    (map (Z.shiftl 1)
       [Exception_DF; Exception_TS; Exception_NP; Exception_SS;
        Exception_GP; Exception_PF]).

(** The registers the two loops keep across iterations, and memory. *)
Record cpu : Type := mkCpu {
  rcx : Z;
  rsi : Z;
  rdi : Z;
  mem : bytes
}.

(** [label: body; ...; jne label]: the body runs, then the test. *)
Fixpoint do_while (fuel : nat) (body : cpu -> cpu) (again : cpu -> bool)
    (s : cpu) : option cpu :=
  match fuel with
  | O => None
  | S fuel' =>
      let s' := body s in
      if again s' then do_while fuel' body again s' else Some s'
  end.

(** [rep stosq] with [rax] and a count. *)
Fixpoint rep_stosq (count : nat) (rax a : Z) (m : bytes) : bytes :=
  match count with
  | O => m
  | S c => rep_stosq c rax (a + 8) (store64 m a rax)
  end.

Section Labels.
(** The addresses of the two dispatchers in the kernel image. *)
Variable ISR_Dispatcher : Z.
Variable ISR_Dispatcher_Special : Z.

(** One pass of [.installThunk] .. [.updateDispatcher], up to the
    [inc ecx]. *)
Definition installThunk (s : cpu) : cpu :=
  (* movsq from the template *)
  let m1 := store_bytes (mem s) (rdi s) ISR_Thunk_Template in
  let rdi1 := wrap64 (rdi s + 8) in
  (* mov byte [rdi - ISR.Thunk.Size + 2], cl *)
  let cl := rcx s mod 256 in
  let m2 := store8 m1 (rdi1 - ISR_Thunk_Size + 2) cl in
  let r8 :=
    if rcx s >? 14 then ISR_Dispatcher
    else
      (* mov eax, 1; shl eax, cl; test eax, .PushesError *)
      let eax := wrap32 (Z.shiftl 1 (Z.land cl 31)) in
      if Z.land eax PushesError =? 0 then ISR_Dispatcher
      else ISR_Dispatcher_Special in
  (* sub r8, rdi; mov dword [rdi - ISR.Thunk.Size + 4], r8d *)
  let r8' := wrap64 (r8 - rdi1) in
  let m3 := store32 m2 (rdi1 - ISR_Thunk_Size + 4) (wrap32 r8') in
  mkCpu (wrap32 (rcx s + 1)) (rsi s) rdi1 m3.

Definition setupThunks (fuel : nat) (m : bytes) : option cpu :=
  do_while fuel installThunk (fun s => negb (rcx s =? 256))
    (mkCpu 0 0 Mem_ISR_Thunks m).

(** One pass of [.installDescriptor] .. [.nextDescriptor]. *)
Definition installDescriptor (s : cpu) : cpu :=
  let rdi0 := rdi s in
  (* lea r8, [rsi + 1] *)
  let r8 := wrap64 (rsi s + 1) in
  let m1 := store16 (mem s) (rdi0 + IDT_Descriptor_OffsetLo) (r8 mod 2 ^ 16) in
  let r8a := Z.shiftr r8 16 in
  let m2 := store16 m1 (rdi0 + IDT_Descriptor_OffsetMid) (r8a mod 2 ^ 16) in
  let r8b := Z.shiftr r8a 16 in
  let m3 := store32 m2 (rdi0 + IDT_Descriptor_OffsetHi) (r8b mod 2 ^ 32) in
  let m4 := store16 m3 (rdi0 + IDT_Descriptor_Segment) Segment_Kernel_Code in
  (* cmp cl, 31; ja .useTrap *)
  let cl := rcx s mod 256 in
  let m5 := store16 m4 (rdi0 + IDT_Descriptor_Flags)
              (if cl >? 31 then 0x8F00 else 0x8E00) in
  mkCpu (wrap32 (rcx s + 1)) (wrap64 (rsi s + ISR_Thunk_Size))
        (wrap64 (rdi0 + IDT_Descriptor_size)) m5.

Definition replaceSpecialStacks (m : bytes) : bytes :=
  let flags_of_vector v :=
    Mem_IDT + IDT_Descriptor_size * v + IDT_Descriptor_Flags in
  let m1 := store16 m (flags_of_vector Exception_NMI) 0x8E01 in
  let m2 := store16 m1 (flags_of_vector Exception_DF) 0x8E02 in
  store16 m2 (flags_of_vector Exception_MC) 0x8E03.

Definition setupIDT (fuel : nat) (m : bytes) : option bytes :=
  let m0 := rep_stosq (Z.to_nat (Mem_IDT_Size / 8)) 0 Mem_IDT m in
  match do_while fuel installDescriptor (fun s => negb (rcx s =? 256))
          (mkCpu 0 Mem_ISR_Thunks Mem_IDT m0) with
  | Some s => Some (replaceSpecialStacks (mem s))
  | None => None
  end.

(** [interrupts_init]: what it leaves in memory.  The port writes of
    [.setupPIC] and the [lidt] at the end do not touch memory. *)
Definition interrupts_init (fuel : nat) (m : bytes) : option bytes :=
  match setupThunks fuel m with
  | Some s => setupIDT fuel (mem s)
  | None => None
  end.

End Labels.

(** *** Reading the tables back *)

Definition thunk (v : Z) : Z := Mem_ISR_Thunks + ISR_Thunk_Size * v.
Definition descriptor (v : Z) : Z := Mem_IDT + IDT_Descriptor_size * v.

(** The handler address of descriptor [v], from its three parts. *)
Definition idt_offset (m : bytes) (v : Z) : Z :=
  load16 m (descriptor v + IDT_Descriptor_OffsetLo)
  + 2 ^ 16 * load16 m (descriptor v + IDT_Descriptor_OffsetMid)
  + 2 ^ 32 * load32 m (descriptor v + IDT_Descriptor_OffsetHi).

(** Where the [jmp rel32] of thunk [v] goes: the displacement counts
    from the end of the instruction, which is the end of the thunk. *)
Definition thunk_jmp_target (m : bytes) (v : Z) : Z :=
  wrap64 (thunk v + ISR_Thunk_Size + sext32 (load32 m (thunk v + 4))).

(** The vectors for which the CPU pushes an error code. *)
Definition pushes_error (v : Z) : bool :=
  existsb (Z.eqb v)
    [Exception_DF; Exception_TS; Exception_NP; Exception_SS;
     Exception_GP; Exception_PF].

(** What the [push imm8] of thunk [v] puts on the stack: the CPU
    sign-extends the immediate to 64 bits. *)
Definition pushed_by_thunk (m : bytes) (v : Z) : Z :=
  let imm := load8 m (thunk v + 2) in
  wrap64 (if imm <? 128 then imm else imm - 256).

(** The stack as the CPU leaves it when it delivers vector [v]: the
    interrupted frame, with the error code [err] above it for the
    vectors that have one. *)
Definition delivered (v err : Z) (frame : list Z) : list Z :=
  if pushes_error v then err :: frame else frame.

(** *** isr_set *)

(** [shl rdi, 3; add rdi, Mem.ISR.Table; mov [rdi], rsi]; the [pushf],
    [cli] and [popf] around it do not touch memory. *)
Definition isr_set (interrupt handler : Z) (m : bytes) : bytes :=
  let rdi1 := wrap64 (Z.shiftl interrupt 3) in
  let rdi2 := wrap64 (rdi1 + Mem_ISR_Table) in
  store64 m rdi2 handler.

(** *** The dispatchers *)

(** The general registers that the dispatchers save. *)
Inductive reg : Type :=
| RAX | RBX | RCX | RDX | RSI | RDI | RBP
| R8 | R9 | R10 | R11 | R12 | R13 | R14 | R15.

(** The stack as the quadwords from [rsp] upwards. *)
Definition stack : Type := list Z.

(** [mov [rsp + 8 * k], x] *)
Fixpoint poke (k : nat) (x : Z) (st : stack) : stack :=
  match st, k with
  | [], _ => []
  | _ :: tl, O => x :: tl
  | y :: tl, S k' => y :: poke k' x tl
  end.

(** [.specialEntry] up to [.lookup]: [push r13] .. [push rax], then
    [sub rsp, 8] and [stmxcsr [rsp]], which leaves [mx] in the new
    quadword. *)
Definition specialEntry (r : reg -> Z) (mx : Z) (st : stack) : stack :=
  mx :: fold_left (fun st x => r x :: st)
          [R13; R12; R11; R10; R9; R8; RBP; RDI; RSI; RDX; RCX; RBX; RAX] st.

(** [ISR.Dispatcher]: [push 0; push r15; push r14], then the common
    part. *)
Definition ISR_Dispatcher_stack (r : reg -> Z) (mx : Z) (st : stack) : stack :=
  specialEntry r mx (r R14 :: r R15 :: 0 :: st).

(** [ISR.Dispatcher.Special]: [push r15; push r14], the quadwords at
    [rsp + 16] and [rsp + 24] are exchanged, then the common part. *)
Definition ISR_Dispatcher_Special_stack (r : reg -> Z) (mx : Z) (st : stack)
  : stack :=
  let st1 := r R14 :: r R15 :: st in
  let r14 := nth 2 st1 0 in
  let r15 := nth 3 st1 0 in
  specialEntry r mx (poke 3 r14 (poke 2 r15 st1)).

(** [.lookup]: [mov rax, [rsp + 8 * 17]; mov rax, [Mem.ISR.Table + 8 * rax]].
    The handler is called when the result is not 0. *)
Definition lookup (m : bytes) (st : stack) : Z :=
  let rax := nth 17 st 0 in
  load_le m (wrap64 (Mem_ISR_Table + 8 * rax)) 8.

(** Thunk [v] entered with the stack [st] the CPU has left: the [push],
    the [jmp], and the dispatcher the [jmp] leads to, up to the handler
    address it loads.  [None] when the [jmp] leads to neither
    dispatcher. *)
Definition dispatch (ISR_Dispatcher ISR_Dispatcher_Special : Z)
    (m : bytes) (v : Z) (r : reg -> Z) (mx : Z) (st : stack) : option Z :=
  let st1 := pushed_by_thunk m v :: st in
  let target := thunk_jmp_target m v in
  if target =? ISR_Dispatcher then
    Some (lookup m (ISR_Dispatcher_stack r mx st1))
  else if target =? ISR_Dispatcher_Special then
    Some (lookup m (ISR_Dispatcher_Special_stack r mx st1))
  else None.

(** *** irq_enable and irq_disable *)

(** The registers the two routines use, and the interrupt mask
    registers of the two 8259 chips: [in al, 0x21] reads the mask of the
    master and [out 0x21, al] writes it; port 0xa1 is the mask of the
    slave. *)
Record pic : Type := mkPic {
  al     : Z;
  p_rcx  : Z;
  edx    : Z;
  p_rdi  : Z;
  port21 : Z;
  porta1 : Z
}.

(** [cl], and [rcx] with [cl] replaced. *)
Definition cl (s : pic) : Z := p_rcx s mod 256.
Definition set_cl (s : pic) (b : Z) : Z := p_rcx s - p_rcx s mod 256 + b mod 256.

(** [shl edx, cl]: the count is taken modulo 32. *)
Definition shl32 (x count : Z) : Z := wrap32 (Z.shiftl x (Z.land count 31)).
(** [not edx] *)
Definition not32 (x : Z) : Z := wrap32 (Z.lnot x).

(** [.master] of [irq_enable], from the [mov edx, 1] to the [out]. *)
Definition irq_enable_master (s : pic) : pic :=
  let edx1 := not32 (shl32 1 (cl s)) in
  let al1 := port21 s in
  let al2 := Z.land al1 (edx1 mod 256) in
  mkPic al2 (p_rcx s) edx1 (p_rdi s) al2 (porta1 s).

(** [irq_enable]; [fuel] bounds the depth of the calls. *)
Fixpoint irq_enable (fuel : nat) (s : pic) : option pic :=
  match fuel with
  | O => None
  | S fuel' =>
      (* mov rcx, rdi *)
      let s0 := mkPic (al s) (p_rdi s) (edx s) (p_rdi s) (port21 s) (porta1 s) in
      if cl s0 >=? 8 then
        (* mov rdi, 2; call irq_enable *)
        match irq_enable fuel'
                (mkPic (al s0) (p_rcx s0) (edx s0) 2 (port21 s0) (porta1 s0)) with
        | None => None
        | Some s1 =>
            (* sub cl, 8 *)
            let rcx2 := set_cl s1 (cl s1 - 8) in
            let edx2 := not32 (shl32 1 (rcx2 mod 256)) in
            let al1 := porta1 s1 in
            let al2 := Z.land al1 (edx2 mod 256) in
            Some (mkPic al2 rcx2 edx2 (p_rdi s1) (port21 s1) al2)
        end
      else Some (irq_enable_master s0)
  end.

Definition irq_disable (s : pic) : pic :=
  (* mov rcx, rdi *)
  let s0 := mkPic (al s) (p_rdi s) (edx s) (p_rdi s) (port21 s) (porta1 s) in
  if cl s0 >=? 8 then
    (* sub cl, 8 *)
    let rcx2 := set_cl s0 (cl s0 - 8) in
    let edx2 := shl32 1 (rcx2 mod 256) in
    let al1 := porta1 s0 in
    let al2 := Z.lor al1 (edx2 mod 256) in
    mkPic al2 rcx2 edx2 (p_rdi s0) (port21 s0) al2
  else
    let edx1 := shl32 1 (cl s0) in
    let al1 := port21 s0 in
    let al2 := Z.lor al1 (edx1 mod 256) in
    mkPic al2 (p_rcx s0) edx1 (p_rdi s0) al2 (porta1 s0).

End Interrupt.

(** ** main.c: memory once [interrupts_init] has run *)

Module Kmain.

(** [kmain] calls [page_init] and then [interrupts_init], which fills
    the IDT, the handler table and the thunks, the bytes of
    [0x1000, 0x3000).  The memory that paging.c then reads has the
    quadwords of the byte memory [b] there, and is as [page_init] left
    it elsewhere. *)
Definition after_interrupts_init (b : Interrupt.bytes) (s : Paging.state)
    : Paging.state :=
  Paging.set_mem s
    (fun a =>
       if (Interrupt.Mem_IDT <=? a) && (a + 8 <=? Interrupt.Mem_ISR_Thunks + 0x800)
       then Interrupt.load_le b a 8
       else load (Paging.mem s) a).

End Kmain.

(** ** Facts about machine integers *)

Lemma wrap64_small : forall x, 0 <= x < 2 ^ 64 -> wrap64 x = x.
Proof. intros. unfold wrap64. apply Z.mod_small. assumption. Qed.

(** ** Facts about outcomes *)

Section Outcomes.
Context {St : Type}.

Lemma bind_Ok : forall {A B : Type} (m : M St A) (f : A -> M St B) s b s',
  bind m f s = Ok b s' ->
  exists a s1, m s = Ok a s1 /\ f a s1 = Ok b s'.
Proof.
  intros A B m f s b s' H. unfold bind in H.
  destruct (m s) as [a s1| | |]; try discriminate. eauto.
Qed.

Lemma is_Ok_inv : forall {A : Type} (o : outcome St A),
  is_Ok o = true -> exists a s, o = Ok a s.
Proof. intros A [a s| | |] H; try discriminate. eauto. Qed.

Lemma is_Ok_chain : forall {A B : Type} (o : outcome St A)
    (k : A -> St -> outcome St B),
  match o with Ok a s => is_Ok (k a s) | _ => false end = true ->
  exists a s b s', o = Ok a s /\ k a s = Ok b s'.
Proof.
  intros A B [a s| | |] k H; try discriminate.
  destruct (is_Ok_inv _ H) as (b & s' & E). exists a, s, b, s'. auto.
Qed.

(** A run that returns with a result passing a boolean test. *)
Lemma outcome_check : forall {A : Type} (o : outcome St A) (P : A -> St -> bool),
  match o with Ok a s => P a s | _ => false end = true ->
  exists a s, o = Ok a s /\ P a s = true.
Proof. intros A [a s| | |] P H; try discriminate. eauto. Qed.

Lemma fatal_check : forall {A : Type} (o : outcome St A) (P : St -> bool),
  match o with Fatal s => P s | _ => false end = true ->
  exists s, o = Fatal s /\ P s = true.
Proof. intros A [a s|s| |] P H; try discriminate. eauto. Qed.

Lemma ret_Ok : forall {A : Type} (a b : A) (s s' : St),
  ret a s = Ok b s' -> b = a /\ s' = s.
Proof. intros A a b s s' H. injection H; auto. Qed.

Lemma in_indices : forall n i, In i (indices n) <-> 0 <= i < Z.of_nat n.
Proof.
  intros n i. unfold indices. rewrite in_map_iff. split.
  - intros (k & <- & Hk). apply in_seq in Hk. lia.
  - intros H. exists (Z.to_nat i). split; [lia|]. apply in_seq. lia.
Qed.

(** A relation between the state before and after that every iteration
    of a loop establishes holds of the whole loop. *)
Lemma for_each_rel : forall {A : Type} (R : St -> St -> Prop) (l : list A)
    (body : A -> M St unit),
  (forall s, R s s) ->
  (forall s1 s2 s3, R s1 s2 -> R s2 s3 -> R s1 s3) ->
  (forall x s u s', In x l -> body x s = Ok u s' -> R s s') ->
  forall s u s', for_each l body s = Ok u s' -> R s s'.
Proof.
  intros A R l body Hrefl Htrans.
  induction l as [|x l IH]; intros Hbody s u s' H; simpl in H.
  - apply ret_Ok in H as [_ ->]. apply Hrefl.
  - apply bind_Ok in H as (a & s1 & H1 & H2).
    eapply Htrans.
    + eapply Hbody; [left; reflexivity | exact H1].
    + eapply IH; [|exact H2]. intros; eapply Hbody; eauto. right; assumption.
Qed.

(** A loop whose iterations all return at once, changing nothing. *)
Lemma for_each_skip : forall {A : Type} (l : list A) (body : A -> M St unit) s,
  (forall x, In x l -> body x s = Ok tt s) ->
  for_each l body s = Ok tt s.
Proof.
  induction l as [|x l IH]; intros body s H; simpl; [reflexivity|].
  unfold bind. rewrite H by (left; reflexivity).
  apply IH. intros; apply H; right; assumption.
Qed.

Lemma bind_Fatal : forall {A B : Type} (m : M St A) (f : A -> M St B) s s',
  bind m f s = Fatal s' ->
  m s = Fatal s' \/ exists a s1, m s = Ok a s1 /\ f a s1 = Fatal s'.
Proof.
  intros A B m f s s' H. unfold bind in H.
  destruct (m s) as [a s1|s1| |]; try discriminate; [right; eauto | left; congruence].
Qed.

(** [respects R F m]: a run of [m] that returns relates the states by
    [R], and a run that ends in [fatal] does so in a state of [F]. *)
Definition respects {A : Type} (R : St -> St -> Prop) (F : St -> Prop)
    (m : M St A) : Prop :=
  forall s, match m s with
            | Ok _ s' => R s s'
            | Fatal s' => F s'
            | _ => True
            end.

Section Respects.
Variable R : St -> St -> Prop.
Variable F : St -> Prop.
Hypothesis R_refl : forall s, R s s.
Hypothesis R_trans : forall s1 s2 s3, R s1 s2 -> R s2 s3 -> R s1 s3.

Lemma respects_ret : forall {A : Type} (a : A), respects R F (ret a).
Proof. intros A a s. apply R_refl. Qed.

Lemma respects_bind : forall {A B : Type} (m : M St A) (f : A -> M St B),
  respects R F m -> (forall a, respects R F (f a)) -> respects R F (bind m f).
Proof.
  intros A B m f Hm Hf s. unfold bind. specialize (Hm s).
  destruct (m s) as [a s1|s1| |]; auto.
  specialize (Hf a s1). destruct (f a s1); auto. eapply R_trans; eauto.
Qed.

Lemma respects_for_each : forall {A : Type} (l : list A) (body : A -> M St unit),
  (forall x, respects R F (body x)) -> respects R F (for_each l body).
Proof.
  intros A l body H. induction l as [|x l IH]; simpl.
  - apply respects_ret.
  - apply respects_bind; auto.
Qed.

Lemma respects_Ok : forall {A : Type} (m : M St A) s a s',
  respects R F m -> m s = Ok a s' -> R s s'.
Proof. intros A m s a s' H E. specialize (H s). rewrite E in H. exact H. Qed.

Lemma respects_Fatal : forall {A : Type} (m : M St A) s s',
  respects R F m -> m s = Fatal s' -> F s'.
Proof. intros A m s s' H E. specialize (H s). rewrite E in H. exact H. Qed.

End Respects.

End Outcomes.

Ltac inv_bind H :=
  repeat match type of H with
  | bind _ _ _ = Ok _ _ =>
      let a := fresh "a" in let s := fresh "s" in
      let H1 := fresh "H" in
      apply bind_Ok in H as (a & s & H1 & H)
  end.

(** ** Facts about loops *)

Section WhileLoop.
Context {St : Type} (step : St -> option St).

Lemma while_loop_mono :
  forall fuel fuel' s r,
    while_loop fuel step s = Some r -> (fuel <= fuel')%nat ->
    while_loop fuel' step s = Some r.
Proof.
  induction fuel as [|n IH]; intros fuel' s r H Hle; simpl in H.
  - discriminate.
  - destruct fuel' as [|m]; [lia|]. simpl.
    destruct (step s) as [s'|]; auto.
    apply IH; auto. lia.
Qed.

Lemma while_loop_exit :
  forall fuel s r, while_loop fuel step s = Some r -> step r = None.
Proof.
  induction fuel as [|n IH]; intros s r H; simpl in H.
  - discriminate.
  - destruct (step s) as [s'|] eqn:E; eauto. congruence.
Qed.

Variable Inv : St -> Prop.
Variable mu : St -> nat.
Hypothesis step_ok :
  forall s s', Inv s -> step s = Some s' -> Inv s' /\ (mu s' < mu s)%nat.

Lemma while_loop_total :
  forall fuel s, Inv s -> (mu s < fuel)%nat ->
    exists r, while_loop fuel step s = Some r /\ Inv r /\ step r = None.
Proof.
  induction fuel as [|n IH]; intros s HI Hm; [lia|]. simpl.
  destruct (step s) as [s'|] eqn:E.
  - destruct (step_ok s s' HI E) as [HI' Hlt].
    apply IH; auto. lia.
  - exists s. auto.
Qed.
End WhileLoop.


Section WhileResult.
Context {St : Type} (step : St -> option St).
Variable Inv : St -> Prop.
Variable mu : St -> nat.
Hypothesis step_ok :
  forall s s', Inv s -> step s = Some s' -> Inv s' /\ (mu s' < mu s)%nat.

Lemma while_loop_result :
  forall s, Inv s ->
    exists r, (forall fuel, (mu s < fuel)%nat -> while_loop fuel step s = Some r)
              /\ Inv r /\ step r = None.
Proof.
  intros s HI.
  destruct (while_loop_total step Inv mu step_ok (S (mu s)) s HI (Nat.lt_succ_diag_r _))
    as (r & Hr & HIr & Hx).
  exists r. split; auto.
  intros fuel Hf. eapply while_loop_mono; eauto; lia.
Qed.
End WhileResult.

Module PmapFacts.
Import Pmap.

Definition le_region (a b : pmapregion) : Prop := cmp_region a b <= 0.
Definition sep (a b : pmapregion) : Prop := rend a <= addr b.

Lemma le_region_iff : forall a b,
  le_region a b <-> addr a < addr b \/ (addr a = addr b /\ size a <= size b).
Proof.
  intros a b. unfold le_region, cmp_region.
  destruct (Z.gtb_spec (addr a) (addr b)); [lia|].
  destruct (Z.ltb_spec (addr a) (addr b)); [lia|].
  destruct (Z.gtb_spec (size a) (size b)); [lia|].
  destruct (Z.ltb_spec (size a) (size b)); lia.
Qed.

Lemma cmp_region_lt_iff : forall a b,
  cmp_region a b < 0 <-> addr a < addr b \/ (addr a = addr b /\ size a < size b).
Proof.
  intros a b. unfold cmp_region.
  destruct (Z.gtb_spec (addr a) (addr b)); [lia|].
  destruct (Z.ltb_spec (addr a) (addr b)); [lia|].
  destruct (Z.gtb_spec (size a) (size b)); [lia|].
  destruct (Z.ltb_spec (size a) (size b)); lia.
Qed.

Lemma le_region_trans : forall a b c, le_region a b -> le_region b c -> le_region a c.
Proof. intros a b c. rewrite !le_region_iff. lia. Qed.

Lemma le_region_total : forall a b, le_region a b \/ le_region b a.
Proof. intros a b. rewrite !le_region_iff. lia. Qed.

(** [resort] *)

Lemma resort_from_perm : forall tl r, Permutation (resort_from r tl) (r :: tl).
Proof.
  induction tl as [|x tl IH]; intros r; simpl.
  - apply Permutation_refl.
  - destruct (cmp_region r x <? 0).
    + apply Permutation_refl.
    + eapply perm_trans; [apply perm_skip, IH | apply perm_swap].
Qed.

Lemma resort_perm : forall l, Permutation (resort l) l.
Proof. destruct l; simpl; [constructor | apply resort_from_perm]. Qed.

Lemma resort_from_sorted : forall tl r,
  StronglySorted le_region tl -> StronglySorted le_region (resort_from r tl).
Proof.
  induction tl as [|x tl IH]; intros r Hs; simpl.
  - repeat constructor.
  - inversion Hs as [|? ? Hs' Hall]; subst.
    destruct (Z.ltb_spec (cmp_region r x) 0) as [Hlt|Hge].
    + constructor; auto. constructor.
      * unfold le_region; lia.
      * eapply Forall_impl; [|exact Hall].
        intros y Hy. eapply le_region_trans; [|exact Hy]. unfold le_region; lia.
    + constructor; auto.
      eapply Permutation_Forall; [apply Permutation_sym, resort_from_perm|].
      constructor; auto.
      destruct (le_region_total x r) as [H|H]; auto.
      apply le_region_iff in H. apply le_region_iff.
      assert (~ cmp_region r x < 0) as Hn by lia.
      rewrite cmp_region_lt_iff in Hn. lia.
Qed.

Lemma resort_sorted : forall r tl,
  StronglySorted le_region tl -> StronglySorted le_region (resort (r :: tl)).
Proof. intros; simpl; apply resort_from_sorted; auto. Qed.

(** [qsort] *)

Lemma qsort_insert_perm : forall l r, Permutation (qsort_insert r l) (r :: l).
Proof.
  induction l as [|x l IH]; intros r; simpl.
  - apply Permutation_refl.
  - destruct (cmp_region r x <=? 0).
    + apply Permutation_refl.
    + eapply perm_trans; [apply perm_skip, IH | apply perm_swap].
Qed.

Lemma qsort_perm : forall l, Permutation (qsort l) l.
Proof.
  induction l as [|x l IH]; simpl; [constructor|].
  eapply perm_trans; [apply qsort_insert_perm | apply perm_skip, IH].
Qed.

Lemma qsort_insert_sorted : forall l r,
  StronglySorted le_region l -> StronglySorted le_region (qsort_insert r l).
Proof.
  induction l as [|x l IH]; intros r Hs; simpl.
  - repeat constructor.
  - inversion Hs as [|? ? Hs' Hall]; subst.
    destruct (Z.leb_spec (cmp_region r x) 0) as [Hle|Hgt].
    + constructor; auto. constructor; auto.
      eapply Forall_impl; [|exact Hall].
      intros y Hy. eapply le_region_trans; eauto.
    + constructor; auto.
      eapply Permutation_Forall; [apply Permutation_sym, qsort_insert_perm|].
      constructor; auto.
      destruct (le_region_total x r) as [H|H]; auto. unfold le_region in H. lia.
Qed.

Lemma qsort_sorted : forall l, StronglySorted le_region (qsort l).
Proof.
  induction l as [|x l IH]; simpl; [constructor|].
  apply qsort_insert_sorted; auto.
Qed.

Definition sum_sizes (l : list pmapregion) : Z :=
  fold_right (fun r acc => size r + acc) 0 l.

Lemma sum_sizes_perm : forall l l', Permutation l l' -> sum_sizes l = sum_sizes l'.
Proof. induction 1; simpl; lia. Qed.

Lemma sum_sizes_nonneg : forall l, Forall wf_region l -> 0 <= sum_sizes l.
Proof.
  induction 1 as [|r l Hr _ IH]; simpl; [lia|]. unfold wf_region in Hr. lia.
Qed.

(** [top_type] *)

Lemma omax_assoc : forall a b c, omax a (omax b c) = omax (omax a b) c.
Proof. intros [a|] [b|] [c|]; simpl; f_equal; lia. Qed.

Lemma omax_comm : forall a b, omax a b = omax b a.
Proof. intros [a|] [b|]; simpl; f_equal; lia. Qed.

Lemma top_type_cons : forall r l p,
  top_type (r :: l) p =
  omax (if covers r p then Some (type r) else None) (top_type l p).
Proof. intros. simpl. destruct (covers r p); reflexivity. Qed.

Lemma top_type_app : forall l1 l2 p,
  top_type (l1 ++ l2) p = omax (top_type l1 p) (top_type l2 p).
Proof.
  induction l1 as [|r l1 IH]; intros l2 p.
  - reflexivity.
  - rewrite <- app_comm_cons, !top_type_cons, IH, omax_assoc. reflexivity.
Qed.

Lemma top_type_perm : forall l l' p,
  Permutation l l' -> top_type l p = top_type l' p.
Proof.
  induction 1.
  - reflexivity.
  - rewrite !top_type_cons. congruence.
  - rewrite !top_type_cons, !omax_assoc.
    f_equal. apply omax_comm.
  - congruence.
Qed.

(** *** The loop of [collapse_overlaps] *)

Record co_inv (c : cursor) : Prop := mk_co_inv {
  co_wf     : Forall wf_region (cursor_all c);
  co_sorted : StronglySorted le_region (from c);
  co_below  : StronglySorted sep (below c);
  co_ahead  : Forall (fun b => Forall (sep b) (from c)) (below c)
}.

Definition co_mu (c : cursor) : nat :=
  (Z.to_nat (2 * sum_sizes (from c)) + length (from c))%nat.

Lemma StronglySorted_snoc : forall (R : pmapregion -> pmapregion -> Prop) l x,
  StronglySorted R l -> Forall (fun b => R b x) l -> StronglySorted R (l ++ [x]).
Proof.
  induction l as [|a l IH]; intros x Hs Hall; simpl.
  - repeat constructor.
  - inversion Hs; subst. inversion Hall; subst.
    constructor; auto. apply Forall_app; auto.
Qed.

Lemma co_inv_same_below : forall b curr tl f',
  co_inv (mkCursor b (curr :: tl)) ->
  Forall wf_region f' ->
  StronglySorted le_region f' ->
  Forall (fun x => addr curr <= addr x) f' ->
  co_inv (mkCursor b f').
Proof.
  intros b curr tl f' [Hwf Hs Hb Ha] Hwf' Hs' Hlo.
  unfold cursor_all in *; simpl in *.
  apply Forall_app in Hwf as [Hwb _].
  constructor; simpl; auto.
  - unfold cursor_all; simpl. apply Forall_app; auto.
  - eapply Forall_impl; [|exact Ha]. intros x Hx.
    inversion Hx as [|? ? Hc _]; subst.
    eapply Forall_impl; [|exact Hlo]. unfold sep in *. intros; simpl in *; lia.
Qed.

Lemma co_inv_advance : forall b curr next rest,
  co_inv (mkCursor b (curr :: next :: rest)) ->
  rend curr <= addr next ->
  co_inv (mkCursor (b ++ [curr]) (next :: rest)).
Proof.
  intros b curr next rest [Hwf Hs Hb Ha] Hsep.
  unfold cursor_all in *; simpl in *.
  inversion Hs as [|? ? Hs' Hall]; subst.
  constructor; simpl; auto.
  - unfold cursor_all; simpl. rewrite <- app_assoc. exact Hwf.
  - apply StronglySorted_snoc; auto.
    eapply Forall_impl; [|exact Ha]. intros x Hx. inversion Hx; auto.
  - apply Forall_app. split.
    + eapply Forall_impl; [|exact Ha]. intros x Hx. inversion Hx; auto.
    + constructor; [|constructor].
      inversion Hs' as [|? ? _ Hall']; subst.
      constructor; auto.
      eapply Forall_impl; [|exact Hall']. intros y Hy.
      apply le_region_iff in Hy. unfold sep. lia.
Qed.

Ltac region_arith :=
  unfold sep, wf_region, rend, set_size, set_addr in *;
  cbn [addr size type flags] in *;
  rewrite ?le_region_iff in *;
  cbn [addr size type flags] in *; try lia.

Lemma sum_sizes_cons : forall r l, sum_sizes (r :: l) = size r + sum_sizes l.
Proof. reflexivity. Qed.

Lemma sum_sizes_resort : forall l, sum_sizes (resort l) = sum_sizes l.
Proof. intros. apply sum_sizes_perm, resort_perm. Qed.

Lemma length_resort : forall l, length (resort l) = length l.
Proof. intros. apply Permutation_length, resort_perm. Qed.

Lemma co_mu_lt : forall b b' f f',
  0 <= sum_sizes f' ->
  2 * sum_sizes f' + Z.of_nat (length f') < 2 * sum_sizes f + Z.of_nat (length f) ->
  (co_mu (mkCursor b' f') < co_mu (mkCursor b f))%nat.
Proof. intros. unfold co_mu; cbn [from]. lia. Qed.

Ltac mu_arith :=
  apply co_mu_lt;
  cbn [length];
  repeat (rewrite sum_sizes_resort || rewrite length_resort ||
          rewrite sum_sizes_cons || (progress cbn [length]));
  rewrite ?Nat2Z.inj_succ; region_arith.

Lemma Forall_resort : forall (P : pmapregion -> Prop) l,
  Forall P l -> Forall P (resort l).
Proof.
  intros P l H. eapply Permutation_Forall; [apply Permutation_sym, resort_perm|auto].
Qed.

Lemma covers_iff : forall r p, covers r p = true <-> addr r <= p < rend r.
Proof. intros. unfold covers. rewrite andb_true_iff, Z.leb_le, Z.ltb_lt. tauto. Qed.

Ltac split_covers :=
  repeat match goal with
  | |- context [covers ?r ?p] =>
      let E := fresh "E" in
      destruct (covers r p) eqn:E;
      [apply covers_iff in E | apply not_true_iff_false in E; rewrite covers_iff in E]
  end.

Ltac refold_resort :=
  repeat match goal with
  | |- context [resort_from ?r ?tl] =>
      change (resort_from r tl) with (resort (r :: tl))
  end.

Lemma collapse_overlaps_step_ok : forall c c',
  co_inv c -> collapse_overlaps_step c = Some c' ->
  co_inv c' /\ (co_mu c' < co_mu c)%nat /\
  (forall p, top_type (cursor_all c') p = top_type (cursor_all c) p).
Proof.
  intros [b f] c' Hinv Hstep.
  destruct f as [|curr [|next rest]]; try discriminate.
  pose proof Hinv as [Hwf Hs _ _]. unfold cursor_all in Hwf; simpl in Hwf, Hs.
  apply Forall_app in Hwf as [_ Hwf].
  inversion Hwf as [|? ? Hwc Hwf']; subst.
  inversion Hwf' as [|? ? Hwn Hwr]; subst.
  inversion Hs as [|? ? Hs' Hcall]; subst.
  inversion Hcall as [|? ? Hcn Hcr]; subst.
  inversion Hs' as [|? ? Hsr Hnr]; subst.
  pose proof (sum_sizes_nonneg _ Hwr) as Hnn.
  unfold collapse_overlaps_step in Hstep; cbn [from below] in Hstep; cbv zeta in Hstep.
  rewrite (wrap64_small (addr curr + size curr)) in Hstep
    by (unfold wf_region, rend in *; lia).
  rewrite (wrap64_small (addr next + size next)) in Hstep
    by (unfold wf_region, rend in *; lia).
  assert (Htop : forall f', (forall p, top_type f' p = top_type (curr :: next :: rest) p) ->
            forall p, top_type (cursor_all (mkCursor b f')) p =
                      top_type (cursor_all (mkCursor b (curr :: next :: rest))) p).
  { intros f' H p. unfold cursor_all; simpl. rewrite !top_type_app. f_equal. apply H. }
  destruct (Z.eqb_spec (size curr) 0) as [Hz|Hz].
  { unfold wf_region in Hwc. lia. }
  destruct (Z.leb_spec (Z.min (addr curr + size curr) (addr next + size next))
                       (Z.max (addr curr) (addr next))) as [Hno|Hov].
  { (* no overlap: curr++ *)
    injection Hstep as <-; refold_resort.
    split; [|split].
    - apply co_inv_advance; auto. region_arith.
    - mu_arith.
    - intros p. unfold cursor_all; simpl. rewrite <- app_assoc. reflexivity. }
  assert (Hrest_lo : Forall (fun x => addr curr <= addr x) rest).
  { eapply Forall_impl; [|exact Hcr]. intros x Hx. region_arith. }
  destruct (Z.eqb_spec (addr curr) (addr next)) as [Hl|Hl].
  - destruct (Z.eqb_spec (addr curr + size curr) (addr next + size next)) as [Hr|Hr].
    + destruct (Z.gtb_spec (type next) (type curr)) as [Ht|Ht];
        injection Hstep as <-; refold_resort.
      * split; [|split].
        -- apply (co_inv_same_below b curr (next :: rest) _ Hinv); auto. constructor; auto. lia.
        -- mu_arith.
        -- apply Htop. intros p. rewrite !top_type_cons, omax_assoc. f_equal.
           unfold covers, rend. rewrite Hl. replace (addr next + size curr) with (addr next + size next) by lia.
           destruct (_ && _); simpl; f_equal; lia.
      * split; [|split].
        -- apply (co_inv_same_below b curr (next :: rest) _ Hinv).
           ++ constructor; auto. 
           ++ constructor; auto.
           ++ constructor; auto. lia.
        -- mu_arith.
        -- apply Htop. intros p. rewrite !top_type_cons, omax_assoc. f_equal.
           unfold covers, rend. rewrite Hl. replace (addr next + size curr) with (addr next + size next) by lia.
           destruct (_ && _); simpl; f_equal; lia.
    + destruct (Z.gtb_spec (type next) (type curr)) as [Ht|Ht];
        injection Hstep as <-; refold_resort.
      * split; [|split].
        -- apply (co_inv_same_below b curr (next :: rest) _ Hinv); auto. constructor; auto. lia.
        -- mu_arith.
        -- apply Htop. intros p. rewrite !top_type_cons, omax_assoc. f_equal.
           split_covers; simpl; f_equal; region_arith.
      * rewrite wrap64_small by region_arith.
        split; [|split].
        -- apply (co_inv_same_below b curr (next :: rest) _ Hinv).
           ++ constructor; auto. apply Forall_resort. constructor; auto. region_arith.
           ++ constructor.
              ** apply resort_sorted; auto.
              ** apply Forall_resort. constructor; auto. region_arith.
           ++ constructor; [lia|]. apply Forall_resort. constructor; auto. region_arith.
        -- mu_arith.
        -- apply Htop. intros p.
           rewrite top_type_cons, (top_type_perm _ _ p (resort_perm _)), !top_type_cons, !omax_assoc.
           f_equal.
           split_covers; simpl; f_equal; region_arith.
  - destruct (Z.eqb_spec (addr curr + size curr) (addr next + size next)) as [Hr|Hr].
    + destruct (Z.gtb_spec (type next) (type curr)) as [Ht|Ht];
        injection Hstep as <-; refold_resort.
      * rewrite wrap64_small by region_arith.
        split; [|split].
        -- apply (co_inv_same_below b curr (next :: rest) _ Hinv).
           ++ constructor; auto. region_arith.
           ++ constructor; auto. constructor; [region_arith|].
              eapply Forall_impl; [|exact Hcr]. intros x Hx. region_arith.
           ++ constructor; [simpl; lia|]. constructor; auto. region_arith.
        -- mu_arith.
        -- apply Htop. intros p. rewrite !top_type_cons, !omax_assoc. f_equal.
           split_covers; simpl; f_equal; region_arith.
      * split; [|split].
        -- apply (co_inv_same_below b curr (next :: rest) _ Hinv).
           ++ constructor; auto.
           ++ constructor; auto.
           ++ constructor; auto. lia.
        -- mu_arith.
        -- apply Htop. intros p. rewrite !top_type_cons, !omax_assoc. f_equal.
           split_covers; simpl; f_equal; region_arith.
    + destruct (Z.ltb_spec (addr curr + size curr) (addr next + size next)) as [Hlt|Hge].
      * destruct (Z.gtb_spec (type next) (type curr)) as [Ht|Ht];
          injection Hstep as <-; refold_resort.
        -- rewrite wrap64_small by region_arith.
           split; [|split].
           ++ apply (co_inv_same_below b curr (next :: rest) _ Hinv).
              ** constructor; auto. region_arith.
              ** constructor; auto. constructor; [region_arith|].
                 eapply Forall_impl; [|exact Hcr]. intros x Hx. region_arith.
              ** constructor; [simpl; lia|]. constructor; auto. region_arith.
           ++ mu_arith.
           ++ apply Htop. intros p. rewrite !top_type_cons, !omax_assoc. f_equal.
              split_covers; simpl; f_equal; region_arith.
        -- rewrite wrap64_small by region_arith.
           split; [|split].
           ++ apply (co_inv_same_below b curr (next :: rest) _ Hinv).
              ** constructor; auto. apply Forall_resort. constructor; auto. region_arith.
              ** constructor.
                 --- apply resort_sorted; auto.
                 --- apply Forall_resort. constructor; auto. region_arith.
              ** constructor; [lia|]. apply Forall_resort. constructor; auto. region_arith.
           ++ mu_arith.
           ++ apply Htop. intros p.
              rewrite top_type_cons, (top_type_perm _ _ p (resort_perm _)), !top_type_cons, !omax_assoc.
              f_equal.
              split_covers; simpl; f_equal; region_arith.
      * destruct (Z.gtb_spec (type next) (type curr)) as [Ht|Ht];
          injection Hstep as <-; refold_resort.
        -- rewrite !wrap64_small by region_arith.
           split; [|split].
           ++ apply (co_inv_same_below b curr (next :: rest) _ Hinv).
              ** constructor; [region_arith|]. constructor; auto.
                 apply Forall_resort. constructor; auto. region_arith.
              ** constructor; [constructor|].
                 --- apply resort_sorted; auto.
                 --- apply Forall_resort. constructor; auto. region_arith.
                 --- constructor; [region_arith|].
                     apply Forall_resort. constructor; [region_arith|].
                     eapply Forall_impl; [|exact Hcr]. intros x Hx. region_arith.
              ** constructor; [simpl; lia|]. constructor; [region_arith|].
                 apply Forall_resort. constructor; auto. region_arith.
           ++ mu_arith.
           ++ apply Htop. intros p.
              rewrite !top_type_cons, (top_type_perm _ _ p (resort_perm _)), !top_type_cons, !omax_assoc.
              f_equal.
              split_covers; simpl; f_equal; region_arith.
        -- split; [|split].
           ++ apply (co_inv_same_below b curr (next :: rest) _ Hinv).
              ** constructor; auto.
              ** constructor; auto.
              ** constructor; auto. lia.
           ++ mu_arith.
           ++ apply Htop. intros p. rewrite !top_type_cons, !omax_assoc. f_equal.
              split_covers; simpl; f_equal; region_arith.
Qed.

Definition contig (a b : pmapregion) : Prop := rend a = addr b.
Definition typediff (a b : pmapregion) : Prop := type a <> type b.

Lemma adjacent_app_cons : forall R l1 x l2,
  adjacent R (l1 ++ x :: l2) <-> adjacent R (l1 ++ [x]) /\ adjacent R (x :: l2).
Proof.
  intros R; induction l1 as [|a l1 IH]; intros x l2.
  - simpl. tauto.
  - destruct l1 as [|b l1].
    + simpl. tauto.
    + specialize (IH x l2). simpl in *. tauto.
Qed.

Lemma adjacent_snoc : forall R l x y,
  adjacent R (l ++ [x]) -> R x y -> adjacent R ((l ++ [x]) ++ [y]).
Proof.
  intros R l x y H Hxy. rewrite <- app_assoc. simpl.
  apply adjacent_app_cons. split; auto. simpl. auto.
Qed.

Lemma adjacent_snoc_congr : forall (R : pmapregion -> pmapregion -> Prop) l x x',
  (forall a, R a x -> R a x') ->
  adjacent R (l ++ [x]) -> adjacent R (l ++ [x']).
Proof.
  intros R; induction l as [|a l IH]; intros x x' Hc H.
  - simpl. auto.
  - destruct l as [|b l].
    + simpl in *. intuition.
    + specialize (IH x x' Hc). simpl in *. intuition.
Qed.

Lemma adjacent_impl : forall (R R' : pmapregion -> pmapregion -> Prop) l,
  (forall a b, In a l -> In b l -> R a b -> R' a b) -> adjacent R l -> adjacent R' l.
Proof.
  intros R R'; induction l as [|a l IH]; intros Hi H; simpl; auto.
  destruct l as [|b l]; auto. simpl in H. destruct H as [Hab H]. split.
  - apply Hi; simpl; auto.
  - apply IH; auto. intros. apply Hi; auto using in_cons.
Qed.

Lemma StronglySorted_adjacent : forall (R : pmapregion -> pmapregion -> Prop) l,
  StronglySorted R l -> adjacent R l.
Proof.
  induction 1 as [|a l Hs IH Hall]; simpl; auto.
  destruct l; auto. inversion Hall; auto.
Qed.

Lemma StronglySorted_app_iff : forall (R : pmapregion -> pmapregion -> Prop) l1 l2,
  StronglySorted R (l1 ++ l2) <->
  StronglySorted R l1 /\ StronglySorted R l2 /\ Forall (fun a => Forall (R a) l2) l1.
Proof.
  intros R; induction l1 as [|a l1 IH]; intros l2; simpl.
  - split; [intros H; repeat split; auto; constructor | tauto].
  - split.
    + intros H. inversion H as [|? ? Hs Hall]; subst.
      apply IH in Hs as (H1 & H2 & H3). apply Forall_app in Hall as [Ha1 Ha2].
      repeat split; auto; constructor; auto.
    + intros (H1 & H2 & H3). inversion H1; subst. inversion H3; subst.
      constructor.
      * apply IH; auto.
      * apply Forall_app; auto.
Qed.

Ltac exit_cases H :=
  repeat match type of H with
  | (if ?c then _ else _) = None => destruct c
  | (let _ := _ in _) = None => cbv zeta in H
  end; try discriminate.

Lemma collapse_overlaps_step_none : forall c,
  collapse_overlaps_step c = None -> (length (from c) <= 1)%nat.
Proof.
  intros [b [|x [|y f]]] H; simpl; try lia.
  unfold collapse_overlaps_step in H; cbn [from below] in H. exit_cases H.
Qed.

Lemma fill_gaps_step_none : forall ty c,
  fill_gaps_step ty c = None -> (length (from c) <= 1)%nat.
Proof.
  intros ty [b [|x [|y f]]] H; simpl; try lia.
  unfold fill_gaps_step in H; cbn [from below] in H. exit_cases H.
Qed.

Lemma consolidate_neighbors_step_none : forall c,
  consolidate_neighbors_step c = None -> (length (from c) <= 1)%nat.
Proof.
  intros [b [|x [|y f]]] H; simpl; try lia.
  unfold consolidate_neighbors_step in H; cbn [from below] in H. exit_cases H.
Qed.

(** The result of [collapse_overlaps] on a sorted array of well-formed
    records. *)
Lemma collapse_overlaps_spec : forall l,
  Forall wf_region l -> StronglySorted le_region l ->
  exists l1 fuel0,
    (forall fuel, (fuel0 <= fuel)%nat -> collapse_overlaps fuel l = Some l1) /\
    Forall wf_region l1 /\ StronglySorted sep l1 /\
    (forall p, top_type l1 p = top_type l p).
Proof.
  intros l Hwf Hs.
  pose (Inv := fun c => co_inv c /\ forall p, top_type (cursor_all c) p = top_type l p).
  destruct (while_loop_result collapse_overlaps_step Inv co_mu) with (s := cursor_at_start l)
    as (r & Hrun & [Hinv Htop] & Hexit).
  - intros s s' [Hi Ht] Hst.
    destruct (collapse_overlaps_step_ok s s' Hi Hst) as (Hi' & Hmu & Ht').
    split; auto. split; auto. intros p. rewrite Ht'. apply Ht.
  - split; [|reflexivity].
    constructor; simpl; auto. constructor.
  - exists (cursor_all r), (S (co_mu (cursor_at_start l))).
    split; [|split; [|split]].
    + intros fuel Hf. unfold collapse_overlaps. rewrite Hrun by lia. reflexivity.
    + apply Hinv.
    + destruct Hinv as [_ Hsr Hb Ha]. unfold cursor_all.
      apply StronglySorted_app_iff. repeat split; auto.
      apply collapse_overlaps_step_none in Hexit.
      destruct (from r) as [|x [|y f]]; simpl in Hexit; try lia; repeat constructor.
    + exact Htop.
Qed.

(** *** The loop of [fill_gaps] *)

Fixpoint gaps (l : list pmapregion) : nat :=
  match l with
  | a :: ((b :: _) as tl) => ((if (rend a =? addr b)%Z then 0 else 1) + gaps tl)%nat
  | _ => 0%nat
  end.

Lemma gaps_cons2 : forall a b l,
  gaps (a :: b :: l) = ((if (rend a =? addr b)%Z then 0 else 1) + gaps (b :: l))%nat.
Proof. reflexivity. Qed.

Lemma gaps_head_congr : forall b b' l, rend b' = rend b -> gaps (b' :: l) = gaps (b :: l).
Proof. intros b b' [|x l] H; simpl; [reflexivity | rewrite H; reflexivity]. Qed.

Ltac gaps_arith :=
  unfold rend, set_size, set_addr in *; cbn [addr size type flags] in *;
  repeat match goal with
  | |- context [(?a =? ?b)%Z] => destruct (Z.eqb_spec a b)
  end; try lia.

Record fg_inv (c : cursor) : Prop := mk_fg_inv {
  fg_wf     : Forall wf_region (cursor_all c);
  fg_sorted : StronglySorted sep (cursor_all c);
  fg_contig : adjacent contig (below c ++ firstn 1 (from c))
}.

Definition fg_mu (c : cursor) : nat := (3 * gaps (from c) + length (from c))%nat.

Lemma top_type_none : forall l p,
  Forall (fun r => covers r p = false) l -> top_type l p = None.
Proof.
  induction 1 as [|r l Hr _ IH]; simpl; auto. rewrite Hr. auto.
Qed.

Lemma covers_false_iff : forall r p, covers r p = false <-> ~ (addr r <= p < rend r).
Proof. intros. rewrite <- covers_iff. destruct (covers r p); split; congruence. Qed.

Lemma top_type_gap : forall b curr next rest p,
  Forall wf_region (b ++ curr :: next :: rest) ->
  StronglySorted sep (b ++ curr :: next :: rest) ->
  rend curr <= p < addr next ->
  top_type (b ++ curr :: next :: rest) p = None.
Proof.
  intros b curr next rest p Hwf Hs Hp.
  apply top_type_none.
  apply StronglySorted_app_iff in Hs as (Hb & Hf & Hbf).
  apply Forall_app in Hwf as [Hwb Hwf].
  inversion Hwf as [|? ? Hwc Hwf']; subst. inversion Hwf' as [|? ? Hwn Hwr]; subst.
  inversion Hf as [|? ? Hf' Hc]; subst. inversion Hf' as [|? ? Hf'' Hn]; subst.
  apply Forall_app. split.
  - rewrite Forall_forall in *. intros x Hx.
    specialize (Hbf x Hx). inversion Hbf; subst.
    apply covers_false_iff. region_arith.
  - constructor; [|constructor].
    + apply covers_false_iff. region_arith.
    + apply covers_false_iff. region_arith.
    + rewrite Forall_forall in *. intros x Hx. specialize (Hn x Hx). specialize (Hwr x Hx).
      apply covers_false_iff. region_arith.
Qed.

Lemma fill_gaps_step_ok : forall ty c c',
  fg_inv c -> fill_gaps_step ty c = Some c' ->
  fg_inv c' /\ (fg_mu c' < fg_mu c)%nat /\
  (forall p, top_type (cursor_all c) p <> None ->
             top_type (cursor_all c') p = top_type (cursor_all c) p).
Proof.
  intros ty [b f] c' [Hwf Hs Hc] Hstep.
  destruct f as [|curr [|next rest]]; try discriminate.
  unfold cursor_all in *; cbn [below from firstn] in *.
  pose proof Hwf as Hwf0. pose proof Hs as Hs0.
  apply Forall_app in Hwf as [Hwb Hwf].
  inversion Hwf as [|? ? Hwc Hwf']; subst. inversion Hwf' as [|? ? Hwn Hwr]; subst.
  apply StronglySorted_app_iff in Hs as (Hsb & Hsf & Hbf).
  inversion Hsf as [|? ? Hsf' Hcall]; subst. inversion Hcall as [|? ? Hcn Hcr]; subst.
  inversion Hsf' as [|? ? Hsr Hnr]; subst.
  unfold fill_gaps_step in Hstep; cbn [from below] in Hstep; cbv zeta in Hstep.
  rewrite (wrap64_small (addr curr + size curr)) in Hstep by region_arith.
  destruct (Z.eqb_spec (addr curr + size curr) (addr next)) as [Heq|Hne].
  { injection Hstep as <-. cbn [below from firstn]. split; [|split].
    - constructor; unfold cursor_all; cbn [below from].
      + rewrite <- app_assoc. exact Hwf0.
      + rewrite <- app_assoc. exact Hs0.
      + cbn [firstn]. apply adjacent_snoc; auto.
    - unfold fg_mu; cbn [from length]. rewrite gaps_cons2. gaps_arith.
    - intros p _. unfold cursor_all; cbn [below from]. rewrite <- app_assoc. reflexivity. }
  assert (Hgap : addr curr + size curr < addr next) by region_arith.
  rewrite (wrap64_small (addr next - (addr curr + size curr))) in Hstep by region_arith.
  assert (Htopgap : forall p, top_type (b ++ curr :: next :: rest) p <> None ->
             ~ (rend curr <= p < addr next)).
  { intros p Hp Hin. apply Hp. apply top_type_gap; auto. }
  assert (Hahead : forall f', Forall (fun x => addr curr <= addr x) f' ->
             Forall (fun a => Forall (sep a) f') b).
  { intros f' Hlo. eapply Forall_impl; [|exact Hbf]. intros a Ha.
    inversion Ha; subst. eapply Forall_impl; [|exact Hlo]. intros; region_arith. }
  destruct (Z.eqb_spec (type curr) ty) as [Htc|Htc].
  { injection Hstep as <-. rewrite wrap64_small by region_arith.
    unfold cursor_all; cbn [below from firstn]. split; [|split].
    - constructor; unfold cursor_all; cbn [below from firstn].
      + apply Forall_app. split; auto. constructor; auto. region_arith.
      + apply StronglySorted_app_iff. repeat split; auto.
        * constructor; auto. constructor; [region_arith|].
          eapply Forall_impl; [|exact Hnr]. intros; region_arith.
        * apply Hahead. constructor; [simpl; lia|]. constructor; [region_arith|].
          eapply Forall_impl; [|exact Hcr]. intros; region_arith.
      + eapply adjacent_snoc_congr; [|exact Hc]. intros a. unfold contig. simpl. auto.
    - unfold fg_mu; cbn [from length]. rewrite !gaps_cons2. gaps_arith.
    - intros p Hp. specialize (Htopgap p Hp).
      rewrite !top_type_app. f_equal. rewrite !top_type_cons, !omax_assoc. f_equal.
      split_covers; simpl; f_equal; region_arith. }
  destruct (Z.eqb_spec (type next) ty) as [Htn|Htn].
  { injection Hstep as <-. rewrite wrap64_small by region_arith.
    unfold cursor_all; cbn [below from firstn]. split; [|split].
    - constructor; unfold cursor_all; cbn [below from firstn].
      + apply Forall_app. split; auto. constructor; auto. constructor; auto. region_arith.
      + apply StronglySorted_app_iff. repeat split; auto.
        * constructor.
          -- constructor; auto. eapply Forall_impl; [|exact Hnr]. intros; region_arith.
          -- constructor; [region_arith|auto].
        * apply Hahead. constructor; [lia|]. constructor; [region_arith|].
          eapply Forall_impl; [|exact Hcr]. intros; region_arith.
      + exact Hc.
    - unfold fg_mu; cbn [from length]. rewrite !gaps_cons2.
      rewrite (gaps_head_congr next (set_addr (set_size next (size next + (addr next - (addr curr + size curr)))) (addr curr + size curr)) rest)
        by (unfold rend; simpl; lia).
      gaps_arith.
    - intros p Hp. specialize (Htopgap p Hp).
      rewrite !top_type_app. f_equal. rewrite !top_type_cons, !omax_assoc. f_equal.
      split_covers; simpl; f_equal; region_arith. }
  injection Hstep as <-.
  unfold cursor_all; cbn [below from firstn]. split; [|split].
  - constructor; unfold cursor_all; cbn [below from firstn].
    + apply Forall_app. split; auto. constructor; auto. constructor; auto. region_arith.
    + apply StronglySorted_app_iff. repeat split; auto.
      * constructor.
        -- constructor; auto. constructor; [region_arith|].
           eapply Forall_impl; [|exact Hnr]. intros; region_arith.
        -- constructor; [region_arith|auto].
      * apply Hahead. constructor; [lia|]. constructor; [region_arith|].
        constructor; [region_arith|].
        eapply Forall_impl; [|exact Hcr]. intros; region_arith.
    + exact Hc.
  - unfold fg_mu; cbn [from length]. rewrite !gaps_cons2. gaps_arith.
  - intros p Hp. specialize (Htopgap p Hp).
    rewrite !top_type_app. f_equal. rewrite !top_type_cons, !omax_assoc.
    split_covers; simpl; try reflexivity; region_arith.
Qed.

Lemma fill_gaps_spec : forall ty l1,
  Forall wf_region l1 -> StronglySorted sep l1 ->
  exists l2 fuel0,
    (forall fuel, (fuel0 <= fuel)%nat -> fill_gaps fuel ty l1 = Some l2) /\
    Forall wf_region l2 /\ adjacent contig l2 /\
    (forall p, top_type l1 p <> None -> top_type l2 p = top_type l1 p).
Proof.
  intros ty l Hwf Hs.
  pose (Inv := fun c => fg_inv c /\
     forall p, top_type l p <> None -> top_type (cursor_all c) p = top_type l p).
  destruct (while_loop_result (fill_gaps_step ty) Inv fg_mu) with (s := cursor_at_start l)
    as (r & Hrun & [Hinv Htop] & Hexit).
  - intros s s' [Hi Ht] Hst.
    destruct (fill_gaps_step_ok ty s s' Hi Hst) as (Hi' & Hmu & Ht').
    split; auto. split; auto. intros p Hp. rewrite Ht'; [auto|]. rewrite Ht; auto.
  - split; [|reflexivity].
    constructor; simpl; auto. destruct l; simpl; auto.
  - exists (cursor_all r), (S (fg_mu (cursor_at_start l))).
    split; [|split; [|split]].
    + intros fuel Hf. unfold fill_gaps. rewrite Hrun by lia. reflexivity.
    + apply Hinv.
    + destruct Hinv as [_ _ Hc]. unfold cursor_all.
      apply fill_gaps_step_none in Hexit.
      destruct (from r) as [|x [|y f]]; simpl in Hexit; try lia; exact Hc.
    + exact Htop.
Qed.

(** *** The loop of [consolidate_neighbors] *)

Record cn_inv (c : cursor) : Prop := mk_cn_inv {
  cn_wf     : Forall wf_region (cursor_all c);
  cn_contig : adjacent contig (cursor_all c);
  cn_types  : adjacent typediff (below c ++ firstn 1 (from c))
}.

Definition cn_mu (c : cursor) : nat := length (from c).

Lemma consolidate_neighbors_step_ok : forall c c',
  cn_inv c -> consolidate_neighbors_step c = Some c' ->
  cn_inv c' /\ (cn_mu c' < cn_mu c)%nat /\
  (forall p, top_type (cursor_all c') p = top_type (cursor_all c) p).
Proof.
  intros [b f] c' [Hwf Hc Ht] Hstep.
  destruct f as [|curr [|next rest]]; try discriminate.
  unfold cursor_all in *; cbn [below from firstn] in *.
  pose proof Hwf as Hwf0. pose proof Hc as Hc0.
  apply Forall_app in Hwf as [Hwb Hwf].
  inversion Hwf as [|? ? Hwc Hwf']; subst. inversion Hwf' as [|? ? Hwn Hwr]; subst.
  apply adjacent_app_cons in Hc as [Hcb Hcf].
  cbn [adjacent] in Hcf. destruct Hcf as [Hcn Hcf].
  unfold consolidate_neighbors_step in Hstep; cbn [from below] in Hstep.
  destruct (Z.eqb_spec (type curr) (type next)) as [Heq|Hne]; injection Hstep as <-.
  - rewrite wrap64_small by (unfold contig in Hcn; region_arith).
    unfold cursor_all; cbn [below from firstn]. split; [|split].
    + constructor; unfold cursor_all; cbn [below from firstn].
      * apply Forall_app. split; auto. constructor; auto.
        unfold contig in Hcn; region_arith.
      * apply adjacent_app_cons. split.
        -- eapply adjacent_snoc_congr; [|exact Hcb]. intros a; unfold contig; simpl; auto.
        -- destruct rest as [|z rest]; simpl; auto. simpl in Hcf. destruct Hcf as [Hnz Hcf].
           split; auto. unfold contig in *; region_arith.
      * eapply adjacent_snoc_congr; [|exact Ht]. intros a; unfold typediff; simpl; auto.
    + unfold cn_mu; simpl; lia.
    + intros p. rewrite !top_type_app. f_equal. rewrite !top_type_cons, !omax_assoc. f_equal.
      unfold contig in Hcn.
      split_covers; simpl; f_equal; region_arith.
  - unfold cursor_all; cbn [below from firstn]. split; [|split].
    + constructor; unfold cursor_all; cbn [below from firstn].
      * rewrite <- app_assoc. exact Hwf0.
      * rewrite <- app_assoc. exact Hc0.
      * apply adjacent_snoc; auto.
    + unfold cn_mu; simpl; lia.
    + intros p. rewrite <- app_assoc. reflexivity.
Qed.

Lemma consolidate_neighbors_spec : forall l2,
  Forall wf_region l2 -> adjacent contig l2 ->
  exists l3 fuel0,
    (forall fuel, (fuel0 <= fuel)%nat -> consolidate_neighbors fuel l2 = Some l3) /\
    Forall wf_region l3 /\ adjacent contig l3 /\ adjacent typediff l3 /\
    (forall p, top_type l3 p = top_type l2 p).
Proof.
  intros l Hwf Hc.
  pose (Inv := fun c => cn_inv c /\
     forall p, top_type (cursor_all c) p = top_type l p).
  destruct (while_loop_result consolidate_neighbors_step Inv cn_mu) with (s := cursor_at_start l)
    as (r & Hrun & [Hinv Htop] & Hexit).
  - intros s s' [Hi Ht] Hst.
    destruct (consolidate_neighbors_step_ok s s' Hi Hst) as (Hi' & Hmu & Ht').
    split; auto. split; auto. intros p. rewrite Ht'. auto.
  - split; [|reflexivity].
    constructor; simpl; auto. destruct l; simpl; auto.
  - exists (cursor_all r), (S (cn_mu (cursor_at_start l))).
    split; [|split; [|split; [|split]]].
    + intros fuel Hf. unfold consolidate_neighbors. rewrite Hrun by lia. reflexivity.
    + apply Hinv.
    + apply Hinv.
    + destruct Hinv as [_ _ Ht]. unfold cursor_all.
      apply consolidate_neighbors_step_none in Hexit.
      destruct (from r) as [|x [|y f]]; simpl in Hexit; try lia; exact Ht.
    + exact Htop.
Qed.

(** *** Records in a row *)

Lemma contig_sorted : forall l,
  Forall wf_region l -> adjacent contig l -> StronglySorted sep l.
Proof.
  induction l as [|a l IH]; intros Hwf Hc; [constructor|].
  inversion Hwf as [|? ? Hwa Hwl]; subst.
  destruct l as [|b l]; [repeat constructor|].
  simpl in Hc. destruct Hc as [Hab Hc].
  specialize (IH Hwl Hc). constructor; auto.
  inversion IH as [|? ? _ Hall]; subst. inversion Hwl as [|? ? Hwb _]; subst.
  unfold contig in Hab.
  constructor; [region_arith|].
  eapply Forall_impl; [|exact Hall]. intros; region_arith.
Qed.

Lemma find_app_split : forall (f : pmapregion -> bool) l1 l2,
  find f (l1 ++ l2) = match find f l1 with Some x => Some x | None => find f l2 end.
Proof.
  induction l1 as [|a l1 IH]; intros; simpl; auto. destruct (f a); auto.
Qed.

Lemma update_last_usable_max : forall l,
  Forall wf_region l -> StronglySorted sep l ->
  update_last_usable l = max_usable_end l.
Proof.
  unfold update_last_usable.
  induction l as [|r tl IH]; intros Hwf Hs; [reflexivity|].
  inversion Hwf as [|? ? Hwr Hwt]; subst. inversion Hs as [|? ? Hst Hall]; subst.
  specialize (IH Hwt Hst).
  cbn [rev max_usable_end]. rewrite find_app_split.
  destruct (find (fun r0 => type r0 =? PMEMTYPE_USABLE) (rev tl)) as [x|] eqn:E.
  - rewrite IH.
    apply find_some in E as [Hin _]. apply in_rev in Hin.
    rewrite Forall_forall in Hwt, Hall. specialize (Hwt x Hin). specialize (Hall x Hin).
    rewrite wrap64_small in IH by region_arith.
    destruct (type r =? PMEMTYPE_USABLE); auto. region_arith.
  - rewrite <- IH. simpl.
    destruct (type r =? PMEMTYPE_USABLE); auto.
    rewrite wrap64_small by region_arith. region_arith.
Qed.

Lemma type_at_top_type : forall l p,
  Forall wf_region l -> StronglySorted sep l -> type_at l p = top_type l p.
Proof.
  unfold type_at.
  induction l as [|r tl IH]; intros p Hwf Hs; [reflexivity|].
  inversion Hwf as [|? ? Hwr Hwt]; subst. inversion Hs as [|? ? Hst Hall]; subst.
  simpl. destruct (covers r p) eqn:E.
  - rewrite top_type_none; [reflexivity|].
    apply covers_iff in E.
    rewrite Forall_forall in *. intros x Hx. specialize (Hall x Hx).
    apply covers_false_iff. region_arith.
  - apply IH; auto.
Qed.

(** *** [normalize] *)

Lemma normalize_sorted_spec : forall l,
  Forall wf_region l -> StronglySorted le_region l ->
  exists l3 fuel0,
    (forall fuel, (fuel0 <= fuel)%nat ->
       normalize_sorted fuel l = Some (mkPmap (update_last_usable l3) l3)) /\
    Forall wf_region l3 /\ adjacent contig l3 /\ adjacent typediff l3 /\
    (forall p, top_type l p <> None -> top_type l3 p = top_type l p).
Proof.
  intros l Hwf Hs.
  destruct (collapse_overlaps_spec l Hwf Hs) as (l1 & f1 & Hr1 & Hwf1 & Hs1 & Ht1).
  destruct (fill_gaps_spec PMEMTYPE_RESERVED l1 Hwf1 Hs1) as (l2 & f2 & Hr2 & Hwf2 & Hc2 & Ht2).
  destruct (consolidate_neighbors_spec l2 Hwf2 Hc2) as (l3 & f3 & Hr3 & Hwf3 & Hc3 & Hd3 & Ht3).
  exists l3, (Nat.max f1 (Nat.max f2 f3)).
  split; [|repeat split; auto].
  - intros fuel Hf. unfold normalize_sorted.
    rewrite Hr1, Hr2, Hr3 by lia. reflexivity.
  - intros p Hp. rewrite Ht3, Ht2; rewrite Ht1; auto.
Qed.

Lemma normalize_spec : forall l,
  Forall wf_region l ->
  exists l3 fuel0,
    (forall fuel, (fuel0 <= fuel)%nat ->
       normalize fuel l = Some (mkPmap (update_last_usable l3) l3)) /\
    Forall wf_region l3 /\ adjacent contig l3 /\ adjacent typediff l3 /\
    (forall p, top_type l p <> None -> top_type l3 p = top_type l p).
Proof.
  intros l Hwf.
  destruct (normalize_sorted_spec (qsort l)) as (l3 & f0 & Hr & Hwf3 & Hc & Hd & Ht).
  - eapply Permutation_Forall; [apply Permutation_sym, qsort_perm | exact Hwf].
  - apply qsort_sorted.
  - exists l3, f0. repeat split; auto.
    intros p Hp. rewrite <- (top_type_perm _ _ p (qsort_perm l)) in *. auto.
Qed.

(** C1 (amended). For every input list of regions none of which is empty
    or wraps around 2^64, [normalize] returns, and in the resulting map
    the regions are strictly increasing in [addr], each region's end is
    at most the next region's [addr], no two adjacent regions have the
    same type, and [last_usable] is the largest end of a Usable region
    (0 if there is none). *)
Theorem normalize_normalized : forall l,
  Forall wf_region l ->
  exists m fuel0,
    (forall fuel, (fuel0 <= fuel)%nat -> normalize fuel l = Some m) /\
    normalized m.
Proof.
  intros l Hwf.
  destruct (normalize_spec l Hwf) as (l3 & f0 & Hr & Hwf3 & Hc & Hd & _).
  exists (mkPmap (update_last_usable l3) l3), f0. split; auto.
  unfold normalized; cbn [region last_usable]. repeat split.
  - eapply adjacent_impl; [|exact Hc]. intros a b Ha Hb Hab.
    rewrite Forall_forall in Hwf3. pose proof (Hwf3 a Ha). unfold contig in Hab. region_arith.
  - eapply adjacent_impl; [|exact Hc]. intros a b _ _ Hab. unfold contig in Hab. lia.
  - exact Hd.
  - apply update_last_usable_max; auto. apply contig_sorted; auto.
Qed.

(** C2 (amended). For every input list of regions none of which is empty
    or wraps around 2^64, [normalize] returns, and every physical byte
    covered by at least one input region has, in the resulting map, the
    highest type number among the input regions that cover it. *)
Theorem normalize_type_at : forall l,
  Forall wf_region l ->
  exists m fuel0,
    (forall fuel, (fuel0 <= fuel)%nat -> normalize fuel l = Some m) /\
    forall p t, top_type l p = Some t -> type_at (region m) p = Some t.
Proof.
  intros l Hwf.
  destruct (normalize_spec l Hwf) as (l3 & f0 & Hr & Hwf3 & Hc & _ & Ht).
  exists (mkPmap (update_last_usable l3) l3), f0. split; auto.
  intros p t Hp. cbn [region].
  rewrite type_at_top_type; auto using contig_sorted.
  rewrite Ht; congruence.
Qed.

(** Scenario 2 of the specification: a Usable region overlapped on its
    right by a Reserved one. *)
Definition overlap_input : list pmapregion :=
  [mkRegion 0 0x2000 PMEMTYPE_USABLE 0; mkRegion 0x1000 0x2000 PMEMTYPE_RESERVED 0].

Lemma overlap_input_wf : Forall wf_region overlap_input.
Proof. repeat constructor; unfold rend; simpl; lia. Qed.

Lemma normalize_normalized_witness :
  Forall wf_region overlap_input /\
  exists m fuel0,
    (forall fuel, (fuel0 <= fuel)%nat -> normalize fuel overlap_input = Some m) /\
    normalized m.
Proof.
  split; [exact overlap_input_wf|].
  apply (normalize_normalized overlap_input). exact overlap_input_wf.
Defined.

Lemma normalize_type_at_witness :
  Forall wf_region overlap_input /\
  exists m fuel0,
    (forall fuel, (fuel0 <= fuel)%nat -> normalize fuel overlap_input = Some m) /\
    forall p t, top_type overlap_input p = Some t -> type_at (region m) p = Some t.
Proof.
  split; [exact overlap_input_wf|].
  apply (normalize_type_at overlap_input). exact overlap_input_wf.
Defined.

Example normalize_overlap_input :
  normalize 8 overlap_input =
  Some (mkPmap 0x1000 [mkRegion 0 0x1000 PMEMTYPE_USABLE 0;
                       mkRegion 0x1000 0x2000 PMEMTYPE_RESERVED 0]).
Proof. vm_compute. reflexivity. Qed.

(** A Usable region whose end wraps around 2^64, followed by a Reserved
    region: the wrapped end hides the overlap from [collapse_overlaps],
    and [fill_gaps] then moves the second record below the first. *)
Definition wrap_input : list pmapregion :=
  [mkRegion 10 (2 ^ 64 - 5) PMEMTYPE_USABLE 0; mkRegion 20 10 PMEMTYPE_RESERVED 0].

Lemma normalize_wrap_counterexample :
  exists m, normalize 8 wrap_input = Some m /\
            region m = [mkRegion 10 (2 ^ 64 - 5) PMEMTYPE_USABLE 0;
                        mkRegion 5 25 PMEMTYPE_RESERVED 0] /\
            ~ normalized m.
Proof.
  eexists. split; [vm_compute; reflexivity|]. split; [reflexivity|].
  unfold normalized. cbn [region adjacent addr]. lia.
Qed.

(** A Reserved region whose end wraps around 2^64 and a Usable region
    inside it: byte 20 is covered by both, Reserved ranks higher, and the
    resulting map gives it to the Usable region. *)
Definition wrap_input2 : list pmapregion :=
  [mkRegion 10 (2 ^ 64 - 5) PMEMTYPE_RESERVED 0; mkRegion 20 10 PMEMTYPE_USABLE 0].

Lemma normalize_type_at_counterexample :
  exists m, normalize 8 wrap_input2 = Some m /\
            region m = [mkRegion 10 10 PMEMTYPE_RESERVED 0;
                        mkRegion 20 10 PMEMTYPE_USABLE 0] /\
            Forall (fun r => covers r 20 = true) wrap_input2 /\
            top_type wrap_input2 20 = Some PMEMTYPE_RESERVED /\
            type_at (region m) 20 = Some PMEMTYPE_USABLE.
Proof.
  eexists. split; [vm_compute; reflexivity|].
  split; [reflexivity|]. split; [repeat constructor|]. split; reflexivity.
Qed.

(** The loop of [collapse_overlaps] stops one record short of the end, so
    an empty record in the last position is never removed; [fill_gaps]
    then "fills" a gap of negative length. *)
Example normalize_keeps_last_empty_record :
  normalize 8 [mkRegion 0 10 PMEMTYPE_USABLE 0; mkRegion 5 0 PMEMTYPE_ACPI 0] =
  Some (mkPmap 10 [mkRegion 0 10 PMEMTYPE_USABLE 0;
                   mkRegion 10 (2 ^ 64 - 5) PMEMTYPE_RESERVED 0;
                   mkRegion 5 0 PMEMTYPE_ACPI 0]).
Proof. vm_compute. reflexivity. Qed.

End PmapFacts.

(** ** Facts about the paging code *)

Module PagingFacts.
Import Pmap Paging_h Kmem_h Paging.

(** *** The free list *)

(** The number of frames reached from frame [n] by following [next]
    links up to [PFN_INVALID]. *)
Fixpoint chain_next (fuel : nat) (d : pfdb_t) (n : Z) : option nat :=
  match fuel with
  | O => None
  | S fuel' =>
      if n =? PFN_INVALID then Some O
      else match pf_get d n with
           | None => None
           | Some r => option_map S (chain_next fuel' d (next r))
           end
  end.

(** The same from frame [n] backwards along [prev] links. *)
Fixpoint chain_prev (fuel : nat) (d : pfdb_t) (n : Z) : option nat :=
  match fuel with
  | O => None
  | S fuel' =>
      if n =? PFN_INVALID then Some O
      else match pf_get d n with
           | None => None
           | Some r => option_map S (chain_prev fuel' d (prev r))
           end
  end.

(** A memory map with 4 KiB of Usable memory left once the database has
    taken its 2 MiB. *)
Definition small_map : pmap :=
  mkPmap 0x401000
    [mkRegion 0 0x200000 PMEMTYPE_RESERVED 0;
     mkRegion 0x200000 0x201000 PMEMTYPE_USABLE 0].

Definition boot_state : state :=
  mkState (fun _ => 0) (mkPfdb [] 0 0 0 0) (mkPagetable 0 0 0 0) small_map.

(** What the database says about its free list: [avail], the length
    along [next] from [head], the length along [prev] from [tail]. *)
Definition free_list_report (s : state) : Z * option nat * option nat :=
  (avail (pfdb s),
   chain_next 16 (pfdb s) (head (pfdb s)),
   chain_prev 16 (pfdb s) (tail (pfdb s))).

(** C3 (the code at the failing input). After [page_init] on [small_map]
    the database holds one free frame and says so; after one [pfalloc]
    the free list is empty and [avail] is still 1. *)
Theorem pfalloc_keeps_avail :
  match page_init 64 boot_state with
  | Ok _ s1 =>
      free_list_report s1 = (1, Some 1%nat, Some 1%nat) /\
      match pfalloc s1 with
      | Ok pfn s2 =>
          pfn = 0x400 /\ head (pfdb s2) = PFN_INVALID /\
          free_list_report s2 = (1, Some 0%nat, None)
      | _ => False
      end
  | _ => False
  end.
Proof. vm_compute. repeat split; reflexivity. Qed.

(** [pfalloc] never changes [avail]. *)
Lemma pfalloc_avail : forall s pfn s',
  pfalloc s = Ok pfn s' -> avail (pfdb s') = avail (pfdb s).
Proof.
  intros s pfn s' H. unfold pfalloc, bind, get_pfdb, read_pf, write_pf, set_head, ret, fatal in H.
  cbn [pfdb set_pfdb] in H.
  destruct (avail (pfdb s) =? 0); [discriminate|].
  destruct (pf_get (pfdb s) (head (pfdb s))) as [r|]; [|discriminate].
  cbn [pfdb set_pfdb mem kpt physmap head avail pf count tail] in H.
  destruct (negb (next r =? PFN_INVALID)).
  - repeat match type of H with
    | context [match pf_get ?d ?n with _ => _ end] =>
        let E := fresh in destruct (pf_get d n) eqn:E; cbn in H; try discriminate
    end.
    injection H as _ <-. reflexivity.
  - repeat match type of H with
    | context [match pf_get ?d ?n with _ => _ end] =>
        let E := fresh in destruct (pf_get d n) eqn:E; cbn in H; try discriminate
    end.
    injection H as _ <-. reflexivity.
Qed.

(** *** [add_pte] and the SYSTEM flag *)

(** Up to its first call of [fatal], [add_pte] has written nothing when
    the PML4 entry for [vaddr] carries the SYSTEM flag: the call is made
    in the state in which [add_pte] was entered. *)
Lemma add_pte_system_calls_fatal :
  forall fuel pt vaddr paddr pflags addflags s,
    Z.land (load (mem s) (entry (proot pt) (PML4E vaddr))) PF_SYSTEM <> 0 ->
    add_pte (S fuel) pt vaddr paddr pflags addflags s = Fatal s.
Proof.
  intros fuel pt vaddr paddr pflags addflags s Hsys.
  cbn [add_pte].
  destruct (negb (Z.land addflags CONTAINS_TABLE =? 0) && (vaddr >=? vterm pt));
    [reflexivity|].
  unfold bind at 1. unfold rd at 1.
  destruct (Z.eqb_spec (load (mem s) (entry (proot pt) (PML4E vaddr))) 0) as [E|E].
  - rewrite E in Hsys. rewrite Z.land_0_l in Hsys. congruence.
  - unfold bind at 1.
    destruct (Z.eqb_spec (Z.land (load (mem s) (entry (proot pt) (PML4E vaddr))) PF_SYSTEM) 0)
      as [E'|E']; [congruence|].
    reflexivity.
Qed.

(** Memory holding the given words, zero elsewhere. *)
Definition mem_of (l : list (Z * Z)) : memory :=
  fold_right (fun av m => store m (fst av) (snd av)) (fun _ => 0) l.

(** *** Frames that [pagetable_destroy] leaves alone *)








Lemma nth_error_list_set : forall {A : Type} (l : list A) n v m,
  nth_error (list_set l n v) m =
  if Nat.eqb m n then option_map (fun _ => v) (nth_error l n) else nth_error l m.
Proof.
  induction l as [|x l IH]; intros n v m.
  - simpl. destruct (Nat.eqb m n); destruct n, m; reflexivity.
  - destruct n as [|n], m as [|m]; simpl; auto.
Qed.

Lemma pf_get_nth : forall d n r,
  pf_get d n = Some r -> nth_error (pf d) (Z.to_nat n) = Some r.
Proof. intros d n r H. unfold pf_get in H. destruct (n <? 0); congruence. Qed.


Lemma read_pf_Ok : forall n s r s',
  read_pf n s = Ok r s' -> s' = s /\ pf_get (pfdb s) n = Some r.
Proof.
  intros n s r s' H. unfold read_pf in H.
  destruct (pf_get (pfdb s) n); [|discriminate]. injection H as -> ->. auto.
Qed.

Lemma rd_Ok : forall a s v s', rd a s = Ok v s' -> s' = s /\ v = load (mem s) a.
Proof. intros a s v s' H. injection H as <- <-. auto. Qed.
















(** A kernel PML4 at 0x20000 with one SYSTEM entry, and a database of 16
    frames of which 8 to 15 are on the free list. *)
Definition free_chain (lo n : nat) : list pf_t :=
  map (fun k =>
         mkPf (if (k =? 0)%nat then PFN_INVALID else Z.of_nat (lo + k) - 1)
              (if (S k =? n)%nat then PFN_INVALID else Z.of_nat (lo + k) + 1)
              0 0 0 PFTYPE_AVAILABLE)
      (seq 0 n).




End PagingFacts.

(** ** [page_alloc] followed by [page_free] *)

Module PageAllocFacts.
Import Pmap Paging_h Kmem_h Paging PagingFacts.

Definition is_alloc (r : pf_t) : bool := ptype r =? PFTYPE_ALLOCATED.

(** The number of frames of type Allocated in the database. *)
Definition alloc_count (d : pfdb_t) : nat := length (filter is_alloc (pf d)).

Definition b2n (b : bool) : nat := if b then 1%nat else 0%nat.

Lemma count_list_set : forall (l : list pf_t) n old r,
  nth_error l n = Some old ->
  (length (filter is_alloc (list_set l n r)) + b2n (is_alloc old) =
   length (filter is_alloc l) + b2n (is_alloc r))%nat.
Proof.
  induction l as [|x l IH]; intros n old r H.
  - destruct n; discriminate.
  - destruct n as [|n]; simpl in *.
    + injection H as ->. destruct (is_alloc old), (is_alloc r); simpl; lia.
    + specialize (IH n old r H). destruct (is_alloc x); simpl; lia.
Qed.

(** The fields of a record that the count and the free list depend on. *)
Definition ess (r : pf_t) : Z * Z * Z := (next r, ptype r, refcount r).
Definition pf_ess (d : pfdb_t) (g : Z) : option (Z * Z * Z) :=
  option_map ess (pf_get d g).

Lemma pf_get_set : forall d n r g,
  pf_get d n <> None ->
  pf_get (pf_set d n r) g = if g =? n then Some r else pf_get d g.
Proof.
  intros d n r g Hn. unfold pf_get in *. cbn [pf pf_set].
  destruct (Z.ltb_spec n 0); [congruence|].
  destruct (Z.eqb_spec g n) as [->|Hne].
  - destruct (Z.ltb_spec n 0); [lia|].
    rewrite nth_error_list_set, Nat.eqb_refl.
    destruct (nth_error (pf d) (Z.to_nat n)); [reflexivity | congruence].
  - destruct (Z.ltb_spec g 0); [reflexivity|].
    rewrite nth_error_list_set.
    destruct (Nat.eqb_spec (Z.to_nat g) (Z.to_nat n)); [lia | reflexivity].
Qed.

Lemma write_pf_Ok : forall n r s u s',
  write_pf n r s = Ok u s' ->
  exists old, pf_get (pfdb s) n = Some old /\
    s' = set_pfdb s (pf_set (pfdb s) n r).
Proof.
  intros n r s u s' H. unfold write_pf in H.
  destruct (pf_get (pfdb s) n) as [old|]; [|discriminate].
  injection H as _ <-. eauto.
Qed.

Lemma alloc_count_set : forall d n r old,
  pf_get d n = Some old ->
  (alloc_count (pf_set d n r) + b2n (is_alloc old) =
   alloc_count d + b2n (is_alloc r))%nat.
Proof.
  intros d n r old H. unfold alloc_count. cbn [pf pf_set].
  apply count_list_set. apply pf_get_nth. exact H.
Qed.

(** What one write to the array does. *)
Lemma write_pf_effect : forall n r s u s',
  write_pf n r s = Ok u s' ->
  exists old, pf_get (pfdb s) n = Some old /\
    mem s' = mem s /\
    head (pfdb s') = head (pfdb s) /\
    (forall g, pf_get (pfdb s') g = if g =? n then Some r else pf_get (pfdb s) g) /\
    (alloc_count (pfdb s') + b2n (is_alloc old) =
     alloc_count (pfdb s) + b2n (is_alloc r))%nat.
Proof.
  intros n r s u s' H. apply write_pf_Ok in H as (old & Ho & ->).
  exists old. split; [exact Ho|]. cbn [mem pfdb set_pfdb].
  split; [reflexivity|]. split; [reflexivity|]. split.
  - intros g. apply pf_get_set. congruence.
  - apply alloc_count_set. exact Ho.
Qed.

(** The record that [pfalloc] leaves in the frame it returns. *)
Definition alloc_rec : pf_t := mkPf 0 0 1 0 0 PFTYPE_ALLOCATED.

Lemma pfalloc_effect : forall s pfn s',
  pfalloc s = Ok pfn s' ->
  exists r,
    pfn = head (pfdb s) /\ pf_get (pfdb s) pfn = Some r /\
    mem s' = mem s /\
    head (pfdb s') = next r /\
    pf_get (pfdb s') pfn = Some alloc_rec /\
    (forall g, g <> pfn -> pf_ess (pfdb s') g = pf_ess (pfdb s) g) /\
    (alloc_count (pfdb s') + b2n (is_alloc r) = alloc_count (pfdb s) + 1)%nat.
Proof.
  intros s pfn s' H. unfold pfalloc in H.
  apply bind_Ok in H as (d & s1 & Hd & H). injection Hd as <- <-.
  destruct (avail (pfdb s) =? 0); [discriminate|].
  apply bind_Ok in H as (r & s1 & Hr & H). apply read_pf_Ok in Hr as [-> Hr].
  apply bind_Ok in H as (u1 & s1 & H1 & H). injection H1 as _ <-.
  apply bind_Ok in H as (u2 & s2 & H2 & H).
  apply bind_Ok in H as (u3 & s3 & H3 & H). apply ret_Ok in H as [-> ->].
  exists r. split; [reflexivity|]. split; [exact Hr|].
  apply write_pf_effect in H3 as (old3 & Ho3 & Hm3 & Hh3 & Hg3 & Hc3).
  set (s1 := set_pfdb s (mkPfdb (pf (pfdb s)) (count (pfdb s)) (avail (pfdb s))
                           (next r) (tail (pfdb s)))) in *.
  assert (Hs1 : mem s1 = mem s /\ head (pfdb s1) = next r /\
                (forall g, pf_get (pfdb s1) g = pf_get (pfdb s) g) /\
                alloc_count (pfdb s1) = alloc_count (pfdb s)).
  { subst s1. cbn. repeat split; reflexivity. }
  destruct Hs1 as (Hm1 & Hh1 & Hg1 & Hc1).
  assert (Hs2 : mem s2 = mem s /\ head (pfdb s2) = next r /\
                (forall g, pf_ess (pfdb s2) g = pf_ess (pfdb s) g) /\
                pf_get (pfdb s2) (head (pfdb s)) <> None /\
                (forall old, pf_get (pfdb s2) (head (pfdb s)) = Some old ->
                             is_alloc old = is_alloc r) /\
                alloc_count (pfdb s2) = alloc_count (pfdb s)).
  { destruct (negb (next r =? PFN_INVALID)).
    - apply bind_Ok in H2 as (h & s4 & Hh & H2). apply read_pf_Ok in Hh as [-> Hh].
      apply write_pf_effect in H2 as (old2 & Ho2 & Hm2 & Hh2 & Hg2 & Hc2).
      rewrite Hh in Ho2. injection Ho2 as <-.
      split; [congruence|]. split; [congruence|]. split; [|split; [|split]].
      + intros g. unfold pf_ess. rewrite Hg2, <- Hg1.
        destruct (Z.eqb_spec g (next r)) as [->|]; [|reflexivity].
        rewrite Hh. reflexivity.
      + rewrite Hg2. destruct (head (pfdb s) =? next r); [discriminate|].
        rewrite Hg1, Hr. discriminate.
      + intros old. rewrite Hg2.
        destruct (Z.eqb_spec (head (pfdb s)) (next r)) as [E|E].
        * intros Ho. injection Ho as <-. rewrite <- E, Hg1, Hr in Hh.
          injection Hh as <-. reflexivity.
        * rewrite Hg1, Hr. intros Ho. injection Ho as <-. reflexivity.
      + unfold is_alloc in Hc2. cbn [set_prev ptype] in Hc2.
        apply Nat.add_cancel_r in Hc2. congruence.
    - apply ret_Ok in H2 as [_ ->].
      split; [exact Hm1|]. split; [exact Hh1|]. split; [|split; [|split]].
      + intros g. unfold pf_ess. rewrite Hg1. reflexivity.
      + rewrite Hg1, Hr. discriminate.
      + intros old. rewrite Hg1, Hr. intros Ho. injection Ho as <-. reflexivity.
      + exact Hc1. }
  destruct Hs2 as (Hm2 & Hh2 & Hg2 & Hn2 & Ha2 & Hc2).
  split; [congruence|]. split; [congruence|]. split; [|split].
  - rewrite Hg3, Z.eqb_refl. reflexivity.
  - intros g Hg. unfold pf_ess at 1. rewrite Hg3.
    destruct (Z.eqb_spec g (head (pfdb s))); [congruence|]. apply Hg2.
  - rewrite (Ha2 _ Ho3) in Hc3. change (is_alloc (mkPf 0 0 1 0 0 PFTYPE_ALLOCATED)) with true in Hc3.
    simpl in Hc3. lia.
Qed.

Lemma pgalloc_effect : forall s paddr s',
  pgalloc s = Ok paddr s' ->
  exists r,
    let pfn := head (pfdb s) in
    paddr = wrap64 (Z.shiftl pfn PAGE_SHIFT) /\
    pf_get (pfdb s) pfn = Some r /\
    mem s' = memzero (mem s) paddr PAGE_SIZE /\
    head (pfdb s') = next r /\
    pf_get (pfdb s') pfn = Some alloc_rec /\
    (forall g, g <> pfn -> pf_ess (pfdb s') g = pf_ess (pfdb s) g) /\
    (alloc_count (pfdb s') + b2n (is_alloc r) = alloc_count (pfdb s) + 1)%nat.
Proof.
  intros s paddr s' H. unfold pgalloc in H.
  apply bind_Ok in H as (pfn & s1 & Hpf & H).
  apply bind_Ok in H as (u & s2 & Hz & H). apply ret_Ok in H as [-> ->].
  injection Hz as _ <-.
  apply pfalloc_effect in Hpf as (r & -> & Hr & Hm & Hh & Hg & Hess & Hc).
  exists r. cbv zeta. unfold set_mem; cbn [mem pfdb]. rewrite Hm. auto 10.
Qed.

Lemma same_pf : forall d d',
  pf d' = pf d ->
  (forall g, pf_get d' g = pf_get d g) /\ alloc_count d' = alloc_count d.
Proof.
  intros d d' H. unfold pf_get, alloc_count. rewrite H. auto.
Qed.

Lemma set_head_effect : forall h s u s',
  set_head h s = Ok u s' -> mem s' = mem s /\ pf (pfdb s') = pf (pfdb s).
Proof. intros h s u s' H. injection H as _ <-. auto. Qed.

Lemma set_avail_effect : forall a s u s',
  set_avail a s = Ok u s' -> mem s' = mem s /\ pf (pfdb s') = pf (pfdb s).
Proof. intros a s u s' H. injection H as _ <-. auto. Qed.

Lemma pgfree_effect : forall paddr s u s' nx,
  pf_ess (pfdb s) (Z.shiftr paddr PAGE_SHIFT) = Some (nx, PFTYPE_ALLOCATED, 1) ->
  pgfree paddr s = Ok u s' ->
  mem s' = mem s /\
  (forall g, g <> Z.shiftr paddr PAGE_SHIFT -> pf_ess (pfdb s') g = pf_ess (pfdb s) g) /\
  (alloc_count (pfdb s') + 1 = alloc_count (pfdb s))%nat.
Proof.
  intros paddr s u s' nx Hess H. unfold pgfree in H. cbv zeta in H.
  set (pfn := Z.shiftr paddr PAGE_SHIFT) in *.
  apply bind_Ok in H as (r & s1 & Hr & H). apply read_pf_Ok in Hr as [-> Hr].
  unfold pf_ess in Hess. rewrite Hr in Hess. injection Hess as Hnx Hty Hrc.
  rewrite Hrc in H. change (wrap16 (1 - 1) =? 0) with true in H. cbv iota in H.
  apply bind_Ok in H as (u1 & s1 & Hw1 & H).
  apply write_pf_effect in Hw1 as (old1 & Ho1 & Hm1 & Hh1 & Hg1 & Hc1).
  rewrite Hr in Ho1. injection Ho1 as <-.
  unfold pffree in H.
  apply bind_Ok in H as (r2 & s2 & Hr2 & H). apply read_pf_Ok in Hr2 as [-> Hr2].
  rewrite Hg1, Z.eqb_refl in Hr2. injection Hr2 as <-.
  cbn [set_refcount ptype] in H. rewrite Hty in H.
  change (negb (PFTYPE_ALLOCATED =? PFTYPE_ALLOCATED)) with false in H. cbv iota in H.
  apply bind_Ok in H as (d & s2 & Hd & H). injection Hd as <- <-.
  apply bind_Ok in H as (u2 & s2 & Hw2 & H).
  apply write_pf_effect in Hw2 as (old2 & Ho2 & Hm2 & Hh2 & Hg2 & Hc2).
  rewrite Hg1, Z.eqb_refl in Ho2. injection Ho2 as <-.
  apply bind_Ok in H as (h & s3 & Hh & H). apply read_pf_Ok in Hh as [-> Hh].
  apply bind_Ok in H as (u3 & s3 & Hw3 & H).
  apply write_pf_effect in Hw3 as (old3 & Ho3 & Hm3 & Hh3 & Hg3 & Hc3).
  rewrite Hh in Ho3. injection Ho3 as <-.
  apply bind_Ok in H as (u4 & s4 & Hsh & H).
  apply set_head_effect in Hsh as [Hm4 Hp4].
  apply set_avail_effect in H as [Hm5 Hp5].
  rewrite Hp4 in Hp5. apply same_pf in Hp5 as [Hg5 Hc5].
  split; [congruence|]. split.
  - intros g Hg. unfold pf_ess.
    assert (E : pf_get (pfdb s2) g = pf_get (pfdb s) g).
    { rewrite Hg2. destruct (Z.eqb_spec g pfn); [congruence|].
      rewrite Hg1. destruct (Z.eqb_spec g pfn); [congruence|]. reflexivity. }
    rewrite Hg5, Hg3.
    destruct (Z.eqb_spec g (head (pfdb s1))) as [->|Hne].
    + rewrite <- E, Hh. reflexivity.
    + rewrite E. reflexivity.
  - rewrite Hc5.
    unfold is_alloc in *. cbn [set_refcount set_prev ptype] in *.
    rewrite Hty in *.
    change (PFTYPE_ALLOCATED =? PFTYPE_ALLOCATED) with true in *.
    change (PFTYPE_AVAILABLE =? PFTYPE_ALLOCATED) with false in *.
    apply Nat.add_cancel_r in Hc3. simpl in Hc1, Hc2. lia.
Qed.

(** The four entries that the walk for [va] goes through. *)
Definition slot1 (root va : Z) : Z := entry root (PML4E va).
Definition slot2 (m : memory) (root va : Z) : Z :=
  entry (PGPTR (load m (slot1 root va))) (PDPTE va).
Definition slot3 (m : memory) (root va : Z) : Z :=
  entry (PGPTR (load m (slot2 m root va))) (PDE va).
Definition slot4 (m : memory) (root va : Z) : Z :=
  entry (PGPTR (load m (slot3 m root va))) (PTE va).

Definition table_slots (m : memory) (root va : Z) : list Z :=
  [slot1 root va; slot2 m root va; slot3 m root va].

(** The interior tables for [va] are all there. *)
Definition tables_present (m : memory) (root va : Z) : Prop :=
  Forall (fun a => load m a <> 0) (table_slots m root va).

Lemma slots_agree : forall m m' root va,
  Forall (fun a => load m' a = load m a) (table_slots m root va) ->
  table_slots m' root va = table_slots m root va /\
  slot4 m' root va = slot4 m root va.
Proof.
  intros m m' root va H. unfold table_slots in *.
  inversion H as [|? ? H1 H']; subst. inversion H' as [|? ? H2 H'']; subst.
  inversion H'' as [|? ? H3 _]; subst.
  assert (E2 : slot2 m' root va = slot2 m root va) by (unfold slot2; rewrite H1; reflexivity).
  assert (E3 : slot3 m' root va = slot3 m root va)
    by (unfold slot3; rewrite E2, H2; reflexivity).
  assert (E4 : slot4 m' root va = slot4 m root va)
    by (unfold slot4; rewrite E3, H3; reflexivity).
  rewrite E2, E3. auto.
Qed.

Lemma store_load : forall m a v x,
  load (store m a v) x = if x =? a then v else load m x.
Proof. reflexivity. Qed.

Lemma grow_table_present : forall table e added s,
  load (mem s) (entry table e) <> 0 ->
  grow_table table e added s = Ok added s.
Proof.
  intros table e added s H. unfold grow_table, bind, rd.
  destruct (Z.eqb_spec (load (mem s) (entry table e)) 0); [congruence | reflexivity].
Qed.

(** [add_pte] when no table has to be added: one store, to the leaf. *)
Lemma add_pte_present : forall fuel pt va paddr pflags s pt' s',
  tables_present (mem s) (proot pt) va ->
  add_pte fuel pt va paddr pflags 0 s = Ok pt' s' ->
  pt' = pt /\
  s' = set_mem s (store (mem s) (slot4 (mem s) (proot pt) va) (Z.lor paddr pflags)).
Proof.
  intros fuel pt va paddr pflags s pt' s' Hp H.
  destruct fuel as [|fuel]; [discriminate|].
  unfold tables_present, table_slots in Hp.
  inversion Hp as [|? ? H1 Hp']; subst. inversion Hp' as [|? ? H2 Hp'']; subst.
  inversion Hp'' as [|? ? H3 _]; subst.
  cbn [add_pte] in H.
  change (negb (Z.land 0 CONTAINS_TABLE =? 0) && (va >=? vterm pt)) with false in H.
  cbv iota in H.
  apply bind_Ok in H as (v & s1 & Hv & H). apply rd_Ok in Hv as [-> ->].
  fold (slot1 (proot pt) va) in *.
  destruct (Z.eqb_spec (load (mem s) (slot1 (proot pt) va)) 0); [congruence|].
  apply bind_Ok in H as (added1 & s1 & Ha1 & H).
  destruct (negb (Z.land (load (mem s) (slot1 (proot pt) va)) PF_SYSTEM =? 0));
    [discriminate|].
  apply ret_Ok in Ha1 as [-> ->].
  apply bind_Ok in H as (v1 & s1 & Hv1 & H). apply rd_Ok in Hv1 as [-> ->].
  cbv zeta in H. fold (slot1 (proot pt) va) in H.
  fold (slot2 (mem s) (proot pt) va) in H.
  apply bind_Ok in H as (added2 & s1 & Ha2 & H).
  rewrite grow_table_present in Ha2 by exact H2. injection Ha2 as <- <-.
  apply bind_Ok in H as (v2 & s1 & Hv2 & H). apply rd_Ok in Hv2 as [-> ->].
  fold (slot3 (mem s) (proot pt) va) in H.
  apply bind_Ok in H as (added3 & s1 & Ha3 & H).
  rewrite grow_table_present in Ha3 by exact H3. injection Ha3 as <- <-.
  apply bind_Ok in H as (v3 & s1 & Hv3 & H). apply rd_Ok in Hv3 as [-> ->].
  fold (slot4 (mem s) (proot pt) va) in H.
  apply bind_Ok in H as (u & s1 & Hw & H). injection Hw as _ <-.
  apply ret_Ok in H as [-> ->]. auto.
Qed.

Lemma remove_pte_effect : forall pt va s pg s',
  remove_pte pt va s = Ok pg s' ->
  pg = PGPTR (load (mem s) (slot4 (mem s) (proot pt) va)) /\
  s' = set_mem s (store (mem s) (slot4 (mem s) (proot pt) va) 0).
Proof.
  intros pt va s pg s' H. unfold remove_pte in H. cbv zeta in H.
  apply bind_Ok in H as (v1 & s1 & Hv1 & H). apply rd_Ok in Hv1 as [-> ->].
  apply bind_Ok in H as (v2 & s1 & Hv2 & H). apply rd_Ok in Hv2 as [-> ->].
  apply bind_Ok in H as (v3 & s1 & Hv3 & H). apply rd_Ok in Hv3 as [-> ->].
  apply bind_Ok in H as (v4 & s1 & Hv4 & H). apply rd_Ok in Hv4 as [-> ->].
  apply bind_Ok in H as (u & s1 & Hw & H). injection Hw as _ <-.
  apply ret_Ok in H as [-> ->]. auto.
Qed.

(** Bits *)

Lemma PGPTR_leaf : forall x,
  PGPTR (Z.lor (Z.shiftl x PAGE_SHIFT) (flags_of [PF_PRESENT; PF_RW]))
  = Z.shiftl x PAGE_SHIFT.
Proof.
  intros x. unfold PGPTR, PGMASK_OFFSET, PAGE_SHIFT.
  change (flags_of [PF_PRESENT; PF_RW]) with (Z.ones 2).
  change 1023 with (Z.ones 10).
  apply Z.bits_inj'. intros n Hn.
  rewrite Z.land_spec, Z.lor_spec, Z.lnot_spec, !Z.shiftl_spec by lia.
  destruct (Z.ltb_spec n 10).
  - rewrite (Z.ones_spec_low 10 n) by lia. rewrite andb_false_r.
    rewrite Z.testbit_neg_r by lia. reflexivity.
  - rewrite (Z.ones_spec_high 10 n) by lia.
    rewrite (Z.ones_spec_high 2 n) by lia. rewrite orb_false_r, andb_true_r. reflexivity.
Qed.

Lemma shiftr_shiftl_page : forall x, Z.shiftr (Z.shiftl x PAGE_SHIFT) PAGE_SHIFT = x.
Proof.
  intros x. unfold PAGE_SHIFT. rewrite Z.shiftr_shiftl_l by lia. reflexivity.
Qed.

Lemma wrap64_frame : forall f,
  0 <= f < 2 ^ 32 -> wrap64 (Z.shiftl f PAGE_SHIFT) = Z.shiftl f PAGE_SHIFT.
Proof.
  intros f Hf. unfold PAGE_SHIFT. rewrite Z.shiftl_mul_pow2 by lia.
  apply wrap64_small. lia.
Qed.

(** The virtual addresses that the loops of [page_alloc] and [page_free]
    go through. *)
Fixpoint vaddrs (v : Z) (n : nat) : list Z :=
  match n with
  | O => []
  | S n' => v :: vaddrs (wrap64 (v + PAGE_SIZE)) n'
  end.

(** [a] lies in the 4 KiB frame number [f]. *)
Definition in_frame (f a : Z) : Prop :=
  Z.shiftl f PAGE_SHIFT <= a < Z.shiftl f PAGE_SHIFT + PAGE_SIZE.

(** The frames [fs] are the first ones of the free list that starts at
    [h], and none of them is Allocated. *)
Fixpoint free_prefix (d : pfdb_t) (h : Z) (fs : list Z) : Prop :=
  match fs with
  | [] => True
  | f :: fs' =>
      h = f /\
      exists nx ty rc,
        pf_ess d f = Some (nx, ty, rc) /\ ty <> PFTYPE_ALLOCATED /\
        free_prefix d nx fs'
  end.

(** The page table rooted at [root] can take leaves for the addresses
    [vs] without growing, and the frames [fs] hold none of its entries
    for them. *)
Record prepared (m : memory) (root : Z) (vs fs : list Z) : Prop := mk_prepared {
  pr_tables : Forall (tables_present m root) vs;
  pr_leaves : NoDup (map (slot4 m root) vs);
  pr_apart  : forall va va', In va vs -> In va' vs ->
                ~ In (slot4 m root va) (table_slots m root va');
  pr_frames : forall va f a, In va vs -> In f fs ->
                In a (slot4 m root va :: table_slots m root va) -> ~ in_frame f a;
  pr_range  : Forall (fun f => 0 <= f < 2 ^ 32) fs;
  pr_nodup  : NoDup fs
}.

Lemma prepared_tail : forall m root v vs f fs,
  prepared m root (v :: vs) (f :: fs) -> prepared m root vs fs.
Proof.
  intros m root v vs f fs [Ht Hl Ha Hf Hr Hn]. constructor.
  - inversion Ht; assumption.
  - inversion Hl; assumption.
  - intros va va' H1 H2. apply Ha; right; assumption.
  - intros va g a H1 H2. apply Hf; right; assumption.
  - inversion Hr; assumption.
  - inversion Hn; assumption.
Qed.

Lemma prepared_agree : forall m m' root vs fs,
  (forall va a, In va vs -> In a (table_slots m root va) -> load m' a = load m a) ->
  prepared m root vs fs ->
  prepared m' root vs fs /\
  (forall va, In va vs -> slot4 m' root va = slot4 m root va).
Proof.
  intros m m' root vs fs Hag [Ht Hl Ha Hf Hr Hn].
  assert (Hs : forall va, In va vs ->
            table_slots m' root va = table_slots m root va /\
            slot4 m' root va = slot4 m root va).
  { intros va Hva. apply slots_agree. apply Forall_forall. intros a Hin.
    apply Hag with va; assumption. }
  split; [|intros va Hva; apply Hs; assumption].
  constructor; auto.
  - rewrite Forall_forall in *. intros va Hva. specialize (Ht va Hva).
    unfold tables_present in *. rewrite (proj1 (Hs va Hva)).
    rewrite Forall_forall in *. intros a Hin. rewrite (Hag va a Hva Hin). auto.
  - rewrite (map_ext_in _ (slot4 m root)); [exact Hl|].
    intros va Hva. apply Hs; assumption.
  - intros va va' H1 H2. rewrite (proj2 (Hs va H1)), (proj1 (Hs va' H2)). auto.
  - intros va f a H1 H2. rewrite (proj2 (Hs va H1)), (proj1 (Hs va H1)). apply Hf; assumption.
Qed.

Lemma free_prefix_ess : forall d d' fs h,
  (forall g, In g fs -> pf_ess d' g = pf_ess d g) ->
  free_prefix d h fs -> free_prefix d' h fs.
Proof.
  intros d d'. induction fs as [|f fs IH]; intros h Hess H; [exact I|].
  destruct H as (-> & nx & ty & rc & He & Hty & Hfp).
  split; [reflexivity|]. exists nx, ty, rc. split; [|split; auto].
  - rewrite Hess by (left; reflexivity). exact He.
  - apply IH; auto. intros g Hg. apply Hess. right; assumption.
Qed.

(** The leaf entry that [page_alloc] writes for frame [f]. *)
Definition leaf_of (f : Z) : Z :=
  Z.lor (Z.shiftl f PAGE_SHIFT) (flags_of [PF_PRESENT; PF_RW]).

Lemma memzero_load : forall m a n x,
  load (memzero m a n) x = if (a <=? x) && (x <? a + n) then 0 else load m x.
Proof. reflexivity. Qed.

Lemma alloc_phase : forall fuel pt n v fs s pt1 s1,
  length fs = n ->
  prepared (mem s) (proot pt) (vaddrs v n) fs ->
  free_prefix (pfdb s) (head (pfdb s)) fs ->
  page_alloc_loop fuel n pt v s = Ok pt1 s1 ->
  pt1 = pt /\
  (forall a, ~ In a (map (slot4 (mem s) (proot pt)) (vaddrs v n)) ->
             (forall f, In f fs -> ~ in_frame f a) ->
             load (mem s1) a = load (mem s) a) /\
  (forall va f, In (va, f) (combine (vaddrs v n) fs) ->
             load (mem s1) (slot4 (mem s) (proot pt) va) = leaf_of f) /\
  (forall f, In f fs -> pf_ess (pfdb s1) f = Some (0, PFTYPE_ALLOCATED, 1)) /\
  (forall g, ~ In g fs -> pf_ess (pfdb s1) g = pf_ess (pfdb s) g) /\
  alloc_count (pfdb s1) = (alloc_count (pfdb s) + n)%nat.
Proof.
  intros fuel pt. induction n as [|n IH]; intros v fs s pt1 s1 Hlen Hprep Hfree H.
  - destruct fs; [|discriminate]. apply ret_Ok in H as [-> ->].
    repeat split; auto; try (intros ? ? []); try (intros ? []).
  - destruct fs as [|f fs]; [discriminate|]. injection Hlen as Hlen.
    cbn [page_alloc_loop vaddrs] in *.
    set (v' := wrap64 (v + PAGE_SIZE)) in *.
    apply bind_Ok in H as (paddr & sa & Hpg & H).
    apply bind_Ok in H as (pt' & sb & Hadd & H).
    destruct Hfree as (Hhead & nx & ty & rc & Hess & Hty & Hfree).
    apply pgalloc_effect in Hpg as (r & Hpaddr & Hr & Hma & Hha & Hga & Hea & Hca).
    cbv zeta in *. rewrite Hhead in *.
    unfold pf_ess in Hess. rewrite Hr in Hess. injection Hess as Hnx Hty2 Hrc.
    assert (Hna : is_alloc r = false).
    { unfold is_alloc. destruct (Z.eqb_spec (ptype r) PFTYPE_ALLOCATED); congruence. }
    rewrite Hna in Hca. simpl in Hca.
    pose proof (pr_range _ _ _ _ Hprep) as Hrange.
    pose proof (Forall_inv Hrange) as Hrf. cbv beta in Hrf.
    rewrite (wrap64_frame f Hrf) in *. subst paddr.
    (* memory after pgalloc agrees with the one before outside frame f *)
    assert (Hsa : forall a, ~ in_frame f a -> load (mem sa) a = load (mem s) a).
    { intros a Ha. rewrite Hma, memzero_load.
      unfold in_frame in Ha.
      destruct (Z.leb_spec (Z.shiftl f PAGE_SHIFT) a);
        destruct (Z.ltb_spec a (Z.shiftl f PAGE_SHIFT + PAGE_SIZE)); simpl; try reflexivity.
      lia. }
    destruct (prepared_agree (mem s) (mem sa) (proot pt) (v :: vaddrs v' n) (f :: fs))
      as [Hprepa Hslota]; auto.
    { intros va a Hva Ha. apply Hsa.
      apply (pr_frames _ _ _ _ Hprep va f a Hva); [left; reflexivity | right; exact Ha]. }
    pose proof (Forall_inv (pr_tables _ _ _ _ Hprepa)) as Htv.
    apply add_pte_present in Hadd as [-> ->]; [|exact Htv].
    rewrite (Hslota v (or_introl eq_refl)) in *.
    set (L0 := slot4 (mem s) (proot pt) v) in *.
    set (sb := set_mem sa (store (mem sa) L0 (Z.lor (Z.shiftl f PAGE_SHIFT) (flags_of [PF_PRESENT; PF_RW])))) in *.
    assert (Hsb : forall a, a <> L0 -> ~ in_frame f a -> load (mem sb) a = load (mem s) a).
    { intros a Ha1 Ha2. subst sb. unfold set_mem; cbn [mem]. rewrite store_load.
      destruct (Z.eqb_spec a L0); [congruence|]. apply Hsa; assumption. }
    assert (HsbL : load (mem sb) L0 = leaf_of f).
    { subst sb. unfold set_mem; cbn [mem]. rewrite store_load, Z.eqb_refl. reflexivity. }
    destruct (prepared_agree (mem s) (mem sb) (proot pt) (vaddrs v' n) fs)
      as [Hprepb Hslotb].
    { intros va a Hva Ha. apply Hsb.
      - intros E. apply (pr_apart _ _ _ _ Hprep v va (or_introl eq_refl) (or_intror Hva)).
        fold L0. rewrite <- E. exact Ha.
      - apply (pr_frames _ _ _ _ Hprep va f a (or_intror Hva));
          [left; reflexivity | right; exact Ha]. }
    { eapply prepared_tail; exact Hprep. }
    pose proof (pr_nodup _ _ _ _ Hprep) as Hnd. apply NoDup_cons_iff in Hnd as [Hnf Hnd'].
    assert (Hfreeb : free_prefix (pfdb sb) (head (pfdb sb)) fs).
    { subst sb. unfold set_mem; cbn [pfdb]. rewrite Hha, Hnx.
      eapply free_prefix_ess; [|exact Hfree].
      intros g Hg. apply Hea. intros ->. contradiction. }
    destruct (IH v' fs sb pt1 s1 Hlen Hprepb Hfreeb H)
      as (Hpt & Hmem & Hleaf & Halloc & Hother & Hcount).
    pose proof (pr_leaves _ _ _ _ Hprep) as Hleaves. cbn [map] in Hleaves.
    fold L0 in Hleaves.
    apply NoDup_cons_iff in Hleaves as [HL0 Hleaves'].
    assert (Hmapb : map (slot4 (mem sb) (proot pt)) (vaddrs v' n) =
                    map (slot4 (mem s) (proot pt)) (vaddrs v' n)).
    { apply map_ext_in. intros va Hva. apply Hslotb; assumption. }
    rewrite Hmapb in Hmem.
    split; [exact Hpt|]. split; [|split; [|split; [|split]]].
    + intros a Ha Hfa. cbn [map] in Ha. fold L0 in Ha.
      rewrite Hmem.
      * apply Hsb; [intros ->; apply Ha; left; reflexivity|].
        apply Hfa; left; reflexivity.
      * intros Hin. apply Ha. right; exact Hin.
      * intros g Hg. apply Hfa. right; exact Hg.
    + intros va g [E|Hin].
      * injection E as <- <-. fold L0. rewrite Hmem; [exact HsbL | exact HL0 |].
        intros g Hg. apply (pr_frames _ _ _ _ Hprep v g L0 (or_introl eq_refl) (or_intror Hg)).
        left; reflexivity.
      * pose proof (in_combine_l _ _ _ _ Hin) as Hva.
        rewrite <- (Hslotb va Hva). apply Hleaf; exact Hin.
    + intros g [<-|Hg]; [|apply Halloc; exact Hg].
      rewrite Hother by exact Hnf. subst sb. unfold set_mem; cbn [pfdb].
      unfold pf_ess. rewrite Hga. reflexivity.
    + intros g Hg. rewrite Hother by (intros Hin; apply Hg; right; exact Hin).
      subst sb. unfold set_mem; cbn [pfdb]. apply Hea.
      intros ->. apply Hg. left; reflexivity.
    + rewrite Hcount. subst sb. unfold set_mem; cbn [pfdb]. lia.
Qed.

Lemma free_phase : forall pt n v fs s u s2,
  length fs = n ->
  prepared (mem s) (proot pt) (vaddrs v n) fs ->
  (forall va f, In (va, f) (combine (vaddrs v n) fs) ->
     load (mem s) (slot4 (mem s) (proot pt) va) = leaf_of f) ->
  (forall f, In f fs -> exists nx, pf_ess (pfdb s) f = Some (nx, PFTYPE_ALLOCATED, 1)) ->
  page_free_loop n pt v s = Ok u s2 ->
  (alloc_count (pfdb s2) + n = alloc_count (pfdb s))%nat.
Proof.
  intros pt. induction n as [|n IH]; intros v fs s u s2 Hlen Hprep Hleaf Halloc H.
  - apply ret_Ok in H as [_ ->]. lia.
  - destruct fs as [|f fs]; [discriminate|]. injection Hlen as Hlen.
    cbn [page_free_loop vaddrs] in *.
    set (v' := wrap64 (v + PAGE_SIZE)) in *.
    apply bind_Ok in H as (paddr & sa & Hrm & H).
    apply bind_Ok in H as (u1 & sb & Hfr & H).
    apply remove_pte_effect in Hrm as [Hpaddr ->].
    rewrite (Hleaf v f (or_introl eq_refl)) in Hpaddr.
    unfold leaf_of in Hpaddr. rewrite PGPTR_leaf in Hpaddr. subst paddr.
    set (L0 := slot4 (mem s) (proot pt) v) in *.
    destruct (Halloc f (or_introl eq_refl)) as (nx & Hess).
    apply pgfree_effect with (nx := nx) in Hfr;
      [|rewrite shiftr_shiftl_page; exact Hess].
    rewrite shiftr_shiftl_page in Hfr.
    destruct Hfr as (Hmb & Heb & Hcb).
    unfold set_mem in Hmb, Heb, Hcb; cbn [mem pfdb] in Hmb, Heb, Hcb.
    assert (Hsb : forall a, a <> L0 -> load (mem sb) a = load (mem s) a).
    { intros a Ha. rewrite Hmb, store_load.
      destruct (Z.eqb_spec a L0); [congruence | reflexivity]. }
    destruct (prepared_agree (mem s) (mem sb) (proot pt) (vaddrs v' n) fs)
      as [Hprepb Hslotb].
    { intros va a Hva Ha. apply Hsb.
      intros E. apply (pr_apart _ _ _ _ Hprep v va (or_introl eq_refl) (or_intror Hva)).
      fold L0. rewrite <- E. exact Ha. }
    { eapply prepared_tail; exact Hprep. }
    pose proof (pr_nodup _ _ _ _ Hprep) as Hnd. apply NoDup_cons_iff in Hnd as [Hnf Hnd'].
    pose proof (pr_leaves _ _ _ _ Hprep) as Hleaves. cbn [map] in Hleaves.
    fold L0 in Hleaves. apply NoDup_cons_iff in Hleaves as [HL0 Hleaves'].
    assert (Hgoal : (alloc_count (pfdb s2) + n = alloc_count (pfdb sb))%nat).
    { apply (IH v' fs sb u s2 Hlen Hprepb); [| |exact H].
      - intros va g Hin. pose proof (in_combine_l _ _ _ _ Hin) as Hva.
        rewrite (Hslotb va Hva). rewrite Hsb.
        + apply Hleaf. right; exact Hin.
        + intros E. apply HL0. rewrite <- E. apply in_map. exact Hva.
      - intros g Hg. destruct (Halloc g (or_intror Hg)) as (nx' & He).
        exists nx'. rewrite Heb; [exact He|]. intros ->. contradiction. }
    lia.
Qed.

End PageAllocFacts.

(** ** Facts about the ACPI walker *)

Module AcpiFacts.
Import Pmap Paging_h Kmem_h Acpi.

(** *** What [acpi_init] leaves of the boot page table *)

(** The pool of pages that [alloc_page] hands out. *)
Definition in_pool (a : Z) : Prop :=
  KMEM_BOOT_PAGETABLE_LOADED <= a < KMEM_BOOT_PAGETABLE_END.

(** No non-zero word outside the pool is changed. *)
Definition stable (m m' : memory) : Prop :=
  forall e, load m e <> 0 -> ~ in_pool e -> load m' e = load m e.

Record pool_ok (b : btable_t) : Prop := mk_pool_ok {
  po_root : root b = KMEM_BOOT_PAGETABLE;
  po_term : term_page b = KMEM_BOOT_PAGETABLE_END;
  po_next : KMEM_BOOT_PAGETABLE_LOADED <= next_page b <= KMEM_BOOT_PAGETABLE_END;
  po_align : (next_page b) mod PAGE_SIZE = 0
}.

(** The relation that every step of the walker keeps. *)
Definition keeps_tables (s s' : state) : Prop :=
  pool_ok (btable s) ->
  pool_ok (btable s') /\ stable (amem s) (amem s').

Lemma stable_refl : forall m, stable m m.
Proof. intros m e _ _. reflexivity. Qed.

Lemma stable_trans : forall m1 m2 m3, stable m1 m2 -> stable m2 m3 -> stable m1 m3.
Proof.
  intros m1 m2 m3 H12 H23 e He Hp.
  rewrite <- (H12 e He Hp). apply H23; [|exact Hp]. rewrite (H12 e He Hp). exact He.
Qed.

Lemma keeps_tables_refl : forall s, keeps_tables s s.
Proof. intros s H. split; [exact H | apply stable_refl]. Qed.

Lemma keeps_tables_trans : forall s1 s2 s3,
  keeps_tables s1 s2 -> keeps_tables s2 s3 -> keeps_tables s1 s3.
Proof.
  intros s1 s2 s3 H12 H23 H1.
  destruct (H12 H1) as [H2 Hs12]. destruct (H23 H2) as [H3 Hs23].
  split; [exact H3 | eapply stable_trans; eauto].
Qed.

Lemma keeps_tables_same : forall s s',
  amem s' = amem s -> btable s' = btable s -> keeps_tables s s'.
Proof.
  intros s s' Hm Hb H. rewrite Hm, Hb. split; [exact H | apply stable_refl].
Qed.

(** Reads and bookkeeping *)

Lemma rd_word_Ok : forall a s v s', rd a s = Ok v s' -> s' = s /\ v = load (amem s) a.
Proof. intros a s v s' H. injection H as <- <-. auto. Qed.

Lemma get_root_Ok : forall s v s', get_root s = Ok v s' -> s' = s /\ v = root (btable s).
Proof. intros s v s' H. injection H as <- <-. auto. Qed.

Lemma index_range : forall x, 0 <= Z.land x PGMASK_ENTRY < 512.
Proof.
  intros x. unfold PGMASK_ENTRY. change 511 with (Z.ones 9).
  rewrite Z.land_ones by lia. apply Z.mod_pos_bound. lia.
Qed.

Lemma entry_in_page : forall p x,
  p <= entry p (Z.land x PGMASK_ENTRY) < p + PAGE_SIZE.
Proof.
  intros p x. pose proof (index_range x). unfold entry, PAGE_SIZE. lia.
Qed.

Lemma PGPTR_page : forall p,
  0 <= p -> p mod PAGE_SIZE = 0 ->
  PGPTR (Z.lor p (flags_of [PF_PRESENT; PF_RW])) = p.
Proof.
  intros p Hp Ha. unfold PGPTR, PGMASK_OFFSET.
  change (flags_of [PF_PRESENT; PF_RW]) with (Z.ones 2).
  change 1023 with (Z.ones 10).
  assert (E : p = Z.shiftl (p / PAGE_SIZE) 12).
  { rewrite Z.shiftl_mul_pow2 by lia. unfold PAGE_SIZE in *.
    change (2 ^ 12) with 4096.
    rewrite (Z.div_mod p 4096) at 1 by lia. rewrite Ha. lia. }
  rewrite E at 1. rewrite E at 2.
  apply Z.bits_inj'. intros n Hn.
  rewrite Z.land_spec, Z.lor_spec, Z.lnot_spec, !Z.shiftl_spec by lia.
  destruct (Z.ltb_spec n 10).
  - rewrite (Z.ones_spec_low 10 n) by lia. rewrite andb_false_r.
    rewrite Z.testbit_neg_r by lia. reflexivity.
  - rewrite (Z.ones_spec_high 10 n) by lia.
    rewrite (Z.ones_spec_high 2 n) by lia. rewrite orb_false_r, andb_true_r. reflexivity.
Qed.

(** [alloc_page]: a zeroed page of the pool. *)
Lemma alloc_page_Ok : forall s p s',
  pool_ok (btable s) ->
  alloc_page s = Ok p s' ->
  let page := next_page (btable s) in
  pool_ok (btable s') /\
  p = Z.lor page (flags_of [PF_PRESENT; PF_RW]) /\
  PGPTR p = page /\
  KMEM_BOOT_PAGETABLE_LOADED <= page /\ page + PAGE_SIZE <= KMEM_BOOT_PAGETABLE_END /\
  amem s' = memzero (amem s) page PAGE_SIZE.
Proof.
  intros s p s' [Hr Ht Hn Ha] H. unfold alloc_page in H.
  destruct (Z.eqb_spec (next_page (btable s)) (term_page (btable s))) as [E|E];
    [discriminate|].
  injection H as <- <-. cbv zeta. cbn [btable amem root next_page term_page].
  unfold KMEM_BOOT_PAGETABLE_LOADED, KMEM_BOOT_PAGETABLE_END, PAGE_SIZE in *.
  assert (Hlt : next_page (btable s) + 4096 <= 131072).
  { rewrite Ht in E.
    pose proof (Z.div_mod (next_page (btable s)) 4096 ltac:(lia)) as Hd.
    rewrite Ha in Hd.
    assert (next_page (btable s) / 4096 < 32) by lia. lia. }
  split; [|split; [reflexivity|split; [|split; [lia|split; [lia|reflexivity]]]]].
  - constructor; cbn [root next_page term_page]; auto.
    + rewrite wrap64_small by lia. unfold KMEM_BOOT_PAGETABLE_LOADED, KMEM_BOOT_PAGETABLE_END. lia.
    + rewrite wrap64_small by lia. unfold PAGE_SIZE.
      rewrite <- Zplus_mod_idemp_l, Ha. reflexivity.
  - apply PGPTR_page; [lia | exact Ha].
Qed.

Lemma load_store : forall m a v x,
  load (store m a v) x = if x =? a then v else load m x.
Proof. reflexivity. Qed.

Lemma load_memzero : forall m a n x,
  load (memzero m a n) x = if (a <=? x) && (x <? a + n) then 0 else load m x.
Proof. reflexivity. Qed.

(** A page of the pool. *)
Definition pool_page (p : Z) : Prop :=
  KMEM_BOOT_PAGETABLE_LOADED <= p /\ p + PAGE_SIZE <= KMEM_BOOT_PAGETABLE_END.

Lemma pool_page_entry : forall p x,
  pool_page p -> in_pool (entry p (Z.land x PGMASK_ENTRY)).
Proof.
  intros p x [H1 H2]. pose proof (entry_in_page p x). unfold in_pool. lia.
Qed.

(** Zeroing a page of the pool and writing to a word that held 0, or to
    a word of the pool, is [stable]. *)
Lemma stable_memzero : forall m p, pool_page p -> stable m (memzero m p PAGE_SIZE).
Proof.
  intros m p [H1 H2] e He Hp. rewrite load_memzero. unfold in_pool in Hp.
  destruct (Z.leb_spec p e); destruct (Z.ltb_spec e (p + PAGE_SIZE)); simpl;
    try reflexivity. lia.
Qed.

Lemma stable_store : forall m a v,
  load m a = 0 \/ in_pool a -> stable m (store m a v).
Proof.
  intros m a v Ha e He Hp. rewrite load_store.
  destruct (Z.eqb_spec e a) as [->|]; [|reflexivity].
  destruct Ha; [congruence | contradiction].
Qed.

(** The two ways [ensure_table] can go. *)
Lemma ensure_table_cases : forall table e s p s',
  pool_ok (btable s) ->
  ensure_table table e s = Ok p s' ->
  (load (amem s) (entry table e) <> 0 /\ s' = s /\
   p = PGPTR (load (amem s) (entry table e)))
  \/
  (load (amem s) (entry table e) = 0 /\ pool_ok (btable s') /\ pool_page p /\
   PGPTR (Z.lor p (flags_of [PF_PRESENT; PF_RW])) = p /\
   amem s' = store (memzero (amem s) p PAGE_SIZE) (entry table e)
               (Z.lor p (flags_of [PF_PRESENT; PF_RW]))).
Proof.
  intros table e s p s' Hok H. unfold ensure_table in H.
  apply bind_Ok in H as (v & s1 & Hv & H). apply rd_word_Ok in Hv as [-> ->].
  apply bind_Ok in H as (u & s1 & Hg & H).
  apply bind_Ok in H as (v' & s2 & Hv' & H). apply rd_word_Ok in Hv' as [-> ->].
  apply ret_Ok in H as [-> ->].
  destruct (Z.eqb_spec (load (amem s) (entry table e)) 0) as [E|E].
  - right. apply bind_Ok in Hg as (pg & s2 & Ha & Hw).
    injection Hw as _ <-.
    destruct (alloc_page_Ok _ _ _ Hok Ha) as (Hok' & Hpg & Hptr & Hlo & Hhi & Hm).
    cbn [amem btable]. rewrite load_store, Z.eqb_refl, Hptr, Hm, Hpg.
    split; [exact E|]. split; [exact Hok'|]. split; [split; assumption|].
    split; [rewrite <- Hpg; exact Hptr | reflexivity].
  - left. apply ret_Ok in Hg as [_ ->]. auto.
Qed.

Lemma ensure_table_keeps : forall table e s p s',
  ensure_table table e s = Ok p s' -> keeps_tables s s'.
Proof.
  intros table e s p s' H Hok.
  destruct (ensure_table_cases _ _ _ _ _ Hok H) as [(Hnz & -> & _)|(Hz & Hok' & Hpp & _ & Hm)].
  - split; [exact Hok | apply stable_refl].
  - split; [exact Hok'|]. rewrite Hm.
    eapply stable_trans; [apply stable_memzero; exact Hpp|].
    apply stable_store. left. rewrite load_memzero.
    destruct (_ && _); [reflexivity | exact Hz].
Qed.

(** In a page that has just been zeroed, the only non-zero word is the
    one written since. *)
Lemma fresh_page_word : forall m p a v e,
  p <= e < p + PAGE_SIZE ->
  load (store (memzero m p PAGE_SIZE) a v) e <> 0 ->
  e = a /\ load (store (memzero m p PAGE_SIZE) a v) e = v.
Proof.
  intros m p a v e He Hnz. rewrite load_store in *.
  destruct (Z.eqb_spec e a); [auto|].
  rewrite load_memzero in Hnz.
  destruct (Z.leb_spec p e); destruct (Z.ltb_spec e (p + PAGE_SIZE)); simpl in Hnz;
    try lia; congruence.
Qed.

Lemma is_mapped_Ok : forall a s b s', is_mapped a s = Ok b s' -> s' = s.
Proof.
  intros a s b s' H. unfold is_mapped in H.
  apply bind_Ok in H as (r & s1 & Hr & H). apply get_root_Ok in Hr as [-> ->].
  apply bind_Ok in H as (v1 & s1 & Hv & H). apply rd_word_Ok in Hv as [-> ->].
  destruct (_ =? 0); [apply ret_Ok in H as [_ ->]; reflexivity|].
  cbv zeta in H.
  apply bind_Ok in H as (v2 & s1 & Hv & H). apply rd_word_Ok in Hv as [-> ->].
  destruct (_ =? 0); [apply ret_Ok in H as [_ ->]; reflexivity|].
  destruct (negb _); [apply ret_Ok in H as [_ ->]; reflexivity|].
  apply bind_Ok in H as (v3 & s1 & Hv & H). apply rd_word_Ok in Hv as [-> ->].
  destruct (_ =? 0); [apply ret_Ok in H as [_ ->]; reflexivity|].
  destruct (negb _); [apply ret_Ok in H as [_ ->]; reflexivity|].
  apply bind_Ok in H as (v4 & s1 & Hv & H). apply rd_word_Ok in Hv as [-> ->].
  apply ret_Ok in H as [_ ->]; reflexivity.
Qed.

(** When the walk goes through three tables and [is_mapped] says no, the
    leaf entry is empty. *)
Lemma is_mapped_false_leaf : forall a s,
  is_mapped a s = Ok false s ->
  let m := amem s in
  let v1 := load m (entry (root (btable s)) (PML4E a)) in
  let v2 := load m (entry (PGPTR v1) (PDPTE a)) in
  let v3 := load m (entry (PGPTR v2) (PDE a)) in
  v1 <> 0 -> v2 <> 0 -> v3 <> 0 ->
  load m (entry (PGPTR v3) (PTE a)) = 0.
Proof.
  intros a s H m v1 v2 v3 H1 H2 H3. unfold is_mapped in H.
  apply bind_Ok in H as (r & s1 & Hr & H). apply get_root_Ok in Hr as [-> ->].
  apply bind_Ok in H as (w1 & s1 & Hv & H). apply rd_word_Ok in Hv as [-> ->].
  fold m in H. fold v1 in H.
  destruct (Z.eqb_spec v1 0); [contradiction|]. cbv zeta in H.
  apply bind_Ok in H as (w2 & s1 & Hv & H). apply rd_word_Ok in Hv as [-> ->].
  fold m in H. fold v2 in H.
  destruct (Z.eqb_spec v2 0); [contradiction|].
  destruct (negb (Z.land v2 PF_PS =? 0)); [discriminate|].
  apply bind_Ok in H as (w3 & s1 & Hv & H). apply rd_word_Ok in Hv as [-> ->].
  fold m in H. fold v3 in H.
  destruct (Z.eqb_spec v3 0); [contradiction|].
  destruct (negb (Z.land v3 PF_PS =? 0)); [discriminate|].
  apply bind_Ok in H as (w4 & s1 & Hv & H). apply rd_word_Ok in Hv as [-> ->].
  fold m in H.
  injection H as H.
  destruct (Z.eqb_spec (load m (entry (PGPTR v3) (PTE a))) 0); [assumption|discriminate].
Qed.

Lemma root_not_in_pool : forall x, ~ in_pool (entry KMEM_BOOT_PAGETABLE (Z.land x PGMASK_ENTRY)).
Proof.
  intros x. pose proof (entry_in_page KMEM_BOOT_PAGETABLE x).
  unfold in_pool, KMEM_BOOT_PAGETABLE, KMEM_BOOT_PAGETABLE_LOADED, PAGE_SIZE in *. lia.
Qed.

(** [create_page] for a page that [is_mapped] reports unmapped. *)
Lemma create_page_keeps : forall a fl s u s',
  is_mapped a s = Ok false s ->
  create_page a fl s = Ok u s' ->
  keeps_tables s s'.
Proof.
  intros a fl s u s' Hno H Hok. unfold create_page in H.
  apply bind_Ok in H as (r & s0 & Hr & H). apply get_root_Ok in Hr as [-> ->].
  apply bind_Ok in H as (pdpt & s1 & H1 & H).
  apply bind_Ok in H as (pdt & s2 & H2 & H).
  apply bind_Ok in H as (pt & s3 & H3 & H).
  injection H as _ <-.
  pose proof (ensure_table_keeps _ _ _ _ _ H1 Hok) as [Hok1 Hst1].
  pose proof (ensure_table_keeps _ _ _ _ _ H2 Hok1) as [Hok2 Hst2].
  pose proof (ensure_table_keeps _ _ _ _ _ H3 Hok2) as [Hok3 Hst3].
  cbn [btable amem]. split; [exact Hok3|].
  eapply stable_trans; [exact Hst1|]. eapply stable_trans; [exact Hst2|].
  eapply stable_trans; [exact Hst3|]. apply stable_store.
  unfold PTE.
  destruct (ensure_table_cases _ _ _ _ _ Hok2 H3)
    as [(Hnz3 & -> & Hpt)|(_ & _ & Hpp3 & _ & _)];
    [|right; apply pool_page_entry; exact Hpp3].
  destruct (ensure_table_cases _ _ _ _ _ Hok1 H2)
    as [(Hnz2 & -> & Hpdt)|(_ & _ & Hpp2 & Hptr2 & Hm2)].
  - destruct (ensure_table_cases _ _ _ _ _ Hok H1)
      as [(Hnz1 & -> & Hpdpt)|(_ & _ & Hpp1 & _ & Hm1)].
    + left. subst pt pdt pdpt.
      apply (is_mapped_false_leaf a s Hno); assumption.
    + exfalso. rewrite Hm1 in Hnz2.
      apply fresh_page_word in Hnz2 as [E _];
        [|unfold PDPTE; apply entry_in_page].
      assert (Hin : in_pool (entry pdpt (PDPTE a)))
        by (unfold PDPTE; apply pool_page_entry; exact Hpp1).
      rewrite E, (po_root _ Hok) in Hin. unfold PML4E in Hin.
      exact (root_not_in_pool _ Hin).
  - right. rewrite Hm2 in Hnz3, Hpt.
    apply fresh_page_word in Hnz3 as [_ E];
      [|unfold PDE; apply entry_in_page].
    rewrite E, Hptr2 in Hpt. subst pt. apply pool_page_entry; exact Hpp2.
Qed.

Lemma map_range_keeps : forall addr sz fl s u s',
  map_range addr sz fl s = Ok u s' -> keeps_tables s s'.
Proof.
  intros addr sz fl s u s' H. unfold map_range in H.
  revert s u s' H. apply for_each_rel.
  - apply keeps_tables_refl.
  - apply keeps_tables_trans.
  - intros a s u s' _ H.
    apply bind_Ok in H as (b & s1 & Hb & H).
    pose proof (is_mapped_Ok _ _ _ _ Hb) as ->.
    destruct b; simpl in H.
    + apply ret_Ok in H as [_ ->]. apply keeps_tables_refl.
    + eapply create_page_keeps; eassumption.
Qed.

Lemma rd8_Ok : forall a s v s', rd8 a s = Ok v s' -> s' = s /\ v = read8 (amem s) a.
Proof. intros a s v s' H. injection H as <- <-. auto. Qed.

Lemma rd32_Ok : forall a s v s', rd32 a s = Ok v s' -> s' = s /\ v = read32 (amem s) a.
Proof. intros a s v s' H. injection H as <- <-. auto. Qed.

Lemma rd64_Ok : forall a s v s', rd64 a s = Ok v s' -> s' = s /\ v = read64 (amem s) a.
Proof. intros a s v s' H. injection H as <- <-. auto. Qed.

Lemma get_acpi_Ok : forall s v s', get_acpi s = Ok v s' -> s' = s /\ v = acpi s.
Proof. intros s v s' H. injection H as <- <-. auto. Qed.

Lemma set_acpi_keeps : forall a s u s', set_acpi a s = Ok u s' -> keeps_tables s s'.
Proof.
  intros a s u s' H. injection H as _ <-. apply keeps_tables_same; reflexivity.
Qed.

Lemma pmap_add_keeps : forall a sz ty s u s',
  pmap_add a sz ty s = Ok u s' -> keeps_tables s s'.
Proof.
  intros a sz ty s u s' H. injection H as _ <-. apply keeps_tables_same; reflexivity.
Qed.

Lemma map_table_keeps : forall hdr s u s',
  map_table hdr s = Ok u s' -> keeps_tables s s'.
Proof.
  intros hdr s u s' H. unfold map_table in H.
  apply bind_Ok in H as (u1 & s1 & H1 & H).
  apply bind_Ok in H as (sz & s2 & Hsz & H). apply rd32_Ok in Hsz as [-> ->].
  apply bind_Ok in H as (u2 & s2 & H2 & H).
  apply bind_Ok in H as (len & s3 & Hlen & H). apply rd32_Ok in Hlen as [-> ->].
  eapply keeps_tables_trans; [eapply map_range_keeps; exact H1|].
  eapply keeps_tables_trans; [eapply map_range_keeps; exact H2|].
  eapply pmap_add_keeps; exact H.
Qed.

Lemma read_table_keeps : forall hdr s u s',
  read_table hdr s = Ok u s' -> keeps_tables s s'.
Proof.
  intros hdr s u s' H. unfold read_table in H.
  apply bind_Ok in H as (sig & s1 & Hsig & H). apply rd32_Ok in Hsig as [-> ->].
  apply bind_Ok in H as (a & s1 & Ha & H). apply get_acpi_Ok in Ha as [-> ->].
  repeat (destruct (_ =? _); [eapply set_acpi_keeps; exact H|]).
  apply ret_Ok in H as [_ ->]. apply keeps_tables_refl.
Qed.

Lemma read_xsdt_keeps : forall s u s', read_xsdt s = Ok u s' -> keeps_tables s s'.
Proof.
  intros s u s' H. unfold read_xsdt in H.
  apply bind_Ok in H as (a & s1 & Ha & H). apply get_acpi_Ok in Ha as [-> ->].
  apply bind_Ok in H as (len & s1 & Hl & H). apply rd32_Ok in Hl as [-> ->].
  revert s u s' H. intros s0. apply for_each_rel.
  - apply keeps_tables_refl.
  - apply keeps_tables_trans.
  - intros i s u s' _ H.
    apply bind_Ok in H as (hdr & s1 & Hh & H). apply rd64_Ok in Hh as [-> ->].
    apply bind_Ok in H as (u1 & s1 & H1 & H).
    eapply keeps_tables_trans; [eapply map_table_keeps; exact H1|].
    eapply read_table_keeps; exact H.
Qed.

Lemma read_rsdt_keeps : forall s u s', read_rsdt s = Ok u s' -> keeps_tables s s'.
Proof.
  intros s u s' H. unfold read_rsdt in H.
  apply bind_Ok in H as (a & s1 & Ha & H). apply get_acpi_Ok in Ha as [-> ->].
  apply bind_Ok in H as (len & s1 & Hl & H). apply rd32_Ok in Hl as [-> ->].
  revert s u s' H. intros s0. apply for_each_rel.
  - apply keeps_tables_refl.
  - apply keeps_tables_trans.
  - intros i s u s' _ H.
    apply bind_Ok in H as (hdr & s1 & Hh & H). apply rd32_Ok in Hh as [-> ->].
    apply bind_Ok in H as (u1 & s1 & H1 & H).
    eapply keeps_tables_trans; [eapply map_table_keeps; exact H1|].
    eapply read_table_keeps; exact H.
Qed.

(** The MADT iterators only read. *)
Lemma madt_scan_Ok : forall fuel ty ptr term s p s',
  madt_scan fuel ty ptr term s = Ok p s' -> s' = s.
Proof.
  induction fuel as [|fuel IH]; intros ty ptr term s p s' H; simpl in H;
    [discriminate|].
  destruct (ptr <? term).
  - apply bind_Ok in H as (t & s1 & Ht & H). apply rd8_Ok in Ht as [-> ->].
    destruct (_ =? ty).
    + apply ret_Ok in H as [_ ->]. reflexivity.
    + apply bind_Ok in H as (l & s1 & Hl & H). apply rd8_Ok in Hl as [-> ->].
      eapply IH; exact H.
  - apply ret_Ok in H as [_ ->]. reflexivity.
Qed.

Lemma madt_find_Ok : forall fuel ty prev s p s',
  madt_find fuel ty prev s = Ok p s' -> s' = s.
Proof.
  intros fuel ty prev s p s' H. unfold madt_find in H.
  apply bind_Ok in H as (a & s1 & Ha & H). apply get_acpi_Ok in Ha as [-> ->].
  destruct (madt (acpi s) =? 0).
  - apply ret_Ok in H as [_ ->]. reflexivity.
  - apply bind_Ok in H as (len & s1 & Hl & H). apply rd32_Ok in Hl as [-> ->].
    apply bind_Ok in H as (ptr & s1 & Hp & H).
    assert (s1 = s) as ->.
    { destruct (prev =? 0).
      - apply ret_Ok in Hp as [_ ->]. reflexivity.
      - apply bind_Ok in Hp as (pl & s2 & Hpl & Hp). apply rd8_Ok in Hpl as [-> ->].
        apply ret_Ok in Hp as [_ ->]. reflexivity. }
    eapply madt_scan_Ok; exact H.
Qed.

Lemma io_apic_loop_keeps : forall fuel io s u s',
  io_apic_loop fuel io s = Ok u s' -> keeps_tables s s'.
Proof.
  induction fuel as [|fuel IH]; intros io s u s' H; [discriminate|].
  cbn [io_apic_loop] in H.
  apply bind_Ok in H as (io' & s1 & Hio & H).
  apply madt_find_Ok in Hio as ->.
  destruct (io' =? 0).
  - apply ret_Ok in H as [_ ->]. apply keeps_tables_refl.
  - apply bind_Ok in H as (p & s1 & Hp & H). apply rd32_Ok in Hp as [-> ->].
    apply bind_Ok in H as (u1 & s1 & H1 & H).
    eapply keeps_tables_trans; [eapply pmap_add_keeps; exact H1|].
    eapply IH; exact H.
Qed.

Ltac case_if H :=
  match type of H with
  | (if ?c then _ else _) _ = _ => destruct c
  end.

(** The state [acpi_init] starts from. *)
Definition init_state (m : memory) : state :=
  mkState m
    (mkBtable KMEM_BOOT_PAGETABLE KMEM_BOOT_PAGETABLE_LOADED KMEM_BOOT_PAGETABLE_END)
    acpi_zero [].

Lemma init_state_pool_ok : forall m, pool_ok (btable (init_state m)).
Proof.
  intros m. constructor; cbn; try reflexivity.
  unfold KMEM_BOOT_PAGETABLE_LOADED, KMEM_BOOT_PAGETABLE_END. lia.
Qed.

Lemma acpi_init_keeps : forall fuel m u s,
  acpi_init fuel m = Ok u s -> keeps_tables (init_state m) s.
Proof.
  intros fuel m u s H. unfold acpi_init in H. fold (init_state m) in H.
  cbv zeta in H.
  set (r := if find_rsdp m KMEM_EXTENDED_BIOS KMEM_EXTENDED_BIOS_SIZE =? 0
            then find_rsdp m KMEM_SYSTEM_ROM KMEM_SYSTEM_ROM_SIZE
            else find_rsdp m KMEM_EXTENDED_BIOS KMEM_EXTENDED_BIOS_SIZE) in *.
  apply bind_Ok in H as (u0 & s0 & H0 & H).
  eapply keeps_tables_trans; [eapply set_acpi_keeps; exact H0|]. clear H0.
  case_if H; [discriminate|].
  apply bind_Ok in H as (rev & s1 & Hrev & H). apply rd8_Ok in Hrev as [-> ->].
  apply bind_Ok in H as (u1 & s1 & H1 & H).
  eapply keeps_tables_trans; [eapply set_acpi_keeps; exact H1|]. clear H1.
  apply bind_Ok in H as (u2 & s2 & H2 & H).
  eapply keeps_tables_trans.
  { case_if H2.
    - apply bind_Ok in H2 as (x & s3 & Hx & H2). apply rd64_Ok in Hx as [-> ->].
      apply bind_Ok in H2 as (u3 & s3 & H3 & H2).
      eapply keeps_tables_trans; [eapply set_acpi_keeps; exact H3|].
      case_if H2.
      + apply ret_Ok in H2 as [_ ->]. apply keeps_tables_refl.
      + apply bind_Ok in H2 as (u4 & s4 & H4 & H2).
        eapply keeps_tables_trans; [eapply map_table_keeps; exact H4|].
        eapply read_xsdt_keeps; exact H2.
    - apply ret_Ok in H2 as [_ ->]. apply keeps_tables_refl. }
  clear H2.
  apply bind_Ok in H as (a & s3 & Ha & H). apply get_acpi_Ok in Ha as [-> ->].
  apply bind_Ok in H as (u3 & s3 & H3 & H).
  eapply keeps_tables_trans.
  { case_if H3.
    - apply bind_Ok in H3 as (t & s4 & Ht & H3). apply rd32_Ok in Ht as [-> ->].
      apply bind_Ok in H3 as (u4 & s4 & H4 & H3).
      eapply keeps_tables_trans; [eapply set_acpi_keeps; exact H4|].
      case_if H3; [discriminate|].
      apply bind_Ok in H3 as (u5 & s5 & H5 & H3).
      eapply keeps_tables_trans; [eapply map_table_keeps; exact H5|].
      eapply read_rsdt_keeps; exact H3.
    - apply ret_Ok in H3 as [_ ->]. apply keeps_tables_refl. }
  clear H3.
  apply bind_Ok in H as (a' & s4 & Ha & H). apply get_acpi_Ok in Ha as [-> ->].
  apply bind_Ok in H as (u4 & s4 & H4 & H).
  eapply keeps_tables_trans.
  { case_if H4.
    - apply bind_Ok in H4 as (p & s5 & Hp & H4). apply rd32_Ok in Hp as [-> ->].
      eapply pmap_add_keeps; exact H4.
    - apply ret_Ok in H4 as [_ ->]. apply keeps_tables_refl. }
  eapply io_apic_loop_keeps; exact H.
Qed.

(** *** Translations *)

(** The entry that translates [a], with its address: what the walk of
    [is_mapped] ends on when it answers yes. *)
Definition translation (m : memory) (root a : Z) : option (Z * Z) :=
  let e1 := entry root (PML4E a) in
  let v1 := load m e1 in
  if v1 =? 0 then None
  else
    let e2 := entry (PGPTR v1) (PDPTE a) in
    let v2 := load m e2 in
    if v2 =? 0 then None
    else if negb (Z.land v2 PF_PS =? 0) then Some (e2, v2)
    else
      let e3 := entry (PGPTR v2) (PDE a) in
      let v3 := load m e3 in
      if v3 =? 0 then None
      else if negb (Z.land v3 PF_PS =? 0) then Some (e3, v3)
      else
        let e4 := entry (PGPTR v3) (PTE a) in
        let v4 := load m e4 in
        if v4 =? 0 then None else Some (e4, v4).

(** The entries the walk reads. *)
Definition walk (m : memory) (root a : Z) : list Z :=
  let e1 := entry root (PML4E a) in
  let v1 := load m e1 in
  e1 ::
  if v1 =? 0 then []
  else
    let e2 := entry (PGPTR v1) (PDPTE a) in
    let v2 := load m e2 in
    e2 ::
    if v2 =? 0 then []
    else if negb (Z.land v2 PF_PS =? 0) then []
    else
      let e3 := entry (PGPTR v2) (PDE a) in
      let v3 := load m e3 in
      e3 ::
      if v3 =? 0 then []
      else if negb (Z.land v3 PF_PS =? 0) then []
      else [entry (PGPTR v3) (PTE a)].

(** The walk stays in the tables the loader built, below the pool. *)
Definition boot_walk (m : memory) (a : Z) : Prop :=
  Forall (fun e => ~ in_pool e) (walk m KMEM_BOOT_PAGETABLE a).

Definition is_some {A : Type} (o : option A) : bool :=
  match o with Some _ => true | None => false end.

Lemma is_mapped_translation : forall a s,
  is_mapped a s = Ok (is_some (translation (amem s) (root (btable s)) a)) s.
Proof.
  intros a s. unfold is_mapped, translation, bind, get_root, rd, ret. cbv zeta.
  destruct (_ =? 0); [reflexivity|].
  destruct (_ =? 0); [reflexivity|].
  destruct (negb _); [reflexivity|].
  destruct (_ =? 0); [reflexivity|].
  destruct (negb _); [reflexivity|].
  destruct (_ =? 0); reflexivity.
Qed.

Lemma stable_translation : forall m m' r a t,
  stable m m' ->
  Forall (fun e => ~ in_pool e) (walk m r a) ->
  translation m r a = Some t ->
  translation m' r a = Some t.
Proof.
  intros m m' r a t Hst Hw Ht. unfold translation, walk in *. cbv zeta in *.
  apply Forall_cons_iff in Hw as [Hp1 Hw].
  destruct (Z.eqb_spec (load m (entry r (PML4E a))) 0) as [|N1]; [discriminate|].
  rewrite (Hst _ N1 Hp1). apply Z.eqb_neq in N1 as ->.
  set (v1 := load m (entry r (PML4E a))) in *.
  apply Forall_cons_iff in Hw as [Hp2 Hw].
  destruct (Z.eqb_spec (load m (entry (PGPTR v1) (PDPTE a))) 0) as [|N2]; [discriminate|].
  rewrite (Hst _ N2 Hp2). apply Z.eqb_neq in N2 as ->.
  set (v2 := load m (entry (PGPTR v1) (PDPTE a))) in *.
  destruct (negb (Z.land v2 PF_PS =? 0)); [exact Ht|].
  apply Forall_cons_iff in Hw as [Hp3 Hw].
  destruct (Z.eqb_spec (load m (entry (PGPTR v2) (PDE a))) 0) as [|N3]; [discriminate|].
  rewrite (Hst _ N3 Hp3). apply Z.eqb_neq in N3 as ->.
  set (v3 := load m (entry (PGPTR v2) (PDE a))) in *.
  destruct (negb (Z.land v3 PF_PS =? 0)); [exact Ht|].
  apply Forall_cons_iff in Hw as [Hp4 _].
  destruct (Z.eqb_spec (load m (entry (PGPTR v3) (PTE a))) 0) as [|N4]; [discriminate|].
  rewrite (Hst _ N4 Hp4). apply Z.eqb_neq in N4 as ->. exact Ht.
Qed.

(** [map_range] on a range whose pages the boot page table maps
    already, through 4 KiB entries or large ones, returns and changes
    nothing: no entry is written and no page is taken from the pool. *)
Lemma map_range_mapped : forall addr sz fl s,
  (forall a, In a (pages_between (PAGE_ALIGN_DOWN addr)
                     (PAGE_ALIGN_UP (wrap64 (addr + sz)))) ->
             translation (amem s) (root (btable s)) a <> None) ->
  map_range addr sz fl s = Ok tt s.
Proof.
  intros addr sz fl s H. unfold map_range. apply for_each_skip.
  intros a Ha. unfold bind. rewrite is_mapped_translation.
  specialize (H a Ha). destruct (translation _ _ a); [reflexivity|contradiction].
Qed.

(** C10: a page that the boot page table maps when [acpi_init] starts,
    through a 4 KiB entry or a large one, is translated by the same entry
    with the same value when [acpi_init] returns, the tables of its walk
    being the loader's (none of them in the pool that [alloc_page] hands
    out). *)
Theorem acpi_init_keeps_translation : forall fuel m u s a t,
  acpi_init fuel m = Ok u s ->
  boot_walk m a ->
  translation m KMEM_BOOT_PAGETABLE a = Some t ->
  root (btable s) = KMEM_BOOT_PAGETABLE /\
  translation (amem s) KMEM_BOOT_PAGETABLE a = Some t.
Proof.
  intros fuel m u s a t H Hw Ht.
  destruct (acpi_init_keeps _ _ _ _ H (init_state_pool_ok m)) as [Hok Hst].
  split; [apply (po_root _ Hok)|].
  eapply stable_translation; [exact Hst | exact Hw | exact Ht].
Qed.

(** *** Where the walker gives up *)

(** The pool of boot page-table pages is used up. *)
Definition exhausted (s : state) : Prop :=
  next_page (btable s) = term_page (btable s).

Definition same_xsdt (s s' : state) : Prop := xsdt (acpi s') = xsdt (acpi s).

(** Returns leave [acpi.xsdt] alone, and the only [fatal] is that of
    [alloc_page]. *)
Definition pool_fatal {A : Type} (m : M state A) : Prop :=
  respects same_xsdt exhausted m.

Lemma same_xsdt_refl : forall s, same_xsdt s s.
Proof. reflexivity. Qed.

Lemma same_xsdt_trans : forall s1 s2 s3,
  same_xsdt s1 s2 -> same_xsdt s2 s3 -> same_xsdt s1 s3.
Proof. unfold same_xsdt. intros. congruence. Qed.

Lemma pool_fatal_bind : forall {A B : Type} (m : M state A) (f : A -> M state B),
  pool_fatal m -> (forall a, pool_fatal (f a)) -> pool_fatal (bind m f).
Proof. intros. apply respects_bind; auto. apply same_xsdt_trans. Qed.

Lemma pool_fatal_ret : forall {A : Type} (a : A), pool_fatal (ret (St := state) a).
Proof. intros. apply respects_ret. apply same_xsdt_refl. Qed.

Lemma pool_fatal_for_each : forall {A : Type} (l : list A) (body : A -> M state unit),
  (forall x, pool_fatal (body x)) -> pool_fatal (for_each l body).
Proof.
  intros. apply respects_for_each; auto.
  - apply same_xsdt_refl.
  - apply same_xsdt_trans.
Qed.

Lemma pool_fatal_rd : forall a, pool_fatal (rd a).
Proof. intros a s. reflexivity. Qed.

Lemma pool_fatal_rd8 : forall a, pool_fatal (rd8 a).
Proof. intros a s. reflexivity. Qed.

Lemma pool_fatal_rd32 : forall a, pool_fatal (rd32 a).
Proof. intros a s. reflexivity. Qed.

Lemma pool_fatal_rd64 : forall a, pool_fatal (rd64 a).
Proof. intros a s. reflexivity. Qed.

Lemma pool_fatal_wr : forall a v, pool_fatal (wr a v).
Proof. intros a v s. reflexivity. Qed.

Lemma pool_fatal_get_root : pool_fatal get_root.
Proof. intros s. reflexivity. Qed.

Lemma pool_fatal_get_acpi : pool_fatal get_acpi.
Proof. intros s. reflexivity. Qed.

Lemma pool_fatal_pmap_add : forall a sz ty, pool_fatal (pmap_add a sz ty).
Proof. intros a sz ty s. reflexivity. Qed.

Lemma pool_fatal_alloc_page : pool_fatal alloc_page.
Proof.
  intros s. unfold alloc_page. cbv zeta.
  destruct (Z.eqb_spec (next_page (btable s)) (term_page (btable s))) as [E|E].
  - exact E.
  - reflexivity.
Qed.

Create HintDb pool_fatal.
#[local] Hint Resolve pool_fatal_ret pool_fatal_rd pool_fatal_rd8 pool_fatal_rd32
  pool_fatal_rd64 pool_fatal_wr pool_fatal_get_root pool_fatal_get_acpi
  pool_fatal_pmap_add pool_fatal_alloc_page : pool_fatal.

(** Goes through binds and conditionals down to the calls. *)
Ltac pool_fatal_step :=
  match goal with
  | |- pool_fatal (bind _ _) => apply pool_fatal_bind; [|intros ?]
  | |- pool_fatal (if ?c then _ else _) => destruct c
  | |- pool_fatal (for_each _ _) => apply pool_fatal_for_each; intros ?
  | |- pool_fatal (let x := _ in _) => cbv zeta
  | |- pool_fatal _ => solve [auto with pool_fatal]
  end.

Ltac pool_fatal_tac := repeat pool_fatal_step.

Lemma pool_fatal_ensure_table : forall table e, pool_fatal (ensure_table table e).
Proof. intros. unfold ensure_table. pool_fatal_tac. Qed.
#[local] Hint Resolve pool_fatal_ensure_table : pool_fatal.

Lemma pool_fatal_create_page : forall a fl, pool_fatal (create_page a fl).
Proof. intros. unfold create_page. pool_fatal_tac. Qed.
#[local] Hint Resolve pool_fatal_create_page : pool_fatal.

Lemma pool_fatal_is_mapped : forall a, pool_fatal (is_mapped a).
Proof. intros. unfold is_mapped. pool_fatal_tac. Qed.
#[local] Hint Resolve pool_fatal_is_mapped : pool_fatal.

Lemma pool_fatal_map_range : forall a sz fl, pool_fatal (map_range a sz fl).
Proof. intros. unfold map_range. pool_fatal_tac. Qed.
#[local] Hint Resolve pool_fatal_map_range : pool_fatal.

Lemma pool_fatal_map_table : forall hdr, pool_fatal (map_table hdr).
Proof. intros. unfold map_table. pool_fatal_tac. Qed.
#[local] Hint Resolve pool_fatal_map_table : pool_fatal.

Lemma pool_fatal_read_table : forall hdr, pool_fatal (read_table hdr).
Proof.
  intros hdr s. unfold read_table, bind, rd32, get_acpi.
  repeat (destruct (_ =? _); [reflexivity|]). reflexivity.
Qed.
#[local] Hint Resolve pool_fatal_read_table : pool_fatal.

Lemma pool_fatal_read_xsdt : pool_fatal read_xsdt.
Proof. unfold read_xsdt. pool_fatal_tac. Qed.

Lemma pool_fatal_read_rsdt : pool_fatal read_rsdt.
Proof. unfold read_rsdt. pool_fatal_tac. Qed.
#[local] Hint Resolve pool_fatal_read_xsdt pool_fatal_read_rsdt : pool_fatal.

(** The MADT iterators never reach [fatal]. *)
Lemma madt_scan_not_fatal : forall fuel ty ptr term s s',
  madt_scan fuel ty ptr term s <> Fatal s'.
Proof.
  induction fuel as [|fuel IH]; intros ty ptr term s s'; simpl; [discriminate|].
  destruct (ptr <? term); [|discriminate].
  unfold bind, rd8. destruct (_ =? ty); [discriminate|]. apply IH.
Qed.

Lemma madt_find_not_fatal : forall fuel ty prev s s',
  madt_find fuel ty prev s <> Fatal s'.
Proof.
  intros fuel ty prev s s'. unfold madt_find, bind, get_acpi.
  destruct (madt (acpi s) =? 0); [discriminate|].
  unfold rd32. destruct (prev =? 0); cbn; apply madt_scan_not_fatal.
Qed.

Lemma io_apic_loop_not_fatal : forall fuel io s s',
  io_apic_loop fuel io s <> Fatal s'.
Proof.
  induction fuel as [|fuel IH]; intros io s s'; [discriminate|].
  cbn [io_apic_loop]. unfold bind at 1.
  destruct (acpi_next_io_apic (S fuel) io s) as [io' s1|s1|s1|] eqn:E;
    try discriminate.
  - destruct (io' =? 0); [discriminate|]. unfold bind, rd32, pmap_add. apply IH.
  - exfalso. exact (madt_find_not_fatal _ _ _ _ _ E).
Qed.

(** The addresses [find_rsdp] looks at. *)
Definition scanned (addr sz : Z) : list Z :=
  map (fun k => addr + 16 * k) (indices (Z.to_nat ((sz + 15) / 16))).

(** No RSDP signature in either range. *)
Definition no_rsdp (m : memory) : Prop :=
  forall p,
    In p (scanned KMEM_EXTENDED_BIOS KMEM_EXTENDED_BIOS_SIZE ++
          scanned KMEM_SYSTEM_ROM KMEM_SYSTEM_ROM_SIZE) ->
    read64 m p <> SIGNATURE_RSDP.

(** The RSDP that [acpi_init] settles on. *)
Definition rsdp_of (m : memory) : Z :=
  let r1 := find_rsdp m KMEM_EXTENDED_BIOS KMEM_EXTENDED_BIOS_SIZE in
  if r1 =? 0 then find_rsdp m KMEM_SYSTEM_ROM KMEM_SYSTEM_ROM_SIZE else r1.

(** There is an RSDP, the XSDT is not used (ACPI 1.0, or a null XSDT
    pointer) and the RSDT pointer is null. *)
Definition no_root_table (m : memory) : Prop :=
  let r := rsdp_of m in
  r <> 0 /\
  (read8 m (r + 15) + 1 <= 1 \/ read64 m (r + 24) = 0) /\
  read32 m (r + 16) = 0.

Lemma find_rsdp_zero : forall m addr sz,
  0 < addr ->
  (find_rsdp m addr sz = 0 <->
   forall p, In p (scanned addr sz) -> read64 m p <> SIGNATURE_RSDP).
Proof.
  intros m addr sz Ha. unfold find_rsdp. fold (scanned addr sz).
  destruct (find _ (scanned addr sz)) as [p|] eqn:E.
  - apply find_some in E as [Hin Hp]. apply Z.eqb_eq in Hp. split.
    + intros ->. exfalso. unfold scanned in Hin. apply in_map_iff in Hin as (k & Hk & Hin).
      apply in_indices in Hin. lia.
    + intros H. exfalso. exact (H p Hin Hp).
  - split; [|reflexivity]. intros _ p Hin.
    apply (find_none _ _ E) in Hin. apply Z.eqb_neq. exact Hin.
Qed.

Lemma rsdp_of_zero : forall m, rsdp_of m = 0 <-> no_rsdp m.
Proof.
  intros m. unfold rsdp_of, no_rsdp. cbv zeta.
  pose proof (find_rsdp_zero m KMEM_EXTENDED_BIOS KMEM_EXTENDED_BIOS_SIZE
                ltac:(reflexivity)) as H1.
  pose proof (find_rsdp_zero m KMEM_SYSTEM_ROM KMEM_SYSTEM_ROM_SIZE
                ltac:(reflexivity)) as H2.
  destruct (Z.eqb_spec (find_rsdp m KMEM_EXTENDED_BIOS KMEM_EXTENDED_BIOS_SIZE) 0)
    as [E|E].
  - rewrite H2. split.
    + intros H p Hin. apply in_app_or in Hin as [Hin|Hin]; [|auto].
      apply H1; assumption.
    + intros H p Hin. apply H. apply in_or_app. right. exact Hin.
  - split; [contradiction|]. intros H. exfalso. apply E. apply H1.
    intros p Hin. apply H. apply in_or_app. left. exact Hin.
Qed.

Lemma init_state_not_exhausted : forall m a l, ~ exhausted (mkState m (btable (init_state m)) a l).
Proof. intros m a l. unfold exhausted. cbn. discriminate. Qed.

Lemma acpi_init_no_rsdp : forall fuel m,
  rsdp_of m = 0 ->
  acpi_init fuel m = Fatal (mkState m (btable (init_state m)) acpi_zero []).
Proof.
  intros fuel m H. unfold acpi_init. cbv zeta. fold (init_state m).
  unfold rsdp_of in H. cbv zeta in H. rewrite H. reflexivity.
Qed.

Lemma acpi_init_no_root_table : forall fuel m,
  no_root_table m ->
  exists a, acpi_init fuel m = Fatal (mkState m (btable (init_state m)) a []).
Proof.
  intros fuel m (Hr & Hx & Ht). unfold acpi_init. cbv zeta. fold (init_state m).
  unfold rsdp_of in *. cbv zeta in *.
  set (r := if find_rsdp m KMEM_EXTENDED_BIOS KMEM_EXTENDED_BIOS_SIZE =? 0
            then find_rsdp m KMEM_SYSTEM_ROM KMEM_SYSTEM_ROM_SIZE
            else find_rsdp m KMEM_EXTENDED_BIOS KMEM_EXTENDED_BIOS_SIZE) in *.
  unfold bind at 1. cbn [set_acpi]. apply Z.eqb_neq in Hr. rewrite Hr.
  unfold bind at 1. cbn [rd8 amem init_state].
  unfold bind at 1. cbn [set_acpi].
  unfold bind at 1.
  destruct (Z.gtb_spec (read8 m (r + 15) + 1) 1) as [Hv|Hv].
  - destruct Hx as [Hx|Hx]; [lia|].
    unfold bind at 1. cbn [rd64 amem]. unfold bind at 1. cbn [set_acpi].
    rewrite Hx. cbn [Z.eqb ret].
    unfold bind at 1. cbn [get_acpi acpi xsdt Z.eqb].
    unfold bind at 1. unfold bind at 1. cbn [rd32 amem].
    unfold bind at 1. cbn [set_acpi]. rewrite Ht. cbn [Z.eqb fatal].
    eexists. reflexivity.
  - cbn [ret].
    unfold bind at 1. cbn [get_acpi acpi xsdt Z.eqb].
    unfold bind at 1. unfold bind at 1. cbn [rd32 amem].
    unfold bind at 1. cbn [set_acpi]. rewrite Ht. cbn [Z.eqb fatal].
    eexists. reflexivity.
Qed.

Tactic Notation "fatal_bind" hyp(H) ident(x) ident(s0) ident(E) :=
  apply bind_Fatal in H as [H|(x & s0 & E & H)].

Lemma acpi_init_Fatal : forall fuel m s,
  acpi_init fuel m = Fatal s ->
  no_rsdp m \/ no_root_table m \/ exhausted s.
Proof.
  intros fuel m s H. unfold acpi_init in H. cbv zeta in H. fold (init_state m) in H.
  rewrite <- rsdp_of_zero. unfold no_root_table. cbv zeta.
  unfold rsdp_of. cbv zeta.
  set (r := if find_rsdp m KMEM_EXTENDED_BIOS KMEM_EXTENDED_BIOS_SIZE =? 0
            then find_rsdp m KMEM_SYSTEM_ROM KMEM_SYSTEM_ROM_SIZE
            else find_rsdp m KMEM_EXTENDED_BIOS KMEM_EXTENDED_BIOS_SIZE) in *.
  fatal_bind H u0 s0 E0; [discriminate|]. injection E0 as _ <-.
  destruct (Z.eqb_spec r 0) as [Hr|Hr]; [left; exact Hr|]. right.
  fatal_bind H rev s1 E1; [discriminate|]. apply rd8_Ok in E1 as [-> ->].
  cbn [amem init_state] in H.
  fatal_bind H u1 s1 E1; [discriminate|]. injection E1 as _ <-.
  fatal_bind H u2 s2 E2.
  { (* the XSDT *)
    right. case_if H; [|discriminate].
    fatal_bind H x s3 E3; [discriminate|].
    fatal_bind H u3 s4 E4; [discriminate|].
    case_if H; [discriminate|].
    fatal_bind H u4 s5 E5.
    - exact (respects_Fatal _ _ _ _ _ (pool_fatal_map_table _) H).
    - exact (respects_Fatal _ _ _ _ _ pool_fatal_read_xsdt H). }
  fatal_bind H a s3 E3; [discriminate|]. apply get_acpi_Ok in E3 as [-> ->].
  fatal_bind H u3 s3 E3.
  { (* the RSDT *)
    destruct (Z.eqb_spec (xsdt (acpi s2)) 0) as [Hx|Hx]; [|discriminate].
    fatal_bind H t s4 E4; [discriminate|]. apply rd32_Ok in E4 as [-> ->].
    fatal_bind H u4 s4 E4; [discriminate|]. injection E4 as _ <-.
    destruct (Z.eqb_spec (read32 (amem s2) (r + 16)) 0) as [Ht|Ht].
    - left. split; [exact Hr|].
      destruct (Z.gtb_spec (read8 m (r + 15) + 1) 1) as [Hv|Hv].
      + apply bind_Ok in E2 as (x & s5 & E5 & E2). apply rd64_Ok in E5 as [-> ->].
        cbn [amem] in E2.
        apply bind_Ok in E2 as (u5 & s5 & E5 & E2). injection E5 as _ <-.
        destruct (Z.eqb_spec (read64 m (r + 24)) 0) as [Hz|Hz].
        * apply ret_Ok in E2 as [_ ->]. cbn [amem] in Ht. auto.
        * exfalso. apply Hz. rewrite <- Hx.
          assert (Hp : pool_fatal (map_table (read64 m (r + 24)) ;;; read_xsdt))
            by pool_fatal_tac.
          symmetry. exact (respects_Ok _ _ _ _ _ _ Hp E2).
      + apply ret_Ok in E2 as [_ ->]. cbn [amem] in Ht. auto.
    - right.
      fatal_bind H u5 s5 E5.
      + exact (respects_Fatal _ _ _ _ _ (pool_fatal_map_table _) H).
      + exact (respects_Fatal _ _ _ _ _ pool_fatal_read_rsdt H). }
  fatal_bind H a' s4 E4; [discriminate|]. apply get_acpi_Ok in E4 as [-> ->].
  fatal_bind H u4 s4 E4.
  { case_if H; [|discriminate]. fatal_bind H p s5 E5; discriminate. }
  exfalso. exact (io_apic_loop_not_fatal _ _ _ _ H).
Qed.

Lemma read_table_skip : forall hdr s,
  read32 (amem s) hdr <> SIGNATURE_FADT ->
  read32 (amem s) hdr <> SIGNATURE_MADT ->
  read32 (amem s) hdr <> SIGNATURE_MCFG ->
  read_table hdr s = Ok tt s.
Proof.
  intros hdr s H1 H2 H3. unfold read_table, bind, rd32, get_acpi.
  apply Z.eqb_neq in H1, H2, H3. rewrite H1, H2, H3. reflexivity.
Qed.

(** C8, as the code has it: [acpi_init] reaches [fatal] when no RSDP
    signature is found in either range, and when the XSDT is not used and
    the RSDT pointer is null, in both cases before any page of the pool
    is taken; every other [fatal] of [acpi_init] is that of [alloc_page]
    with the pool of boot page-table pages used up.  The MADT iterators
    never reach [fatal], whatever the lengths of the entries, and a
    table whose signature is none of FADT, MADT and MCFG is passed over,
    the state as it was. *)
Theorem acpi_fatal_cases : forall fuel m,
  (no_rsdp m \/ no_root_table m ->
   exists s, acpi_init fuel m = Fatal s /\ ~ exhausted s) /\
  (forall s, acpi_init fuel m = Fatal s ->
             no_rsdp m \/ no_root_table m \/ exhausted s) /\
  (forall ty prev s s', madt_find fuel ty prev s <> Fatal s') /\
  (forall hdr s,
     read32 (amem s) hdr <> SIGNATURE_FADT ->
     read32 (amem s) hdr <> SIGNATURE_MADT ->
     read32 (amem s) hdr <> SIGNATURE_MCFG ->
     read_table hdr s = Ok tt s).
Proof.
  intros fuel m. split; [|split; [|split]].
  - intros [H|H].
    + apply rsdp_of_zero in H. rewrite (acpi_init_no_rsdp fuel m H).
      eexists. split; [reflexivity | apply init_state_not_exhausted].
    + destruct (acpi_init_no_root_table fuel m H) as (a & ->).
      eexists. split; [reflexivity | apply init_state_not_exhausted].
  - apply acpi_init_Fatal.
  - apply madt_find_not_fatal.
  - apply read_table_skip.
Qed.

(** *** A firmware image *)

(** Bytes laid down in a memory of words, little-endian. *)
Definition write8 (m : memory) (a b : Z) : memory :=
  let w := a - a mod 8 in
  let sh := 8 * (a mod 8) in
  store m w (Z.lor (Z.land (load m w) (Z.lnot (Z.shiftl 0xff sh))) (Z.shiftl b sh)).

Fixpoint write_le (m : memory) (a : Z) (n : nat) (v : Z) : memory :=
  match n with
  | O => m
  | S n' => write_le (write8 m a (v mod 256)) (a + 1) n' (v / 256)
  end.

(** A boot page table of the shape the loader builds: the first 2 MiB in
    4 KiB pages under PML4[0], PDPT[0] and PDT[0], the next 8 MiB in
    2 MiB pages (guard and cache bits left out). *)
Definition loader_tables : memory := fun a =>
  if a =? 0x10000 then 0x11003
  else if a =? 0x11000 then 0x12003
  else if a =? 0x12000 then 0x13003
  else if (0x12008 <=? a) && (a <? 0x12028) && (a mod 8 =? 0)
       then 0x200000 * ((a - 0x12000) / 8) + 0x83
  else if (0x13000 <=? a) && (a <? 0x14000) && (a mod 8 =? 0)
       then 0x1000 * ((a - 0x13000) / 8) + 3
  else 0.

(** An ACPI 3.0 RSDP at the start of the extended BIOS area with a null
    RSDT pointer and the XSDT at [xsdt_at]. *)
Definition with_rsdp (xsdt_at : Z) (m : memory) : memory :=
  write_le (write8 (write_le m 0x9f800 8 SIGNATURE_RSDP) (0x9f800 + 15) 2)
    (0x9f800 + 24) 8 xsdt_at.

(** A table header: signature and length. *)
Definition with_hdr (at_ sig len : Z) (m : memory) : memory :=
  write_le (write_le m at_ 4 sig) (at_ + 4) 4 len.

(** An XSDT with one entry, the MADT; the MADT has a local APIC address
    and a single entry of type 0x7f that gives its length as 200, in a
    table of 52 bytes. *)
Definition firmware : memory :=
  let xsdt_at := 0x7fe1000 in
  let madt_at := 0x7fe2000 in
  let m1 := with_rsdp xsdt_at loader_tables in
  let m2 := write_le (with_hdr xsdt_at 0x54445358 44 m1) (xsdt_at + 36) 8 madt_at in
  let m3 := write_le (with_hdr madt_at SIGNATURE_MADT 52 m2) (madt_at + 36) 4 0xfee00000 in
  write8 (write8 m3 (madt_at + 44) 0x7f) (madt_at + 45) 200.

(** An XSDT with four tables of an unknown signature, each in a 512 GiB
    region of its own. *)
Definition crowded : memory :=
  let xsdt_at := 0x7fe1000 in
  let far k := 0x8000000000 * k + 0x1000 in
  let m1 := with_rsdp xsdt_at loader_tables in
  let m2 := with_hdr xsdt_at 0x54445358 68 m1 in
  fold_left (fun m k =>
               with_hdr (far k) 0x54445353 36
                 (write_le m (xsdt_at + 36 + 8 * (k - 1)) 8 (far k)))
            [1; 2; 3; 4] m2.

(** The loader's tables: one PDPT, one PDT and one PT under the first
    entries, and nothing but large pages in the rest of the PDT. *)
Definition loader_shape (m : memory) : Prop :=
  (forall i, 0 <= i < 512 ->
     load m (entry 0x10000 i) = if i =? 0 then 0x11003 else 0) /\
  (forall i, 0 <= i < 512 ->
     load m (entry 0x11000 i) = if i =? 0 then 0x12003 else 0) /\
  (forall i, 0 <= i < 512 ->
     if i =? 0 then load m (entry 0x12000 i) = 0x13003
     else load m (entry 0x12000 i) = 0 \/
          Z.land (load m (entry 0x12000 i)) PF_PS <> 0).

Lemma loader_tables_shape : loader_shape loader_tables.
Proof.
  unfold loader_shape, entry, load, loader_tables. repeat split; intros i Hi.
  - destruct (Z.eqb_spec i 0) as [->|N]; [reflexivity|].
    destruct (Z.eqb_spec (65536 + 8 * i) 65536); [lia|].
    destruct (Z.eqb_spec (65536 + 8 * i) 69632); [lia|].
    destruct (Z.eqb_spec (65536 + 8 * i) 73728); [lia|].
    destruct (Z.leb_spec 73736 (65536 + 8 * i)); [lia|]. cbn [andb].
    destruct (Z.leb_spec 77824 (65536 + 8 * i)); [lia|]. reflexivity.
  - destruct (Z.eqb_spec i 0) as [->|N]; [reflexivity|].
    destruct (Z.eqb_spec (69632 + 8 * i) 65536); [lia|].
    destruct (Z.eqb_spec (69632 + 8 * i) 69632); [lia|].
    destruct (Z.eqb_spec (69632 + 8 * i) 73728); [lia|].
    destruct (Z.leb_spec 73736 (69632 + 8 * i)); [lia|]. cbn [andb].
    destruct (Z.leb_spec 77824 (69632 + 8 * i)); [lia|]. reflexivity.
  - destruct (Z.eqb_spec i 0) as [->|N]; [reflexivity|].
    destruct (Z.eqb_spec (73728 + 8 * i) 65536); [lia|].
    destruct (Z.eqb_spec (73728 + 8 * i) 69632); [lia|].
    destruct (Z.eqb_spec (73728 + 8 * i) 73728); [lia|].
    destruct (Z.leb_spec 73736 (73728 + 8 * i)); [|lia].
    destruct (Z.ltb_spec (73728 + 8 * i) 73768).
    + assert (Hm : (73728 + 8 * i) mod 8 = 0).
      { replace (73728 + 8 * i) with (0 + (9216 + i) * 8) by lia.
        rewrite Z.mod_add by lia. reflexivity. }
      rewrite Hm. cbn [andb Z.eqb]. right.
      replace ((73728 + 8 * i - 73728) / 8) with i
        by (replace (73728 + 8 * i - 73728) with (i * 8) by lia;
            rewrite Z.div_mul by lia; reflexivity).
      assert (Hi' : i = 1 \/ i = 2 \/ i = 3 \/ i = 4) by lia.
      destruct Hi' as [->|[->|[->| ->]]]; vm_compute; discriminate.
    + cbn [andb].
      destruct (Z.leb_spec 77824 (73728 + 8 * i)); [lia|]. left. reflexivity.
Qed.

(** Under the loader's tables every walk that ends on an entry stays
    below the pool. *)
Lemma loader_shape_boot_walk : forall m a,
  loader_shape m ->
  translation m KMEM_BOOT_PAGETABLE a <> None ->
  boot_walk m a.
Proof.
  intros m a (H1 & H2 & H3) Ht. unfold boot_walk, translation, walk in *.
  cbv zeta in *. unfold KMEM_BOOT_PAGETABLE in *.
  pose proof (index_range (Z.shiftr a PGSHIFT_PML4E)) as R1.
  pose proof (index_range (Z.shiftr a PGSHIFT_PDPTE)) as R2.
  pose proof (index_range (Z.shiftr a PGSHIFT_PDE)) as R3.
  pose proof (index_range (Z.shiftr a PGSHIFT_PTE)) as R4.
  fold (PML4E a) in R1. fold (PDPTE a) in R2. fold (PDE a) in R3. fold (PTE a) in R4.
  assert (P : forall p i, p + PAGE_SIZE <= KMEM_BOOT_PAGETABLE_LOADED ->
                          0 <= i < 512 -> ~ in_pool (entry p i)).
  { intros p i Hp Hi. unfold in_pool, entry, PAGE_SIZE in *. lia. }
  specialize (H1 _ R1). rewrite H1 in *.
  constructor; [apply P; [vm_compute; discriminate | exact R1]|].
  destruct (PML4E a =? 0); [|constructor].
  change (PGPTR 69635) with 0x11000 in *. cbn [Z.eqb] in *.
  specialize (H2 _ R2). rewrite H2 in *.
  constructor; [apply P; [vm_compute; discriminate | exact R2]|].
  destruct (PDPTE a =? 0); [|constructor].
  change (PGPTR 73731) with 0x12000 in *.
  change (Z.land 73731 PF_PS) with 0 in *. cbn [Z.eqb negb] in *.
  specialize (H3 _ R3).
  constructor; [apply P; [vm_compute; discriminate | exact R3]|].
  destruct (PDE a =? 0).
  - rewrite H3 in *. change (PGPTR 77827) with 0x13000 in *.
    change (Z.land 77827 PF_PS) with 0 in *. cbn [Z.eqb negb] in *.
    constructor; [|constructor]. apply P; [vm_compute; discriminate | exact R4].
  - destruct H3 as [H3|H3].
    + rewrite H3. constructor.
    + destruct (load m (entry 73728 (PDE a)) =? 0); [constructor|].
      apply Z.eqb_neq in H3. rewrite H3. constructor.
Qed.

(** The page at 0x9f000 under the loader's tables. *)
Lemma map_range_mapped_witness :
  map_range 0x9f000 0x1000 (flags_of [PF_PRESENT; PF_RW]) (init_state loader_tables)
  = Ok tt (init_state loader_tables).
Proof.
  apply map_range_mapped. intros a Ha.
  assert (E : a = 0x9f000) by (vm_compute in Ha; destruct Ha as [<-|[]]; reflexivity).
  subst a. vm_compute. discriminate.
Defined.

Lemma acpi_init_keeps_translation_witness :
  exists s,
    acpi_init 4 firmware = Ok tt s /\
    root (btable s) = KMEM_BOOT_PAGETABLE /\
    translation (amem s) KMEM_BOOT_PAGETABLE 0x9f000 = Some (0x134f8, 0x9f003).
Proof.
  destruct (is_Ok_inv (acpi_init 4 firmware)) as (u & s & E);
    [vm_compute; reflexivity|].
  destruct u. exists s. split; [exact E|].
  apply (acpi_init_keeps_translation 4 firmware tt s 0x9f000 (0x134f8, 0x9f003) E).
  - assert (W : walk firmware KMEM_BOOT_PAGETABLE 0x9f000
                = [0x10000; 0x11000; 0x12000; 0x134f8])
      by (vm_compute; reflexivity).
    unfold boot_walk. rewrite W.
    repeat constructor; unfold in_pool, KMEM_BOOT_PAGETABLE_LOADED; lia.
  - vm_compute. reflexivity.
Defined.

Lemma acpi_fatal_cases_witness :
  no_rsdp (fun _ => 0) /\
  exists s, acpi_init 1 (fun _ => 0) = Fatal s /\ ~ exhausted s.
Proof.
  assert (H : no_rsdp (fun _ => 0))
    by (apply rsdp_of_zero; vm_compute; reflexivity).
  split; [exact H|].
  apply (acpi_fatal_cases 1 (fun _ => 0)). left. exact H.
Defined.

(** An entry of unknown type whose length runs past the end of the MADT:
    [acpi_init] returns, and each iterator answers NULL. *)
Lemma acpi_madt_overshoot_counterexample :
  exists s,
    acpi_init 4 firmware = Ok tt s /\
    madt (acpi s) = 0x7fe2000 /\
    read8 (amem s) (0x7fe2000 + 44) = 0x7f /\
    0x7fe2000 + read32 (amem s) (0x7fe2000 + 4)
      < 0x7fe2000 + 44 + read8 (amem s) (0x7fe2000 + 45) /\
    acpi_next_local_apic 4 0 s = Ok 0 s /\
    acpi_next_io_apic 4 0 s = Ok 0 s /\
    acpi_next_iso 4 0 s = Ok 0 s.
Proof.
  destruct (outcome_check (acpi_init 4 firmware)
              (fun _ s =>
                 (madt (acpi s) =? 0x7fe2000) &&
                 (read8 (amem s) (0x7fe2000 + 44) =? 0x7f) &&
                 (0x7fe2000 + read32 (amem s) (0x7fe2000 + 4)
                    <? 0x7fe2000 + 44 + read8 (amem s) (0x7fe2000 + 45)) &&
                 forallb (fun ty =>
                            match madt_find 4 ty 0 s with
                            | Ok p _ => p =? 0
                            | _ => false
                            end) [ACPI_MADT_LOCAL_APIC; ACPI_MADT_IO_APIC; ACPI_MADT_ISO]))
    as (u & s & E & H); [vm_compute; reflexivity|].
  destruct u. exists s. split; [exact E|].
  apply andb_prop in H as [H H4]. apply andb_prop in H as [H H3].
  apply andb_prop in H as [H1 H2].
  apply Z.eqb_eq in H1, H2. apply Z.ltb_lt in H3.
  split; [exact H1|]. split; [exact H2|]. split; [exact H3|].
  assert (Hf : forall ty, In ty [ACPI_MADT_LOCAL_APIC; ACPI_MADT_IO_APIC; ACPI_MADT_ISO] ->
                          madt_find 4 ty 0 s = Ok 0 s).
  { intros ty Hin. rewrite forallb_forall in H4. specialize (H4 ty Hin).
    apply outcome_check in H4 as (p & s' & Ep & Hp).
    apply Z.eqb_eq in Hp. subst p.
    rewrite (madt_find_Ok _ _ _ _ _ _ Ep) in Ep. exact Ep. }
  unfold acpi_next_local_apic, acpi_next_io_apic, acpi_next_iso.
  repeat split; apply Hf; simpl; auto.
Qed.

(** The pool runs out: the fourth table needs three pages and two are
    left. *)
Example acpi_init_pool_exhausted :
  exists s, acpi_init 4 crowded = Fatal s /\ exhausted s /\
            ~ no_rsdp crowded /\ ~ no_root_table crowded.
Proof.
  destruct (fatal_check (acpi_init 4 crowded)
              (fun s => next_page (btable s) =? term_page (btable s)))
    as (s & E & H); [vm_compute; reflexivity|].
  apply Z.eqb_eq in H. exists s. split; [exact E|]. split; [exact H|].
  assert (Hr : rsdp_of crowded = 0x9f800) by (vm_compute; reflexivity).
  split.
  - rewrite <- rsdp_of_zero, Hr. discriminate.
  - unfold no_root_table. cbv zeta. rewrite Hr.
    assert (H8 : read8 crowded (0x9f800 + 15) = 2) by (vm_compute; reflexivity).
    assert (H64 : read64 crowded (0x9f800 + 24) = 0x7fe1000) by (vm_compute; reflexivity).
    rewrite H8, H64. intros (_ & [Hx|Hx] & _); [lia|discriminate].
Qed.

End AcpiFacts.

(** ** Facts about the interrupt tables *)

Module InterruptFacts.
Import Interrupt.

(** *** Bytes *)

Lemma store_le_out : forall n m a v x,
  x < a \/ a + Z.of_nat n <= x -> store_le m a n v x = m x.
Proof.
  induction n as [|n IH]; intros m a v x Hx; [reflexivity|].
  cbn [store_le]. rewrite IH by lia. unfold store8.
  destruct (Z.eqb_spec x a); [lia | reflexivity].
Qed.

Lemma store_bytes_out : forall l m a x,
  x < a \/ a + Z.of_nat (length l) <= x -> store_bytes m a l x = m x.
Proof.
  induction l as [|b l IH]; intros m a x Hx; [reflexivity|].
  cbn [store_bytes]. cbn [length] in Hx. rewrite IH by lia. unfold store8.
  destruct (Z.eqb_spec x a); [lia | reflexivity].
Qed.

Lemma store_bytes_in : forall l m a i,
  (i < length l)%nat ->
  store_bytes m a l (a + Z.of_nat i) = nth i l 0 mod 256.
Proof.
  induction l as [|b l IH]; intros m a i Hi; cbn [length] in Hi; [lia|].
  cbn [store_bytes]. destruct i as [|i].
  - rewrite Z.add_0_r, store_bytes_out by lia. unfold store8.
    rewrite Z.eqb_refl. reflexivity.
  - replace (a + Z.of_nat (S i)) with (a + 1 + Z.of_nat i) by lia.
    rewrite IH by lia. reflexivity.
Qed.

Lemma load_le_ext : forall n m m' a,
  (forall x, a <= x < a + Z.of_nat n -> m' x = m x) ->
  load_le m' a n = load_le m a n.
Proof.
  induction n as [|n IH]; intros m m' a H; [reflexivity|].
  cbn [load_le]. unfold load8. rewrite (H a) by lia.
  rewrite (IH m m' (a + 1)); [reflexivity|]. intros x Hx. apply H. lia.
Qed.

Lemma load_le_store_le : forall n m a v,
  load_le (store_le m a n v) a n = v mod 2 ^ (8 * Z.of_nat n).
Proof.
  induction n as [|n IH]; intros m a v.
  - cbn. rewrite Z.mod_1_r. reflexivity.
  - cbn [load_le store_le]. rewrite IH. unfold load8.
    rewrite store_le_out by lia. unfold store8. rewrite Z.eqb_refl.
    replace (8 * Z.of_nat (S n)) with (8 + 8 * Z.of_nat n) by lia.
    rewrite Z.pow_add_r by lia. change (2 ^ 8) with 256.
    rewrite Z.rem_mul_r by lia. reflexivity.
Qed.

Lemma load_le_store_le_other : forall n k m a b v,
  a + Z.of_nat n <= b \/ b + Z.of_nat k <= a ->
  load_le (store_le m b k v) a n = load_le m a n.
Proof.
  intros n k m a b v H. apply load_le_ext. intros x Hx.
  apply store_le_out. lia.
Qed.

(** [outside lo hi m m']: [m'] is [m] except in [[lo, hi)]. *)
Definition outside (lo hi : Z) (m m' : bytes) : Prop :=
  forall x, x < lo \/ hi <= x -> m' x = m x.

Lemma outside_refl : forall lo hi m, outside lo hi m m.
Proof. intros lo hi m x _. reflexivity. Qed.

Lemma outside_trans : forall lo hi m1 m2 m3,
  outside lo hi m1 m2 -> outside lo hi m2 m3 -> outside lo hi m1 m3.
Proof. intros lo hi m1 m2 m3 H12 H23 x Hx. rewrite H23, H12; auto. Qed.

Lemma outside_weaken : forall lo hi lo' hi' m m',
  lo' <= lo -> hi <= hi' -> outside lo hi m m' -> outside lo' hi' m m'.
Proof. intros lo hi lo' hi' m m' Hl Hh H x Hx. apply H. lia. Qed.

Lemma outside_store_le : forall n m a v,
  outside a (a + Z.of_nat n) m (store_le m a n v).
Proof. intros n m a v x Hx. apply store_le_out. lia. Qed.

Lemma outside_store_le_in : forall lo hi n m a v,
  lo <= a -> a + Z.of_nat n <= hi -> outside lo hi m (store_le m a n v).
Proof.
  intros lo hi n m a v Hl Hh.
  apply (outside_weaken a (a + Z.of_nat n)); [exact Hl | exact Hh |].
  apply outside_store_le.
Qed.

Ltac nat_consts :=
  change (Z.of_nat 2) with 2 in *; change (Z.of_nat 4) with 4 in *;
  change (Z.of_nat 8) with 8 in *.

Lemma outside_load_le : forall lo hi m m' a n,
  outside lo hi m m' ->
  a + Z.of_nat n <= lo \/ hi <= a ->
  load_le m' a n = load_le m a n.
Proof.
  intros lo hi m m' a n H Ha. apply load_le_ext. intros x Hx. apply H. lia.
Qed.

(** *** Counting loops *)

Lemma do_while_count : forall (body : cpu -> cpu) (Inv : Z -> cpu -> Prop),
  (forall k s, 0 <= k < 256 -> Inv k s -> Inv (k + 1) (body s)) ->
  (forall k s, Inv k s -> rcx s = k) ->
  forall fuel s, (256 <= fuel)%nat -> Inv 0 s ->
  exists r, do_while fuel body (fun s => negb (rcx s =? 256)) s = Some r /\
            Inv 256 r.
Proof.
  intros body Inv Hstep Hrcx.
  assert (G : forall j fuel k s,
             0 <= k -> k + Z.of_nat j = 256 -> (0 < j)%nat -> (j <= fuel)%nat ->
             Inv k s ->
             exists r, do_while fuel body (fun s => negb (rcx s =? 256)) s = Some r /\
                       Inv 256 r).
  { induction j as [|j IH]; intros fuel k s Hk Hj Hpos Hfuel HI; [lia|].
    destruct fuel as [|fuel]; [lia|]. cbn [do_while].
    assert (HI' : Inv (k + 1) (body s)) by (apply Hstep; [lia | exact HI]).
    rewrite (Hrcx _ _ HI').
    destruct (Z.eqb_spec (k + 1) 256) as [E|E]; cbn [negb].
    - exists (body s). rewrite E in HI'. auto.
    - apply (IH fuel (k + 1)); try lia. exact HI'. }
  intros fuel s Hfuel HI. apply (G 256%nat fuel 0 s); try lia. exact HI.
Qed.

Lemma template_bytes : forall m a,
  let m' := store_bytes m a ISR_Thunk_Template in
  m' a = 0x90 /\ m' (a + 1) = 0x6A /\ m' (a + 3) = 0xE9.
Proof.
  intros m a. unfold ISR_Thunk_Template. cbn [store_bytes]. unfold store8.
  repeat split;
    repeat match goal with
           | |- context [?x =? ?y] => destruct (Z.eqb_spec x y); try lia
           end; reflexivity.
Qed.

(** *** The two tables *)

Section Labels.
Variable ISR_Dispatcher : Z.
Variable ISR_Dispatcher_Special : Z.

(** The dispatcher that vector [v] is to reach. *)
Definition dispatcher_of (v : Z) : Z :=
  if pushes_error v then ISR_Dispatcher_Special else ISR_Dispatcher.

(** Thunk [v] as patched: the four opcode and immediate bytes, and the
    displacement. *)
Definition thunk_ok (m : bytes) (v : Z) : Prop :=
  load8 m (thunk v) = 0x90 /\
  load8 m (thunk v + 1) = 0x6A /\
  load8 m (thunk v + 2) = v /\
  load8 m (thunk v + 3) = 0xE9 /\
  load32 m (thunk v + 4)
    = wrap32 (wrap64 (dispatcher_of v - (thunk v + ISR_Thunk_Size))).

Definition descriptor_ok (m : bytes) (v : Z) : Prop :=
  idt_offset m v = thunk v + 1.

Lemma thunk_ok_outside : forall lo hi m m' v,
  outside lo hi m m' ->
  thunk v + 8 <= lo \/ hi <= thunk v ->
  thunk_ok m v -> thunk_ok m' v.
Proof.
  intros lo hi m m' v Ho Hv (H0 & H1 & H2 & H3 & H4).
  unfold thunk_ok, load8, load32 in *.
  rewrite !Ho by lia.
  rewrite (outside_load_le lo hi m m') by (auto; lia).
  auto.
Qed.

Lemma descriptor_ok_outside : forall lo hi m m' v,
  outside lo hi m m' ->
  descriptor v + 16 <= lo \/ hi <= descriptor v ->
  descriptor_ok m v -> descriptor_ok m' v.
Proof.
  intros lo hi m m' v Ho Hv H.
  unfold descriptor_ok, idt_offset, load16, load32 in *.
  unfold IDT_Descriptor_OffsetLo, IDT_Descriptor_OffsetMid, IDT_Descriptor_OffsetHi in *.
  rewrite !(outside_load_le lo hi m m') by (auto; lia).
  exact H.
Qed.

(** The test on the vector picks the dispatcher of the table. *)
Lemma dispatcher_choice : forall k,
  0 <= k < 256 ->
  (if k >? 14 then ISR_Dispatcher
   else if Z.land (wrap32 (Z.shiftl 1 (Z.land (k mod 256) 31))) PushesError =? 0
        then ISR_Dispatcher
        else ISR_Dispatcher_Special)
  = dispatcher_of k.
Proof.
  intros k Hk. unfold dispatcher_of.
  destruct (Z.gtb_spec k 14) as [H|H].
  - assert (E : pushes_error k = false).
    { unfold pushes_error, Exception_DF, Exception_TS, Exception_NP, Exception_SS,
        Exception_GP, Exception_PF. cbn [existsb].
      repeat (rewrite (proj2 (Z.eqb_neq k _)) by lia). reflexivity. }
    rewrite E. reflexivity.
  - assert (C : k = 0 \/ k = 1 \/ k = 2 \/ k = 3 \/ k = 4 \/ k = 5 \/ k = 6 \/ k = 7 \/
                k = 8 \/ k = 9 \/ k = 10 \/ k = 11 \/ k = 12 \/ k = 13 \/ k = 14) by lia.
    repeat (destruct C as [->|C]; [vm_compute; reflexivity|]).
    subst k. vm_compute. reflexivity.
Qed.

Lemma installThunk_effect : forall k s,
  0 <= k < 256 -> rcx s = k -> rdi s = thunk k ->
  let s' := installThunk ISR_Dispatcher ISR_Dispatcher_Special s in
  rcx s' = k + 1 /\ rdi s' = thunk (k + 1) /\
  thunk_ok (mem s') k /\
  outside (thunk k) (thunk k + 8) (mem s) (mem s').
Proof.
  intros k s Hk Hc Hd. unfold installThunk. cbv zeta. cbn [rcx rdi mem].
  rewrite Hc, Hd, (dispatcher_choice k Hk).
  assert (Hw : wrap64 (thunk k + 8) = thunk k + 8).
  { apply wrap64_small. unfold thunk, Mem_ISR_Thunks, ISR_Thunk_Size. lia. }
  rewrite Hw. unfold ISR_Thunk_Size.
  replace (thunk k + 8 - 8 + 2) with (thunk k + 2) by lia.
  replace (thunk k + 8 - 8 + 4) with (thunk k + 4) by lia.
  split; [unfold wrap32; apply Z.mod_small; lia|].
  split; [unfold thunk, ISR_Thunk_Size; lia|].
  split.
  - unfold thunk_ok, load8, load32, store32.
    rewrite load_le_store_le. rewrite !store_le_out by lia.
    unfold store8 at 1 2 3 4.
    repeat match goal with
           | |- context [?a =? ?b] =>
               first [ replace (a =? b) with true by (symmetry; apply Z.eqb_eq; lia)
                     | replace (a =? b) with false by (symmetry; apply Z.eqb_neq; lia) ]
           end.
    destruct (template_bytes (mem s) (thunk k)) as (B0 & B1 & B3).
    rewrite B0, B1, B3.
    split; [reflexivity|]. split; [reflexivity|].
    split; [rewrite Z.mod_mod by lia; apply Z.mod_small; lia|].
    split; [reflexivity|].
    unfold wrap32. change (2 ^ (8 * Z.of_nat 4)) with (2 ^ 32).
    rewrite Z.mod_mod by lia. unfold ISR_Thunk_Size. reflexivity.
  - intros x Hx. unfold store32.
    rewrite store_le_out by (change (Z.of_nat 4) with 4; lia).
    unfold store8. destruct (Z.eqb_spec x (thunk k + 2)); [lia|].
    apply store_bytes_out. change (Z.of_nat (length ISR_Thunk_Template)) with 8. lia.
Qed.

Lemma setupThunks_ok : forall fuel m,
  (256 <= fuel)%nat ->
  exists s, setupThunks ISR_Dispatcher ISR_Dispatcher_Special fuel m = Some s /\
            forall v, 0 <= v < 256 -> thunk_ok (mem s) v.
Proof.
  intros fuel m Hfuel. unfold setupThunks.
  destruct (do_while_count (installThunk ISR_Dispatcher ISR_Dispatcher_Special)
              (fun k s => rcx s = k /\ rdi s = thunk k /\
                          forall v, 0 <= v < k -> thunk_ok (mem s) v))
    with (fuel := fuel) (s := mkCpu 0 0 Mem_ISR_Thunks m)
    as (r & Hr & _ & _ & Hall).
  - intros k s Hk (Hc & Hd & Hprev).
    destruct (installThunk_effect k s Hk Hc Hd) as (Hc' & Hd' & Hok & Hout).
    split; [exact Hc'|]. split; [exact Hd'|].
    intros v Hv. destruct (Z.eq_dec v k) as [->|Hne]; [exact Hok|].
    apply (thunk_ok_outside _ _ _ _ v Hout).
    + unfold thunk, ISR_Thunk_Size. lia.
    + apply Hprev. lia.
  - intros k s (Hc & _). exact Hc.
  - exact Hfuel.
  - cbn. split; [reflexivity|]. split; [reflexivity|]. intros v Hv. lia.
  - exists r. split; [exact Hr | exact Hall].
Qed.

End Labels.

Lemma rep_stosq_outside : forall count rax a m,
  outside a (a + 8 * Z.of_nat count) m (rep_stosq count rax a m).
Proof.
  induction count as [|c IH]; intros rax a m; [apply outside_refl|].
  cbn [rep_stosq]. eapply outside_trans.
  - apply (outside_weaken a (a + 8)); [lia | lia |].
    unfold store64. apply (outside_store_le 8).
  - apply (outside_weaken (a + 8) (a + 8 + 8 * Z.of_nat c)); [lia | lia | apply IH].
Qed.

Lemma installDescriptor_effect : forall k s,
  0 <= k < 256 -> rcx s = k -> rsi s = thunk k -> rdi s = descriptor k ->
  let s' := installDescriptor s in
  rcx s' = k + 1 /\ rsi s' = thunk (k + 1) /\ rdi s' = descriptor (k + 1) /\
  descriptor_ok (mem s') k /\
  outside (descriptor k) (descriptor k + 16) (mem s) (mem s').
Proof.
  intros k s Hk Hc Hs Hd. unfold installDescriptor. cbv zeta. cbn [rcx rsi rdi mem].
  rewrite Hc, Hs, Hd.
  assert (Ht : 0x2800 <= thunk k < 0x3000)
    by (unfold thunk, Mem_ISR_Thunks, ISR_Thunk_Size; lia).
  assert (Hdd : 0x1000 <= descriptor k < 0x2000)
    by (unfold descriptor, Mem_IDT, IDT_Descriptor_size; lia).
  rewrite (wrap64_small (thunk k + 1)) by lia.
  split; [unfold wrap32; apply Z.mod_small; lia|].
  split; [rewrite wrap64_small by (unfold ISR_Thunk_Size; lia);
          unfold thunk, ISR_Thunk_Size; lia|].
  split; [rewrite wrap64_small by (unfold IDT_Descriptor_size; lia);
          unfold descriptor, IDT_Descriptor_size; lia|].
  unfold IDT_Descriptor_OffsetLo, IDT_Descriptor_OffsetMid, IDT_Descriptor_OffsetHi,
    IDT_Descriptor_Segment, IDT_Descriptor_Flags, store16, store32.
  split.
  - unfold descriptor_ok, idt_offset, load16, load32.
    unfold IDT_Descriptor_OffsetLo, IDT_Descriptor_OffsetMid, IDT_Descriptor_OffsetHi.
    repeat first
      [ rewrite load_le_store_le
      | rewrite load_le_store_le_other by
          (change (Z.of_nat 2) with 2; change (Z.of_nat 4) with 4; lia) ].
    change (2 ^ (8 * Z.of_nat 2)) with (2 ^ 16).
    change (2 ^ (8 * Z.of_nat 4)) with (2 ^ 32).
    rewrite !Z.mod_mod by lia.
    rewrite Z.shiftr_shiftr by lia. rewrite !Z.shiftr_div_pow2 by lia.
    change (2 ^ 16) with 65536. change (2 ^ (16 + 16)) with 4294967296.
    change (2 ^ 32) with 4294967296.
    rewrite (Z.mod_small (thunk k + 1) 65536) by lia.
    rewrite (Z.div_small (thunk k + 1) 65536) by lia.
    rewrite (Z.div_small (thunk k + 1) 4294967296) by lia.
    change (0 mod 65536) with 0. change (0 mod 4294967296) with 0. lia.
  - repeat (eapply outside_trans; [|apply outside_store_le_in; nat_consts; lia]).
    apply outside_refl.
Qed.

Lemma replaceSpecialStacks_outside : forall m,
  outside Mem_IDT (Mem_IDT + Mem_IDT_Size) m (replaceSpecialStacks m).
Proof.
  intros m. unfold replaceSpecialStacks. cbv zeta. unfold store16.
  repeat (eapply outside_trans;
          [|apply outside_store_le_in; vm_compute; discriminate]).
  apply outside_refl.
Qed.

(** The stack overrides rewrite flags words only. *)
Lemma replaceSpecialStacks_offset : forall m v,
  0 <= v < 256 ->
  idt_offset (replaceSpecialStacks m) v = idt_offset m v.
Proof.
  intros m v Hv. unfold replaceSpecialStacks, idt_offset, load16, load32, store16.
  cbv zeta.
  unfold descriptor, IDT_Descriptor_OffsetLo, IDT_Descriptor_OffsetMid,
    IDT_Descriptor_OffsetHi, IDT_Descriptor_Flags, IDT_Descriptor_size, Mem_IDT,
    Exception_NMI, Exception_DF, Exception_MC.
  rewrite !(load_le_store_le_other 2 2) by (change (Z.of_nat 2) with 2; lia).
  rewrite !(load_le_store_le_other 4 2) by
    (change (Z.of_nat 2) with 2; change (Z.of_nat 4) with 4; lia).
  reflexivity.
Qed.

Lemma setupIDT_ok : forall fuel m,
  (256 <= fuel)%nat ->
  exists m', setupIDT fuel m = Some m' /\
             outside Mem_IDT (Mem_IDT + Mem_IDT_Size) m m' /\
             forall v, 0 <= v < 256 -> descriptor_ok m' v.
Proof.
  intros fuel m Hfuel. unfold setupIDT. cbv zeta.
  set (m0 := rep_stosq _ 0 Mem_IDT m).
  assert (H0 : outside Mem_IDT (Mem_IDT + Mem_IDT_Size) m m0).
  { subst m0. eapply outside_weaken; [| |apply rep_stosq_outside];
      vm_compute; discriminate. }
  destruct (do_while_count installDescriptor
              (fun k s => rcx s = k /\ rsi s = thunk k /\ rdi s = descriptor k /\
                          outside Mem_IDT (Mem_IDT + Mem_IDT_Size) m0 (mem s) /\
                          forall v, 0 <= v < k -> descriptor_ok (mem s) v))
    with (fuel := fuel) (s := mkCpu 0 Mem_ISR_Thunks Mem_IDT m0)
    as (r & Hr & _ & _ & _ & Hout & Hall).
  - intros k s Hk (Hc & Hs & Hd & Hout & Hprev).
    destruct (installDescriptor_effect k s Hk Hc Hs Hd) as (Hc' & Hs' & Hd' & Hok & Ho).
    split; [exact Hc'|]. split; [exact Hs'|]. split; [exact Hd'|].
    split.
    + eapply outside_trans; [exact Hout|].
      eapply outside_weaken; [| |exact Ho];
        unfold descriptor, Mem_IDT, Mem_IDT_Size, IDT_Descriptor_size; lia.
    + intros v Hv. destruct (Z.eq_dec v k) as [->|Hne]; [exact Hok|].
      apply (descriptor_ok_outside _ _ _ _ v Ho).
      * unfold descriptor, IDT_Descriptor_size. lia.
      * apply Hprev. lia.
  - intros k s (Hc & _). exact Hc.
  - exact Hfuel.
  - cbn [rcx rsi rdi mem]. split; [reflexivity|]. split; [reflexivity|].
    split; [reflexivity|]. split; [apply outside_refl|]. intros v Hv. lia.
  - rewrite Hr. eexists. split; [reflexivity|]. split.
    + eapply outside_trans; [exact H0|]. eapply outside_trans; [exact Hout|].
      apply replaceSpecialStacks_outside.
    + intros v Hv. unfold descriptor_ok.
      rewrite replaceSpecialStacks_offset by exact Hv. apply Hall. exact Hv.
Qed.

Lemma sext32_wrap : forall d,
  - 2 ^ 31 <= d < 2 ^ 31 -> sext32 (wrap32 (wrap64 d)) = d.
Proof.
  intros d Hd. unfold sext32, wrap32, wrap64.
  assert (E : (d mod 2 ^ 64) mod 2 ^ 32 = d mod 2 ^ 32).
  { change (2 ^ 64) with (2 ^ 32 * 2 ^ 32). rewrite Z.rem_mul_r by lia.
    rewrite (Z.mul_comm (2 ^ 32)), Z.mod_add by lia. apply Z.mod_mod. lia. }
  rewrite E. destruct (Z.neg_nonneg_cases d) as [Hn|Hp].
  - assert (E' : d mod 2 ^ 32 = d + 2 ^ 32).
    { symmetry. apply (Z.mod_unique d (2 ^ 32) (-1)); lia. }
    rewrite E'. destruct (Z.ltb_spec (d + 2 ^ 32) (2 ^ 31)); lia.
  - rewrite Z.mod_small by lia. destruct (Z.ltb_spec d (2 ^ 31)); lia.
Qed.

Lemma thunk_jmp_target_ok : forall D S m v,
  0 <= D < 2 ^ 31 -> 0 <= S < 2 ^ 31 -> 0 <= v < 256 ->
  thunk_ok D S m v ->
  thunk_jmp_target m v = dispatcher_of D S v.
Proof.
  intros D S m v HD HS Hv (_ & _ & _ & _ & H). unfold thunk_jmp_target.
  rewrite H.
  assert (Ht : 0x2800 <= thunk v < 0x3000)
    by (unfold thunk, Mem_ISR_Thunks, ISR_Thunk_Size; lia).
  assert (Hd : 0 <= dispatcher_of D S v < 2 ^ 31)
    by (unfold dispatcher_of; destruct (pushes_error v); assumption).
  unfold ISR_Thunk_Size in *.
  rewrite sext32_wrap by lia.
  replace (thunk v + 8 + (dispatcher_of D S v - (thunk v + 8)))
    with (dispatcher_of D S v) by lia.
  apply wrap64_small. lia.
Qed.

Lemma interrupts_init_ok : forall D S fuel m0,
  (256 <= fuel)%nat ->
  exists m,
    interrupts_init D S fuel m0 = Some m /\
    forall v, 0 <= v < 256 -> thunk_ok D S m v /\ descriptor_ok m v.
Proof.
  intros D S fuel m0 Hfuel. unfold interrupts_init.
  destruct (setupThunks_ok D S fuel m0 Hfuel) as (s1 & E1 & Hth). rewrite E1.
  destruct (setupIDT_ok fuel (mem s1) Hfuel) as (m & E2 & Hout & Hds).
  exists m. split; [exact E2|]. intros v Hv. split; [|apply Hds; exact Hv].
  apply (thunk_ok_outside D S _ _ _ _ v Hout); [|apply Hth; exact Hv].
  unfold thunk, Mem_ISR_Thunks, ISR_Thunk_Size, Mem_IDT, Mem_IDT_Size,
    IDT_Descriptor_size. lia.
Qed.

(** The tables: with the two dispatchers at distinct addresses below 2 GiB
    (the kernel image is linked at 0x301000), [interrupts_init] ends and
    for every vector [v] below 256: descriptor [v] of the IDT holds the
    address of the [push] of thunk [v], which lies in the thunk table;
    the thunk is a [push imm8] with the immediate byte [v], followed by
    a [jmp] whose target is the special dispatcher when [v] is one of
    8, 10, 11, 12, 13, 14 and the common dispatcher when it is not. *)
Theorem interrupts_init_tables : forall D S fuel m0,
  0 <= D < 2 ^ 31 -> 0 <= S < 2 ^ 31 -> D <> S -> (256 <= fuel)%nat ->
  exists m,
    interrupts_init D S fuel m0 = Some m /\
    forall v, 0 <= v < 256 ->
      idt_offset m v = thunk v + 1 /\
      Mem_ISR_Thunks <= thunk v /\
      thunk v + ISR_Thunk_Size <= Mem_ISR_Thunks + ISR_Thunk_Size * 256 /\
      load8 m (thunk v + 1) = 0x6A /\
      load8 m (thunk v + 2) = v /\
      load8 m (thunk v + 3) = 0xE9 /\
      (thunk_jmp_target m v = S <-> pushes_error v = true) /\
      (thunk_jmp_target m v = D <-> pushes_error v = false).
Proof.
  intros D S fuel m0 HD HS Hne Hfuel.
  destruct (interrupts_init_ok D S fuel m0 Hfuel) as (m & E & H).
  exists m. split; [exact E|]. intros v Hv.
  destruct (H v Hv) as (Ht & Hd).
  pose proof (thunk_jmp_target_ok D S m v HD HS Hv Ht) as Hj.
  destruct Ht as (_ & T1 & T2 & T3 & _).
  split; [exact Hd|].
  split; [unfold thunk, ISR_Thunk_Size; lia|].
  split; [unfold thunk, ISR_Thunk_Size; lia|].
  split; [exact T1|]. split; [exact T2|]. split; [exact T3|].
  rewrite Hj. unfold dispatcher_of.
  destruct (pushes_error v); split; split; intros H';
    try reflexivity; try discriminate; congruence.
Qed.

Lemma interrupts_init_tables_witness :
  exists m,
    interrupts_init 0x301100 0x301180 256 (fun _ => 0) = Some m /\
    idt_offset m 14 = thunk 14 + 1 /\
    load8 m (thunk 14 + 2) = 14 /\
    (thunk_jmp_target m 14 = 0x301180 <-> pushes_error 14 = true).
Proof.
  destruct (interrupts_init_tables 0x301100 0x301180 256 (fun _ => 0))
    as (m & E & H); try lia.
  exists m. split; [exact E|].
  destruct (H 14 ltac:(lia)) as (H1 & _ & _ & _ & H2 & _ & H3 & _).
  auto.
Defined.

End InterruptFacts.

(** ** Facts about the kernel page table *)

Module KmemFacts.
Import Pmap Paging_h Kmem_h Kmem.

(** *** The translation of an address *)

(** Levels are counted from the leaves: 0 is a PT, 1 a PDT, 2 a PDPT and
    3 the PML4.  [bsize L] is what one entry of a level-[L] table maps. *)
Fixpoint bsize (L : nat) : Z :=
  match L with
  | O => PAGE_SIZE
  | S L' => 512 * bsize L'
  end.

(** The index of [a] in a level-[L] table, and [a] rounded down to the
    start of the block of that entry. *)
Definition idx (L : nat) (a : Z) : Z := (a / bsize L) mod 512.
Definition base (L : nat) (a : Z) : Z := bsize L * (a / bsize L).

(** The fields of an entry that the MMU reads: the present bit, the
    page-size bit (PDPT and PDT only), bits 12 to 51 as the address of
    the next table or, from the block size on, of the frame, and the low
    twelve bits as flags. *)
Definition present (v : Z) : bool := negb (Z.land v PF_PRESENT =? 0).

Definition is_leaf (L : nat) (v : Z) : bool :=
  match L with
  | O => true
  | 1%nat | 2%nat => negb (Z.land v PF_PS =? 0)
  | _ => false
  end.

Definition frame (L : nat) (v : Z) : Z := bsize L * ((v mod 2 ^ 52) / bsize L).
Definition table_of (v : Z) : Z := frame 0 v.
Definition eflags (v : Z) : Z := v mod PAGE_SIZE.

(** The walk from a level-[L] table at [T]: the leaf entry for [a] and
    its level. *)
Fixpoint walk (m : memory) (L : nat) (T a : Z) : option (Z * nat) :=
  let v := load m (entry T (idx L a)) in
  if present v then
    if is_leaf L v then Some (v, L)
    else
      match L with
      | O => None
      | S L' => walk m L' (table_of v) a
      end
  else None.

(** The physical address, the flags and the size of the leaf that [a]
    is translated through. *)
Definition translate (m : memory) (root a : Z) : option (Z * Z * Z) :=
  match walk m 3 root a with
  | Some (v, L) => Some (frame L v + a mod bsize L, eflags v, bsize L)
  | None => None
  end.

(** The flags of a leaf of level [L] for a region of type [ty]. *)
Definition leaf_flags (ty : Z) (L : nat) : Z :=
  flags_of
    ([PF_PRESENT; PF_GLOBAL; PF_SYSTEM; PF_RW]
     ++ (match L with O => [] | _ => [PF_PS] end)
     ++ (if (ty =? PMEMTYPE_ACPI_NVS) || (ty =? PMEMTYPE_UNCACHED)
         then [PF_PWT; PF_PCD] else [])).

(** [map_region] returns at once on these. *)
Definition skipped (map : pmap) (r : pmapregion) : bool :=
  (type r =? PMEMTYPE_UNMAPPED) || (type r =? PMEMTYPE_BAD)
  || ((type r =? PMEMTYPE_RESERVED) && (addr r >=? last_usable map)).

(** The state [kmem_init] is entered in: any memory, any [pagetable_t]. *)
Definition entry_state (m : memory) : kstate := mkKstate m (mkPagetable 0 0 0 0).

(** *** Arithmetic of blocks and entries *)

Lemma bsize_pos : forall L, 0 < bsize L.
Proof. induction L as [|L IH]; cbn [bsize]; [reflexivity | lia]. Qed.

Lemma bsize_page : forall L, exists k, 0 < k /\ bsize L = PAGE_SIZE * k.
Proof.
  induction L as [|L (k & Hk & IH)]; cbn [bsize].
  - exists 1. split; [lia | lia].
  - exists (512 * k). split; [lia | rewrite IH; lia].
Qed.

Lemma bsize_mul : forall L L', (L <= L')%nat ->
  exists k, 0 < k /\ bsize L' = bsize L * k.
Proof.
  intros L L' H. induction H as [|L' H (k & Hk & IH)].
  - exists 1. lia.
  - exists (512 * k). cbn [bsize]. split; [lia | rewrite IH; lia].
Qed.

Lemma bsize_ge_page : forall L, PAGE_SIZE <= bsize L.
Proof.
  intros L. destruct (bsize_page L) as (k & Hk & ->). unfold PAGE_SIZE. lia.
Qed.

Lemma bsize_4 : bsize 4 = 2 ^ 48.
Proof. reflexivity. Qed.

Lemma idx_range : forall L a, 0 <= idx L a < 512.
Proof. intros L a. unfold idx. apply Z.mod_pos_bound. lia. Qed.

Lemma base_bounds : forall L a, base L a <= a < base L a + bsize L.
Proof.
  intros L a. unfold base. pose proof (bsize_pos L) as HB.
  pose proof (Z.div_mod a (bsize L) ltac:(lia)) as Hd.
  pose proof (Z.mod_pos_bound a (bsize L) HB). lia.
Qed.

Lemma base_aligned : forall L a, a mod bsize L = 0 -> base L a = a.
Proof.
  intros L a H. unfold base. pose proof (bsize_pos L) as HB.
  pose proof (Z.div_mod a (bsize L) ltac:(lia)). lia.
Qed.

Lemma base_mod : forall L a, base L a mod bsize L = 0.
Proof.
  intros L a. unfold base. rewrite Z.mul_comm. apply Z.mod_mul.
  pose proof (bsize_pos L). lia.
Qed.

(** Entry [idx L a] of the table that covers [a] is the entry of the
    block of [a]. *)
Lemma base_idx : forall L a,
  base (S L) a + idx L a * bsize L = base L a.
Proof.
  intros L a. unfold base, idx. cbn [bsize]. pose proof (bsize_pos L) as HB.
  replace (a / (512 * bsize L)) with (a / bsize L / 512)
    by (rewrite Z.div_div by lia; f_equal; lia).
  pose proof (Z.div_mod (a / bsize L) 512 ltac:(lia)). nia.
Qed.

(** Addresses of one aligned block agree on the indices from the level
    of the block up. *)
Lemma div_block : forall L L' x a,
  (L <= L')%nat -> x mod bsize L = 0 -> x <= a < x + bsize L ->
  a / bsize L' = x / bsize L'.
Proof.
  intros L L' x a HL Hx Ha. destruct (bsize_mul L L' HL) as (k & Hk & ->).
  pose proof (bsize_pos L) as HB.
  rewrite <- !Z.div_div by lia. f_equal.
  pose proof (Z.div_mod x (bsize L) ltac:(lia)) as Hd. rewrite Hx in Hd.
  symmetry. apply (Z.div_unique a (bsize L) (x / bsize L) (a - x)); lia.
Qed.

Lemma idx_block : forall L L' x a,
  (L <= L')%nat -> x mod bsize L = 0 -> x <= a < x + bsize L ->
  idx L' a = idx L' x.
Proof.
  intros. unfold idx. erewrite div_block; eauto.
Qed.

Lemma base_block : forall L L' x a,
  (L <= L')%nat -> x mod bsize L = 0 -> x <= a < x + bsize L ->
  base L' a = base L' x.
Proof.
  intros. unfold base. erewrite div_block; eauto.
Qed.

Lemma mod_block : forall L x a,
  x mod bsize L = 0 -> x <= a < x + bsize L -> a mod bsize L = a - x.
Proof.
  intros L x a Hx Ha. pose proof (bsize_pos L) as HB.
  pose proof (Z.div_mod x (bsize L) ltac:(lia)) as Hd. rewrite Hx in Hd.
  symmetry. apply (Z.mod_unique a (bsize L) (x / bsize L)); lia.
Qed.

(** The index macros of paging.h. *)
Lemma PML4E_idx : forall a, PML4E a = idx 3 a.
Proof.
  intros a. unfold PML4E, idx, PGMASK_ENTRY, PGSHIFT_PML4E.
  change 511 with (Z.ones 9). rewrite Z.land_ones, Z.shiftr_div_pow2 by lia.
  reflexivity.
Qed.

Lemma PDPTE_idx : forall a, PDPTE a = idx 2 a.
Proof.
  intros a. unfold PDPTE, idx, PGMASK_ENTRY, PGSHIFT_PDPTE.
  change 511 with (Z.ones 9). rewrite Z.land_ones, Z.shiftr_div_pow2 by lia.
  reflexivity.
Qed.

Lemma PDE_idx : forall a, PDE a = idx 1 a.
Proof.
  intros a. unfold PDE, idx, PGMASK_ENTRY, PGSHIFT_PDE.
  change 511 with (Z.ones 9). rewrite Z.land_ones, Z.shiftr_div_pow2 by lia.
  reflexivity.
Qed.

Lemma PTE_idx : forall a, PTE a = idx 0 a.
Proof.
  intros a. unfold PTE, idx, PGMASK_ENTRY, PGSHIFT_PTE.
  change 511 with (Z.ones 9). rewrite Z.land_ones, Z.shiftr_div_pow2 by lia.
  reflexivity.
Qed.

(** Bits of [a | f] for a page-aligned [a] and flags [f] below 4096. *)
Lemma lor_aligned : forall a f,
  0 <= a -> a mod PAGE_SIZE = 0 -> 0 <= f < PAGE_SIZE -> Z.lor a f = a + f.
Proof.
  intros a f Ha Hm Hf. unfold PAGE_SIZE in *.
  assert (E : a = Z.shiftl (a / 4096) 12).
  { rewrite Z.shiftl_mul_pow2 by lia. change (2 ^ 12) with 4096.
    pose proof (Z.div_mod a 4096 ltac:(lia)). lia. }
  assert (D : Z.land a f = 0).
  { apply Z.bits_inj'. intros n Hn. rewrite Z.land_spec, Z.bits_0.
    destruct (Z.ltb_spec n 12).
    - rewrite E, Z.shiftl_spec_low by lia. reflexivity.
    - destruct (Z.eq_dec f 0) as [->|Hf0]; [rewrite Z.bits_0; apply andb_false_r|].
      rewrite (Z.bits_above_log2 f n); [apply andb_false_r | lia |].
      apply Z.log2_lt_pow2; [lia|]. apply Z.lt_le_trans with (2 ^ 12); [lia|].
      apply Z.pow_le_mono_r; lia. }
  rewrite <- Z.lxor_lor by exact D. symmetry. apply Z.add_nocarry_lxor. exact D.
Qed.

Lemma land_low : forall v mask,
  Z.land (Z.ones 12) mask = mask ->
  Z.land v mask = Z.land (v mod PAGE_SIZE) mask.
Proof.
  intros v mask Hm. unfold PAGE_SIZE. change 4096 with (2 ^ 12).
  rewrite <- Z.land_ones by lia. rewrite <- Z.land_assoc, Hm. reflexivity.
Qed.

Lemma mod_page_add : forall a f,
  a mod PAGE_SIZE = 0 -> 0 <= f < PAGE_SIZE -> (a + f) mod PAGE_SIZE = f.
Proof.
  intros a f Ha Hf. unfold PAGE_SIZE in *.
  pose proof (Z.div_mod a 4096 ltac:(lia)) as Hd. rewrite Ha in Hd.
  symmetry. apply (Z.mod_unique (a + f) 4096 (a / 4096)); lia.
Qed.

(** A flag test on [a + f] is the test on [f]. *)
Lemma land_flags : forall a f mask,
  a mod PAGE_SIZE = 0 -> 0 <= f < PAGE_SIZE ->
  Z.land (Z.ones 12) mask = mask ->
  Z.land (a + f) mask = Z.land f mask.
Proof.
  intros a f mask Ha Hf Hm.
  rewrite land_low by exact Hm.
  rewrite mod_page_add by assumption. reflexivity.
Qed.

Lemma PGPTR_pointer : forall T f,
  T mod PAGE_SIZE = 0 -> 0 <= f < 1024 -> PGPTR (T + f) = T.
Proof.
  intros T f HT Hf. unfold PGPTR, PGMASK_OFFSET, PAGE_SIZE in *.
  change 1023 with (Z.ones 10).
  rewrite <- Z.ldiff_land, Z.ldiff_ones_r by lia.
  rewrite Z.shiftr_div_pow2, Z.shiftl_mul_pow2 by lia. change (2 ^ 10) with 1024.
  pose proof (Z.div_mod T 4096 ltac:(lia)) as Hd. rewrite HT in Hd.
  assert (E : (T + f) / 1024 = 4 * (T / 4096)).
  { symmetry. apply (Z.div_unique (T + f) 1024 (4 * (T / 4096)) f); lia. }
  rewrite E. lia.
Qed.

Lemma frame_aligned : forall L a f,
  0 <= a -> a mod bsize L = 0 -> 0 <= f < PAGE_SIZE -> a + f < 2 ^ 52 ->
  frame L (a + f) = a.
Proof.
  intros L a f Ha Hm Hf Hlt. unfold frame. rewrite Z.mod_small by lia.
  pose proof (bsize_pos L) as HB. pose proof (bsize_ge_page L) as HP.
  pose proof (Z.div_mod a (bsize L) ltac:(lia)) as Hd. rewrite Hm in Hd.
  assert (E : (a + f) / bsize L = a / bsize L).
  { symmetry. apply (Z.div_unique (a + f) (bsize L) (a / bsize L) f); lia. }
  rewrite E. lia.
Qed.

(** *** Walks *)

Lemma present_nonzero : forall v, present v = true -> v <> 0.
Proof. intros v H ->. discriminate. Qed.

Lemma present_flags : forall a f,
  a mod PAGE_SIZE = 0 -> 0 <= f < PAGE_SIZE -> present (a + f) = present f.
Proof.
  intros a f Ha Hf. unfold present. rewrite land_flags by (auto; reflexivity).
  reflexivity.
Qed.

Lemma is_leaf_flags : forall L a f,
  a mod PAGE_SIZE = 0 -> 0 <= f < PAGE_SIZE -> is_leaf L (a + f) = is_leaf L f.
Proof.
  intros L a f Ha Hf. unfold is_leaf.
  rewrite land_flags by (auto; reflexivity). reflexivity.
Qed.

(** An entry made by [alloc_page]: the page with SYSTEM, PRESENT and RW. *)
Definition POINTER : Z := flags_of [PF_SYSTEM; PF_PRESENT; PF_RW].

Lemma POINTER_range : 0 <= POINTER < PAGE_SIZE.
Proof. change POINTER with 515. unfold PAGE_SIZE. lia. Qed.

Lemma present_pointer : forall T, T mod PAGE_SIZE = 0 -> present (T + POINTER) = true.
Proof. intros T HT. rewrite present_flags by (auto using POINTER_range). reflexivity. Qed.

Lemma is_leaf_pointer : forall L T,
  T mod PAGE_SIZE = 0 -> is_leaf (S L) (T + POINTER) = false.
Proof.
  intros L T HT.
  rewrite is_leaf_flags by (auto using POINTER_range).
  destruct L as [|[|L]]; reflexivity.
Qed.

Lemma table_of_pointer : forall T,
  0 <= T < 2 ^ 48 -> T mod PAGE_SIZE = 0 -> table_of (T + POINTER) = T.
Proof.
  intros T HT Ha. unfold table_of. apply frame_aligned.
  - lia.
  - exact Ha.
  - apply POINTER_range.
  - change POINTER with 515. lia.
Qed.

(** [keeps m m']: the non-zero words of [m] are those of [m']. *)
Definition keeps (m m' : memory) : Prop :=
  forall x, load m x <> 0 -> load m' x = load m x.

Lemma keeps_refl : forall m, keeps m m.
Proof. intros m x _. reflexivity. Qed.

Lemma keeps_trans : forall m1 m2 m3, keeps m1 m2 -> keeps m2 m3 -> keeps m1 m3.
Proof.
  intros m1 m2 m3 H12 H23 x Hx. rewrite <- (H12 x Hx). apply H23.
  rewrite (H12 x Hx). exact Hx.
Qed.

Lemma keeps_store : forall m x v, load m x = 0 -> keeps m (store m x v).
Proof.
  intros m x v Hx y Hy. unfold load, store in *.
  destruct (Z.eqb_spec y x) as [->|]; [contradiction | reflexivity].
Qed.

Lemma walk_keeps : forall m m' L T a r,
  keeps m m' -> walk m L T a = Some r -> walk m' L T a = Some r.
Proof.
  intros m m' L. induction L as [|L IH]; intros T a r Hk H; cbn [walk] in *.
  - destruct (present (load m (entry T (idx 0 a)))) eqn:P; [|discriminate].
    rewrite (Hk _ (present_nonzero _ P)), P. exact H.
  - destruct (present (load m (entry T (idx (S L) a)))) eqn:P; [|discriminate].
    rewrite (Hk _ (present_nonzero _ P)), P.
    destruct (is_leaf (S L) _); [exact H|]. apply IH; assumption.
Qed.

Lemma walk_step : forall m L T T' a,
  load m (entry T (idx (S L) a)) = T' + POINTER ->
  0 <= T' < 2 ^ 48 -> T' mod PAGE_SIZE = 0 ->
  walk m (S L) T a = walk m L T' a.
Proof.
  intros m L T T' a Hv HT Ha. cbn [walk]. rewrite Hv.
  rewrite present_pointer, is_leaf_pointer, table_of_pointer by assumption.
  reflexivity.
Qed.

Lemma walk_leaf : forall m L T a v,
  load m (entry T (idx L a)) = v -> present v = true -> is_leaf L v = true ->
  walk m L T a = Some (v, L).
Proof.
  intros m L T a v Hv Hp Hl. destruct L; cbn [walk]; rewrite Hv, Hp, ?Hl; reflexivity.
Qed.

Lemma entry_inj : forall T T' i i',
  T mod PAGE_SIZE = 0 -> T' mod PAGE_SIZE = 0 ->
  0 <= i < 512 -> 0 <= i' < 512 ->
  entry T i = entry T' i' -> T = T' /\ i = i'.
Proof.
  intros T T' i i' HT HT' Hi Hi' H. unfold entry, PAGE_SIZE in *.
  pose proof (Z.div_mod T 4096 ltac:(lia)).
  pose proof (Z.div_mod T' 4096 ltac:(lia)). lia.
Qed.

Lemma entry_bounds : forall T i, 0 <= i < 512 -> T <= entry T i < T + PAGE_SIZE.
Proof. intros T i Hi. unfold entry, PAGE_SIZE. lia. Qed.

(** *** The invariant of the construction *)

(** [own T = Some (L, b)]: the page [T] is the level-[L] table for the
    addresses from [b]. *)
Definition owner : Type := Z -> option (nat * Z).

(** [a] is translated to itself through a leaf of level [L] with the
    flags [f]. *)
Definition maps (m : memory) (a f : Z) (L : nat) : Prop :=
  exists v, walk m 3 KMEM_KERNEL_PAGETABLE a = Some (v, L) /\
            eflags v = f /\ frame L v + a mod bsize L = a.

Section Invariant.
Variable own : owner.
(** The addresses mapped so far, with flags and level. *)
Variable R : Z -> Z -> nat -> Prop.
(** Everything below [cur] has been dealt with; a page is being made at
    [pa], with its leaf at level [pl]. *)
Variable cur pa : Z.
Variable pl : nat.

Definition slot_ok (L : nat) (bs v : Z) : Prop :=
  present v = true /\
  ((is_leaf L v = true /\ forall a, bs <= a < bs + bsize L -> exists f, R a f L)
   \/
   (exists L' T', L = S L' /\ v = T' + POINTER /\ own T' = Some (L', bs) /\
                  (bs < cur \/ (bs <= pa /\ (pl < L)%nat)))).

Record Inv (s : kstate) : Prop := mkInv {
  i_proot : proot (kpt s) = KMEM_KERNEL_PAGETABLE;
  i_vterm : vterm (kpt s) = KMEM_KERNEL_PAGETABLE_END;
  i_vnext : KMEM_KERNEL_PAGETABLE + PAGE_SIZE <= vnext (kpt s)
            <= KMEM_KERNEL_PAGETABLE_END;
  i_valign : vnext (kpt s) mod PAGE_SIZE = 0;
  i_root : own KMEM_KERNEL_PAGETABLE = Some (3%nat, 0);
  i_own : forall T L b, own T = Some (L, b) ->
            KMEM_KERNEL_PAGETABLE <= T < vnext (kpt s) /\ T mod PAGE_SIZE = 0 /\
            (L <= 3)%nat /\ 0 <= b /\ b mod bsize (S L) = 0 /\
            b + bsize (S L) <= 2 ^ 48;
  i_fresh : forall x, vnext (kpt s) <= x < KMEM_KERNEL_PAGETABLE_END ->
            load (kmem s) x = 0;
  i_slot : forall T L b i, own T = Some (L, b) -> 0 <= i < 512 ->
            load (kmem s) (entry T i) <> 0 ->
            slot_ok L (b + i * bsize L) (load (kmem s) (entry T i));
  i_good : forall a f L, R a f L -> maps (kmem s) a f L;
  i_below : forall a f L, R a f L -> 0 <= a < cur
}.

End Invariant.

(** Under the invariant a walk ends on a leaf of [R] only. *)
Lemma walk_owned : forall own R cur pa pl s,
  Inv own R cur pa pl s ->
  forall L T a v Lf,
    own T = Some (L, base (S L) a) ->
    walk (kmem s) L T a = Some (v, Lf) ->
    exists f, R a f Lf.
Proof.
  intros own R cur pa pl s HI. induction L as [|L IH]; intros T a v Lf HT Hw.
  - cbn [walk] in Hw.
    destruct (present (load (kmem s) (entry T (idx 0 a)))) eqn:P; [|discriminate].
    cbn [is_leaf] in Hw. injection Hw as <- <-.
    destruct (i_slot _ _ _ _ _ _ HI T 0%nat _ (idx 0 a) HT (idx_range 0 a)
                (present_nonzero _ P)) as (_ & [(_ & Hl)|(L' & T' & E & _)]).
    + apply Hl. rewrite base_idx. apply base_bounds.
    + discriminate.
  - cbn [walk] in Hw.
    destruct (present (load (kmem s) (entry T (idx (S L) a)))) eqn:P; [|discriminate].
    destruct (i_slot _ _ _ _ _ _ HI T (S L) _ (idx (S L) a) HT (idx_range (S L) a)
                (present_nonzero _ P)) as (_ & [(Hlf & Hl)|(L' & T' & E & Hv & HT' & _)]).
    + rewrite Hlf in Hw. injection Hw as <- <-.
      apply Hl. rewrite base_idx. apply base_bounds.
    + injection E as <-. rewrite base_idx in HT'.
      destruct (i_own _ _ _ _ _ _ HI _ _ _ HT') as (Hr & Ha & _).
      pose proof (i_vnext _ _ _ _ _ _ HI) as Hn.
      rewrite Hv in Hw.
      rewrite is_leaf_pointer, table_of_pointer in Hw; auto.
      * eapply IH; eauto.
      * unfold KMEM_KERNEL_PAGETABLE, KMEM_KERNEL_PAGETABLE_END in *. lia.
Qed.

Lemma translate_owned : forall own R cur pa pl s a,
  Inv own R cur pa pl s -> 0 <= a < 2 ^ 48 ->
  translate (kmem s) KMEM_KERNEL_PAGETABLE a <> None ->
  exists f L, R a f L.
Proof.
  intros own R cur pa pl s a HI Ha Ht. unfold translate in Ht.
  destruct (walk (kmem s) 3 KMEM_KERNEL_PAGETABLE a) as [[v L]|] eqn:E;
    [|contradiction].
  assert (Hb : base 4 a = 0).
  { unfold base. rewrite bsize_4, Z.div_small by lia. lia. }
  destruct (walk_owned _ _ _ _ _ _ HI 3%nat KMEM_KERNEL_PAGETABLE a v L) as (f & Hf).
  - rewrite Hb. apply (i_root _ _ _ _ _ _ HI).
  - exact E.
  - exists f, L. exact Hf.
Qed.

(** *** The steps of the construction *)

(** The pool of page-table pages is used up. *)
Definition exhausted (s : kstate) : Prop := vnext (kpt s) >= vterm (kpt s).

(** A call returns with [Q], or ends in the [fatal] of [alloc_page]. *)
Definition outcome_spec {A : Type} (o : outcome kstate A)
    (Q : A -> kstate -> Prop) : Prop :=
  match o with
  | Ok a s' => Q a s'
  | Fatal s' => exhausted s'
  | _ => False
  end.

Lemma outcome_spec_bind : forall {A B : Type} (c : M kstate A) (f : A -> M kstate B)
    (Q : A -> kstate -> Prop) (Q' : B -> kstate -> Prop) s,
  outcome_spec (c s) Q ->
  (forall a s1, Q a s1 -> outcome_spec (f a s1) Q') ->
  outcome_spec (bind c f s) Q'.
Proof.
  intros A B c f Q Q' s Hc Hf. unfold bind.
  destruct (c s) as [a s1|s1|s1|]; cbn in *; auto.
Qed.

Lemma outcome_spec_weaken : forall {A : Type} (o : outcome kstate A)
    (Q Q' : A -> kstate -> Prop),
  outcome_spec o Q -> (forall a s, Q a s -> Q' a s) -> outcome_spec o Q'.
Proof. intros A [a s|s|s|] Q Q' H HQ; cbn in *; auto. Qed.

Definition extends (own own' : owner) : Prop :=
  forall X y, own X = Some y -> own' X = Some y.

Lemma slot_ok_extends : forall own own' R cur pa pl L bs v,
  extends own own' -> slot_ok own R cur pa pl L bs v -> slot_ok own' R cur pa pl L bs v.
Proof.
  intros own own' R cur pa pl L bs v He (Hp & [Hl|(L' & T' & E & Hv & Ho & Hc)]).
  - split; [exact Hp | left; exact Hl].
  - split; [exact Hp|]. right. exists L', T'. auto.
Qed.

Lemma aligned_next : forall x y,
  x mod PAGE_SIZE = 0 -> y mod PAGE_SIZE = 0 -> x < y -> x + PAGE_SIZE <= y.
Proof.
  intros x y Hx Hy H. unfold PAGE_SIZE in *.
  pose proof (Z.div_mod x 4096 ltac:(lia)).
  pose proof (Z.div_mod y 4096 ltac:(lia)). lia.
Qed.

Lemma load_store_same : forall m x v, load (store m x v) x = v.
Proof. intros. unfold load, store. rewrite Z.eqb_refl. reflexivity. Qed.

Lemma load_store_other : forall m x v y, y <> x -> load (store m x v) y = load m y.
Proof.
  intros m x v y H. unfold load, store.
  destruct (Z.eqb_spec y x); [contradiction | reflexivity].
Qed.

(** The block of the next level down lies in the block of the table. *)
Lemma base_nested : forall L a,
  base (S L) a <= base L a /\ base L a + bsize L <= base (S L) a + bsize (S L).
Proof.
  intros L a. pose proof (base_idx L a) as E. pose proof (idx_range L a) as Hi.
  pose proof (bsize_pos L). cbn [bsize]. nia.
Qed.

Lemma ensure_table_spec : forall own R cur pa pl s L T,
  Inv own R cur pa pl s ->
  own T = Some (S L, base (S (S L)) pa) ->
  cur <= pa -> (pl <= L)%nat ->
  outcome_spec (ensure_table T (idx (S L) pa) s)
    (fun T' s' =>
       exists own',
         Inv own' R cur pa pl s' /\
         own' T' = Some (L, base (S L) pa) /\
         extends own own' /\
         keeps (kmem s) (kmem s') /\
         load (kmem s') (entry T (idx (S L) pa)) = T' + POINTER /\
         T' mod PAGE_SIZE = 0 /\ 0 <= T' < 2 ^ 48).
Proof.
  intros own R cur pa pl s L T HI HT Hcur Hpl.
  pose proof (idx_range (S L) pa) as Hi.
  destruct (i_own _ _ _ _ _ _ HI _ _ _ HT) as (HTr & HTa & HL & Hb0 & Hba & Hbe).
  pose proof (i_vnext _ _ _ _ _ _ HI) as Hn.
  pose proof (i_valign _ _ _ _ _ _ HI) as Hna.
  pose proof (i_vterm _ _ _ _ _ _ HI) as Hterm.
  pose proof (base_idx (S L) pa) as Hbi.
  pose proof (base_nested (S L) pa) as Hnest.
  unfold ensure_table, bind at 1, rd at 1.
  destruct (Z.eqb_spec (load (kmem s) (entry T (idx (S L) pa))) 0) as [Hz|Hnz].
  - (* a new table *)
    unfold bind at 1, bind at 1, alloc_page. cbv zeta.
    destruct (Z.geb_spec (vnext (kpt s)) (vterm (kpt s))) as [Hge|Hlt].
    + cbn. unfold exhausted. lia.
    + unfold wr, rd, ret, bind.
      cbn [kmem kpt outcome_spec vnext proot vroot vterm].
      set (N := vnext (kpt s)) in *.
      assert (HNE : N + PAGE_SIZE <= KMEM_KERNEL_PAGETABLE_END).
      { apply aligned_next; [exact Hna | reflexivity | lia]. }
      assert (HTN : T + PAGE_SIZE <= N) by (apply aligned_next; auto; lia).
      pose proof (entry_bounds T _ Hi) as Hslot.
      fold POINTER.
      rewrite lor_aligned by
        (auto using POINTER_range; unfold KMEM_KERNEL_PAGETABLE, PAGE_SIZE in *; lia).
      rewrite load_store_same.
      rewrite PGPTR_pointer by (auto; change POINTER with 515; lia).
      rewrite wrap64_small by
        (unfold KMEM_KERNEL_PAGETABLE, KMEM_KERNEL_PAGETABLE_END, PAGE_SIZE in *; lia).
      set (own' := fun X : Z => if X =? N then Some (L, base (S L) pa) else own X).
      assert (Hext : extends own own').
      { intros X y HX. unfold own'. destruct (Z.eqb_spec X N) as [->|]; [|exact HX].
        destruct y as [L0 b0]. apply (i_own _ _ _ _ _ _ HI) in HX. lia. }
      assert (Hkeep : keeps (kmem s)
                        (store (kmem s) (entry T (idx (S L) pa)) (N + POINTER)))
        by (apply keeps_store; exact Hz).
      exists own'. split; [|split; [|split; [|split; [|split; [|split]]]]].
      * constructor; cbn [kmem kpt vnext proot vterm].
        -- apply (i_proot _ _ _ _ _ _ HI).
        -- exact Hterm.
        -- lia.
        -- unfold PAGE_SIZE in *. rewrite <- Zplus_mod_idemp_l, Hna. reflexivity.
        -- apply Hext. apply (i_root _ _ _ _ _ _ HI).
        -- intros X L0 b0 HX. unfold own' in HX.
           destruct (Z.eqb_spec X N) as [->|Hne].
           ++ injection HX as <- <-.
              pose proof (base_mod (S L) pa). unfold PAGE_SIZE in *.
              repeat split; solve [lia | assumption].
           ++ destruct (i_own _ _ _ _ _ _ HI _ _ _ HX) as (H1 & H2 & H3 & H4 & H5 & H6).
              unfold PAGE_SIZE in *. repeat split; solve [lia | assumption].
        -- intros x Hx. rewrite load_store_other by lia.
           apply (i_fresh _ _ _ _ _ _ HI). lia.
        -- intros X L0 b0 j HX Hj Hv. unfold own' in HX.
           pose proof (entry_bounds X j Hj) as HXj.
           destruct (Z.eqb_spec X N) as [->|Hne].
           ++ exfalso. apply Hv. rewrite load_store_other by lia.
              apply (i_fresh _ _ _ _ _ _ HI). lia.
           ++ destruct (i_own _ _ _ _ _ _ HI _ _ _ HX) as (H1 & H2 & _).
              destruct (Z.eq_dec (entry X j) (entry T (idx (S L) pa))) as [E|E].
              ** apply entry_inj in E as [-> ->]; auto.
                 rewrite HT in HX. injection HX as <- <-.
                 rewrite load_store_same. split; [apply present_pointer; exact Hna|].
                 right. exists L, N. split; [reflexivity|]. split; [reflexivity|].
                 split.
                 { unfold own'. rewrite Z.eqb_refl. rewrite Hbi. reflexivity. }
                 { right. pose proof (base_bounds (S L) pa). lia. }
              ** rewrite load_store_other in * by exact E.
                 apply (slot_ok_extends own own'); [exact Hext|].
                 apply (i_slot _ _ _ _ _ _ HI); assumption.
        -- intros a f L0 HR. destruct (i_good _ _ _ _ _ _ HI _ _ _ HR) as (v & Hw & Hf).
           exists v. split; [|exact Hf]. eapply walk_keeps; eauto.
        -- apply (i_below _ _ _ _ _ _ HI).
      * unfold own'. rewrite Z.eqb_refl. reflexivity.
      * exact Hext.
      * exact Hkeep.
      * reflexivity.
      * exact Hna.
      * unfold KMEM_KERNEL_PAGETABLE, KMEM_KERNEL_PAGETABLE_END, PAGE_SIZE in *. lia.
  - (* the table is there *)
    unfold bind, ret, rd. cbn [outcome_spec].
    destruct (i_slot _ _ _ _ _ _ HI _ _ _ _ HT Hi Hnz)
      as (Hp & [(_ & Hl)|(L' & T' & E & Hv & HT' & _)]).
    + exfalso. rewrite Hbi in Hl.
      destruct (Hl pa (base_bounds (S L) pa)) as (f & Hf).
      apply (i_below _ _ _ _ _ _ HI) in Hf. lia.
    + injection E as <-. rewrite Hbi in HT'.
      destruct (i_own _ _ _ _ _ _ HI _ _ _ HT') as (H1 & H2 & _).
      rewrite Hv, PGPTR_pointer by (auto; change POINTER with 515; lia).
      exists own. split; [exact HI|]. split; [exact HT'|].
      split; [intros X y HX; exact HX|]. split; [apply keeps_refl|].
      split; [reflexivity|]. split; [exact H2|].
      unfold KMEM_KERNEL_PAGETABLE, KMEM_KERNEL_PAGETABLE_END in *. lia.
Qed.

Lemma mod_bsize_page : forall L a, a mod bsize L = 0 -> a mod PAGE_SIZE = 0.
Proof.
  intros L a H. destruct (bsize_page L) as (k & Hk & E).
  pose proof (bsize_pos L) as HB.
  pose proof (Z.div_mod a (bsize L) ltac:(lia)) as Hd. rewrite H, E in Hd.
  replace a with (0 + (k * (a / (PAGE_SIZE * k))) * PAGE_SIZE) by lia.
  rewrite Z.mod_add by (unfold PAGE_SIZE; lia). reflexivity.
Qed.

(** The addresses mapped after a leaf of level [L] and flags [f] has
    been made at [addr]. *)
Definition with_leaf (R : Z -> Z -> nat -> Prop) (addr f : Z) (L : nat)
  : Z -> Z -> nat -> Prop :=
  fun a g L0 => R a g L0 \/ (addr <= a < addr + bsize L /\ g = f /\ L0 = L).

Lemma leaf_write : forall own R cur pa' pl' s L T addr f,
  Inv own R cur addr L s ->
  own T = Some (L, base (S L) addr) ->
  addr mod bsize L = 0 -> cur <= addr -> 0 <= addr ->
  0 <= f < PAGE_SIZE -> present f = true -> is_leaf L f = true ->
  (forall m' a, keeps (kmem s) m' -> addr <= a < addr + bsize L ->
                walk m' 3 KMEM_KERNEL_PAGETABLE a = walk m' L T a) ->
  let s' := mkKstate (store (kmem s) (entry T (idx L addr)) (addr + f)) (kpt s) in
  Inv own (with_leaf R addr f L) (addr + bsize L) pa' pl' s' /\
  keeps (kmem s) (kmem s').
Proof.
  intros own R cur pa' pl' s L T addr f HI HT Hal Hcur H0 Hf Hp Hlf Hpath s'.
  pose proof (idx_range L addr) as Hi.
  pose proof (bsize_pos L) as HB.
  destruct (i_own _ _ _ _ _ _ HI _ _ _ HT) as (HTr & HTa & HL & Hb0 & Hba & Hbe).
  pose proof (i_valign _ _ _ _ _ _ HI) as Hna.
  pose proof (base_idx L addr) as Hbi. rewrite (base_aligned L addr Hal) in Hbi.
  pose proof (base_bounds (S L) addr) as Hbb.
  pose proof (mod_bsize_page L addr Hal) as Hpg.
  pose proof (entry_bounds T _ Hi) as Hslot.
  assert (HTN : T + PAGE_SIZE <= vnext (kpt s)) by (apply aligned_next; auto; lia).
  assert (Hz : load (kmem s) (entry T (idx L addr)) = 0).
  { destruct (Z.eq_dec (load (kmem s) (entry T (idx L addr))) 0) as [E|E]; [exact E|].
    exfalso.
    destruct (i_slot _ _ _ _ _ _ HI _ _ _ _ HT Hi E)
      as (_ & [(_ & Hl)|(L' & T' & _ & _ & _ & [Hc|[_ Hc]])]).
    - rewrite Hbi in Hl. destruct (Hl addr ltac:(lia)) as (g & Hg).
      apply (i_below _ _ _ _ _ _ HI) in Hg. lia.
    - lia.
    - lia. }
  assert (Hk : keeps (kmem s) (kmem s')) by (apply keeps_store; exact Hz).
  split; [|exact Hk]. constructor; cbn [kmem kpt s'].
  - apply (i_proot _ _ _ _ _ _ HI).
  - apply (i_vterm _ _ _ _ _ _ HI).
  - apply (i_vnext _ _ _ _ _ _ HI).
  - exact Hna.
  - apply (i_root _ _ _ _ _ _ HI).
  - apply (i_own _ _ _ _ _ _ HI).
  - intros x Hx. rewrite load_store_other by lia. apply (i_fresh _ _ _ _ _ _ HI). exact Hx.
  - intros X L0 b0 j HX Hj Hv.
    destruct (i_own _ _ _ _ _ _ HI _ _ _ HX) as (H1 & H2 & _).
    destruct (Z.eq_dec (entry X j) (entry T (idx L addr))) as [E|E].
    + apply entry_inj in E as [-> ->]; auto.
      rewrite HT in HX. injection HX as <- <-.
      rewrite load_store_same. rewrite Hbi.
      split; [rewrite present_flags by assumption; exact Hp|].
      left. split; [rewrite is_leaf_flags by assumption; exact Hlf|].
      intros a Ha. exists f. right. auto.
    + rewrite load_store_other in * by exact E.
      destruct (i_slot _ _ _ _ _ _ HI _ _ _ _ HX Hj Hv)
        as (Hp' & [(Hl1 & Hl2)|(L' & T' & E1 & E2 & E3 & Hc)]).
      * split; [exact Hp'|]. left. split; [exact Hl1|].
        intros a Ha. destruct (Hl2 a Ha) as (g & Hg). exists g. left. exact Hg.
      * split; [exact Hp'|]. right. exists L', T'.
        split; [exact E1|]. split; [exact E2|]. split; [exact E3|]. left. lia.
  - intros a g L0 [HR|(Ha & -> & ->)].
    + destruct (i_good _ _ _ _ _ _ HI _ _ _ HR) as (v & Hw & Hv).
      exists v. split; [|exact Hv]. eapply walk_keeps; eauto.
    + exists (addr + f). split; [|split].
      * rewrite (Hpath (store (kmem s) (entry T (idx L addr)) (addr + f)) a Hk Ha).
        apply walk_leaf.
        -- rewrite (idx_block L L addr a (le_n _) Hal Ha). apply load_store_same.
        -- rewrite present_flags by assumption. exact Hp.
        -- rewrite is_leaf_flags by assumption. exact Hlf.
      * unfold eflags. apply mod_page_add; assumption.
      * rewrite frame_aligned by (auto; unfold PAGE_SIZE in *; lia).
        rewrite (mod_block L addr a Hal Ha). lia.
  - intros a g L0 [HR|(Ha & _)].
    + apply (i_below _ _ _ _ _ _ HI) in HR. lia.
    + lia.
Qed.

(** [T] is the level-[L] table that the walk for [addr] arrives at, in
    this memory and in every memory that keeps its entries. *)
Definition at_table (own : owner) (s : kstate) (addr : Z) (L : nat) (T : Z) : Prop :=
  own T = Some (L, base (S L) addr) /\
  forall m' a, keeps (kmem s) m' ->
               (forall L', (L < L')%nat -> idx L' a = idx L' addr) ->
               walk m' 3 KMEM_KERNEL_PAGETABLE a = walk m' L T a.

Lemma at_root : forall own R cur pa pl s addr,
  Inv own R cur pa pl s -> 0 <= addr < 2 ^ 48 ->
  at_table own s addr 3 KMEM_KERNEL_PAGETABLE.
Proof.
  intros own R cur pa pl s addr HI Ha. split.
  - assert (Hb : base 4 addr = 0).
    { unfold base. rewrite bsize_4, Z.div_small by lia. lia. }
    rewrite Hb. apply (i_root _ _ _ _ _ _ HI).
  - intros; reflexivity.
Qed.

Lemma descend : forall own R cur pl s addr L T,
  Inv own R cur addr pl s ->
  at_table own s addr (S L) T ->
  cur <= addr -> (pl <= L)%nat ->
  outcome_spec (ensure_table T (idx (S L) addr) s)
    (fun T' s' => exists own', Inv own' R cur addr pl s' /\ at_table own' s' addr L T').
Proof.
  intros own R cur pl s addr L T HI [HT Hpath] Hcur Hpl.
  eapply outcome_spec_weaken;
    [apply (ensure_table_spec own R cur addr pl s L T HI HT Hcur Hpl)|].
  intros T' s' (own' & HI' & HT' & Hext & Hk & Hv & Ha & Hr).
  exists own'. split; [exact HI'|]. split; [exact HT'|].
  intros m' a Hk' Hidx.
  rewrite (Hpath m' a (keeps_trans _ _ _ Hk Hk')) by (intros; apply Hidx; lia).
  apply walk_step; auto.
  rewrite (Hidx (S L)) by lia. rewrite <- Hv. apply Hk'.
  rewrite Hv. apply present_nonzero, present_pointer. exact Ha.
Qed.

Lemma finish : forall own R cur pa' pl' s addr L T f (u : unit),
  Inv own R cur addr L s ->
  at_table own s addr L T ->
  addr mod bsize L = 0 -> cur <= addr -> 0 <= addr ->
  0 <= f < PAGE_SIZE -> present f = true -> is_leaf L f = true ->
  outcome_spec (Ok u (mkKstate (store (kmem s) (entry T (idx L addr)) (Z.lor addr f))
                        (kpt s)))
    (fun _ s' => exists own',
       Inv own' (with_leaf R addr f L) (addr + bsize L) pa' pl' s').
Proof.
  intros own R cur pa' pl' s addr L T f u HI [HT Hpath] Hal Hcur H0 Hf Hp Hl.
  cbn [outcome_spec]. exists own.
  rewrite lor_aligned by (eauto using mod_bsize_page).
  apply (leaf_write own R cur pa' pl' s L T addr f); auto.
  intros m' a Hk Ha. apply Hpath; [exact Hk|].
  intros L' HL'. apply (idx_block L L' addr a); auto. lia.
Qed.

(** The types that [map_region] maps. *)
Definition mappable (ty : Z) : bool :=
  existsb (Z.eqb ty)
    [PMEMTYPE_USABLE; PMEMTYPE_RESERVED; PMEMTYPE_ACPI; PMEMTYPE_ACPI_NVS;
     PMEMTYPE_UNCACHED].

Lemma mappable_cases : forall ty, mappable ty = true ->
  ty = PMEMTYPE_USABLE \/ ty = PMEMTYPE_RESERVED \/ ty = PMEMTYPE_ACPI \/
  ty = PMEMTYPE_ACPI_NVS \/ ty = PMEMTYPE_UNCACHED.
Proof.
  intros ty H. unfold mappable in H. cbn [existsb] in H.
  repeat (apply orb_prop in H as [H|H]; [apply Z.eqb_eq in H; auto 6|]).
  discriminate.
Qed.

Lemma get_ptflags_mappable : forall ty s,
  mappable ty = true -> get_ptflags ty s = Ok (leaf_flags ty 0) s.
Proof.
  intros ty s H. apply mappable_cases in H.
  destruct H as [->|[->|[->|[->| ->]]]]; reflexivity.
Qed.

Lemma get_pdflags_mappable : forall ty L s,
  mappable ty = true -> get_pdflags ty s = Ok (leaf_flags ty (S L)) s.
Proof.
  intros ty L s H. apply mappable_cases in H.
  destruct H as [->|[->|[->|[->| ->]]]]; reflexivity.
Qed.

Lemma leaf_flags_ok : forall ty L,
  mappable ty = true -> (L <= 2)%nat ->
  0 <= leaf_flags ty L < PAGE_SIZE /\
  present (leaf_flags ty L) = true /\
  is_leaf L (leaf_flags ty L) = true.
Proof.
  intros ty L H HL. apply mappable_cases in H.
  assert (C : L = 0%nat \/ L = 1%nat \/ L = 2%nat) by lia.
  destruct C as [->|[->| ->]];
    destruct H as [->|[->|[->|[->| ->]]]];
    (split; [vm_compute; split; congruence | split; reflexivity]).
Qed.

(** No page is in the making: the invariant with nothing pending. *)
Definition settled (own : owner) (R : Z -> Z -> nat -> Prop) (cur : Z) (s : kstate)
  : Prop := Inv own R cur 0 3 s.

Lemma settled_pending : forall own R cur s pa pl,
  settled own R cur s -> Inv own R cur pa pl s.
Proof.
  intros own R cur s pa pl HI. destruct HI. constructor; auto.
  intros T L b i HT Hi Hv.
  destruct (i_own0 _ _ _ HT) as (_ & _ & HL & _).
  destruct (i_slot0 T L b i HT Hi Hv) as (Hp & [Hl|(L' & T' & E1 & E2 & E3 & [Hc|[_ Hc]])]).
  - split; [exact Hp | left; exact Hl].
  - split; [exact Hp|]. right. exists L', T'. auto.
  - lia.
Qed.

Definition page_made (R : Z -> Z -> nat -> Prop) (addr ty : Z) (L : nat)
    (s' : kstate) : Prop :=
  exists own', settled own' (with_leaf R addr (leaf_flags ty L) L) (addr + bsize L) s'.

Lemma create_small_page_spec : forall own R cur s addr ty,
  settled own R cur s -> cur <= addr -> 0 <= addr < 2 ^ 48 ->
  addr mod bsize 0 = 0 -> mappable ty = true ->
  outcome_spec (create_small_page addr ty s) (fun _ s' => page_made R addr ty 0 s').
Proof.
  intros own R cur s addr ty HS Hcur Ha Hal Hty.
  pose proof (settled_pending own R cur s addr 0%nat HS) as HI.
  destruct (leaf_flags_ok ty 0 Hty ltac:(lia)) as (Hf & Hp & Hl).
  unfold create_small_page, get_proot, bind at 1.
  rewrite (i_proot _ _ _ _ _ _ HI), PML4E_idx, PDPTE_idx, PDE_idx, PTE_idx.
  eapply outcome_spec_bind.
  { apply (descend own R cur 0%nat s addr 2%nat _ HI);
      [eapply at_root; eauto | lia | lia]. }
  intros T3 s1 (own1 & HI1 & HT3).
  eapply outcome_spec_bind.
  { apply (descend own1 R cur 0%nat s1 addr 1%nat _ HI1 HT3); lia. }
  intros T2 s2 (own2 & HI2 & HT2).
  eapply outcome_spec_bind.
  { apply (descend own2 R cur 0%nat s2 addr 0%nat _ HI2 HT2); lia. }
  intros T1 s3 (own3 & HI3 & HT1).
  unfold bind. rewrite (get_ptflags_mappable ty s3 Hty). unfold wr.
  apply (finish own3 R cur 0 3%nat s3 addr 0%nat T1 _ tt HI3 HT1); auto; lia.
Qed.

Lemma create_large_page_spec : forall own R cur s addr ty,
  settled own R cur s -> cur <= addr -> 0 <= addr < 2 ^ 48 ->
  addr mod bsize 1 = 0 -> mappable ty = true ->
  outcome_spec (create_large_page addr ty s) (fun _ s' => page_made R addr ty 1 s').
Proof.
  intros own R cur s addr ty HS Hcur Ha Hal Hty.
  pose proof (settled_pending own R cur s addr 1%nat HS) as HI.
  destruct (leaf_flags_ok ty 1 Hty ltac:(lia)) as (Hf & Hp & Hl).
  unfold create_large_page, get_proot, bind at 1.
  rewrite (i_proot _ _ _ _ _ _ HI), PML4E_idx, PDPTE_idx, PDE_idx.
  eapply outcome_spec_bind.
  { apply (descend own R cur 1%nat s addr 2%nat _ HI);
      [eapply at_root; eauto | lia | lia]. }
  intros T3 s1 (own1 & HI1 & HT3).
  eapply outcome_spec_bind.
  { apply (descend own1 R cur 1%nat s1 addr 1%nat _ HI1 HT3); lia. }
  intros T2 s2 (own2 & HI2 & HT2).
  unfold bind. rewrite (get_pdflags_mappable ty 0 s2 Hty). unfold wr.
  apply (finish own2 R cur 0 3%nat s2 addr 1%nat T2 _ tt HI2 HT2); auto; lia.
Qed.

Lemma create_huge_page_spec : forall own R cur s addr ty,
  settled own R cur s -> cur <= addr -> 0 <= addr < 2 ^ 48 ->
  addr mod bsize 2 = 0 -> mappable ty = true ->
  outcome_spec (create_huge_page addr ty s) (fun _ s' => page_made R addr ty 2 s').
Proof.
  intros own R cur s addr ty HS Hcur Ha Hal Hty.
  pose proof (settled_pending own R cur s addr 2%nat HS) as HI.
  destruct (leaf_flags_ok ty 2 Hty ltac:(lia)) as (Hf & Hp & Hl).
  unfold create_huge_page, get_proot, bind at 1.
  rewrite (i_proot _ _ _ _ _ _ HI), PML4E_idx, PDPTE_idx.
  eapply outcome_spec_bind.
  { apply (descend own R cur 2%nat s addr 2%nat _ HI);
      [eapply at_root; eauto | lia | lia]. }
  intros T3 s1 (own1 & HI1 & HT3).
  unfold bind. rewrite (get_pdflags_mappable ty 1 s1 Hty). unfold wr.
  apply (finish own1 R cur 0 3%nat s1 addr 2%nat T3 _ tt HI1 HT3); auto; lia.
Qed.

(** *** The loop of [map_region] *)

(** The aligned block of level [L] around [a] lies in the region. *)
Definition fits (start term : Z) (L : nat) (a : Z) : bool :=
  (start <=? base L a) && (base L a + bsize L <=? term).

(** The level of the largest block around [a] that fits. *)
Definition level_of (start term a : Z) : nat :=
  if fits start term 2 a then 2%nat
  else if fits start term 1 a then 1%nat
  else 0%nat.

(** The level that the loop picks at [addr]. *)
Definition picked (addr term : Z) : nat :=
  if (Z.land addr (PAGE_SIZE_HUGE - 1) =? 0)
     && (wrap64 (term - addr) >=? PAGE_SIZE_HUGE) then 2%nat
  else if (Z.land addr (PAGE_SIZE_LARGE - 1) =? 0)
          && (wrap64 (term - addr) >=? PAGE_SIZE_LARGE) then 1%nat
  else 0%nat.

(** [addr] does not cut a block that fits. *)
Definition unsplit (start term addr : Z) : Prop :=
  forall L, (1 <= L <= 2)%nat ->
    addr mod bsize L = 0 \/ fits start term L addr = false.

Lemma fits_true : forall start term L a,
  fits start term L a = true <-> start <= base L a /\ base L a + bsize L <= term.
Proof.
  intros. unfold fits. rewrite andb_true_iff, !Z.leb_le. reflexivity.
Qed.

Lemma fits_false : forall start term L a,
  fits start term L a = false <-> ~ (start <= base L a /\ base L a + bsize L <= term).
Proof.
  intros. rewrite <- fits_true. destruct (fits start term L a); split; congruence.
Qed.

Lemma unsplit_start : forall start term, unsplit start term start.
Proof.
  intros start term L HL.
  destruct (Z.eq_dec (start mod bsize L) 0) as [E|E]; [left; exact E|].
  right. apply fits_false. intros [H _].
  pose proof (bsize_pos L) as HB. unfold base in H.
  pose proof (Z.div_mod start (bsize L) ltac:(lia)).
  pose proof (Z.mod_pos_bound start (bsize L) HB). lia.
Qed.

Lemma picked_spec : forall addr term,
  0 <= addr < term -> term < 2 ^ 64 ->
  let Lc := picked addr term in
  (Lc <= 2)%nat /\
  (forall L, (Lc < L <= 2)%nat -> ~ (addr mod bsize L = 0 /\ addr + bsize L <= term)) /\
  (Lc <> 0%nat -> addr mod bsize Lc = 0 /\ addr + bsize Lc <= term).
Proof.
  intros addr term Ha Ht. unfold picked.
  rewrite wrap64_small by lia.
  change (PAGE_SIZE_HUGE - 1) with (Z.ones 30).
  change (PAGE_SIZE_LARGE - 1) with (Z.ones 21).
  rewrite !Z.land_ones by lia.
  change PAGE_SIZE_HUGE with (bsize 2). change PAGE_SIZE_LARGE with (bsize 1).
  change (2 ^ 30) with (bsize 2). change (2 ^ 21) with (bsize 1).
  destruct (Z.eqb_spec (addr mod bsize 2) 0) as [E2|E2];
    destruct (Z.geb_spec (term - addr) (bsize 2)) as [G2|G2]; cbn [andb];
    try (split; [lia|]; split; [intros L HL; lia | intros _; split; [exact E2 | lia]]);
    destruct (Z.eqb_spec (addr mod bsize 1) 0) as [E1|E1];
    destruct (Z.geb_spec (term - addr) (bsize 1)) as [G1|G1]; cbn [andb];
    (split; [lia|]; split;
     [ intros L HL; assert (C : L = 1%nat \/ L = 2%nat) by lia;
       destruct C as [->| ->]; try lia; intros [H1 H2]; try contradiction; lia
     | try (intros _; split; [exact E1 | lia]); intros H; exfalso; apply H; reflexivity ]).
Qed.

Lemma base_unique : forall L x a,
  x mod bsize L = 0 -> x <= a < x + bsize L -> base L a = x.
Proof.
  intros L x a Hx Ha.
  rewrite (base_block L L x a (le_n _) Hx Ha). apply base_aligned. exact Hx.
Qed.

Lemma aligned_le : forall L L' a,
  (L <= L')%nat -> a mod bsize L' = 0 -> a mod bsize L = 0.
Proof.
  intros L L' a HL Ha. destruct (bsize_mul L L' HL) as (k & Hk & E).
  pose proof (bsize_pos L) as HB. pose proof (bsize_pos L') as HB'.
  pose proof (Z.div_mod a (bsize L') ltac:(lia)) as Hd. rewrite Ha, E in Hd.
  replace a with (0 + (k * (a / (bsize L * k))) * bsize L) by lia.
  rewrite Z.mod_add by lia. reflexivity.
Qed.

(** The step from an aligned address by one block of a lower level
    stays inside the block of the higher level, unless it ends it. *)
Lemma base_step : forall Lc L addr,
  (Lc < L)%nat -> addr mod bsize Lc = 0 ->
  (addr + bsize Lc) mod bsize L <> 0 ->
  base L (addr + bsize Lc) = base L addr.
Proof.
  intros Lc L addr HL Ha Hn. symmetry.
  pose proof (bsize_pos Lc) as HB. pose proof (bsize_pos L) as HB'.
  destruct (bsize_mul Lc L ltac:(lia)) as (k & Hk & E).
  pose proof (base_bounds L (addr + bsize Lc)) as Hb.
  pose proof (base_mod L (addr + bsize Lc)) as Hm.
  apply base_unique; [exact Hm|].
  assert (Hlt : base L (addr + bsize Lc) < addr + bsize Lc).
  { destruct (Z.eq_dec (base L (addr + bsize Lc)) (addr + bsize Lc)) as [E'|]; [|lia].
    exfalso. apply Hn. rewrite <- E'. exact Hm. }
  split; [|lia].
  pose proof (Z.div_mod addr (bsize Lc) ltac:(lia)) as Hd. rewrite Ha in Hd.
  unfold base in *. rewrite E in *.
  set (q := (addr + bsize Lc) / (bsize Lc * k)) in *.
  set (j := addr / bsize Lc) in *.
  assert (k * q < j + 1) by nia. nia.
Qed.

Lemma step_level : forall start term addr,
  0 <= start <= addr -> addr < term -> term < 2 ^ 64 ->
  addr mod bsize 0 = 0 -> term mod bsize 0 = 0 ->
  unsplit start term addr ->
  let Lc := picked addr term in
  (Lc <= 2)%nat /\
  addr mod bsize Lc = 0 /\ addr + bsize Lc <= term /\
  (forall a, addr <= a < addr + bsize Lc -> level_of start term a = Lc) /\
  unsplit start term (addr + bsize Lc).
Proof.
  intros start term addr Hs Hlt Ht Ha Hta Hu.
  destruct (picked_spec addr term ltac:(lia) Ht) as (P1 & P2 & P3).
  set (Lc := picked addr term) in *. cbv zeta.
  assert (Hal : addr mod bsize Lc = 0 /\ addr + bsize Lc <= term).
  { destruct Lc as [|Lc'] eqn:ELc.
    - split; [exact Ha|]. apply aligned_next; assumption.
    - apply P3. discriminate. }
  destruct Hal as [Hal Hend].
  assert (Hhigh : forall L, (Lc < L <= 2)%nat -> forall a,
             base L a = base L addr -> fits start term L a = false).
  { intros L HL a Hb. apply fits_false. rewrite Hb. intros [H1 H2].
    destruct (Hu L ltac:(lia)) as [Hm|Hf].
    - apply (P2 L HL). split; [exact Hm|]. rewrite (base_aligned L addr Hm) in H2. exact H2.
    - apply fits_false in Hf. apply Hf. auto. }
  split; [exact P1|]. split; [exact Hal|]. split; [exact Hend|]. split.
  - intros a Hab.
    assert (Hsame : forall L, (Lc <= L)%nat -> base L a = base L addr)
      by (intros L HL; apply (base_block Lc L addr a HL Hal Hab)).
    assert (Hfit : Lc <> 0%nat -> fits start term Lc a = true).
    { intros _. apply fits_true. rewrite (Hsame Lc (le_n _)), (base_aligned Lc addr Hal). lia. }
    unfold level_of.
    assert (C : Lc = 0%nat \/ Lc = 1%nat \/ Lc = 2%nat) by lia.
    destruct C as [E|[E|E]]; rewrite E in *.
    + rewrite (Hhigh 2%nat ltac:(lia) a (Hsame 2%nat ltac:(lia))).
      rewrite (Hhigh 1%nat ltac:(lia) a (Hsame 1%nat ltac:(lia))). reflexivity.
    + rewrite (Hhigh 2%nat ltac:(lia) a (Hsame 2%nat ltac:(lia))).
      rewrite Hfit by discriminate. reflexivity.
    + rewrite Hfit by discriminate. reflexivity.
  - intros L HL.
    destruct (Z.eq_dec ((addr + bsize Lc) mod bsize L) 0) as [E|E]; [left; exact E|].
    right. destruct (le_lt_dec L Lc) as [Hle|Hgt].
    + exfalso. apply E.
      pose proof (aligned_le L Lc addr Hle Hal) as H1.
      destruct (bsize_mul L Lc Hle) as (k & Hk & Ek).
      pose proof (bsize_pos L) as HB.
      rewrite Ek, <- Zplus_mod_idemp_l, H1.
      rewrite Z.add_0_l, Z.mul_comm. apply Z.mod_mul. lia.
    + apply (Hhigh L ltac:(lia)). apply base_step; auto.
Qed.

(** What [map_region] is to leave for the addresses of a region. *)
Definition region_leaf (start term ty : Z) : Z -> Z -> nat -> Prop :=
  fun a f L =>
    start <= a < term /\ L = level_of start term a /\ f = leaf_flags ty L.

(** ... and what it has left when the loop is at [addr]. *)
Definition done_to (R0 : Z -> Z -> nat -> Prop) (start term ty addr : Z)
  : Z -> Z -> nat -> Prop :=
  fun a f L => R0 a f L \/ (a < addr /\ region_leaf start term ty a f L).

Lemma settled_equiv : forall own R R' cur s,
  (forall a f L, R a f L <-> R' a f L) ->
  settled own R cur s -> settled own R' cur s.
Proof.
  intros own R R' cur s HR HI. destruct HI. constructor; auto.
  - intros T L b i HT Hi Hv.
    destruct (i_slot0 T L b i HT Hi Hv) as (Hp & [(Hl1 & Hl2)|Hint]).
    + split; [exact Hp|]. left. split; [exact Hl1|].
      intros a Ha. destruct (Hl2 a Ha) as (f & Hf). exists f. apply HR. exact Hf.
    + split; [exact Hp | right; exact Hint].
  - intros a f L H. apply i_good0. apply HR. exact H.
  - intros a f L H. apply (i_below0 a f L). apply HR. exact H.
Qed.

Lemma settled_cur : forall own R cur cur' s,
  cur <= cur' -> settled own R cur s -> settled own R cur' s.
Proof.
  intros own R cur cur' s Hc HI. destruct HI. constructor; auto.
  - intros T L b i HT Hi Hv.
    destruct (i_slot0 T L b i HT Hi Hv)
      as (Hp & [Hl|(L' & T' & E1 & E2 & E3 & [Hlt|Hpend])]).
    + split; [exact Hp | left; exact Hl].
    + split; [exact Hp|]. right. exists L', T'. repeat split; auto. left. lia.
    + split; [exact Hp|]. right. exists L', T'. repeat split; auto.
  - intros a f L H. apply i_below0 in H. lia.
Qed.

Lemma with_leaf_done_to : forall R0 start term ty addr Lc,
  (forall a, addr <= a < addr + bsize Lc -> level_of start term a = Lc) ->
  start <= addr -> addr + bsize Lc <= term ->
  forall a g L0,
    with_leaf (done_to R0 start term ty addr) addr (leaf_flags ty Lc) Lc a g L0
    <-> done_to R0 start term ty (addr + bsize Lc) a g L0.
Proof.
  intros R0 start term ty addr Lc Hlev Hs He a g L0.
  pose proof (bsize_pos Lc) as HB.
  unfold with_leaf, done_to, region_leaf. split.
  - intros [[H|(H1 & H2)]|(H1 & -> & ->)].
    + left. exact H.
    + right. split; [lia | exact H2].
    + right. split; [lia|]. split; [lia|]. rewrite (Hlev a H1). auto.
  - intros [H|(H1 & H2 & H3 & H4)].
    + left. left. exact H.
    + destruct (Z.lt_ge_cases a addr) as [Hlt|Hge].
      * left. right. auto.
      * right. rewrite (Hlev a ltac:(lia)) in H3. subst L0. auto.
Qed.

Lemma map_region_loop_spec : forall fuel own R0 start term ty addr s,
  settled own (done_to R0 start term ty addr) addr s ->
  0 <= start <= addr -> addr <= term -> term <= 2 ^ 48 ->
  addr mod bsize 0 = 0 -> term mod bsize 0 = 0 ->
  unsplit start term addr -> mappable ty = true ->
  term - addr < PAGE_SIZE * Z.of_nat fuel ->
  outcome_spec (map_region_loop fuel ty addr term s)
    (fun _ s' => exists own', settled own' (done_to R0 start term ty term) term s').
Proof.
  induction fuel as [|fuel IH];
    intros own R0 start term ty addr s HS Hs Hle Ht Ha Hta Hu Hty Hfuel; [lia|].
  cbn [map_region_loop]. destruct (Z.ltb_spec addr term) as [Hlt|Hge].
  - cbv zeta.
    destruct (step_level start term addr Hs Hlt ltac:(lia) Ha Hta Hu)
      as (P1 & Hal & Hend & Hlev & Hu').
    pose proof (bsize_ge_page (picked addr term)) as Hpg.
    assert (Hnext : forall s1,
      page_made (done_to R0 start term ty addr) addr ty (picked addr term) s1 ->
      outcome_spec (map_region_loop fuel ty (addr + bsize (picked addr term)) term s1)
        (fun _ s' => exists own', settled own' (done_to R0 start term ty term) term s')).
    { intros s1 (own1 & HS1). unfold PAGE_SIZE in Hpg, Hfuel.
      apply (IH own1 R0 start term ty (addr + bsize (picked addr term)) s1).
      - eapply settled_equiv; [|exact HS1].
        apply with_leaf_done_to; auto. lia.
      - lia.
      - lia.
      - exact Ht.
      - apply (aligned_le 0 (picked addr term)); [lia|].
        pose proof (bsize_pos (picked addr term)).
        rewrite <- Zplus_mod_idemp_l, Hal, Z.add_0_l. apply Z.mod_same. lia.
      - exact Hta.
      - exact Hu'.
      - exact Hty.
      - unfold PAGE_SIZE. lia. }
    unfold picked in *.
    destruct ((Z.land addr (PAGE_SIZE_HUGE - 1) =? 0)
              && (wrap64 (term - addr) >=? PAGE_SIZE_HUGE)).
    + eapply outcome_spec_bind.
      * apply (create_huge_page_spec own _ addr s addr ty HS); auto; lia.
      * intros u1 s1 H1. change PAGE_SIZE_HUGE with (bsize 2).
        rewrite wrap64_small by (change (bsize 2) with (2 ^ 30) in *; lia).
        apply Hnext. exact H1.
    + destruct ((Z.land addr (PAGE_SIZE_LARGE - 1) =? 0)
                && (wrap64 (term - addr) >=? PAGE_SIZE_LARGE)).
      * eapply outcome_spec_bind.
        -- apply (create_large_page_spec own _ addr s addr ty HS); auto; lia.
        -- intros u1 s1 H1. change PAGE_SIZE_LARGE with (bsize 1).
           rewrite wrap64_small by (change (bsize 1) with (2 ^ 21) in *; lia).
           apply Hnext. exact H1.
      * eapply outcome_spec_bind.
        -- apply (create_small_page_spec own _ addr s addr ty HS); auto; lia.
        -- intros u1 s1 H1. change PAGE_SIZE with (bsize 0).
           rewrite wrap64_small by (change (bsize 0) with (2 ^ 12) in *; lia).
           apply Hnext. exact H1.
  - cbn. assert (addr = term) by lia. subst addr. exists own. exact HS.
Qed.

(** *** The whole map *)

(** Type 1 to 7. *)
Definition valid_type (ty : Z) : bool :=
  mappable ty || (ty =? PMEMTYPE_BAD) || (ty =? PMEMTYPE_UNMAPPED).

(** A region of whole pages below 2^48. *)
Definition region_ok (r : pmapregion) : Prop :=
  0 <= addr r /\ 0 <= size r /\
  addr r mod PAGE_SIZE = 0 /\ size r mod PAGE_SIZE = 0 /\
  rend r <= 2 ^ 48 /\ valid_type (type r) = true.

(** The regions are in ascending order from [lo] and do not overlap. *)
Fixpoint ascending (lo : Z) (l : list pmapregion) : Prop :=
  match l with
  | [] => True
  | r :: tl => lo <= addr r /\ region_ok r /\ ascending (rend r) tl
  end.

(** The leaves that the regions of [l] call for. *)
Definition mapped_by (map : pmap) (l : list pmapregion) : Z -> Z -> nat -> Prop :=
  fun a f L =>
    exists r, In r l /\ skipped map r = false /\
              region_leaf (addr r) (rend r) (type r) a f L.

Lemma skipped_mappable : forall map r,
  valid_type (type r) = true -> skipped map r = false -> mappable (type r) = true.
Proof.
  intros map r Hv Hs. unfold valid_type, skipped in *.
  destruct (mappable (type r)); [reflexivity|].
  destruct (type r =? PMEMTYPE_BAD), (type r =? PMEMTYPE_UNMAPPED); discriminate.
Qed.

Lemma map_region_skipped : forall fuel map r s,
  skipped map r = true -> map_region fuel map r s = Ok tt s.
Proof.
  intros fuel map r s H. unfold map_region, skipped in *.
  destruct ((type r =? PMEMTYPE_UNMAPPED) || (type r =? PMEMTYPE_BAD)); [reflexivity|].
  cbn [orb] in H. rewrite H. reflexivity.
Qed.

Lemma map_region_mapped : forall fuel map r s,
  skipped map r = false ->
  map_region fuel map r s
  = map_region_loop fuel (type r) (addr r) (wrap64 (addr r + size r)) s.
Proof.
  intros fuel map r s H. unfold map_region, skipped in *.
  destruct ((type r =? PMEMTYPE_UNMAPPED) || (type r =? PMEMTYPE_BAD)); [discriminate|].
  cbn [orb] in H. rewrite H. reflexivity.
Qed.

Lemma regions_spec : forall fuel map l own Rdone lo s,
  settled own Rdone lo s -> 0 <= lo ->
  ascending lo l ->
  (forall r, In r l -> size r < PAGE_SIZE * Z.of_nat fuel) ->
  outcome_spec (for_each l (map_region fuel map) s)
    (fun _ s' => exists own' hi,
       settled own' (fun a f L => Rdone a f L \/ mapped_by map l a f L) hi s').
Proof.
  intros fuel map. induction l as [|r l IH]; intros own Rdone lo s HS Hlo Hasc Hfuel.
  - cbn. exists own, lo. eapply settled_equiv; [|exact HS].
    intros a f L. split; [auto|]. intros [H|(r & [] & _)]. exact H.
  - cbn [for_each]. destruct Hasc as (Hlo' & (H0 & Hsz & Haa & Hsa & Hend & Hty) & Hasc).
    unfold rend in *.
    destruct (skipped map r) eqn:Hsk.
    + unfold bind. rewrite (map_region_skipped fuel map r s Hsk).
      eapply outcome_spec_weaken.
      * apply (IH own Rdone (addr r + size r) s); auto; try lia.
        -- apply (settled_cur own Rdone lo); [lia | exact HS].
        -- intros r' Hr'. apply Hfuel. right. exact Hr'.
      * intros _ s' (own' & hi & HS'). exists own', hi.
        eapply settled_equiv; [|exact HS'].
        intros a f L. split.
        -- intros [H|(r' & Hin & Hs' & Hl)]; [left; exact H|].
           right. exists r'. split; [right; exact Hin | auto].
        -- intros [H|(r' & [<-|Hin] & Hs' & Hl)]; [left; exact H | congruence |].
           right. exists r'. auto.
    + eapply outcome_spec_bind.
      * rewrite (map_region_mapped fuel map r s Hsk).
        rewrite wrap64_small by lia.
        apply (map_region_loop_spec fuel own Rdone (addr r) (addr r + size r)
                 (type r) (addr r) s).
        -- apply (settled_cur own _ lo); [lia|].
           eapply settled_equiv; [|exact HS].
           intros a f L. unfold done_to, region_leaf. split; [auto|].
           intros [H|(H1 & H2 & _)]; [exact H | lia].
        -- lia.
        -- lia.
        -- exact Hend.
        -- exact Haa.
        -- change (bsize 0) with PAGE_SIZE.
           rewrite <- Zplus_mod_idemp_l, Haa, Z.add_0_l. exact Hsa.
        -- apply unsplit_start.
        -- eapply skipped_mappable; eauto.
        -- specialize (Hfuel r (or_introl eq_refl)). lia.
      * intros u1 s1 (own1 & HS1).
        eapply outcome_spec_weaken.
        -- apply (IH own1 _ (addr r + size r) s1 HS1); auto; try lia.
           intros r' Hr'. apply Hfuel. right. exact Hr'.
        -- intros _ s' (own' & hi & HS'). exists own', hi.
           eapply settled_equiv; [|exact HS'].
           intros a f L. unfold done_to. split.
           ++ intros [[H|(_ & Hl)]|(r' & Hin & Hs' & Hl)].
              ** left. exact H.
              ** right. exists r. split; [left; reflexivity | auto].
              ** right. exists r'. split; [right; exact Hin | auto].
           ++ intros [H|(r' & [<-|Hin] & Hs' & Hl)].
              ** left. left. exact H.
              ** left. right. split; [|exact Hl]. destruct Hl as (Hl & _).
                 unfold rend in Hl. lia.
              ** right. exists r'. auto.
Qed.

Lemma ascending_lower : forall l lo r,
  ascending lo l -> In r l -> lo <= addr r /\ region_ok r.
Proof.
  induction l as [|x l IH]; intros lo r Hasc Hin; [contradiction|].
  destruct Hasc as (H1 & H2 & H3). destruct Hin as [<-|Hin]; [auto|].
  destruct (IH _ _ H3 Hin) as [H4 H5]. split; [|exact H5].
  destruct H2 as (_ & Hs & _). unfold rend in H4. lia.
Qed.

(** Two regions of an ascending map that hold the same address are the
    same region. *)
Lemma ascending_disjoint : forall l lo r r' a,
  ascending lo l -> In r l -> In r' l ->
  addr r <= a < rend r -> addr r' <= a < rend r' -> r = r'.
Proof.
  induction l as [|x l IH]; intros lo r r' a Hasc Hr Hr' Ha Ha'; [contradiction|].
  destruct Hasc as (H1 & H2 & H3).
  destruct Hr as [<-|Hr]; destruct Hr' as [<-|Hr'].
  - reflexivity.
  - destruct (ascending_lower _ _ _ H3 Hr') as [H4 _]. lia.
  - destruct (ascending_lower _ _ _ H3 Hr) as [H4 _]. lia.
  - eapply IH; eauto.
Qed.

Lemma maps_translate : forall m a f L,
  maps m a f L ->
  translate m KMEM_KERNEL_PAGETABLE a = Some (a, f, bsize L).
Proof.
  intros m a f L (v & Hw & Hf & Hp). unfold translate. rewrite Hw, Hf, Hp.
  reflexivity.
Qed.

(** The state after the [memzero] and the initialisation of [pt]. *)
Definition start_state (s : kstate) : kstate :=
  mkKstate (memzero (kmem s) KMEM_KERNEL_PAGETABLE KMEM_KERNEL_PAGETABLE_SIZE)
    (mkPagetable KMEM_KERNEL_PAGETABLE KMEM_KERNEL_PAGETABLE
       (KMEM_KERNEL_PAGETABLE + PAGE_SIZE) KMEM_KERNEL_PAGETABLE_END).

Definition root_owner : owner :=
  fun X => if X =? KMEM_KERNEL_PAGETABLE then Some (3%nat, 0) else None.

Lemma start_state_settled : forall s,
  settled root_owner (fun _ _ _ => False) 0 (start_state s).
Proof.
  intros s.
  assert (Hz : forall x, KMEM_KERNEL_PAGETABLE <= x < KMEM_KERNEL_PAGETABLE_END ->
                         load (kmem (start_state s)) x = 0).
  { intros x Hx. cbn [start_state kmem]. unfold load, memzero.
    unfold KMEM_KERNEL_PAGETABLE, KMEM_KERNEL_PAGETABLE_END,
      KMEM_KERNEL_PAGETABLE_SIZE in *.
    destruct (Z.leb_spec 131072 x); [|lia].
    destruct (Z.ltb_spec x (131072 + 327680)); [reflexivity | lia]. }
  constructor.
  - reflexivity.
  - reflexivity.
  - cbn. unfold KMEM_KERNEL_PAGETABLE, KMEM_KERNEL_PAGETABLE_END, PAGE_SIZE. lia.
  - reflexivity.
  - reflexivity.
  - intros T L b H. unfold root_owner in H.
    destruct (Z.eqb_spec T KMEM_KERNEL_PAGETABLE) as [->|]; [|discriminate].
    injection H as <- <-. cbn [start_state kpt vnext].
    unfold KMEM_KERNEL_PAGETABLE, PAGE_SIZE.
    repeat split; try lia. rewrite bsize_4. lia.
  - intros x Hx. apply Hz. cbn in Hx.
    unfold KMEM_KERNEL_PAGETABLE, KMEM_KERNEL_PAGETABLE_END, PAGE_SIZE in *. lia.
  - intros T L b i H Hi Hv. exfalso. apply Hv. unfold root_owner in H.
    destruct (Z.eqb_spec T KMEM_KERNEL_PAGETABLE) as [->|]; [|discriminate].
    apply Hz. pose proof (entry_bounds KMEM_KERNEL_PAGETABLE i Hi).
    unfold KMEM_KERNEL_PAGETABLE, KMEM_KERNEL_PAGETABLE_END, PAGE_SIZE in *. lia.
  - intros a f L [].
  - intros a f L [].
Qed.

(** What [kmem_init] has built when it returns. *)
Definition built (map : pmap) (s' : kstate) : Prop :=
  exists own hi, settled own (mapped_by map (region map)) hi s'.

Lemma kmem_init_built : forall fuel map s,
  ascending 0 (region map) ->
  (forall r, In r (region map) -> size r < PAGE_SIZE * Z.of_nat fuel) ->
  outcome_spec (kmem_init fuel map s) (fun _ s' => built map s').
Proof.
  intros fuel map s Hasc Hfuel. unfold kmem_init. cbv zeta.
  fold (start_state s).
  eapply outcome_spec_weaken.
  - apply (regions_spec fuel map (region map) root_owner (fun _ _ _ => False) 0
             (start_state s)); auto.
    + apply start_state_settled.
    + lia.
  - intros _ s' (own' & hi & HS). exists own', hi.
    eapply settled_equiv; [|exact HS].
    intros a f L. split; [intros [[]|H]; exact H | auto].
Qed.

(** C4, for a map of whole pages: on a map whose regions are made of
    whole 4 KiB pages, in ascending order without overlap, below 2^48
    and of a type from 1 to 7, [kmem_init] with fuel for the longest
    region either ends in the [fatal] of [alloc_page], the pool of
    page-table pages used up, or returns; and then every byte [a] of
    every region that [map_region] does not skip is translated to
    itself, through a leaf that is the largest of the 1 GiB, 2 MiB and
    4 KiB aligned blocks around [a] that lie inside the region, with
    the flags PRESENT, RW, GLOBAL and SYSTEM, PS on the 2 MiB and 1 GiB
    leaves, PWT and PCD for the types AcpiNvs and Uncached; and no byte
    of a skipped region (Bad, Unmapped, Reserved from [last_usable] on)
    is translated at all. *)
Theorem kmem_init_identity : forall fuel map s,
  ascending 0 (region map) ->
  (forall r, In r (region map) -> size r < PAGE_SIZE * Z.of_nat fuel) ->
  outcome_spec (kmem_init fuel map s)
    (fun _ s' =>
       (forall r a, In r (region map) -> skipped map r = false ->
          addr r <= a < rend r ->
          let L := level_of (addr r) (rend r) a in
          translate (kmem s') KMEM_KERNEL_PAGETABLE a
          = Some (a, leaf_flags (type r) L, bsize L)) /\
       (forall r a, In r (region map) -> skipped map r = true ->
          addr r <= a < rend r ->
          translate (kmem s') KMEM_KERNEL_PAGETABLE a = None)).
Proof.
  intros fuel map s Hasc Hfuel.
  eapply outcome_spec_weaken; [apply (kmem_init_built fuel map s Hasc Hfuel)|].
  intros _ s' (own & hi & HS). split.
  - intros r a Hin Hsk Ha L.
    apply maps_translate. apply (i_good _ _ _ _ _ _ HS).
    exists r. split; [exact Hin|]. split; [exact Hsk|].
    split; [exact Ha|]. split; reflexivity.
  - intros r a Hin Hsk Ha.
    destruct (translate (kmem s') KMEM_KERNEL_PAGETABLE a) as [t|] eqn:E;
      [|reflexivity].
    exfalso.
    destruct (ascending_lower _ _ _ Hasc Hin) as (Hlo & H0 & _ & _ & _ & Hend & _).
    destruct (translate_owned _ _ _ _ _ _ a HS ltac:(lia) ltac:(congruence))
      as (f & L & r' & Hin' & Hsk' & Ha' & _).
    assert (r = r') by (eapply ascending_disjoint; eauto).
    congruence.
Qed.

(** On a map of whole pages in ascending order, [kmem_init] with fuel
    for the longest region ends in the [fatal] of [alloc_page], the
    pool used up, or returns; and then the kernel page table is rooted
    at [KMEM_KERNEL_PAGETABLE] and every entry of its PML4 is empty or
    carries SYSTEM, the flag that [add_pte] and [pgfree_recurse] look
    for. *)
Lemma kmem_init_root_system : forall fuel map s,
  ascending 0 (region map) ->
  (forall r, In r (region map) -> size r < PAGE_SIZE * Z.of_nat fuel) ->
  outcome_spec (kmem_init fuel map s)
    (fun _ s' =>
       proot (kpt s') = KMEM_KERNEL_PAGETABLE /\
       forall i, 0 <= i < 512 ->
         load (kmem s') (entry KMEM_KERNEL_PAGETABLE i) = 0 \/
         Z.land (load (kmem s') (entry KMEM_KERNEL_PAGETABLE i)) PF_SYSTEM <> 0).
Proof.
  intros fuel map s Hasc Hfuel.
  eapply outcome_spec_weaken; [apply (kmem_init_built fuel map s Hasc Hfuel)|].
  intros _ s' (own & hi & HS). split; [apply (i_proot _ _ _ _ _ _ HS)|].
  intros i Hi.
  destruct (Z.eq_dec (load (kmem s') (entry KMEM_KERNEL_PAGETABLE i)) 0) as [E|E];
    [left; exact E | right].
  destruct (i_slot _ _ _ _ _ _ HS _ _ _ i (i_root _ _ _ _ _ _ HS) Hi E)
    as (_ & [(Hl & _)|(L' & T' & _ & Hv & HT' & _)]); [discriminate|].
  destruct (i_own _ _ _ _ _ _ HS _ _ _ HT') as (_ & Ha & _).
  rewrite Hv, land_flags by (auto using POINTER_range; reflexivity).
  vm_compute. discriminate.
Qed.

(** *** Examples *)

(** Low memory in 4 KiB pages with a Reserved page and the video memory,
    2 MiB pages up to 6 MiB, one 1 GiB page, and a Bad page. *)
Definition sample_map : pmap :=
  mkPmap 0x80000000
    [ mkRegion 0 0x9f000 PMEMTYPE_USABLE 0;
      mkRegion 0x9f000 0x1000 PMEMTYPE_RESERVED 0;
      mkRegion 0xa0000 0x20000 PMEMTYPE_UNCACHED 0;
      mkRegion 0x100000 0x100000 PMEMTYPE_USABLE 0;
      mkRegion 0x200000 0x400000 PMEMTYPE_USABLE 0;
      mkRegion 0x40000000 0x40000000 PMEMTYPE_USABLE 0;
      mkRegion 0x80000000 0x1000 PMEMTYPE_BAD 0 ].

Definition sample_fuel : nat := Z.to_nat 0x40001.

Lemma sample_map_ascending : ascending 0 (region sample_map).
Proof.
  cbn [ascending sample_map region]. unfold region_ok, rend. cbn [addr size type].
  repeat split; try reflexivity; try (vm_compute; discriminate).
Qed.

Lemma sample_map_fuel : forall r,
  In r (region sample_map) -> size r < PAGE_SIZE * Z.of_nat sample_fuel.
Proof.
  intros r Hr. unfold sample_fuel. rewrite Z2Nat.id by lia.
  cbn [sample_map region In] in Hr.
  repeat (destruct Hr as [<-|Hr]; [vm_compute; reflexivity|]). contradiction.
Qed.

Lemma kmem_init_identity_witness :
  exists s',
    kmem_init sample_fuel sample_map (entry_state (fun _ => 0)) = Ok tt s' /\
    translate (kmem s') KMEM_KERNEL_PAGETABLE 0x40000123
      = Some (0x40000123, leaf_flags PMEMTYPE_USABLE 2, PAGE_SIZE_HUGE) /\
    translate (kmem s') KMEM_KERNEL_PAGETABLE 0x80000010 = None.
Proof.
  destruct (is_Ok_inv (kmem_init sample_fuel sample_map (entry_state (fun _ => 0))))
    as (u & s' & E); [vm_compute; reflexivity|].
  destruct u. exists s'. split; [exact E|].
  pose proof (kmem_init_identity sample_fuel sample_map (entry_state (fun _ => 0))
                sample_map_ascending sample_map_fuel) as H.
  rewrite E in H. destruct H as [H1 H2]. split.
  - apply (H1 (mkRegion 0x40000000 0x40000000 PMEMTYPE_USABLE 0) 0x40000123).
    + cbn; auto 10.
    + reflexivity.
    + vm_compute. split; [discriminate | reflexivity].
  - apply (H2 (mkRegion 0x80000000 0x1000 PMEMTYPE_BAD 0) 0x80000010).
    + cbn; auto 10.
    + reflexivity.
    + vm_compute. split; [discriminate | reflexivity].
Defined.

Lemma kmem_init_root_system_witness :
  exists s',
    kmem_init sample_fuel sample_map (entry_state (fun _ => 0)) = Ok tt s' /\
    proot (kpt s') = KMEM_KERNEL_PAGETABLE /\
    forall i, 0 <= i < 512 ->
      load (kmem s') (entry KMEM_KERNEL_PAGETABLE i) = 0 \/
      Z.land (load (kmem s') (entry KMEM_KERNEL_PAGETABLE i)) PF_SYSTEM <> 0.
Proof.
  destruct (is_Ok_inv (kmem_init sample_fuel sample_map (entry_state (fun _ => 0))))
    as (u & s' & E); [vm_compute; reflexivity|].
  destruct u. exists s'. split; [exact E|].
  pose proof (kmem_init_root_system sample_fuel sample_map (entry_state (fun _ => 0))
                sample_map_ascending sample_map_fuel) as H.
  rewrite E in H. exact H.
Defined.

(** What [pmap_init] hands to [normalize]: the BIOS records followed by
    the video memory, the kernel image and the unmapped first page. *)
Definition boot_regions (bios : list pmapregion) : list pmapregion :=
  bios ++ [ mkRegion KMEM_VIDEO KMEM_VIDEO_SIZE PMEMTYPE_UNCACHED 0;
            mkRegion 0 KMEM_KERNEL_IMAGE_END PMEMTYPE_RESERVED 0;
            mkRegion 0 0x1000 PMEMTYPE_UNMAPPED 0 ].

(** A BIOS map with 15 MiB of memory from 1 MiB and, above it, a Usable
    range that does not start and end on page boundaries. *)
Definition bios_map : list pmapregion :=
  [ mkRegion 0 0x9fc00 PMEMTYPE_USABLE 0;
    mkRegion 0x9fc00 0x400 PMEMTYPE_RESERVED 0;
    mkRegion 0xf0000 0x10000 PMEMTYPE_RESERVED 0;
    mkRegion 0x100000 0xf00000 PMEMTYPE_USABLE 0;
    mkRegion 0x1000800 0x1c00 PMEMTYPE_USABLE 0 ].

(** The map after [pmap_init]. *)
Definition booted_map : pmap :=
  mkPmap 0x1002400
    [ mkRegion 0 0x1000 PMEMTYPE_UNMAPPED 0;
      mkRegion 0x1000 0x9f000 PMEMTYPE_RESERVED 0;
      mkRegion 0xa0000 0x20000 PMEMTYPE_UNCACHED 0;
      mkRegion 0xc0000 0x940000 PMEMTYPE_RESERVED 0;
      mkRegion 0xa00000 0x600000 PMEMTYPE_USABLE 0;
      mkRegion 0x1000000 0x800 PMEMTYPE_RESERVED 0;
      mkRegion 0x1000800 0x1c00 PMEMTYPE_USABLE 0 ].

(** The map that [page_init] passes to [kmem_init], [reserve_region]
    having taken 2 MiB at 0xa00000 for the page frame database. *)
Definition paged_map : pmap :=
  mkPmap 0x1002400
    [ mkRegion 0 0x1000 PMEMTYPE_UNMAPPED 0;
      mkRegion 0x1000 0x9f000 PMEMTYPE_RESERVED 0;
      mkRegion 0xa0000 0x20000 PMEMTYPE_UNCACHED 0;
      mkRegion 0xc0000 0xb40000 PMEMTYPE_RESERVED 0;
      mkRegion 0xc00000 0x400000 PMEMTYPE_USABLE 0;
      mkRegion 0x1000000 0x800 PMEMTYPE_RESERVED 0;
      mkRegion 0x1000800 0x1c00 PMEMTYPE_USABLE 0 ].

(** The Usable region from 0x1000800 to 0x1002400 comes through
    [normalize] as it is.  The loop of [map_region] steps from 0x1000800
    to 0x1001800 and stops at 0x1002800: the page at 0x1002000, which
    holds the last kilobyte of the region, gets no entry. *)
Lemma kmem_init_unaligned_counterexample :
  let r := mkRegion 0x1000800 0x1c00 PMEMTYPE_USABLE 0 in
  normalize 100 (boot_regions bios_map) = Some booted_map /\
  normalize 100 (region booted_map ++ [mkRegion 0xa00000 0x200000 PMEMTYPE_RESERVED 0])
    = Some paged_map /\
  exists s',
    kmem_init 2000 paged_map (entry_state (fun _ => 0)) = Ok tt s' /\
    In r (region paged_map) /\ type r = PMEMTYPE_USABLE /\
    addr r <= 0x1002000 < rend r /\
    translate (kmem s') KMEM_KERNEL_PAGETABLE 0x1002000 = None.
Proof.
  cbv zeta. split; [vm_compute; reflexivity|]. split; [vm_compute; reflexivity|].
  destruct (outcome_check
              (kmem_init 2000 paged_map (entry_state (fun _ => 0)))
              (fun _ s' =>
                 match translate (kmem s') KMEM_KERNEL_PAGETABLE 0x1002000 with
                 | None => true
                 | Some _ => false
                 end))
    as (u & s' & E & H); [vm_compute; reflexivity|].
  destruct u. exists s'. split; [exact E|].
  split; [cbn; auto 10|]. split; [reflexivity|].
  split; [vm_compute; split; [discriminate | reflexivity]|].
  destruct (translate (kmem s') KMEM_KERNEL_PAGETABLE 0x1002000);
    [discriminate | reflexivity].
Qed.

(** The same with a single region: the bytes from 0x1000 to 0x13ff are
    left out, and the entry of the first page carries bit 11 of the
    address among its flags. *)
Example kmem_init_unaligned_region :
  exists s',
    kmem_init 4 (mkPmap 0x1400 [mkRegion 0x800 0xc00 PMEMTYPE_USABLE 0])
      (entry_state (fun _ => 0)) = Ok tt s' /\
    translate (kmem s') KMEM_KERNEL_PAGETABLE 0x1000 = None /\
    translate (kmem s') KMEM_KERNEL_PAGETABLE 0x800
      = Some (0x800, 0x800 + leaf_flags PMEMTYPE_USABLE 0, PAGE_SIZE).
Proof.
  destruct (outcome_check
              (kmem_init 4 (mkPmap 0x1400 [mkRegion 0x800 0xc00 PMEMTYPE_USABLE 0])
                 (entry_state (fun _ => 0)))
              (fun _ s' =>
                 match translate (kmem s') KMEM_KERNEL_PAGETABLE 0x1000,
                       translate (kmem s') KMEM_KERNEL_PAGETABLE 0x800 with
                 | None, Some (p, f, sz) =>
                     (p =? 0x800) && (f =? 0x800 + leaf_flags PMEMTYPE_USABLE 0)
                     && (sz =? PAGE_SIZE)
                 | _, _ => false
                 end))
    as (u & s' & E & H); [vm_compute; reflexivity|].
  destruct u. exists s'. split; [exact E|].
  destruct (translate (kmem s') KMEM_KERNEL_PAGETABLE 0x1000); [discriminate|].
  destruct (translate (kmem s') KMEM_KERNEL_PAGETABLE 0x800) as [[[p f] sz]|];
    [|discriminate].
  apply andb_prop in H as [H H3]. apply andb_prop in H as [H1 H2].
  apply Z.eqb_eq in H1, H2, H3. subst. auto.
Qed.

(** Two regions that meet inside a page: the entry of the page is
    written twice and keeps the flags of the later region, here PWT and
    PCD on the bytes of the Usable region. *)
Example kmem_init_shared_page :
  exists s',
    kmem_init 4 (mkPmap 0x9f800
                   [mkRegion 0x9f000 0x800 PMEMTYPE_USABLE 0;
                    mkRegion 0x9f800 0x800 PMEMTYPE_UNCACHED 0])
      (entry_state (fun _ => 0)) = Ok tt s' /\
    exists f,
      translate (kmem s') KMEM_KERNEL_PAGETABLE 0x9f000 = Some (0x9f000, f, PAGE_SIZE) /\
      Z.land f PF_PCD <> 0.
Proof.
  destruct (outcome_check
              (kmem_init 4 (mkPmap 0x9f800
                   [mkRegion 0x9f000 0x800 PMEMTYPE_USABLE 0;
                    mkRegion 0x9f800 0x800 PMEMTYPE_UNCACHED 0])
                 (entry_state (fun _ => 0)))
              (fun _ s' =>
                 match translate (kmem s') KMEM_KERNEL_PAGETABLE 0x9f000 with
                 | Some (p, f, sz) =>
                     (p =? 0x9f000) && (sz =? PAGE_SIZE) && negb (Z.land f PF_PCD =? 0)
                 | None => false
                 end))
    as (u & s' & E & H); [vm_compute; reflexivity|].
  destruct u. exists s'. split; [exact E|].
  destruct (translate (kmem s') KMEM_KERNEL_PAGETABLE 0x9f000) as [[[p f] sz]|];
    [|discriminate].
  apply andb_prop in H as [H H3]. apply andb_prop in H as [H1 H2].
  apply Z.eqb_eq in H1, H2. apply negb_true_iff, Z.eqb_neq in H3.
  exists f. subst. auto.
Qed.

End KmemFacts.

(** ** Descriptors, handlers and interrupt masks *)

Module IsrFacts.
Import Interrupt InterruptFacts.

(** *** More fuel changes nothing *)

Lemma do_while_more : forall body again fuel fuel' s r,
  do_while fuel body again s = Some r -> (fuel <= fuel')%nat ->
  do_while fuel' body again s = Some r.
Proof.
  intros body again. induction fuel as [|fuel IH]; intros fuel' s r H Hle;
    [discriminate|].
  destruct fuel' as [|fuel']; [lia|]. cbn [do_while] in *.
  destruct (again (body s)); [|exact H]. apply IH; [exact H | lia].
Qed.

Lemma do_while_more_map : forall (A : Type) (f : cpu -> A) body again fuel fuel' s x,
  match do_while fuel body again s with
  | Some r => Some (f r)
  | None => None
  end = Some x ->
  (fuel <= fuel')%nat ->
  match do_while fuel' body again s with
  | Some r => Some (f r)
  | None => None
  end = Some x.
Proof.
  intros A f body again fuel fuel' s x H Hle.
  destruct (do_while fuel body again s) as [r|] eqn:E; [|discriminate].
  rewrite (do_while_more _ _ _ _ _ _ E Hle). exact H.
Qed.

Lemma setupThunks_fuel : forall D S fuel fuel' m s,
  setupThunks D S fuel m = Some s -> (fuel <= fuel')%nat ->
  setupThunks D S fuel' m = Some s.
Proof.
  intros D S fuel fuel' m s E Hfuel. unfold setupThunks in *.
  eapply do_while_more; eassumption.
Qed.

Lemma setupIDT_fuel : forall fuel fuel' m m',
  setupIDT fuel m = Some m' -> (fuel <= fuel')%nat ->
  setupIDT fuel' m = Some m'.
Proof.
  intros fuel fuel' m m' E Hfuel. unfold setupIDT in *.
  eapply do_while_more_map; eassumption.
Qed.

Lemma interrupts_init_fuel : forall D S fuel fuel' m0 m,
  interrupts_init D S fuel m0 = Some m -> (fuel <= fuel')%nat ->
  interrupts_init D S fuel' m0 = Some m.
Proof.
  intros D S fuel fuel' m0 m E Hfuel. unfold interrupts_init in *.
  destruct (setupThunks D S fuel m0) as [s1|] eqn:E1; [|discriminate].
  rewrite (setupThunks_fuel _ _ _ _ _ _ E1 Hfuel).
  eapply setupIDT_fuel; eassumption.
Qed.

(** A property of every vector, checked on the tables as
    [interrupts_init] leaves them. *)
Definition every_vector (fuel : nat) (D S : Z) (m0 : bytes)
    (check : bytes -> Z -> bool) : bool :=
  match interrupts_init D S fuel m0 with
  | Some m => forallb (check m) (indices 256)
  | None => false
  end.

Lemma every_vector_spec : forall D S m0 check fuel fuel',
  every_vector fuel D S m0 check = true -> (fuel <= fuel')%nat ->
  exists m, interrupts_init D S fuel' m0 = Some m /\
            forall v, 0 <= v < 256 -> check m v = true.
Proof.
  intros D S m0 check fuel fuel' H Hfuel. unfold every_vector in H.
  destruct (interrupts_init D S fuel m0) as [m|] eqn:E; [|discriminate].
  exists m. split; [exact (interrupts_init_fuel _ _ _ _ _ _ E Hfuel)|]. intros v Hv.
  rewrite forallb_forall in H. apply H. apply in_indices. simpl. lia.
Qed.

(** *** The descriptors *)

(** The interrupt stack that vector [v] is given: 1 for NMI, 2 for the
    double fault, 3 for the machine check, none otherwise. *)
Definition ist_of (v : Z) : Z :=
  if v =? Exception_NMI then 1
  else if v =? Exception_DF then 2
  else if v =? Exception_MC then 3
  else 0.

(** Type 1110 is an interrupt gate, 1111 a trap gate. *)
Definition gate_type (v : Z) : Z := if v <? 32 then 0xE else 0xF.

Definition descriptor_check (m : bytes) (v : Z) : bool :=
  (load16 m (descriptor v + IDT_Descriptor_Segment) =? Segment_Kernel_Code)
  && (load16 m (descriptor v + IDT_Descriptor_Flags)
      =? 2 ^ 15 + 2 ^ 8 * gate_type v + ist_of v)
  && (load16 m (descriptor v + IDT_Descriptor_OffsetLo) =? thunk v + 1)
  && (load16 m (descriptor v + IDT_Descriptor_OffsetMid) =? 0)
  && (load32 m (descriptor v + IDT_Descriptor_OffsetHi) =? 0)
  && (load32 m (descriptor v + IDT_Descriptor_Reserved) =? 0).

(** *** What the thunks push and what the dispatcher then reads *)

(** The quadword that [push imm8] leaves for the immediate [v]. *)
Definition sign_extended (v : Z) : Z := if v <? 128 then v else 2 ^ 64 - 256 + v.

(** The quadword of the IDT that lies at [Mem.ISR.Table + 8 * (v - 256)]:
    the lower half of trap-gate descriptor [128 + v / 2] when [v] is
    even, the upper half, which is empty, when it is odd. *)
Definition idt_quadword (v : Z) : Z :=
  if Z.even v then 0x8F00 * 2 ^ 32 + Segment_Kernel_Code * 2 ^ 16 + (thunk (128 + v / 2) + 1)
  else 0.

Definition push_check (m : bytes) (v : Z) : bool :=
  (pushed_by_thunk m v =? sign_extended v)
  && ((v <? 128) || (load_le m (Mem_ISR_Table + 8 * (v - 256)) 8 =? idt_quadword v)).

Definition vector_check (m : bytes) (v : Z) : bool :=
  descriptor_check m v && push_check m v.

Lemma vector_check_all : forall D S m0,
  every_vector 256 D S m0 vector_check = true.
Proof. intros D S m0. vm_compute. reflexivity. Qed.

(** The tables with the checks of every vector, for any fuel from 256
    on. *)
Lemma interrupts_init_checked : forall D S fuel m0,
  (256 <= fuel)%nat ->
  exists m,
    interrupts_init D S fuel m0 = Some m /\
    forall v, 0 <= v < 256 ->
      thunk_ok D S m v /\ descriptor_check m v = true /\ push_check m v = true.
Proof.
  intros D S fuel m0 Hfuel.
  destruct (every_vector_spec D S m0 vector_check 256 fuel
              (vector_check_all D S m0) Hfuel) as (m & E & Hc).
  destruct (interrupts_init_ok D S fuel m0 Hfuel) as (m' & E' & Hok).
  rewrite E in E'. injection E' as <-.
  exists m. split; [exact E|]. intros v Hv.
  specialize (Hc v Hv). unfold vector_check in Hc.
  apply andb_true_iff in Hc as [Hd Hp].
  split; [apply Hok; exact Hv | auto].
Qed.

(** [isr_set] writes the eight bytes of its slot. *)
Lemma isr_set_slot : forall v h m,
  0 <= v < 2 ^ 61 - 1024 ->
  isr_set v h m = store64 m (Mem_ISR_Table + 8 * v) h.
Proof.
  intros v h m Hv. unfold isr_set. cbv zeta.
  change (2 ^ 61 - 1024) with 2305843009213692928 in Hv.
  rewrite Z.shiftl_mul_pow2 by lia. change (2 ^ 3) with 8.
  unfold wrap64, Mem_ISR_Table. change (2 ^ 64) with 18446744073709551616.
  rewrite (Z.mod_small (v * 8)) by lia.
  rewrite Z.mod_small by lia.
  f_equal. lia.
Qed.

Lemma isr_set_outside : forall v h m,
  0 <= v < 256 ->
  outside Mem_ISR_Table (Mem_ISR_Table + 8 * 256) m (isr_set v h m).
Proof.
  intros v h m Hv. rewrite isr_set_slot by lia. unfold store64.
  apply outside_store_le_in; change (Z.of_nat 8) with 8; lia.
Qed.

(** The quadword at 17 above the stack pointer when a dispatcher gets to
    [.lookup] is the one the thunk has pushed. *)
Lemma lookup_common : forall m r mx x st,
  lookup m (ISR_Dispatcher_stack r mx (x :: st))
  = load_le m (wrap64 (Mem_ISR_Table + 8 * x)) 8.
Proof. reflexivity. Qed.

Lemma lookup_special : forall m r mx x err st,
  lookup m (ISR_Dispatcher_Special_stack r mx (x :: err :: st))
  = load_le m (wrap64 (Mem_ISR_Table + 8 * x)) 8.
Proof. reflexivity. Qed.

(** What [dispatch] comes to on tables that [interrupts_init] has made
    and in which only the table of handlers has been written since. *)
Lemma dispatch_lookup : forall D S m m' v r mx err fr,
  0 <= D < 2 ^ 31 -> 0 <= S < 2 ^ 31 -> D <> S -> 0 <= v < 256 ->
  thunk_ok D S m v -> push_check m v = true ->
  outside Mem_ISR_Table (Mem_ISR_Table + 8 * 256) m m' ->
  dispatch D S m' v r mx (delivered v err fr)
  = Some (load_le m' (wrap64 (Mem_ISR_Table + 8 * sign_extended v)) 8).
Proof.
  intros D S m m' v r mx err fr HD HS Hne Hv Hok Hp Hout.
  assert (Hok' : thunk_ok D S m' v).
  { apply (thunk_ok_outside D S _ _ m m' v Hout); [|exact Hok].
    unfold thunk, Mem_ISR_Thunks, ISR_Thunk_Size, Mem_ISR_Table. lia. }
  assert (Hpush : pushed_by_thunk m' v = sign_extended v).
  { unfold push_check in Hp. apply andb_true_iff in Hp as [Hp _].
    apply Z.eqb_eq in Hp. rewrite <- Hp. unfold pushed_by_thunk, load8.
    rewrite Hout; [reflexivity|].
    unfold thunk, Mem_ISR_Thunks, ISR_Thunk_Size, Mem_ISR_Table. lia. }
  pose proof (thunk_jmp_target_ok D S m' v HD HS Hv Hok') as Hj.
  unfold dispatch. cbv zeta. rewrite Hj, Hpush. unfold dispatcher_of, delivered.
  destruct (pushes_error v).
  - destruct (Z.eqb_spec S D) as [Heq|_]; [congruence|].
    rewrite Z.eqb_refl, lookup_special. reflexivity.
  - rewrite Z.eqb_refl, lookup_common. reflexivity.
Qed.

Lemma sign_extended_slot : forall v,
  0 <= v < 256 ->
  wrap64 (Mem_ISR_Table + 8 * sign_extended v)
  = if v <? 128 then Mem_ISR_Table + 8 * v else Mem_ISR_Table + 8 * (v - 256).
Proof.
  intros v Hv. unfold sign_extended, wrap64, Mem_ISR_Table.
  change (2 ^ 64) with 18446744073709551616.
  destruct (Z.ltb_spec v 128).
  - apply Z.mod_small. lia.
  - symmetry. apply (Z.mod_unique _ _ 8); lia.
Qed.

(** C7 (the code against the claim).  With the two dispatchers at
    distinct addresses below 2 GiB, [interrupts_init] ends, and in the
    tables it leaves the immediate byte of thunk [v] is [v] for every
    vector; but the instruction is [push imm8], which sign-extends: the
    quadword that thunk [v] pushes is [v] for the vectors below 128 only
    and [2^64 - 256 + v] for the vectors from 128 on.  The dispatcher
    indexes the table of handlers with that quadword.  So once
    [isr_set(v, h)] has stored a handler, an interrupt on [v] makes the
    dispatcher load [h] when [v] is below 128; from 128 on it loads a
    quadword of the IDT, at [Mem.ISR.Table + 8 * (v - 256)], whatever
    [h] is: the lower half of descriptor [128 + v / 2] when [v] is even,
    which is not 0 and is called as the handler, and 0 when [v] is odd,
    so that no handler is called. *)
Theorem thunk_push_sign_extended : forall D S fuel m0,
  0 <= D < 2 ^ 31 -> 0 <= S < 2 ^ 31 -> D <> S -> (256 <= fuel)%nat ->
  exists m,
    interrupts_init D S fuel m0 = Some m /\
    forall v, 0 <= v < 256 ->
      load8 m (thunk v + 2) = v /\
      (pushed_by_thunk m v = v <-> v < 128) /\
      (128 <= v -> pushed_by_thunk m v = 2 ^ 64 - 256 + v) /\
      forall h r mx err fr, 0 <= h < 2 ^ 64 ->
        dispatch D S (isr_set v h m) v r mx (delivered v err fr)
        = Some (if v <? 128 then h else idt_quadword v).
Proof.
  intros D S fuel m0 HD HS Hne Hfuel.
  destruct (interrupts_init_checked D S fuel m0 Hfuel) as (m & E & H).
  exists m. split; [exact E|]. intros v Hv.
  destruct (H v Hv) as (Hok & _ & Hp).
  assert (Hpush : pushed_by_thunk m v = sign_extended v).
  { unfold push_check in Hp. apply andb_true_iff in Hp as [Hp _].
    apply Z.eqb_eq in Hp. exact Hp. }
  split; [apply Hok|]. rewrite Hpush. unfold sign_extended at 1 2.
  change (2 ^ 64) with 18446744073709551616.
  split; [destruct (Z.ltb_spec v 128); split; intros; try reflexivity; lia|].
  split; [intros Hge; destruct (Z.ltb_spec v 128); [lia | reflexivity]|].
  intros h r mx err fr Hh.
  rewrite (dispatch_lookup D S m (isr_set v h m) v r mx err fr HD HS Hne Hv Hok Hp)
    by (apply isr_set_outside; exact Hv).
  rewrite sign_extended_slot by exact Hv.
  rewrite isr_set_slot by lia. unfold store64. f_equal.
  destruct (Z.ltb_spec v 128) as [Hlt|Hge].
  - rewrite load_le_store_le. change (2 ^ (8 * Z.of_nat 8)) with 18446744073709551616.
    apply Z.mod_small. exact Hh.
  - rewrite load_le_store_le_other
      by (change (Z.of_nat 8) with 8; unfold Mem_ISR_Table; lia).
    unfold push_check in Hp. apply andb_true_iff in Hp as [_ Hp].
    apply orb_true_iff in Hp as [Hp|Hp].
    + apply Z.ltb_lt in Hp. lia.
    + apply Z.eqb_eq in Hp. exact Hp.
Qed.

(** Vector 0x80 with the kernel image at its link address: the thunk
    pushes 0xFFFFFFFFFFFFFF80, and the dispatcher calls the lower half
    of descriptor 192 whatever handler [isr_set] has stored. *)
Lemma thunk_push_sign_extended_witness :
  exists m,
    interrupts_init 0x301100 0x301180 256 (fun _ => 0) = Some m /\
    load8 m (thunk 0x80 + 2) = 0x80 /\
    pushed_by_thunk m 0x80 = 0xFFFFFFFFFFFFFF80 /\
    forall h r mx err fr, 0 <= h < 2 ^ 64 ->
      dispatch 0x301100 0x301180 (isr_set 0x80 h m) 0x80 r mx (delivered 0x80 err fr)
      = Some 0x8F0000102E01.
Proof.
  destruct (thunk_push_sign_extended 0x301100 0x301180 256 (fun _ => 0))
    as (m & E & H); try lia.
  exists m. split; [exact E|].
  destruct (H 0x80 ltac:(lia)) as (H1 & _ & H2 & H3).
  split; [exact H1|]. split; [exact (H2 ltac:(lia))|]. exact H3.
Defined.

(** *** [fatal] *)

(** [fatal] is [int 0xff; ret].  In the tables of [interrupts_init],
    whatever handlers [isr_set] has stored since for the vectors 0 to
    255, the dispatcher loads the handler of vector 0xff from the upper
    half of descriptor 255, which is 0: no handler is called, the
    dispatcher restores the registers and returns with [iretq], and
    [fatal] returns to its caller. *)
Definition isr_sets (sets : list (Z * Z)) (m : bytes) : bytes :=
  fold_left (fun m p => isr_set (fst p) (snd p) m) sets m.

Lemma isr_sets_outside : forall sets m,
  Forall (fun p => 0 <= fst p < 256) sets ->
  outside Mem_ISR_Table (Mem_ISR_Table + 8 * 256) m (isr_sets sets m).
Proof.
  induction sets as [|p sets IH]; intros m Hs; [apply outside_refl|].
  inversion Hs as [|? ? Hp Hs']; subst. cbn [isr_sets fold_left].
  eapply outside_trans; [apply isr_set_outside; exact Hp|].
  apply IH. exact Hs'.
Qed.

Lemma fatal_returns : forall D S fuel m0,
  0 <= D < 2 ^ 31 -> 0 <= S < 2 ^ 31 -> D <> S -> (256 <= fuel)%nat ->
  exists m,
    interrupts_init D S fuel m0 = Some m /\
    forall sets,
      Forall (fun p => 0 <= fst p < 256) sets ->
      load_le (isr_sets sets m) 0x1ff8 8 = 0 /\
      forall r mx fr, dispatch D S (isr_sets sets m) 0xff r mx fr = Some 0.
Proof.
  intros D S fuel m0 HD HS Hne Hfuel.
  destruct (interrupts_init_checked D S fuel m0 Hfuel) as (m & E & H).
  exists m. split; [exact E|]. intros sets Hsets.
  destruct (H 255 ltac:(lia)) as (Hok & _ & Hp).
  pose proof (isr_sets_outside sets m Hsets) as Hout.
  assert (Hz : load_le (isr_sets sets m) 0x1ff8 8 = 0).
  { rewrite (outside_load_le _ _ _ _ _ _ Hout)
      by (change (Z.of_nat 8) with 8; unfold Mem_ISR_Table; lia).
    unfold push_check in Hp. apply andb_true_iff in Hp as [_ Hp].
    apply orb_true_iff in Hp as [Hp|Hp]; [discriminate|].
    apply Z.eqb_eq in Hp. exact Hp. }
  split; [exact Hz|]. intros r mx fr.
  change fr with (delivered 255 0 fr).
  rewrite (dispatch_lookup D S m (isr_sets sets m) 255 r mx 0 fr HD HS Hne
             ltac:(lia) Hok Hp Hout).
  rewrite sign_extended_slot by lia. f_equal. exact Hz.
Qed.

(** *** The descriptors of the IDT *)

(** [interrupts_init] ends, and descriptor [v] of the IDT is a present
    gate of privilege level 0 on the kernel code segment: an interrupt
    gate for the vectors below 32 and a trap gate from 32 on, with
    interrupt stack 1 for the NMI, 2 for the double fault, 3 for the
    machine check and none for the other vectors.  Its handler address
    is that of the [push] of thunk [v], and its reserved part is 0. *)
Theorem idt_descriptor_attributes : forall D S fuel m0,
  (256 <= fuel)%nat ->
  exists m,
    interrupts_init D S fuel m0 = Some m /\
    forall v, 0 <= v < 256 ->
      load16 m (descriptor v + IDT_Descriptor_Segment) = Segment_Kernel_Code /\
      load16 m (descriptor v + IDT_Descriptor_Flags)
        = 2 ^ 15 + 2 ^ 8 * gate_type v + ist_of v /\
      load16 m (descriptor v + IDT_Descriptor_OffsetLo) = thunk v + 1 /\
      load16 m (descriptor v + IDT_Descriptor_OffsetMid) = 0 /\
      load32 m (descriptor v + IDT_Descriptor_OffsetHi) = 0 /\
      load32 m (descriptor v + IDT_Descriptor_Reserved) = 0.
Proof.
  intros D S fuel m0 Hfuel.
  destruct (interrupts_init_checked D S fuel m0 Hfuel) as (m & E & H).
  exists m. split; [exact E|]. intros v Hv.
  destruct (H v Hv) as (_ & Hd & _). unfold descriptor_check in Hd.
  repeat (apply andb_true_iff in Hd as [Hd ?]).
  repeat match goal with H : (_ =? _) = true |- _ => apply Z.eqb_eq in H end.
  auto 10.
Qed.

(** The NMI is an interrupt gate on stack 1, the first vector of the
    PIC a trap gate on no stack of its own. *)
Lemma idt_descriptor_attributes_witness :
  exists m,
    interrupts_init 0x301100 0x301180 256 (fun _ => 0) = Some m /\
    load16 m (descriptor 2 + IDT_Descriptor_Flags) = 0x8E01 /\
    load16 m (descriptor 0x20 + IDT_Descriptor_Flags) = 0x8F00.
Proof.
  destruct (idt_descriptor_attributes 0x301100 0x301180 256 (fun _ => 0) (le_n 256))
    as (m & E & H).
  exists m. split; [exact E|].
  destruct (H 2 ltac:(lia)) as (_ & H2 & _).
  destruct (H 0x20 ltac:(lia)) as (_ & H32 & _).
  split; [exact H2 | exact H32].
Defined.

(** *** [isr_set] *)

(** [isr_set(v, h)] for a vector below 256 stores [h] in entry [v] of
    the table of handlers, leaves the other entries as they are, and
    writes nothing outside the table: the IDT and the thunks stay. *)
Theorem isr_set_handler_table : forall v h m,
  0 <= v < 256 -> 0 <= h < 2 ^ 64 ->
  load_le (isr_set v h m) (Mem_ISR_Table + 8 * v) 8 = h /\
  (forall u, 0 <= u < 256 -> u <> v ->
     load_le (isr_set v h m) (Mem_ISR_Table + 8 * u) 8
     = load_le m (Mem_ISR_Table + 8 * u) 8) /\
  outside Mem_ISR_Table (Mem_ISR_Table + 8 * 256) m (isr_set v h m).
Proof.
  intros v h m Hv Hh.
  split; [|split].
  - rewrite isr_set_slot by lia. unfold store64. rewrite load_le_store_le.
    change (8 * Z.of_nat 8) with 64. apply Z.mod_small. exact Hh.
  - intros u Hu Hne. rewrite isr_set_slot by lia. unfold store64.
    apply load_le_store_le_other. change (Z.of_nat 8) with 8. lia.
  - apply isr_set_outside. exact Hv.
Qed.

Lemma isr_set_handler_table_witness :
  load_le (isr_set 0x20 0x302000 (fun _ => 0)) (Mem_ISR_Table + 8 * 0x20) 8 = 0x302000 /\
  (forall u, 0 <= u < 256 -> u <> 0x20 ->
     load_le (isr_set 0x20 0x302000 (fun _ => 0)) (Mem_ISR_Table + 8 * u) 8
     = load_le (fun _ => 0) (Mem_ISR_Table + 8 * u) 8) /\
  outside Mem_ISR_Table (Mem_ISR_Table + 8 * 256) (fun _ => 0)
    (isr_set 0x20 0x302000 (fun _ => 0)).
Proof.
  exact (isr_set_handler_table 0x20 0x302000 (fun _ => 0) ltac:(lia) ltac:(lia)).
Defined.

(** *** [irq_enable] and [irq_disable] *)

Lemma enable_mask : forall c,
  0 <= c < 8 -> not32 (shl32 1 c) mod 256 = 255 - 2 ^ c.
Proof.
  intros c Hc.
  assert (H : c = 0 \/ c = 1 \/ c = 2 \/ c = 3 \/ c = 4 \/ c = 5 \/ c = 6 \/ c = 7) by lia.
  repeat (destruct H as [->|H]; [reflexivity|]). subst c. reflexivity.
Qed.

Lemma disable_mask : forall c,
  0 <= c < 8 -> shl32 1 c mod 256 = 2 ^ c.
Proof.
  intros c Hc.
  assert (H : c = 0 \/ c = 1 \/ c = 2 \/ c = 3 \/ c = 4 \/ c = 5 \/ c = 6 \/ c = 7) by lia.
  repeat (destruct H as [->|H]; [reflexivity|]). subst c. reflexivity.
Qed.

Lemma set_cl_low : forall s b, set_cl s b mod 256 = b mod 256.
Proof.
  intros s b. unfold set_cl.
  rewrite (Z.div_mod (p_rcx s) 256) at 1 by lia.
  replace (256 * (p_rcx s / 256) + p_rcx s mod 256 - p_rcx s mod 256 + b mod 256)
    with (b mod 256 + (p_rcx s / 256) * 256) by lia.
  rewrite Z.mod_add by lia. apply Z.mod_mod. lia.
Qed.

(** [irq_enable(n)] with [n] below 8 clears bit [n] of the mask of the
    master and leaves the mask of the slave. *)
Theorem irq_enable_master_mask : forall fuel s,
  (1 <= fuel)%nat -> p_rdi s mod 256 < 8 ->
  exists s',
    irq_enable fuel s = Some s' /\
    port21 s' = Z.land (port21 s) (255 - 2 ^ (p_rdi s mod 256)) /\
    porta1 s' = porta1 s.
Proof.
  intros fuel s Hfuel Hc. destruct fuel as [|fuel]; [lia|].
  pose proof (Z.mod_pos_bound (p_rdi s) 256 ltac:(lia)) as Hr.
  cbn [irq_enable]. unfold cl. cbn [p_rcx].
  destruct (Z.geb_spec (p_rdi s mod 256) 8) as [Hge|_]; [lia|].
  eexists. split; [reflexivity|].
  unfold irq_enable_master, cl. cbn [port21 porta1 p_rcx].
  rewrite enable_mask by lia. split; reflexivity.
Qed.

Lemma irq_enable_master_mask_witness :
  exists s',
    irq_enable 1 (mkPic 0 0 0 0 0xff 0xff) = Some s' /\
    port21 s' = 0xfe /\ porta1 s' = 0xff.
Proof.
  exact (irq_enable_master_mask 1 (mkPic 0 0 0 0 0xff 0xff) (le_n 1) ltac:(cbn; lia)).
Defined.

(** [irq_enable(n)] with [n] from 8 on clears bit 2 of the mask of the
    master, by the call of [irq_enable(2)], and leaves the mask of the
    slave as it is: the call has left 2 in [rcx], so that [sub cl, 8]
    gives a shift count of 250, taken modulo 32, and the mask that
    [and al, dl] applies is 0xff.  The interrupt line [n] stays masked. *)
Theorem irq_enable_slave_mask : forall fuel s,
  (2 <= fuel)%nat -> 8 <= p_rdi s mod 256 -> 0 <= porta1 s < 256 ->
  exists s',
    irq_enable fuel s = Some s' /\
    port21 s' = Z.land (port21 s) 0xfb /\
    porta1 s' = porta1 s.
Proof.
  intros fuel s Hfuel Hc Hp.
  destruct fuel as [|[|fuel]]; [lia | lia |].
  cbn [irq_enable]. unfold cl at 1. cbn [p_rcx].
  destruct (Z.geb_spec (p_rdi s mod 256) 8) as [_|Hlt]; [|lia].
  cbn [al p_rcx edx p_rdi port21 porta1].
  change (cl (mkPic (al s) 2 (edx s) 2 (port21 s) (porta1 s)) >=? 8) with false.
  cbv iota.
  eexists. split; [reflexivity|].
  unfold irq_enable_master. cbn [port21 porta1 p_rcx].
  split; [reflexivity|].
  change (Z.land (porta1 s) 255 = porta1 s).
  change 255 with (Z.ones 8). rewrite Z.land_ones by lia.
  apply Z.mod_small. change (2 ^ 8) with 256. lia.
Qed.

(** IRQ 12 with every line masked: the master loses bit 2, the slave
    keeps all its bits. *)
Lemma irq_enable_slave_mask_witness :
  exists s',
    irq_enable 2 (mkPic 0 0 0 12 0xff 0xff) = Some s' /\
    port21 s' = 0xfb /\ porta1 s' = 0xff.
Proof.
  exact (irq_enable_slave_mask 2 (mkPic 0 0 0 12 0xff 0xff) (le_n 2)
           ltac:(cbn; lia) ltac:(cbn; lia)).
Defined.

(** [irq_disable(n)] sets bit [n] of the mask of the master when [n] is
    below 8, and bit [n - 8] of the mask of the slave when [n] is from 8
    to 15; the other mask is left. *)
Theorem irq_disable_mask : forall s n,
  p_rdi s mod 256 = n ->
  (n < 8 ->
     port21 (irq_disable s) = Z.lor (port21 s) (2 ^ n) /\
     porta1 (irq_disable s) = porta1 s) /\
  (8 <= n < 16 ->
     porta1 (irq_disable s) = Z.lor (porta1 s) (2 ^ (n - 8)) /\
     port21 (irq_disable s) = port21 s).
Proof.
  intros s n Hn.
  pose proof (Z.mod_pos_bound (p_rdi s) 256 ltac:(lia)) as Hr.
  split; intros Hc; unfold irq_disable, cl; cbn [p_rcx]; rewrite Hn.
  - destruct (Z.geb_spec n 8) as [Hge|_]; [lia|].
    cbn [port21 porta1]. rewrite disable_mask by lia. split; reflexivity.
  - destruct (Z.geb_spec n 8) as [_|Hlt]; [|lia].
    cbn [port21 porta1]. rewrite set_cl_low.
    rewrite (Z.mod_small (n - 8)) by lia.
    rewrite disable_mask by lia. split; reflexivity.
Qed.

Lemma irq_disable_mask_witness :
  (12 < 8 ->
     port21 (irq_disable (mkPic 0 0 0 12 0 0)) = Z.lor 0 (2 ^ 12) /\
     porta1 (irq_disable (mkPic 0 0 0 12 0 0)) = 0) /\
  (8 <= 12 < 16 ->
     porta1 (irq_disable (mkPic 0 0 0 12 0 0)) = Z.lor 0 (2 ^ (12 - 8)) /\
     port21 (irq_disable (mkPic 0 0 0 12 0 0)) = 0).
Proof.
  exact (irq_disable_mask (mkPic 0 0 0 12 0 0) 12 eq_refl).
Defined.

End IsrFacts.

(** ** paging.c where [fatal] returns *)

Module PagingIrqFacts.
Import Pmap Paging_h Kmem_h Paging PagingFacts PageAllocFacts.

(** *** Runs that do not call [fatal] *)

Lemma bind_Ok_intro : forall {St A B : Type} (m : M St A) (f : A -> M St B)
    s a s1 b s',
  m s = Ok a s1 -> f a s1 = Ok b s' -> bind m f s = Ok b s'.
Proof. intros St A B m f s a s1 b s' H1 H2. unfold bind. rewrite H1. exact H2. Qed.

(** From [H : bind m f s = Ok _ _] and a goal [bind m' g s = Ok _ _]:
    the first steps are matched. *)
Tactic Notation "sim_step" hyp(H) ident(a) ident(s1) :=
  let Ha := fresh "Ha" in
  apply bind_Ok in H as (a & s1 & Ha & H);
  eapply bind_Ok_intro; [exact Ha |].

(** A run of [pfalloc] that ends without a call of [fatal] is the same
    whether [fatal] returns or not; so for the functions below. *)
Lemma pfalloc_sim : forall s r s',
  Paging.pfalloc s = Ok r s' -> PagingIrq.pfalloc s = Ok r s'.
Proof.
  intros s r s' H. unfold Paging.pfalloc in H. unfold PagingIrq.pfalloc.
  apply bind_Ok in H as (d & s1 & Hd & H). injection Hd as <- <-.
  eapply bind_Ok_intro; [reflexivity|].
  destruct (avail (pfdb s) =? 0); [discriminate|].
  eapply bind_Ok_intro; [reflexivity|]. exact H.
Qed.

Lemma pffree_sim : forall pfn s u s',
  Paging.pffree pfn s = Ok u s' -> PagingIrq.pffree pfn s = Ok u s'.
Proof.
  intros pfn s u s' H. unfold Paging.pffree in H. unfold PagingIrq.pffree.
  sim_step H a s1.
  destruct (negb (ptype a =? PFTYPE_ALLOCATED)); [discriminate|].
  eapply bind_Ok_intro; [reflexivity|]. exact H.
Qed.

Lemma pgalloc_sim : forall s r s',
  Paging.pgalloc s = Ok r s' -> PagingIrq.pgalloc s = Ok r s'.
Proof.
  intros s r s' H. unfold Paging.pgalloc in H. unfold PagingIrq.pgalloc.
  apply bind_Ok in H as (pfn & s1 & Hp & H).
  eapply bind_Ok_intro; [apply pfalloc_sim; exact Hp | exact H].
Qed.

Lemma pgfree_sim : forall paddr s u s',
  Paging.pgfree paddr s = Ok u s' -> PagingIrq.pgfree paddr s = Ok u s'.
Proof.
  intros paddr s u s' H. unfold Paging.pgfree in H. unfold PagingIrq.pgfree.
  cbv zeta in *. sim_step H a s1. sim_step H u1 s2.
  destruct (wrap16 (refcount a - 1) =? 0); [apply pffree_sim|]; exact H.
Qed.

Lemma grow_table_sim : forall table e added s r s',
  Paging.grow_table table e added s = Ok r s' ->
  PagingIrq.grow_table table e added s = Ok r s'.
Proof.
  intros table e added s r s' H.
  unfold Paging.grow_table in H. unfold PagingIrq.grow_table.
  sim_step H a s1. destruct (a =? 0); [|exact H].
  apply bind_Ok in H as (pg & s2 & Hp & H).
  eapply bind_Ok_intro; [apply pgalloc_sim; exact Hp | exact H].
Qed.

Lemma add_pte_sim : forall fuel pt vaddr paddr pflags addflags s r s',
  Paging.add_pte fuel pt vaddr paddr pflags addflags s = Ok r s' ->
  PagingIrq.add_pte fuel pt vaddr paddr pflags addflags s = Ok r s'.
Proof.
  induction fuel as [|fuel IH]; intros pt vaddr paddr pflags addflags s r s' H;
    [discriminate|].
  cbn [Paging.add_pte] in H. cbn [PagingIrq.add_pte].
  destruct (negb (Z.land addflags CONTAINS_TABLE =? 0) && (vaddr >=? vterm pt));
    [discriminate|].
  eapply bind_Ok_intro; [reflexivity|]. cbv zeta in *.
  sim_step H a sa.
  apply bind_Ok in H as (added1 & sb & H1 & H).
  eapply bind_Ok_intro.
  { destruct (a =? 0); [apply grow_table_sim; exact H1|].
    destruct (negb (Z.land a PF_SYSTEM =? 0)); [discriminate | exact H1]. }
  sim_step H v1 sc.
  apply bind_Ok in H as (added2 & sd & H2 & H).
  eapply bind_Ok_intro; [apply grow_table_sim; exact H2|].
  sim_step H v2 se.
  apply bind_Ok in H as (added3 & sf & H3 & H).
  eapply bind_Ok_intro; [apply grow_table_sim; exact H3|].
  sim_step H v3 sg. sim_step H u sh.
  clear - IH H. revert pt sh r s' H.
  induction added3 as [|x added IHl]; intros pt s r s' H; [exact H|].
  apply bind_Ok in H as (pt' & s1 & Hp & H).
  eapply bind_Ok_intro; [apply IH; exact Hp|].
  apply IHl. exact H.
Qed.

Lemma page_alloc_sim : forall fuel pt v count s r s',
  Paging.page_alloc fuel pt v count s = Ok r s' ->
  PagingIrq.page_alloc fuel pt v count s = Ok r s'.
Proof.
  intros fuel pt v count s r s' H.
  unfold Paging.page_alloc in H. unfold PagingIrq.page_alloc.
  destruct (count <? 0); [exact H|].
  revert pt v s r s' H.
  induction (Z.to_nat count) as [|n IH]; intros pt v s r s' H; [exact H|].
  cbn [Paging.page_alloc_loop] in H. cbn [PagingIrq.page_alloc_loop].
  apply bind_Ok in H as (pa & s1 & Hp & H).
  eapply bind_Ok_intro; [apply pgalloc_sim; exact Hp|].
  apply bind_Ok in H as (pt' & s2 & Ha & H).
  eapply bind_Ok_intro; [apply add_pte_sim; exact Ha|].
  apply IH. exact H.
Qed.

Lemma page_free_sim : forall pt v count s u s',
  Paging.page_free pt v count s = Ok u s' ->
  PagingIrq.page_free pt v count s = Ok u s'.
Proof.
  intros pt v count s u s' H.
  unfold Paging.page_free in H. unfold PagingIrq.page_free.
  destruct (count <? 0); [exact H|].
  revert v s u s' H.
  induction (Z.to_nat count) as [|n IH]; intros v s u s' H; [exact H|].
  cbn [Paging.page_free_loop] in H. cbn [PagingIrq.page_free_loop].
  sim_step H pa s1.
  apply bind_Ok in H as (u1 & s2 & Hf & H).
  eapply bind_Ok_intro; [apply pgfree_sim; exact Hf|].
  apply IH. exact H.
Qed.

(** *** [page_alloc] and [page_free] return *)

(** [g] is a frame of the database. *)
Definition valid (d : pfdb_t) (g : Z) : Prop := pf_get d g <> None.

Lemma valid_set : forall d n r g, valid d n -> valid d g -> valid (pf_set d n r) g.
Proof.
  intros d n r g Hn Hg. unfold valid in *. rewrite pf_get_set by exact Hn.
  destruct (g =? n); [discriminate | exact Hg].
Qed.

Lemma read_pf_intro : forall n s r,
  pf_get (pfdb s) n = Some r -> read_pf n s = Ok r s.
Proof. intros n s r H. unfold read_pf. rewrite H. reflexivity. Qed.

Lemma write_pf_intro : forall n r s,
  valid (pfdb s) n ->
  write_pf n r s = Ok tt (set_pfdb s (pf_set (pfdb s) n r)).
Proof.
  intros n r s H. unfold write_pf, valid in *.
  destruct (pf_get (pfdb s) n); [reflexivity | congruence].
Qed.

Lemma pfalloc_Ok : forall s r,
  avail (pfdb s) <> 0 ->
  pf_get (pfdb s) (head (pfdb s)) = Some r ->
  next r = PFN_INVALID \/ valid (pfdb s) (next r) ->
  exists s', Paging.pfalloc s = Ok (head (pfdb s)) s'.
Proof.
  intros s r Hav Hr Hnx. unfold Paging.pfalloc.
  assert (Hh : valid (pfdb s) (head (pfdb s))) by (unfold valid; congruence).
  destruct (Z.eqb_spec (next r) PFN_INVALID) as [E|E].
  - eexists. eapply bind_Ok_intro; [reflexivity|]. cbv beta.
    rewrite (proj2 (Z.eqb_neq _ _) Hav).
    eapply bind_Ok_intro; [apply read_pf_intro; exact Hr|].
    eapply bind_Ok_intro; [reflexivity|].
    rewrite (proj2 (Z.eqb_eq _ _) E). cbn [negb].
    eapply bind_Ok_intro; [reflexivity|].
    eapply bind_Ok_intro; [apply write_pf_intro; exact Hh|].
    reflexivity.
  - destruct Hnx as [Hnx|Hnx]; [congruence|].
    destruct (pf_get (pfdb s) (next r)) as [h|] eqn:Eh; [|unfold valid in Hnx; congruence].
    eexists. eapply bind_Ok_intro; [reflexivity|]. cbv beta.
    rewrite (proj2 (Z.eqb_neq _ _) Hav).
    eapply bind_Ok_intro; [apply read_pf_intro; exact Hr|].
    eapply bind_Ok_intro; [reflexivity|].
    rewrite (proj2 (Z.eqb_neq _ _) E). cbn [negb].
    eapply bind_Ok_intro.
    { eapply bind_Ok_intro; [apply read_pf_intro; exact Eh|].
      apply write_pf_intro. exact Hnx. }
    eapply bind_Ok_intro; [apply write_pf_intro; apply valid_set; [exact Hnx | exact Hh]|].
    reflexivity.
Qed.

Lemma pgalloc_Ok : forall s r,
  avail (pfdb s) <> 0 ->
  pf_get (pfdb s) (head (pfdb s)) = Some r ->
  next r = PFN_INVALID \/ valid (pfdb s) (next r) ->
  exists paddr s', Paging.pgalloc s = Ok paddr s'.
Proof.
  intros s r Hav Hr Hnx. destruct (pfalloc_Ok s r Hav Hr Hnx) as (s1 & E).
  unfold Paging.pgalloc. eexists. eexists.
  eapply bind_Ok_intro; [exact E|].
  eapply bind_Ok_intro; reflexivity.
Qed.

Lemma pgfree_Ok : forall paddr s r,
  pf_get (pfdb s) (Z.shiftr paddr PAGE_SHIFT) = Some r ->
  refcount r = 1 -> ptype r = PFTYPE_ALLOCATED ->
  valid (pfdb s) (head (pfdb s)) ->
  exists s',
    Paging.pgfree paddr s = Ok tt s' /\ valid (pfdb s') (head (pfdb s')) /\
    avail (pfdb s') = wrap32 (avail (pfdb s) + 1).
Proof.
  intros paddr s r Hr Hrc Hty Hh. unfold Paging.pgfree. cbv zeta.
  set (pfn := Z.shiftr paddr PAGE_SHIFT) in *.
  assert (Hv : valid (pfdb s) pfn) by (unfold valid; congruence).
  set (s1 := set_pfdb s (pf_set (pfdb s) pfn (set_refcount r (wrap16 (refcount r - 1))))).
  assert (Hr1 : pf_get (pfdb s1) pfn = Some (set_refcount r (wrap16 (refcount r - 1)))).
  { subst s1. cbn [pfdb set_pfdb]. rewrite pf_get_set by exact Hv.
    rewrite Z.eqb_refl. reflexivity. }
  assert (Hv1 : valid (pfdb s1) pfn) by (unfold valid; congruence).
  assert (Hh1 : valid (pfdb s1) (head (pfdb s1))).
  { subst s1. cbn [pfdb set_pfdb]. apply valid_set; assumption. }
  set (r2 := mkPf PFN_INVALID (head (pfdb s1)) 0 0 0 PFTYPE_AVAILABLE).
  set (s2 := set_pfdb s1 (pf_set (pfdb s1) pfn r2)).
  assert (Hh2 : valid (pfdb s2) (head (pfdb s1))).
  { subst s2. cbn [pfdb set_pfdb]. apply valid_set; assumption. }
  destruct (pf_get (pfdb s2) (head (pfdb s1))) as [h|] eqn:Eh;
    [|unfold valid in Hh2; congruence].
  eexists. split; [|split].
  - eapply bind_Ok_intro; [apply read_pf_intro; exact Hr|].
    eapply bind_Ok_intro; [apply write_pf_intro; exact Hv|].
    fold s1. rewrite Hrc. change (wrap16 (1 - 1) =? 0) with true. cbv iota.
    unfold Paging.pffree.
    eapply bind_Ok_intro; [apply read_pf_intro; rewrite Hrc in Hr1; exact Hr1|].
    cbn [set_refcount ptype]. rewrite Hty.
    change (negb (PFTYPE_ALLOCATED =? PFTYPE_ALLOCATED)) with false. cbv iota.
    eapply bind_Ok_intro; [reflexivity|].
    eapply bind_Ok_intro; [apply write_pf_intro; exact Hv1|].
    fold r2. fold s2.
    eapply bind_Ok_intro; [apply read_pf_intro; exact Eh|].
    eapply bind_Ok_intro; [apply write_pf_intro; exact Hh2|].
    eapply bind_Ok_intro; reflexivity.
  - cbn [pfdb set_pfdb head]. unfold valid. 
    unfold pf_get. cbn [pf pf_set].
    assert (Hvs : valid (pf_set (pfdb s2) (head (pfdb s1)) (set_prev h pfn)) pfn).
    { apply valid_set; [exact Hh2|]. subst s2. cbn [pfdb set_pfdb].
      apply valid_set; assumption. }
    exact Hvs.
  - reflexivity.
Qed.

Lemma remove_pte_Ok : forall pt va s,
  remove_pte pt va s
  = Ok (PGPTR (load (mem s) (slot4 (mem s) (proot pt) va)))
       (set_mem s (store (mem s) (slot4 (mem s) (proot pt) va) 0)).
Proof. reflexivity. Qed.

(** [add_pte] when the tables are in place and the PML4 entry is not a
    SYSTEM one: no call of [fatal], one store. *)
Lemma add_pte_present_Ok : forall fuel pt va paddr pflags s,
  tables_present (mem s) (proot pt) va ->
  Z.land (load (mem s) (slot1 (proot pt) va)) PF_SYSTEM = 0 ->
  Paging.add_pte (S fuel) pt va paddr pflags 0 s
  = Ok pt (set_mem s (store (mem s) (slot4 (mem s) (proot pt) va)
                        (Z.lor paddr pflags))).
Proof.
  intros fuel pt va paddr pflags s Hp Hsys.
  unfold tables_present, table_slots in Hp.
  inversion Hp as [|? ? H1 Hp']; subst. inversion Hp' as [|? ? H2 Hp'']; subst.
  inversion Hp'' as [|? ? H3 _]; subst.
  unfold slot3, slot2, slot1 in *.
  cbn [Paging.add_pte].
  change (negb (Z.land 0 CONTAINS_TABLE =? 0) && (va >=? vterm pt)) with false.
  cbv iota zeta.
  eapply bind_Ok_intro; [reflexivity|]. cbv beta.
  rewrite (proj2 (Z.eqb_neq _ _) H1), Hsys. cbn [Z.eqb negb].
  eapply bind_Ok_intro; [reflexivity|].
  eapply bind_Ok_intro; [reflexivity|].
  eapply bind_Ok_intro; [apply grow_table_present; exact H2|].
  eapply bind_Ok_intro; [reflexivity|].
  eapply bind_Ok_intro; [apply grow_table_present; exact H3|].
  eapply bind_Ok_intro; [reflexivity|].
  eapply bind_Ok_intro; reflexivity.
Qed.

(** With [fatal] returning, [add_pte] on tables that are in place
    stores the leaf whether the PML4 entry is a SYSTEM one or not. *)
Lemma add_pte_writes_leaf : forall fuel pt va paddr pflags s,
  load (mem s) PagingIrq.fatal_slot = 0 ->
  tables_present (mem s) (proot pt) va ->
  PagingIrq.add_pte (S fuel) pt va paddr pflags 0 s
  = Ok pt (set_mem s (store (mem s) (slot4 (mem s) (proot pt) va)
                        (Z.lor paddr pflags))).
Proof.
  intros fuel pt va paddr pflags s Hslot Hp.
  assert (Hf : PagingIrq.fatal s = Ok tt s)
    by (unfold PagingIrq.fatal; rewrite Hslot; reflexivity).
  assert (Hg : forall table e added, load (mem s) (entry table e) <> 0 ->
                 PagingIrq.grow_table table e added s = Ok added s).
  { intros table e added H. unfold PagingIrq.grow_table, bind, rd.
    rewrite (proj2 (Z.eqb_neq _ _) H). reflexivity. }
  unfold tables_present, table_slots in Hp.
  inversion Hp as [|? ? H1 Hp']; subst. inversion Hp' as [|? ? H2 Hp'']; subst.
  inversion Hp'' as [|? ? H3 _]; subst.
  unfold slot3, slot2, slot1 in *.
  cbn [PagingIrq.add_pte].
  change (negb (Z.land 0 CONTAINS_TABLE =? 0) && (va >=? vterm pt)) with false.
  cbv iota zeta.
  eapply bind_Ok_intro; [reflexivity|].
  eapply bind_Ok_intro; [reflexivity|]. cbv beta.
  rewrite (proj2 (Z.eqb_neq _ _) H1).
  eapply bind_Ok_intro.
  { destruct (negb (Z.land (load (mem s) (entry (proot pt) (PML4E va))) PF_SYSTEM =? 0)).
    - eapply bind_Ok_intro; [exact Hf | reflexivity].
    - reflexivity. }
  eapply bind_Ok_intro; [reflexivity|].
  eapply bind_Ok_intro; [apply Hg; exact H2|].
  eapply bind_Ok_intro; [reflexivity|].
  eapply bind_Ok_intro; [apply Hg; exact H3|].
  eapply bind_Ok_intro; [reflexivity|].
  eapply bind_Ok_intro; reflexivity.
Qed.

Lemma pgalloc_avail : forall s paddr s',
  Paging.pgalloc s = Ok paddr s' -> avail (pfdb s') = avail (pfdb s).
Proof.
  intros s paddr s' H. unfold Paging.pgalloc in H.
  apply bind_Ok in H as (pfn & s1 & Hp & H).
  apply bind_Ok in H as (u & s2 & Hz & H). apply ret_Ok in H as [_ ->].
  injection Hz as _ <-. cbn [pfdb set_mem]. eapply pfalloc_avail; exact Hp.
Qed.

Lemma free_prefix_valid : forall d h f fs,
  free_prefix d h (f :: fs) -> valid d h.
Proof.
  intros d h f fs (-> & nx & ty & rc & He & _). unfold valid, pf_ess in *.
  destruct (pf_get d f); [discriminate | discriminate].
Qed.

(** The state in which the loop of [page_alloc] meets the pages [vs]:
    the tables for them are in place, under PML4 entries that are not
    SYSTEM ones; the free list starts with the frames [fs], none of
    which holds an entry of these tables, and goes on with the frame
    [h'], which is not one of [fs]; and [avail] is not 0. *)
Record alloc_ready (s : state) (root : Z) (vs fs : list Z) (h' : Z) : Prop :=
  mk_alloc_ready {
  ar_prepared : prepared (mem s) root vs fs;
  ar_plain : Forall (fun va => Z.land (load (mem s) (slot1 root va)) PF_SYSTEM = 0) vs;
  ar_free : free_prefix (pfdb s) (head (pfdb s)) (fs ++ [h']);
  ar_next : ~ In h' fs;
  ar_avail : avail (pfdb s) <> 0
}.

Lemma alloc_step : forall fuel pt v vs f fs h' s,
  alloc_ready s (proot pt) (v :: vs) (f :: fs) h' ->
  exists sa sb,
    Paging.pgalloc s = Ok (Z.shiftl f PAGE_SHIFT) sa /\
    Paging.add_pte (S fuel) pt v (Z.shiftl f PAGE_SHIFT)
      (flags_of [PF_PRESENT; PF_RW]) 0 sa = Ok pt sb /\
    alloc_ready sb (proot pt) vs fs h' /\
    avail (pfdb sb) = avail (pfdb s).
Proof.
  intros fuel pt v vs f fs h' s [Hprep Hplain Hfree Hnext Hav].
  cbn [app] in Hfree.
  destruct Hfree as (Hhead & nx & ty & rc & Hess & Hty & Hfree).
  assert (Hnxv : valid (pfdb s) nx).
  { destruct (fs ++ [h']) as [|g l] eqn:E.
    - destruct fs; discriminate.
    - eapply free_prefix_valid; exact Hfree. }
  destruct (pf_get (pfdb s) f) as [r|] eqn:Hr;
    [|unfold pf_ess in Hess; rewrite Hr in Hess; discriminate].
  assert (Er : ess r = (nx, ty, rc))
    by (unfold pf_ess in Hess; rewrite Hr in Hess; cbn [option_map] in Hess;
        congruence).
  injection Er as Hnx Hty2 Hrc.
  destruct (pgalloc_Ok s r Hav) as (paddr & sa & Hpg).
  { rewrite Hhead. exact Hr. }
  { right. rewrite Hnx. exact Hnxv. }
  pose proof (pgalloc_avail _ _ _ Hpg) as Hava.
  pose proof Hpg as Hpg'.
  apply pgalloc_effect in Hpg' as (r' & Hpaddr & Hr' & Hma & Hha & Hga & Hea & Hca).
  cbv zeta in *. rewrite Hhead in *. rewrite Hr in Hr'. injection Hr' as <-.
  pose proof (pr_range _ _ _ _ Hprep) as Hrange.
  pose proof (Forall_inv Hrange) as Hrf. cbv beta in Hrf.
  rewrite (wrap64_frame f Hrf) in *. subst paddr.
  assert (Hsa : forall a, ~ in_frame f a -> load (mem sa) a = load (mem s) a).
  { intros a Ha. rewrite Hma, memzero_load.
    unfold in_frame in Ha.
    destruct (Z.leb_spec (Z.shiftl f PAGE_SHIFT) a);
      destruct (Z.ltb_spec a (Z.shiftl f PAGE_SHIFT + PAGE_SIZE)); simpl; try reflexivity.
    lia. }
  destruct (prepared_agree (mem s) (mem sa) (proot pt) (v :: vs) (f :: fs))
    as [Hprepa Hslota]; auto.
  { intros va a Hva Ha. apply Hsa.
    apply (pr_frames _ _ _ _ Hprep va f a Hva); [left; reflexivity | right; exact Ha]. }
  pose proof (Forall_inv (pr_tables _ _ _ _ Hprepa)) as Htv.
  assert (Hs1 : forall va, In va (v :: vs) ->
            load (mem sa) (slot1 (proot pt) va) = load (mem s) (slot1 (proot pt) va)).
  { intros va Hva. apply Hsa.
    apply (pr_frames _ _ _ _ Hprep va f _ Hva); [left; reflexivity|].
    right. left. reflexivity. }
  assert (Hsysa : Z.land (load (mem sa) (slot1 (proot pt) v)) PF_SYSTEM = 0).
  { rewrite Hs1 by (left; reflexivity). exact (Forall_inv Hplain). }
  pose proof (add_pte_present_Ok fuel pt v (Z.shiftl f PAGE_SHIFT)
                (flags_of [PF_PRESENT; PF_RW]) sa Htv Hsysa) as Hadd.
  rewrite (Hslota v (or_introl eq_refl)) in Hadd.
  set (L0 := slot4 (mem s) (proot pt) v) in *.
  set (sb := set_mem sa (store (mem sa) L0
                (Z.lor (Z.shiftl f PAGE_SHIFT) (flags_of [PF_PRESENT; PF_RW])))) in *.
  exists sa, sb. split; [exact Hpg|]. split; [exact Hadd|].
  assert (Hsb : forall a, a <> L0 -> ~ in_frame f a -> load (mem sb) a = load (mem s) a).
  { intros a Ha1 Ha2. subst sb. unfold set_mem; cbn [mem]. rewrite store_load.
    destruct (Z.eqb_spec a L0); [congruence|]. apply Hsa; assumption. }
  pose proof (pr_nodup _ _ _ _ Hprep) as Hnd. apply NoDup_cons_iff in Hnd as [Hnf Hnd'].
  split; [|subst sb; unfold set_mem; cbn [pfdb]; exact Hava].
  constructor.
  - destruct (prepared_agree (mem s) (mem sb) (proot pt) vs fs) as [Hprepb _];
      [| eapply prepared_tail; exact Hprep | exact Hprepb].
    intros va a Hva Ha. apply Hsb.
    + intros E. apply (pr_apart _ _ _ _ Hprep v va (or_introl eq_refl) (or_intror Hva)).
      fold L0. rewrite <- E. exact Ha.
    + apply (pr_frames _ _ _ _ Hprep va f a (or_intror Hva));
        [left; reflexivity | right; exact Ha].
  - apply Forall_forall. intros va Hva.
    rewrite Hsb.
    + rewrite Forall_forall in Hplain. apply Hplain. right; exact Hva.
    + intros E. apply (pr_apart _ _ _ _ Hprep v va (or_introl eq_refl) (or_intror Hva)).
      fold L0. rewrite <- E. left. reflexivity.
    + apply (pr_frames _ _ _ _ Hprep va f _ (or_intror Hva)); [left; reflexivity|].
      right. left. reflexivity.
  - subst sb. unfold set_mem; cbn [pfdb]. rewrite Hha, Hnx.
    eapply free_prefix_ess; [|exact Hfree].
    intros g Hg. apply Hea. intros ->.
    apply in_app_or in Hg as [Hg|[Hg|[]]]; [contradiction|].
    apply Hnext. left. symmetry. exact Hg.
  - intros Hin. apply Hnext. right. exact Hin.
  - subst sb. unfold set_mem; cbn [pfdb]. rewrite Hava. exact Hav.
Qed.

Lemma alloc_loop_Ok : forall fuel pt n v fs h' s,
  length fs = n ->
  alloc_ready s (proot pt) (vaddrs v n) fs h' ->
  exists s1,
    Paging.page_alloc_loop (S fuel) n pt v s = Ok pt s1 /\
    valid (pfdb s1) (head (pfdb s1)) /\
    avail (pfdb s1) = avail (pfdb s).
Proof.
  intros fuel pt. induction n as [|n IH]; intros v fs h' s Hlen Hr.
  - destruct fs; [|discriminate]. exists s. split; [reflexivity|].
    split; [|reflexivity].
    eapply free_prefix_valid. exact (ar_free _ _ _ _ _ Hr).
  - destruct fs as [|f fs]; [discriminate|]. injection Hlen as Hlen.
    cbn [vaddrs] in Hr. cbn [Paging.page_alloc_loop].
    destruct (alloc_step fuel pt v _ f fs h' s Hr)
      as (sa & sb & Hpg & Hadd & Hrb & Hab).
    destruct (IH _ fs h' sb Hlen Hrb) as (s1 & Hloop & Hv & Ha1).
    exists s1. split; [|split; [exact Hv | congruence]].
    eapply bind_Ok_intro; [exact Hpg|].
    eapply bind_Ok_intro; [exact Hadd | exact Hloop].
Qed.

(** The state in which the loop of [page_free] meets the pages [vs]. *)
Record free_ready (s : state) (root : Z) (vs fs : list Z) : Prop :=
  mk_free_ready {
  fr_prepared : prepared (mem s) root vs fs;
  fr_leaf : forall va f, In (va, f) (combine vs fs) ->
              load (mem s) (slot4 (mem s) root va) = leaf_of f;
  fr_alloc : forall f, In f fs ->
               exists nx, pf_ess (pfdb s) f = Some (nx, PFTYPE_ALLOCATED, 1);
  fr_head : valid (pfdb s) (head (pfdb s))
}.

Lemma free_loop_Ok : forall pt n v fs s,
  length fs = n ->
  free_ready s (proot pt) (vaddrs v n) fs ->
  exists s2,
    Paging.page_free_loop n pt v s = Ok tt s2 /\
    avail (pfdb s2) mod 2 ^ 32 = (avail (pfdb s) + Z.of_nat n) mod 2 ^ 32.
Proof.
  intros pt. induction n as [|n IH]; intros v fs s Hlen [Hprep Hleaf Halloc Hhd].
  - exists s. split; [reflexivity|]. rewrite Z.add_0_r. reflexivity.
  - destruct fs as [|f fs]; [discriminate|]. injection Hlen as Hlen.
    cbn [Paging.page_free_loop vaddrs] in *.
    set (v' := wrap64 (v + PAGE_SIZE)) in *.
    set (L0 := slot4 (mem s) (proot pt) v) in *.
    set (sa := set_mem s (store (mem s) L0 0)).
    assert (Hrm : remove_pte pt v s = Ok (Z.shiftl f PAGE_SHIFT) sa).
    { rewrite remove_pte_Ok. rewrite (Hleaf v f (or_introl eq_refl)).
      unfold leaf_of. rewrite PGPTR_leaf. reflexivity. }
    destruct (Halloc f (or_introl eq_refl)) as (nx & Hess).
    destruct (pf_get (pfdb s) f) as [r|] eqn:Hr;
      [|unfold pf_ess in Hess; rewrite Hr in Hess; discriminate].
    assert (Er : ess r = (nx, PFTYPE_ALLOCATED, 1))
      by (unfold pf_ess in Hess; rewrite Hr in Hess; cbn [option_map] in Hess;
        congruence).
    injection Er as Hnx Hty Hrc.
    destruct (pgfree_Ok (Z.shiftl f PAGE_SHIFT) sa r) as (sb & Hfr & Hhb & Hab); auto.
    { rewrite shiftr_shiftl_page. exact Hr. }
    pose proof Hfr as Hfr'.
    apply pgfree_effect with (nx := nx) in Hfr';
      [|rewrite shiftr_shiftl_page; exact Hess].
    rewrite shiftr_shiftl_page in Hfr'.
    destruct Hfr' as (Hmb & Heb & Hcb).
    unfold sa, set_mem in Hmb, Heb; cbn [mem pfdb] in Hmb, Heb.
    assert (Hsb : forall a, a <> L0 -> load (mem sb) a = load (mem s) a).
    { intros a Ha. rewrite Hmb, store_load.
      destruct (Z.eqb_spec a L0); [congruence | reflexivity]. }
    destruct (prepared_agree (mem s) (mem sb) (proot pt) (vaddrs v' n) fs)
      as [Hprepb Hslotb].
    { intros va a Hva Ha. apply Hsb.
      intros E. apply (pr_apart _ _ _ _ Hprep v va (or_introl eq_refl) (or_intror Hva)).
      fold L0. rewrite <- E. exact Ha. }
    { eapply prepared_tail; exact Hprep. }
    pose proof (pr_nodup _ _ _ _ Hprep) as Hnd. apply NoDup_cons_iff in Hnd as [Hnf Hnd'].
    pose proof (pr_leaves _ _ _ _ Hprep) as Hleaves. cbn [map] in Hleaves.
    fold L0 in Hleaves. apply NoDup_cons_iff in Hleaves as [HL0 Hleaves'].
    destruct (IH v' fs sb Hlen) as (s2 & Hloop & Ha2).
    { constructor.
      - exact Hprepb.
      - intros va g Hin. pose proof (in_combine_l _ _ _ _ Hin) as Hva.
        rewrite (Hslotb va Hva). rewrite Hsb.
        + apply Hleaf. right; exact Hin.
        + intros E. apply HL0. rewrite <- E. apply in_map. exact Hva.
      - intros g Hg. destruct (Halloc g (or_intror Hg)) as (nx' & He).
        exists nx'. rewrite Heb; [exact He|]. intros ->. contradiction.
      - exact Hhb. }
    exists s2. split.
    + eapply bind_Ok_intro; [exact Hrm|].
      eapply bind_Ok_intro; [exact Hfr | exact Hloop].
    + rewrite Ha2, Hab. unfold sa, set_mem, wrap32; cbn [pfdb].
      rewrite Zplus_mod_idemp_l. f_equal. lia.
Qed.


Lemma free_prefix_app : forall d fs l h,
  free_prefix d h (fs ++ l) -> free_prefix d h fs.
Proof.
  intros d. induction fs as [|f fs IH]; intros l h H; [exact I|].
  cbn [app free_prefix] in *.
  destruct H as (-> & nx & ty & rc & He & Hty & H).
  split; [reflexivity|]. exists nx, ty, rc. eauto.
Qed.

(** *** [page_alloc] then [page_free] *)

(** Both calls return, and what they leave of the database. *)
Lemma alloc_free_run : forall fuel pt v count fs h' s,
  0 <= count ->
  length fs = Z.to_nat count ->
  alloc_ready s (proot pt) (vaddrs v (Z.to_nat count)) fs h' ->
  exists s1 s2,
    Paging.page_alloc (S fuel) pt v count s = Ok pt s1 /\
    Paging.page_free pt v count s1 = Ok tt s2 /\
    alloc_count (pfdb s2) = alloc_count (pfdb s) /\
    avail (pfdb s2) mod 2 ^ 32 = (avail (pfdb s) + count) mod 2 ^ 32.
Proof.
  intros fuel pt v count fs h' s Hc Hlen Hr.
  destruct (alloc_loop_Ok fuel pt _ v fs h' s Hlen Hr) as (s1 & Ha & Hhd & Hav1).
  pose proof (ar_prepared _ _ _ _ _ Hr) as Hprep.
  pose proof (free_prefix_app _ _ _ _ (ar_free _ _ _ _ _ Hr)) as Hfree.
  destruct (alloc_phase _ _ _ _ _ _ _ _ Hlen Hprep Hfree Ha)
    as (_ & Hmem & Hleaf & Halloc & _ & Hcount).
  destruct (prepared_agree (mem s) (mem s1) (proot pt) (vaddrs v (Z.to_nat count)) fs)
    as [Hprep1 Hslot1]; [|exact Hprep|].
  { intros va a Hva Hin. apply Hmem.
    - intros Hl. apply in_map_iff in Hl as (va' & E & Hva').
      apply (pr_apart _ _ _ _ Hprep va' va Hva' Hva). rewrite E. exact Hin.
    - intros f Hfin. apply (pr_frames _ _ _ _ Hprep va f a Hva Hfin). right; exact Hin. }
  assert (Hfr : free_ready s1 (proot pt) (vaddrs v (Z.to_nat count)) fs).
  { constructor.
    - exact Hprep1.
    - intros va f Hin. rewrite (Hslot1 va (in_combine_l _ _ _ _ Hin)). apply Hleaf; exact Hin.
    - intros f Hin. exists 0. apply Halloc; exact Hin.
    - exact Hhd. }
  destruct (free_loop_Ok pt _ v fs s1 Hlen Hfr) as (s2 & Hf & Hav2).
  pose proof (free_phase pt _ v fs s1 tt s2 Hlen Hprep1
                (fr_leaf _ _ _ _ Hfr) (fr_alloc _ _ _ _ Hfr) Hf) as E.
  exists s1, s2.
  split; [unfold Paging.page_alloc; destruct (Z.ltb_spec count 0); [lia | exact Ha]|].
  split; [unfold Paging.page_free; destruct (Z.ltb_spec count 0); [lia | exact Hf]|].
  split; [lia|].
  rewrite Hav2, Hav1, Z2Nat.id by exact Hc. reflexivity.
Qed.

(** C6 (amended). Let the interior tables for the [count] pages from [v]
    be in place under PML4 entries without the SYSTEM flag, their leaf
    entries be distinct and apart from the entries of the interior
    tables, [avail] be other than 0, and the free list start with the
    distinct frames [fs], [count] of them, and one more frame [h'], none
    Allocated and none holding one of these entries.  Then
    [page_alloc(pt, v, count)] returns, [page_free(pt, v, count)] after
    it returns, and the number of Allocated frames is as it was. *)
Theorem page_alloc_free_count :
  forall fuel pt v count fs h' s,
    0 <= count ->
    (1 <= fuel)%nat ->
    length fs = Z.to_nat count ->
    alloc_ready s (proot pt) (vaddrs v (Z.to_nat count)) fs h' ->
    exists s1 s2,
      PagingIrq.page_alloc fuel pt v count s = Ok pt s1 /\
      PagingIrq.page_free pt v count s1 = Ok tt s2 /\
      alloc_count (pfdb s2) = alloc_count (pfdb s).
Proof.
  intros fuel pt v count fs h' s Hc Hfuel Hlen Hr.
  destruct fuel as [|fuel]; [lia|].
  destruct (alloc_free_run fuel pt v count fs h' s Hc Hlen Hr)
    as (s1 & s2 & Ha & Hf & E & _).
  exists s1, s2.
  split; [apply page_alloc_sim; exact Ha|].
  split; [apply page_free_sim; exact Hf | exact E].
Qed.

(** An empty address space over a database with 8 free frames; the
    page that is then asked for needs three new interior tables. *)
Definition fresh_state : state :=
  mkState (fun _ => 0)
    (mkPfdb (repeat pf_zero 8 ++ free_chain 8 8) 16 8 8 15)
    (mkPagetable 0x20000 0x20000 0x21000 0x70000) (mkPmap 0 []).

Lemma page_alloc_free_counterexample :
  match pagetable_create 0x8000000000 0x400000 fresh_state with
  | Ok pt s0 =>
      match PagingIrq.page_alloc 4 pt 0x8000100000 1 s0 with
      | Ok pt1 s1 =>
          match PagingIrq.page_free pt1 0x8000100000 1 s1 with
          | Ok _ s2 =>
              alloc_count (pfdb s0) = 1%nat /\
              alloc_count (pfdb s1) = 5%nat /\
              alloc_count (pfdb s2) = 4%nat
          | _ => False
          end
      | _ => False
      end
  | _ => False
  end.
Proof. vm_compute. repeat split; reflexivity. Qed.

(** A page table at 0x1000 whose tables for the first 2 MiB are in place,
    over the same database. *)
Definition mapped_state : state :=
  mkState (mem_of [(0x1000, 0x2003); (0x2000, 0x3003); (0x3000, 0x4003)])
    (mkPfdb (repeat pf_zero 8 ++ free_chain 8 8) 16 8 8 15)
    (mkPagetable 0x20000 0x20000 0x21000 0x70000) (mkPmap 0 []).

Definition mapped_pt : pagetable_t := mkPagetable 0x1000 0 0 0.

Lemma mapped_state_prepared :
  prepared (mem mapped_state) (proot mapped_pt) (vaddrs 0 (Z.to_nat 2)) [8; 9].
Proof.
  change (vaddrs 0 (Z.to_nat 2)) with [0; 0x1000].
  constructor.
  - repeat constructor; vm_compute; discriminate.
  - change (NoDup [0x4000; 0x4008]).
    repeat constructor; simpl; intuition discriminate.
  - intros va va' [<-|[<-|[]]] [<-|[<-|[]]]; vm_compute; intuition discriminate.
  - intros va f a [<-|[<-|[]]] [<-|[<-|[]]] [<-|[<-|[<-|[<-|[]]]]];
      intros [H1 _]; cbv in H1; exact (H1 eq_refl).
  - repeat constructor; lia.
  - repeat constructor; simpl; intuition discriminate.
Qed.

Lemma mapped_state_ready :
  alloc_ready mapped_state (proot mapped_pt) (vaddrs 0 (Z.to_nat 2)) [8; 9] 10.
Proof.
  constructor.
  - exact mapped_state_prepared.
  - change (vaddrs 0 (Z.to_nat 2)) with [0; 0x1000].
    repeat constructor; vm_compute; reflexivity.
  - split; [reflexivity|]. exists 9, PFTYPE_AVAILABLE, 0.
    split; [reflexivity|]. split; [discriminate|].
    split; [reflexivity|]. exists 10, PFTYPE_AVAILABLE, 0.
    split; [reflexivity|]. split; [discriminate|].
    split; [reflexivity|]. exists 11, PFTYPE_AVAILABLE, 0.
    split; [reflexivity|]. split; [discriminate|]. exact I.
  - simpl; intuition discriminate.
  - vm_compute; discriminate.
Qed.

Lemma page_alloc_free_count_witness :
  exists s1 s2,
    (0 <= 2 /\ (1 <= 1)%nat /\ length [8; 9] = Z.to_nat 2 /\
     alloc_ready mapped_state (proot mapped_pt) (vaddrs 0 (Z.to_nat 2)) [8; 9] 10) /\
    PagingIrq.page_alloc 1 mapped_pt 0 2 mapped_state = Ok mapped_pt s1 /\
    PagingIrq.page_free mapped_pt 0 2 s1 = Ok tt s2 /\
    alloc_count (pfdb s2) = alloc_count (pfdb mapped_state).
Proof.
  assert (H0 : 0 <= 2) by lia.
  destruct (page_alloc_free_count 1 mapped_pt 0 2 [8; 9] 10 mapped_state
              H0 (le_n 1) eq_refl mapped_state_ready) as (s1 & s2 & Ha & Hf & E).
  exists s1, s2.
  split; [|split; [exact Ha|split; [exact Hf|exact E]]].
  split; [exact H0|]. split; [exact (le_n 1)|]. split; [reflexivity|].
  exact mapped_state_ready.
Defined.

(** *** [avail] after [page_alloc] and [page_free] *)

(** In the state of [alloc_ready], [page_alloc(pt, v, count)] followed
    by [page_free(pt, v, count)] leaves [avail] higher by [count]
    (modulo 2^32) than it was: [pffree] counts every frame it takes
    back and [pfalloc] counts none that it hands out.  The frames are
    again free, and [avail] no longer is their number. *)
Theorem page_alloc_free_avail :
  forall fuel pt v count fs h' s,
    0 <= count ->
    (1 <= fuel)%nat ->
    length fs = Z.to_nat count ->
    alloc_ready s (proot pt) (vaddrs v (Z.to_nat count)) fs h' ->
    exists s1 s2,
      PagingIrq.page_alloc fuel pt v count s = Ok pt s1 /\
      PagingIrq.page_free pt v count s1 = Ok tt s2 /\
      avail (pfdb s2) mod 2 ^ 32 = (avail (pfdb s) + count) mod 2 ^ 32.
Proof.
  intros fuel pt v count fs h' s Hc Hfuel Hlen Hr.
  destruct fuel as [|fuel]; [lia|].
  destruct (alloc_free_run fuel pt v count fs h' s Hc Hlen Hr)
    as (s1 & s2 & Ha & Hf & _ & E).
  exists s1, s2.
  split; [apply page_alloc_sim; exact Ha|].
  split; [apply page_free_sim; exact Hf | exact E].
Qed.

(** Two pages over eight free frames: [avail] goes from 8 to 10. *)
Lemma page_alloc_free_avail_witness :
  exists s1 s2,
    PagingIrq.page_alloc 1 mapped_pt 0 2 mapped_state = Ok mapped_pt s1 /\
    PagingIrq.page_free mapped_pt 0 2 s1 = Ok tt s2 /\
    avail (pfdb s2) mod 2 ^ 32 = (8 + 2) mod 2 ^ 32.
Proof.
  exact (page_alloc_free_avail 1 mapped_pt 0 2 [8; 9] 10 mapped_state
           ltac:(lia) (le_n 1) eq_refl mapped_state_ready).
Defined.

(** *** [add_pte] then [remove_pte] *)

(** On tables that are in place for [va], under a PML4 entry that is
    not a SYSTEM one, and with the leaf entry apart from the entries of
    the walk: [add_pte(pt, va, paddr, flags)] returns, [remove_pte(pt,
    va)] then returns the page address of the entry that was written,
    [PGPTR(paddr | flags)], and the leaf entry is 0; no other word of
    memory and nothing of the database has changed. *)
Theorem add_pte_remove_pte : forall fuel pt va paddr pflags s,
  (1 <= fuel)%nat ->
  tables_present (mem s) (proot pt) va ->
  Z.land (load (mem s) (slot1 (proot pt) va)) PF_SYSTEM = 0 ->
  ~ In (slot4 (mem s) (proot pt) va) (table_slots (mem s) (proot pt) va) ->
  exists s1 s2,
    PagingIrq.add_pte fuel pt va paddr pflags 0 s = Ok pt s1 /\
    remove_pte pt va s1 = Ok (PGPTR (Z.lor paddr pflags)) s2 /\
    pfdb s2 = pfdb s /\
    forall a, load (mem s2) a
              = if a =? slot4 (mem s) (proot pt) va then 0 else load (mem s) a.
Proof.
  intros fuel pt va paddr pflags s Hfuel Hp Hsys Hapart.
  destruct fuel as [|fuel]; [lia|].
  pose proof (add_pte_present_Ok fuel pt va paddr pflags s Hp Hsys) as Hadd.
  set (L := slot4 (mem s) (proot pt) va) in *.
  set (s1 := set_mem s (store (mem s) L (Z.lor paddr pflags))) in *.
  assert (Hslots : table_slots (mem s1) (proot pt) va = table_slots (mem s) (proot pt) va
                   /\ slot4 (mem s1) (proot pt) va = L).
  { apply slots_agree. apply Forall_forall. intros a Ha.
    subst s1. unfold set_mem; cbn [mem]. rewrite store_load.
    destruct (Z.eqb_spec a L) as [->|_]; [contradiction | reflexivity]. }
  destruct Hslots as [_ H4].
  assert (Hl : load (mem s1) L = Z.lor paddr pflags).
  { subst s1. unfold set_mem; cbn [mem]. rewrite store_load, Z.eqb_refl. reflexivity. }
  exists s1, (set_mem s1 (store (mem s1) L 0)).
  split; [apply add_pte_sim; exact Hadd|].
  split; [|split].
  - pose proof (remove_pte_Ok pt va s1) as Hrm. rewrite H4, Hl in Hrm. exact Hrm.
  - reflexivity.
  - intros a. unfold set_mem at 1; cbn [mem]. rewrite store_load.
    destruct (Z.eqb_spec a L) as [_|N]; [reflexivity|].
    subst s1. unfold set_mem; cbn [mem]. rewrite store_load.
    destruct (Z.eqb_spec a L); [contradiction | reflexivity].
Qed.

Lemma add_pte_remove_pte_witness :
  exists s1 s2,
    PagingIrq.add_pte 1 mapped_pt 0 0x9000 3 0 mapped_state = Ok mapped_pt s1 /\
    remove_pte mapped_pt 0 s1 = Ok (PGPTR (Z.lor 0x9000 3)) s2 /\
    pfdb s2 = pfdb mapped_state /\
    forall a, load (mem s2) a
              = if a =? slot4 (mem mapped_state) (proot mapped_pt) 0 then 0
                else load (mem mapped_state) a.
Proof.
  assert (Hp : tables_present (mem mapped_state) (proot mapped_pt) 0)
    by (repeat constructor; vm_compute; discriminate).
  assert (Hs : Z.land (load (mem mapped_state) (slot1 (proot mapped_pt) 0)) PF_SYSTEM = 0)
    by (vm_compute; reflexivity).
  assert (Ha : ~ In (slot4 (mem mapped_state) (proot mapped_pt) 0)
                    (table_slots (mem mapped_state) (proot mapped_pt) 0))
    by (vm_compute; intuition discriminate).
  exact (add_pte_remove_pte 1 mapped_pt 0 0x9000 3 mapped_state (le_n 1) Hp Hs Ha).
Defined.

(** *** [add_pte] under a SYSTEM entry *)

(** The state in which [page_init] leaves [boot_state]. *)
Definition booted : state :=
  match page_init 64 boot_state with
  | Ok _ s => s
  | _ => boot_state
  end.

Lemma page_init_booted : page_init 64 boot_state = Ok tt booted.
Proof.
  assert (Hok : is_Ok (page_init 64 boot_state) = true) by (vm_compute; reflexivity).
  unfold booted.
  destruct (page_init 64 boot_state) as [[] s| | |]; try discriminate. reflexivity.
Qed.

Lemma booted_tables : forall b,
  let s := Kmain.after_interrupts_init b booted in
  kpt s = mkPagetable 0x20000 0x20000 (vnext (kpt s)) (vterm (kpt s)) /\
  load (mem s) (slot1 (proot (kpt s)) 0x400000) = 0x21203 /\
  tables_present (mem s) (proot (kpt s)) 0x400000 /\
  slot4 (mem s) (proot (kpt s)) 0x400000 = 0x23000 /\
  load (mem s) 0x23000 = 0x400303 /\
  load (mem s) PagingIrq.fatal_slot = Interrupt.load_le b 0x1ff8 8.
Proof.
  intros b s. subst s.
  split; [vm_compute; reflexivity|].
  split; [vm_compute; reflexivity|].
  split; [repeat constructor; vm_compute; discriminate|].
  split; [vm_compute; reflexivity|].
  split; vm_compute; reflexivity.
Qed.

(** C5 (the code against the claim). [kmain] calls [page_init], then
    [interrupts_init], then the code that calls [isr_set] for vectors
    of its choice.  Take [page_init] on [small_map]: the PML4 entry
    for 0x400000 in the kernel page table carries the SYSTEM flag and
    the leaf entry at 0x23000 is 0x400303.  [add_pte(kpt, 0x400000,
    0x5000, PRESENT | RW)] calls [fatal] before it has written
    anything; the dispatcher entered from [int 0xff] finds no handler
    and returns; [add_pte] goes on and the leaf entry becomes
    0x5003. *)
Theorem add_pte_past_fatal :
  forall D S fuel m0 sets,
    0 <= D < 2 ^ 31 -> 0 <= S < 2 ^ 31 -> D <> S -> (256 <= fuel)%nat ->
    Forall (fun p => 0 <= fst p < 256) sets ->
    exists s0 b,
      page_init 64 boot_state = Ok tt s0 /\
      Interrupt.interrupts_init D S fuel m0 = Some b /\
      let b' := IsrFacts.isr_sets sets b in
      let s := Kmain.after_interrupts_init b' s0 in
      let pflags := flags_of [PF_PRESENT; PF_RW] in
      Z.land (load (mem s) (entry (proot (kpt s)) (PML4E 0x400000))) PF_SYSTEM <> 0 /\
      load (mem s) 0x23000 = 0x400303 /\
      Paging.add_pte 1 (kpt s) 0x400000 0x5000 pflags 0 s = Fatal s /\
      (forall r mx fr, Interrupt.dispatch D S b' 0xff r mx fr = Some 0) /\
      exists s',
        PagingIrq.add_pte 1 (kpt s) 0x400000 0x5000 pflags 0 s = Ok (kpt s) s' /\
        load (mem s') 0x23000 = 0x5003.
Proof.
  intros D S fuel m0 sets HD HS Hne Hfuel Hsets.
  destruct (IsrFacts.fatal_returns D S fuel m0 HD HS Hne Hfuel) as (b & Eb & Hb).
  destruct (Hb sets Hsets) as [Hz Hd].
  exists booted, b.
  split; [exact page_init_booted|]. split; [exact Eb|].
  cbv zeta.
  destruct (booted_tables (IsrFacts.isr_sets sets b))
    as (Hk & H1 & Hp & H4 & Hl & Hf).
  cbv zeta in Hk, H1, Hp, H4, Hl, Hf.
  set (s := Kmain.after_interrupts_init (IsrFacts.isr_sets sets b) booted) in *.
  assert (Hsys : Z.land (load (mem s) (entry (proot (kpt s)) (PML4E 0x400000))) PF_SYSTEM <> 0).
  { change (entry (proot (kpt s)) (PML4E 0x400000)) with (slot1 (proot (kpt s)) 0x400000).
    rewrite H1. vm_compute. discriminate. }
  split; [exact Hsys|]. split; [exact Hl|].
  split; [apply add_pte_system_calls_fatal; exact Hsys|].
  split; [exact Hd|].
  rewrite Hz in Hf.
  eexists. split; [apply add_pte_writes_leaf; [exact Hf | exact Hp]|].
  rewrite H4. cbn [mem set_mem]. unfold load, store. rewrite Z.eqb_refl.
  vm_compute. reflexivity.
Qed.

(** The kernel image at its link address, and a handler stored for
    vector 0xff with [isr_set]. *)
Lemma add_pte_past_fatal_witness :
  exists s0 b,
    page_init 64 boot_state = Ok tt s0 /\
    Interrupt.interrupts_init 0x301100 0x301180 256 (fun _ => 0) = Some b /\
    let b' := Interrupt.isr_set 0xff 0x302000 b in
    let s := Kmain.after_interrupts_init b' s0 in
    let pflags := flags_of [PF_PRESENT; PF_RW] in
    Z.land (load (mem s) (entry (proot (kpt s)) (PML4E 0x400000))) PF_SYSTEM <> 0 /\
    load (mem s) 0x23000 = 0x400303 /\
    Paging.add_pte 1 (kpt s) 0x400000 0x5000 pflags 0 s = Fatal s /\
    (forall r mx fr, Interrupt.dispatch 0x301100 0x301180 b' 0xff r mx fr = Some 0) /\
    exists s',
      PagingIrq.add_pte 1 (kpt s) 0x400000 0x5000 pflags 0 s = Ok (kpt s) s' /\
      load (mem s') 0x23000 = 0x5003.
Proof.
  assert (Hs : Forall (fun p : Z * Z => 0 <= fst p < 256) [(0xff, 0x302000)]).
  { constructor; [cbn [fst]; lia | constructor]. }
  exact (add_pte_past_fatal 0x301100 0x301180 256 (fun _ => 0) [(0xff, 0x302000)]
           ltac:(lia) ltac:(lia) ltac:(lia) (le_n 256) Hs).
Defined.

End PagingIrqFacts.
